(** * dm-crypt (drivers/md/dm-crypt.c): a shallow embedding and its properties

    The development follows the layout of the driver:
    - [Bytes]: fixed-width integers, endianness helpers and byte buffers;
    - [IV]: the per-sector IV generators and their constructors;
    - [Convert]: the cipher request builders, [crypt_convert] and the
      completion callback, as an interleaving state machine;
    - [WriteTree]: the sector-ordered write tree and the write thread;
    - [Map]: [crypt_map];
    - [Key]: the message interface, key set / key wipe and resume.

    Integers of the C code are [Z] with the wrap-around written out; byte
    buffers are [list Z] with one byte per element; a memory access outside
    a buffer makes the function return [None]. *)

From Stdlib Require Import ZArith List Lia Bool Permutation Sorted.
From Stdlib Require String Ascii.
Import ListNotations.
Import String.StringSyntax.
Delimit Scope string_scope with string.
Open Scope Z_scope.

(** ** Errno values and fixed-width arithmetic *)

Definition EIO : Z := 5.
Definition EAGAIN : Z := 11.
Definition ENOMEM : Z := 12.
Definition EBUSY : Z := 16.
Definition EINVAL : Z := 22.
Definition EBADMSG : Z := 74.
Definition EINPROGRESS : Z := 115.
Definition EKEYREVOKED : Z := 128.

Definition SECTOR_SHIFT : Z := 9.

Definition wrap32 (x : Z) : Z := x mod 2 ^ 32.
Definition wrap64 (x : Z) : Z := x mod 2 ^ 64.

(** Data direction of a bio, [bio_data_dir]. *)
Inductive rw := READ | WRITE.

Definition rw_eqb (a b : rw) : bool :=
  match a, b with
  | READ, READ | WRITE, WRITE => true
  | _, _ => false
  end.

Module Bytes.

(** [n] bytes of [v], least significant first. *)
Fixpoint le_bytes (n : nat) (v : Z) : list Z :=
  match n with
  | O => []
  | S n' => (v mod 256) :: le_bytes n' (v / 256)
  end.

Fixpoint le_decode (bs : list Z) : Z :=
  match bs with
  | [] => 0
  | b :: bs' => b + 256 * le_decode bs'
  end.

Definition cpu_to_le32 (v : Z) : list Z := le_bytes 4 v.
Definition cpu_to_le64 (v : Z) : list Z := le_bytes 8 v.
Definition cpu_to_be64 (v : Z) : list Z := rev (le_bytes 8 v).

(** Store [bs] at offset [off] of [buf]; [None] when the store leaves the
    buffer. *)
Definition buf_write (buf : list Z) (off : Z) (bs : list Z) : option (list Z) :=
  if (0 <=? off) && (off + Z.of_nat (length bs) <=? Z.of_nat (length buf))
  then Some (firstn (Z.to_nat off) buf ++ bs
             ++ skipn (Z.to_nat off + length bs) buf)
  else None.

(** [memset(buf + off, c, n)]. The bound is tested before the fill is built. *)
Definition memset (buf : list Z) (off c n : Z) : option (list Z) :=
  if (0 <=? off) && (0 <=? n) && (off + n <=? Z.of_nat (length buf))
  then buf_write buf off (repeat c (Z.to_nat n))
  else None.

(** [n] bytes of [buf] from offset [off]; [None] when the read leaves the
    buffer. *)
Definition buf_read (buf : list Z) (off n : Z) : option (list Z) :=
  if (0 <=? off) && (0 <=? n) && (off + n <=? Z.of_nat (length buf))
  then Some (firstn (Z.to_nat n) (skipn (Z.to_nat off) buf))
  else None.

Fixpoint xor_bytes (a b : list Z) : list Z :=
  match a, b with
  | x :: a', y :: b' => Z.lxor x y :: xor_bytes a' b'
  | _, _ => []
  end.

(** [crypto_xor_cpy(dst + doff, src1 + off1, src2 + off2, n)]. *)
Definition crypto_xor_cpy (dst : list Z) (doff : Z) (src1 : list Z) (off1 : Z)
    (src2 : list Z) (off2 : Z) (n : Z) : option (list Z) :=
  match buf_read src1 off1 n, buf_read src2 off2 n with
  | Some a, Some b => buf_write dst doff (xor_bytes a b)
  | _, _ => None
  end.

(** [crypto_xor(dst + doff, src + soff, n)]. *)
Definition crypto_xor (dst : list Z) (doff : Z) (src : list Z) (soff : Z)
    (n : Z) : option (list Z) :=
  crypto_xor_cpy dst doff dst doff src soff n.

Lemma le_bytes_length n v : length (le_bytes n v) = n.
Proof.
  revert v; induction n as [|n IH]; intros v; simpl; [reflexivity|].
  now rewrite IH.
Qed.

Lemma le_decode_le_bytes n v :
  le_decode (le_bytes n v) = v mod 256 ^ Z.of_nat n.
Proof.
  revert v; induction n as [|n IH]; intros v.
  - simpl. now rewrite Z.mod_1_r.
  - cbn [le_bytes le_decode]. rewrite IH.
    rewrite Nat2Z.inj_succ, Z.pow_succ_r by lia.
    rewrite Z.rem_mul_r by lia. reflexivity.
Qed.

Lemma le_bytes_inj n v w :
  0 <= v < 256 ^ Z.of_nat n -> 0 <= w < 256 ^ Z.of_nat n ->
  le_bytes n v = le_bytes n w -> v = w.
Proof.
  intros Hv Hw E.
  apply (f_equal le_decode) in E.
  rewrite !le_decode_le_bytes in E.
  now rewrite !Z.mod_small in E by assumption.
Qed.

Lemma cpu_to_le32_inj v w :
  0 <= v < 2 ^ 32 -> 0 <= w < 2 ^ 32 -> cpu_to_le32 v = cpu_to_le32 w -> v = w.
Proof. intros; eapply (le_bytes_inj 4); eauto. Qed.

Lemma cpu_to_le64_inj v w :
  0 <= v < 2 ^ 64 -> 0 <= w < 2 ^ 64 -> cpu_to_le64 v = cpu_to_le64 w -> v = w.
Proof. intros; eapply (le_bytes_inj 8); eauto. Qed.

Lemma cpu_to_be64_inj v w :
  0 <= v < 2 ^ 64 -> 0 <= w < 2 ^ 64 -> cpu_to_be64 v = cpu_to_be64 w -> v = w.
Proof.
  unfold cpu_to_be64; intros Hv Hw E.
  apply (f_equal (@rev Z)) in E. rewrite !rev_involutive in E.
  eapply (le_bytes_inj 8); eauto.
Qed.

Lemma buf_write_length buf off bs buf' :
  buf_write buf off bs = Some buf' -> length buf' = length buf.
Proof.
  unfold buf_write.
  destruct ((0 <=? off) && _) eqn:E; [|discriminate].
  apply andb_true_iff in E as [H0 H1].
  apply Z.leb_le in H0, H1.
  intros [= <-]. rewrite !length_app, length_firstn, length_skipn. lia.
Qed.

(** Writing a whole buffer from its start forgets the old contents. *)
Lemma buf_write_all buf bs :
  length bs = length buf -> buf_write buf 0 bs = Some bs.
Proof.
  intros L. unfold buf_write. rewrite L.
  replace (0 + Z.of_nat (length buf) <=? Z.of_nat (length buf)) with true
    by (symmetry; apply Z.leb_le; lia).
  simpl. rewrite skipn_all2 by lia. now rewrite app_nil_r.
Qed.

Lemma memset_all buf c :
  memset buf 0 c (Z.of_nat (length buf)) = Some (repeat c (length buf)).
Proof.
  unfold memset.
  replace (0 + Z.of_nat (length buf) <=? Z.of_nat (length buf)) with true
    by (symmetry; apply Z.leb_le; lia).
  replace (0 <=? Z.of_nat (length buf)) with true
    by (symmetry; apply Z.leb_le; lia).
  simpl. rewrite Nat2Z.id. apply buf_write_all. apply repeat_length.
Qed.

End Bytes.

(** * IV generators (crypt_iv_*_gen) and their constructors *)

Module IV.
Import Bytes.

Notation "x <- e ;; k" := (match e with Some x => k | None => None end)
  (at level 61, e at next level, right associativity).

Inductive iv_mode :=
  plain | plain64 | plain64be | essiv | benbi | null | lmk | tcw | random.

(** A crypto handle as the constructors see it: NULL, [ERR_PTR(e)] or a
    live transform. *)
Inductive tfm_ptr := tfm_null | tfm_err (e : Z) | tfm_ok.

(** [cc->iv_gen_private], a C union: one member is in use at a time;
    [priv_zero] is the union as [kzalloc] leaves it. *)
Inductive iv_gen_private_u :=
| priv_zero
| priv_benbi (shift : Z)
| priv_lmk (hash_tfm : tfm_ptr) (seed : option (list Z))
| priv_tcw (crc32_tfm : tfm_ptr) (iv_seed whitening : option (list Z)).

(** The fields of [struct crypt_config] the IV code reads and writes;
    [blocksize] is [crypto_skcipher_blocksize(any_tfm(cc))]. *)
Record crypt_config := {
  iv_gen_ops : option iv_mode;
  iv_gen_private : iv_gen_private_u;
  iv_size : Z;
  sector_size : Z;
  key_size : Z;
  key_parts : Z;
  tfms_count : Z;
  blocksize : Z
}.

Definition set_private (cc : crypt_config) (p : iv_gen_private_u) : crypt_config :=
  {| iv_gen_ops := iv_gen_ops cc; iv_gen_private := p; iv_size := iv_size cc;
     sector_size := sector_size cc; key_size := key_size cc;
     key_parts := key_parts cc; tfms_count := tfms_count cc;
     blocksize := blocksize cc |}.

(** What a generator needs of [struct dm_crypt_request]: the IV sector, the
    direction of [dmreq->ctx->bio_in], and the sector's bytes behind
    [crypt_get_sg_data(cc, dmreq->sg_in)]. *)
Record dm_crypt_request := {
  iv_sector : Z;
  bio_in_dir : rw;
  sg_in_data : list Z
}.

(** Result of a generator: its return value, the IV buffer and the input
    sector (tcw removes the whitening in place on reads). *)
Record gen_out := { g_ret : Z; g_iv : list Z; g_data : list Z }.

Definition LMK_SEED_SIZE : Z := 64.
Definition TCW_WHITENING_SIZE : Z := 16.
Definition MD5_HASH_WORDS : nat := 4.

Definition crypt_iv_plain_gen (cc : crypt_config) (iv : list Z)
    (dmreq : dm_crypt_request) : option gen_out :=
  iv1 <- memset iv 0 0 (iv_size cc) ;;
  iv2 <- buf_write iv1 0 (cpu_to_le32 (Z.land (iv_sector dmreq) 0xffffffff)) ;;
  Some {| g_ret := 0; g_iv := iv2; g_data := sg_in_data dmreq |}.

Definition crypt_iv_plain64_gen (cc : crypt_config) (iv : list Z)
    (dmreq : dm_crypt_request) : option gen_out :=
  iv1 <- memset iv 0 0 (iv_size cc) ;;
  iv2 <- buf_write iv1 0 (cpu_to_le64 (iv_sector dmreq)) ;;
  Some {| g_ret := 0; g_iv := iv2; g_data := sg_in_data dmreq |}.

Definition crypt_iv_plain64be_gen (cc : crypt_config) (iv : list Z)
    (dmreq : dm_crypt_request) : option gen_out :=
  iv1 <- memset iv 0 0 (iv_size cc) ;;
  iv2 <- buf_write iv1 (wrap64 (iv_size cc - 8)) (cpu_to_be64 (iv_sector dmreq)) ;;
  Some {| g_ret := 0; g_iv := iv2; g_data := sg_in_data dmreq |}.

Definition ilog2 (n : Z) : Z := if n =? 0 then -1 else Z.log2 n.

(** Result of an IV constructor: return value, [ti->error], the
    configuration, and the allocations and releases it performed. *)
Inductive alloc_ev :=
| Alloc_shash (name : String.string)
| Kzalloc (n : Z)
| Free_shash
| Kzfree.

Record ctr_result := {
  c_ret : Z;
  c_error : option String.string;
  c_cc : crypt_config;
  c_allocs : list alloc_ev
}.

Definition crypt_iv_benbi_ctr (cc : crypt_config) : ctr_result :=
  let bs := blocksize cc in
  let log := ilog2 bs in
  if negb (Z.shiftl 1 log =? bs) then
    {| c_ret := - EINVAL;
       c_error := Some "cypher blocksize is not a power of 2"%string;
       c_cc := cc; c_allocs := [] |}
  else if 9 <? log then
    {| c_ret := - EINVAL; c_error := Some "cypher blocksize is > 512"%string;
       c_cc := cc; c_allocs := [] |}
  else
    {| c_ret := 0; c_error := None;
       c_cc := set_private cc (priv_benbi (9 - log)); c_allocs := [] |}.

Definition crypt_iv_benbi_gen (cc : crypt_config) (iv : list Z)
    (dmreq : dm_crypt_request) : option gen_out :=
  match iv_gen_private cc with
  | priv_benbi shift =>
      iv1 <- memset iv 0 0 (wrap64 (iv_size cc - 8)) ;;
      let val := cpu_to_be64 (wrap64 (wrap64 (Z.shiftl (iv_sector dmreq) shift) + 1)) in
      iv2 <- buf_write iv1 (wrap64 (iv_size cc - 8)) val ;;
      Some {| g_ret := 0; g_iv := iv2; g_data := sg_in_data dmreq |}
  | _ => None
  end.

Definition crypt_iv_null_gen (cc : crypt_config) (iv : list Z)
    (dmreq : dm_crypt_request) : option gen_out :=
  iv1 <- memset iv 0 0 (iv_size cc) ;;
  Some {| g_ret := 0; g_iv := iv1; g_data := sg_in_data dmreq |}.

(** [get_random_bytes(iv, cc->iv_size)]: [rnd] is what the random source
    hands out on this call. *)
Definition crypt_iv_random_gen (cc : crypt_config) (iv : list Z)
    (dmreq : dm_crypt_request) (rnd : list Z) : option gen_out :=
  src <- buf_read rnd 0 (iv_size cc) ;;
  iv1 <- buf_write iv 0 src ;;
  Some {| g_ret := 0; g_iv := iv1; g_data := sg_in_data dmreq |}.

(** *** lmk and tcw constructors *)

Record alloc_env := {
  alloc_shash : tfm_ptr;      (* what crypto_alloc_shash returns *)
  kzalloc_first : bool;       (* first kzalloc succeeds *)
  kzalloc_second : bool       (* second kzalloc succeeds *)
}.

Definition lmk_view (p : iv_gen_private_u) : tfm_ptr * option (list Z) :=
  match p with
  | priv_lmk h s => (h, s)
  | _ => (tfm_null, None)
  end.

Definition tcw_view (p : iv_gen_private_u)
  : tfm_ptr * option (list Z) * option (list Z) :=
  match p with
  | priv_tcw c s w => (c, s, w)
  | _ => (tfm_null, None, None)
  end.

Definition free_tfm (h : tfm_ptr) : list alloc_ev :=
  match h with tfm_ok => [Free_shash] | _ => [] end.

Definition kzfree (p : option (list Z)) : list alloc_ev :=
  match p with Some _ => [Kzfree] | None => [] end.

Definition crypt_iv_lmk_dtr (cc : crypt_config) : crypt_config * list alloc_ev :=
  let '(h, s) := lmk_view (iv_gen_private cc) in
  (set_private cc (priv_lmk tfm_null None), free_tfm h ++ kzfree s).

Definition crypt_iv_lmk_ctr (cc : crypt_config) (env : alloc_env) : ctr_result :=
  if negb (sector_size cc =? Z.shiftl 1 SECTOR_SHIFT) then
    {| c_ret := - EINVAL; c_error := Some "Unsupported sector size for LMK"%string;
       c_cc := cc; c_allocs := [] |}
  else
    let seed0 := snd (lmk_view (iv_gen_private cc)) in
    let h := alloc_shash env in
    let cc1 := set_private cc (priv_lmk h seed0) in
    match h with
    | tfm_err e =>
        {| c_ret := e; c_error := Some "Error initializing LMK hash"%string;
           c_cc := cc1; c_allocs := [] |}
    | _ =>
        if key_parts cc =? tfms_count cc then
          {| c_ret := 0; c_error := None;
             c_cc := set_private cc (priv_lmk h None);
             c_allocs := [Alloc_shash "md5"%string] |}
        else if kzalloc_first env then
          {| c_ret := 0; c_error := None;
             c_cc := set_private cc
                       (priv_lmk h (Some (repeat 0 (Z.to_nat LMK_SEED_SIZE))));
             c_allocs := [Alloc_shash "md5"%string; Kzalloc LMK_SEED_SIZE] |}
        else
          let '(cc2, frees) := crypt_iv_lmk_dtr (set_private cc (priv_lmk h None)) in
          {| c_ret := - ENOMEM;
             c_error := Some "Error kmallocing seed storage in LMK"%string;
             c_cc := cc2; c_allocs := Alloc_shash "md5"%string :: frees |}
    end.

Definition crypt_iv_tcw_dtr (cc : crypt_config) : crypt_config * list alloc_ev :=
  let '(c, s, w) := tcw_view (iv_gen_private cc) in
  (set_private cc (priv_tcw tfm_null None None),
   kzfree s ++ kzfree w ++ free_tfm c).

Definition kzalloc (ok : bool) (n : Z) : option (list Z) * list alloc_ev :=
  if ok then (Some (repeat 0 (Z.to_nat n)), [Kzalloc n]) else (None, []).

Definition crypt_iv_tcw_ctr (cc : crypt_config) (env : alloc_env) : ctr_result :=
  if negb (sector_size cc =? Z.shiftl 1 SECTOR_SHIFT) then
    {| c_ret := - EINVAL; c_error := Some "Unsupported sector size for TCW"%string;
       c_cc := cc; c_allocs := [] |}
  else if key_size cc <=? wrap32 (iv_size cc + TCW_WHITENING_SIZE) then
    {| c_ret := - EINVAL; c_error := Some "Wrong key size for TCW"%string;
       c_cc := cc; c_allocs := [] |}
  else
    let '(_, s0, w0) := tcw_view (iv_gen_private cc) in
    let c := alloc_shash env in
    match c with
    | tfm_err e =>
        {| c_ret := e; c_error := Some "Error initializing CRC32 in TCW"%string;
           c_cc := set_private cc (priv_tcw c s0 w0); c_allocs := [] |}
    | _ =>
        let '(s, a1) := kzalloc (kzalloc_first env) (iv_size cc) in
        let '(w, a2) := kzalloc (kzalloc_second env) TCW_WHITENING_SIZE in
        let cc1 := set_private cc (priv_tcw c s w) in
        match s, w with
        | Some _, Some _ =>
            {| c_ret := 0; c_error := None; c_cc := cc1;
               c_allocs := Alloc_shash "crc32"%string :: a1 ++ a2 |}
        | _, _ =>
            let '(cc2, frees) := crypt_iv_tcw_dtr cc1 in
            {| c_ret := - ENOMEM;
               c_error := Some "Error allocating seed storage in TCW"%string;
               c_cc := cc2;
               c_allocs := Alloc_shash "crc32"%string :: a1 ++ a2 ++ frees |}
        end
    end.

(** *** Generators that call into the crypto API

    The crypto API is not part of the driver; its entry points are the
    parameters of this section: the ESSIV block cipher under its salt key
    ([cc->iv_private]), and the md5 and crc32 synchronous hashes, each call
    returning an error code and the new descriptor state. *)

Section Crypto.

Variable essiv_encrypt_one : list Z -> list Z.
Variable md5_desc : Type.
Variable md5_init : Z * md5_desc.
Variable md5_update : md5_desc -> list Z -> Z * md5_desc.
Variable md5_export : md5_desc -> Z * list Z.
Variable crc_desc : Type.
Variable crc32_init : Z * crc_desc.
Variable crc32_update : crc_desc -> list Z -> Z * crc_desc.
Variable crc32_final : crc_desc -> Z * list Z.

Definition crypt_iv_essiv_gen (cc : crypt_config) (iv : list Z)
    (dmreq : dm_crypt_request) : option gen_out :=
  iv1 <- memset iv 0 0 (iv_size cc) ;;
  iv2 <- buf_write iv1 0 (cpu_to_le64 (iv_sector dmreq)) ;;
  iv3 <- buf_write iv2 0 (essiv_encrypt_one iv2) ;;
  Some {| g_ret := 0; g_iv := iv3; g_data := sg_in_data dmreq |}.

(** [crypt_iv_lmk_one]: returns the error code and the IV buffer. *)
Definition crypt_iv_lmk_one (cc : crypt_config) (iv : list Z)
    (dmreq : dm_crypt_request) (data : list Z) : option (Z * list Z) :=
  let seed := snd (lmk_view (iv_gen_private cc)) in
  let '(r0, d0) := md5_init in
  if negb (r0 =? 0) then Some (r0, iv) else
  step1 <- match seed with
           | Some sd => s <- buf_read sd 0 LMK_SEED_SIZE ;; Some (md5_update d0 s)
           | None => Some (0, d0)
           end ;;
  let '(r1, d1) := step1 in
  if negb (r1 =? 0) then Some (r1, iv) else
  blocks <- buf_read data 16 (16 * 31) ;;
  let '(r2, d2) := md5_update d1 blocks in
  if negb (r2 =? 0) then Some (r2, iv) else
  let s := iv_sector dmreq in
  let buf :=
    cpu_to_le32 (Z.land s 0xFFFFFFFF)
    ++ cpu_to_le32 (Z.lor (Z.land (Z.shiftr s 32) 0x00FFFFFF) 0x80000000)
    ++ cpu_to_le32 4024
    ++ cpu_to_le32 0 in
  let '(r3, d3) := md5_update d2 buf in
  if negb (r3 =? 0) then Some (r3, iv) else
  let '(r4, hash) := md5_export d3 in
  if negb (r4 =? 0) then Some (r4, iv) else
  let hash_bytes := concat (map cpu_to_le32 (firstn MD5_HASH_WORDS hash)) in
  src <- buf_read hash_bytes 0 (iv_size cc) ;;
  iv1 <- buf_write iv 0 src ;;
  Some (0, iv1).

Definition crypt_iv_lmk_gen (cc : crypt_config) (iv : list Z)
    (dmreq : dm_crypt_request) : option gen_out :=
  if rw_eqb (bio_in_dir dmreq) WRITE then
    res <- crypt_iv_lmk_one cc iv dmreq (sg_in_data dmreq) ;;
    Some {| g_ret := fst res; g_iv := snd res; g_data := sg_in_data dmreq |}
  else
    iv1 <- memset iv 0 0 (iv_size cc) ;;
    Some {| g_ret := 0; g_iv := iv1; g_data := sg_in_data dmreq |}.

(** One round of the loop of [crypt_iv_tcw_whitening]: crc32 of the 32-bit
    part at [4 * i], written back in place. *)
Definition tcw_crc_round (buf : list Z) (i : Z) : option (Z * list Z) :=
  let '(r0, d0) := crc32_init in
  if negb (r0 =? 0) then Some (r0, buf) else
  part <- buf_read buf (i * 4) 4 ;;
  let '(r1, d1) := crc32_update d0 part in
  if negb (r1 =? 0) then Some (r1, buf) else
  let '(r2, out) := crc32_final d1 in
  if negb (r2 =? 0) then Some (r2, buf) else
  out4 <- buf_read out 0 4 ;;
  buf' <- buf_write buf (i * 4) out4 ;;
  Some (0, buf').

Fixpoint tcw_crc_rounds (buf : list Z) (idxs : list Z) : option (Z * list Z) :=
  match idxs with
  | [] => Some (0, buf)
  | i :: rest =>
      res <- tcw_crc_round buf i ;;
      if negb (fst res =? 0) then Some res else tcw_crc_rounds (snd res) rest
  end.

Fixpoint tcw_apply (data buf : list Z) (idxs : list Z) : option (list Z) :=
  match idxs with
  | [] => Some data
  | i :: rest => d <- crypto_xor data (i * 8) buf 0 8 ;; tcw_apply d buf rest
  end.

Definition crypt_iv_tcw_whitening (cc : crypt_config)
    (dmreq : dm_crypt_request) (data : list Z) : option (Z * list Z) :=
  let '(_, _, wh) := tcw_view (iv_gen_private cc) in
  whitening <- wh ;;
  let sector := cpu_to_le64 (iv_sector dmreq) in
  let buf0 := repeat 0 (Z.to_nat TCW_WHITENING_SIZE) in
  buf1 <- crypto_xor_cpy buf0 0 whitening 0 sector 0 8 ;;
  buf2 <- crypto_xor_cpy buf1 8 whitening 8 sector 0 8 ;;
  res <- tcw_crc_rounds buf2 [0; 1; 2; 3] ;;
  let '(r, buf3) := res in
  if negb (r =? 0) then Some (r, data) else
  buf4 <- crypto_xor buf3 0 buf3 12 4 ;;
  buf5 <- crypto_xor buf4 4 buf4 8 4 ;;
  data' <- tcw_apply data buf5
             (map Z.of_nat (seq 0 (Z.to_nat (Z.shiftl 1 SECTOR_SHIFT / 8)))) ;;
  Some (r, data').

Definition crypt_iv_tcw_gen (cc : crypt_config) (iv : list Z)
    (dmreq : dm_crypt_request) : option gen_out :=
  let '(_, sd, _) := tcw_view (iv_gen_private cc) in
  let sector := cpu_to_le64 (iv_sector dmreq) in
  res <- (if rw_eqb (bio_in_dir dmreq) WRITE then Some (0, sg_in_data dmreq)
          else crypt_iv_tcw_whitening cc dmreq (sg_in_data dmreq)) ;;
  iv_seed <- sd ;;
  iv1 <- crypto_xor_cpy iv 0 iv_seed 0 sector 0 8 ;;
  iv2 <- (if 8 <? iv_size cc
          then crypto_xor_cpy iv1 8 iv_seed 8 sector 0 (wrap32 (iv_size cc - 8))
          else Some iv1) ;;
  Some {| g_ret := fst res; g_iv := iv2; g_data := snd res |}.

(** [cc->iv_gen_ops->generator(cc, iv, dmreq)]. *)
Definition generator (m : iv_mode) (cc : crypt_config) (iv : list Z)
    (dmreq : dm_crypt_request) (rnd : list Z) : option gen_out :=
  match m with
  | plain => crypt_iv_plain_gen cc iv dmreq
  | plain64 => crypt_iv_plain64_gen cc iv dmreq
  | plain64be => crypt_iv_plain64be_gen cc iv dmreq
  | essiv => crypt_iv_essiv_gen cc iv dmreq
  | benbi => crypt_iv_benbi_gen cc iv dmreq
  | null => crypt_iv_null_gen cc iv dmreq
  | lmk => crypt_iv_lmk_gen cc iv dmreq
  | tcw => crypt_iv_tcw_gen cc iv dmreq
  | random => crypt_iv_random_gen cc iv dmreq rnd
  end.

End Crypto.

Arguments crypt_iv_lmk_one {md5_desc}.
Arguments crypt_iv_lmk_gen {md5_desc}.
Arguments tcw_crc_round {crc_desc}.
Arguments tcw_crc_rounds {crc_desc}.
Arguments crypt_iv_tcw_whitening {crc_desc}.
Arguments crypt_iv_tcw_gen {crc_desc}.
Arguments generator _ {md5_desc} _ _ _ {crc_desc}.

(** *** Buffer facts used by the generators *)

Lemma buf_write_at buf k bs :
  (k + length bs <= length buf)%nat ->
  buf_write buf (Z.of_nat k) bs
  = Some (firstn k buf ++ bs ++ skipn (k + length bs) buf).
Proof.
  intros H. unfold buf_write.
  replace (0 <=? Z.of_nat k) with true by (symmetry; apply Z.leb_le; lia).
  replace (Z.of_nat k + Z.of_nat (length bs) <=? Z.of_nat (length buf))
    with true by (symmetry; apply Z.leb_le; lia).
  simpl. now rewrite Nat2Z.id.
Qed.

Lemma buf_write_none_len a b off bs :
  length a = length b -> buf_write a off bs = None -> buf_write b off bs = None.
Proof.
  unfold buf_write. intros ->.
  now destruct ((0 <=? off) && _).
Qed.

Lemma memset_prefix buf c k :
  (k <= length buf)%nat ->
  memset buf 0 c (Z.of_nat k) = Some (repeat c k ++ skipn k buf).
Proof.
  intros H. unfold memset.
  replace (0 <=? Z.of_nat k) with true by (symmetry; apply Z.leb_le; lia).
  replace (0 + Z.of_nat k <=? Z.of_nat (length buf)) with true
    by (symmetry; apply Z.leb_le; lia).
  simpl. rewrite Nat2Z.id.
  change 0 with (Z.of_nat 0). rewrite buf_write_at by (rewrite repeat_length; lia).
  now rewrite repeat_length.
Qed.

Lemma buf_read_length buf off n r :
  buf_read buf off n = Some r -> Z.of_nat (length r) = n.
Proof.
  unfold buf_read.
  destruct ((0 <=? off) && (0 <=? n) && _) eqn:E; [|discriminate].
  apply andb_true_iff in E as [E H2]. apply andb_true_iff in E as [H0 H1].
  apply Z.leb_le in H0, H1, H2.
  intros [= <-]. rewrite length_firstn, length_skipn. lia.
Qed.

Lemma xor_bytes_length a b :
  length (xor_bytes a b) = Nat.min (length a) (length b).
Proof.
  revert b; induction a as [|x a IH]; intros [|y b]; simpl; auto.
Qed.

Lemma skipn_repeat {A} (c : A) k n : skipn k (repeat c n) = repeat c (n - k).
Proof.
  revert n; induction k as [|k IH]; intros [|n]; simpl; auto.
Qed.

(** A store over zeroed memory, at the start and at the end. *)
Lemma buf_write_zero_head n bs :
  (length bs <= n)%nat ->
  buf_write (repeat 0 n) 0 bs = Some (bs ++ repeat 0 (n - length bs)).
Proof.
  intros H. change 0 with (Z.of_nat 0) at 2.
  rewrite buf_write_at by (rewrite repeat_length; lia).
  simpl. f_equal. f_equal.
  rewrite skipn_repeat. reflexivity.
Qed.

Lemma buf_write_tail pre old bs :
  length old = length bs ->
  buf_write (pre ++ old) (Z.of_nat (length pre)) bs = Some (pre ++ bs).
Proof.
  intros H.
  rewrite buf_write_at by (rewrite length_app; lia).
  rewrite firstn_app, Nat.sub_diag, firstn_all. simpl. rewrite app_nil_r.
  rewrite skipn_all2 by (rewrite length_app; lia).
  now rewrite app_nil_r.
Qed.

Lemma wrap64_small x : 0 <= x < 2 ^ 64 -> wrap64 x = x.
Proof. intros; unfold wrap64; now apply Z.mod_small. Qed.

(** *** Closed forms of the sector-number generators *)

Section ClosedForms.

Variable cc : crypt_config.
Variable iv : list Z.
Variable dmreq : dm_crypt_request.
Hypothesis iv_len : Z.of_nat (length iv) = iv_size cc.

Lemma plain_gen_closed :
  4 <= iv_size cc ->
  crypt_iv_plain_gen cc iv dmreq
  = Some {| g_ret := 0;
            g_iv := cpu_to_le32 (Z.land (iv_sector dmreq) 0xffffffff)
                    ++ repeat 0 (length iv - 4);
            g_data := sg_in_data dmreq |}.
Proof.
  intros H. unfold crypt_iv_plain_gen.
  rewrite <- iv_len, memset_all.
  rewrite buf_write_zero_head by (unfold cpu_to_le32; rewrite le_bytes_length; lia).
  unfold cpu_to_le32 at 2. now rewrite le_bytes_length.
Qed.

Lemma plain64_gen_closed :
  8 <= iv_size cc ->
  crypt_iv_plain64_gen cc iv dmreq
  = Some {| g_ret := 0;
            g_iv := cpu_to_le64 (iv_sector dmreq) ++ repeat 0 (length iv - 8);
            g_data := sg_in_data dmreq |}.
Proof.
  intros H. unfold crypt_iv_plain64_gen.
  rewrite <- iv_len, memset_all.
  rewrite buf_write_zero_head by (unfold cpu_to_le64; rewrite le_bytes_length; lia).
  unfold cpu_to_le64 at 2. now rewrite le_bytes_length.
Qed.

Lemma be64_length v : length (cpu_to_be64 v) = 8%nat.
Proof. unfold cpu_to_be64. now rewrite length_rev, le_bytes_length. Qed.

Lemma tail_offset :
  8 <= iv_size cc < 2 ^ 32 -> wrap64 (iv_size cc - 8) = Z.of_nat (length iv - 8).
Proof.
  intros H. rewrite wrap64_small by lia. lia.
Qed.

Lemma plain64be_gen_closed :
  8 <= iv_size cc < 2 ^ 32 ->
  crypt_iv_plain64be_gen cc iv dmreq
  = Some {| g_ret := 0;
            g_iv := repeat 0 (length iv - 8) ++ cpu_to_be64 (iv_sector dmreq);
            g_data := sg_in_data dmreq |}.
Proof.
  intros H. unfold crypt_iv_plain64be_gen.
  rewrite tail_offset by assumption.
  rewrite <- iv_len, memset_all.
  replace (repeat 0 (length iv))
    with (repeat 0 (length iv - 8) ++ repeat 0 8)
    by (rewrite <- repeat_app; f_equal; lia).
  rewrite <- (repeat_length 0 (length iv - 8)) at 2.
  rewrite buf_write_tail by (now rewrite be64_length).
  reflexivity.
Qed.

Lemma benbi_gen_closed shift :
  8 <= iv_size cc < 2 ^ 32 ->
  iv_gen_private cc = priv_benbi shift ->
  crypt_iv_benbi_gen cc iv dmreq
  = Some {| g_ret := 0;
            g_iv := repeat 0 (length iv - 8)
                    ++ cpu_to_be64
                         (wrap64 (wrap64 (Z.shiftl (iv_sector dmreq) shift) + 1));
            g_data := sg_in_data dmreq |}.
Proof.
  intros H P. unfold crypt_iv_benbi_gen. rewrite P.
  rewrite tail_offset by assumption.
  rewrite memset_prefix by lia.
  rewrite <- (repeat_length 0 (length iv - 8)) at 3.
  rewrite buf_write_tail; [reflexivity|].
  rewrite be64_length, length_skipn. lia.
Qed.

Lemma null_gen_closed :
  crypt_iv_null_gen cc iv dmreq
  = Some {| g_ret := 0; g_iv := repeat 0 (length iv);
            g_data := sg_in_data dmreq |}.
Proof.
  unfold crypt_iv_null_gen. now rewrite <- iv_len, memset_all.
Qed.

End ClosedForms.

(** *** Independence from the old buffer contents and the random source *)

(** Two generator calls have the same outcome: both fault, or both return
    the same code and leave the same sector data, and on success the same
    IV. *)
Definition same_outcome (o1 o2 : option gen_out) : Prop :=
  match o1, o2 with
  | Some a, Some b =>
      g_ret a = g_ret b /\ g_data a = g_data b /\ (g_ret a = 0 -> g_iv a = g_iv b)
  | None, None => True
  | _, _ => False
  end.

Lemma same_outcome_refl o : same_outcome o o.
Proof. destruct o; simpl; auto. Qed.

Lemma buf_write_cases a b off bs :
  length a = length b ->
  (buf_write a off bs = None /\ buf_write b off bs = None)
  \/ exists k, off = Z.of_nat k /\ (k + length bs <= length a)%nat
       /\ buf_write a off bs = Some (firstn k a ++ bs ++ skipn (k + length bs) a)
       /\ buf_write b off bs = Some (firstn k b ++ bs ++ skipn (k + length bs) b).
Proof.
  intros L.
  destruct ((0 <=? off) && (off + Z.of_nat (length bs) <=? Z.of_nat (length a)))
    eqn:E.
  - right. pose proof E as E'.
    apply andb_true_iff in E' as [H0 H1]. apply Z.leb_le in H0, H1.
    exists (Z.to_nat off). rewrite Z2Nat.id by lia.
    split; [reflexivity|]. split; [lia|].
    split; unfold buf_write; [rewrite E | rewrite <- L, E]; reflexivity.
  - left. split; unfold buf_write; [rewrite E | rewrite <- L, E]; reflexivity.
Qed.

(** A store that covers the whole buffer leaves nothing of the old one. *)
Lemma buf_write_cover a b bs :
  length a = length b -> length bs = length a ->
  buf_write a 0 bs = Some bs /\ buf_write b 0 bs = Some bs.
Proof.
  intros L B. split; apply buf_write_all; congruence.
Qed.

Section Determinism.

Variable essiv_encrypt_one : list Z -> list Z.
Variable md5_desc : Type.
Variable md5_init : Z * md5_desc.
Variable md5_update : md5_desc -> list Z -> Z * md5_desc.
Variable md5_export : md5_desc -> Z * list Z.
Variable crc_desc : Type.
Variable crc32_init : Z * crc_desc.
Variable crc32_update : crc_desc -> list Z -> Z * crc_desc.
Variable crc32_final : crc_desc -> Z * list Z.

Variable cc : crypt_config.
Variable dmreq : dm_crypt_request.
Variables iv1 iv2 : list Z.
Hypothesis len1 : Z.of_nat (length iv1) = iv_size cc.
Hypothesis len2 : Z.of_nat (length iv2) = iv_size cc.

Let same_len : length iv1 = length iv2.
Proof. lia. Qed.

Lemma essiv_gen_indep :
  crypt_iv_essiv_gen essiv_encrypt_one cc iv1 dmreq
  = crypt_iv_essiv_gen essiv_encrypt_one cc iv2 dmreq.
Proof.
  unfold crypt_iv_essiv_gen.
  rewrite <- len1 at 1. rewrite <- len2 at 1.
  rewrite !memset_all. now rewrite same_len.
Qed.

Lemma lmk_one_indep data :
  match crypt_iv_lmk_one md5_init md5_update md5_export cc iv1 dmreq data,
        crypt_iv_lmk_one md5_init md5_update md5_export cc iv2 dmreq data with
  | Some (r1, v1), Some (r2, v2) => r1 = r2 /\ (r1 = 0 -> v1 = v2)
  | None, None => True
  | _, _ => False
  end.
Proof.
  unfold crypt_iv_lmk_one.
  destruct md5_init as [r0 d0].
  destruct (r0 =? 0) eqn:E0; cbn [negb];
    [|split; [reflexivity|intros ->; discriminate]].
  destruct (match snd (lmk_view (iv_gen_private cc)) with
            | Some sd => _ | None => _ end) as [[r1 d1]|]; [|exact I].
  destruct (r1 =? 0) eqn:E1; cbn [negb];
    [|split; [reflexivity|intros ->; discriminate]].
  destruct (buf_read data 16 (16 * 31)) as [blocks|]; [|exact I].
  destruct (md5_update d1 blocks) as [r2 d2].
  destruct (r2 =? 0) eqn:E2; cbn [negb];
    [|split; [reflexivity|intros ->; discriminate]].
  destruct (md5_update d2 _) as [r3 d3].
  destruct (r3 =? 0) eqn:E3; cbn [negb];
    [|split; [reflexivity|intros ->; discriminate]].
  destruct (md5_export d3) as [r4 hash].
  destruct (r4 =? 0) eqn:E4; cbn [negb];
    [|split; [reflexivity|intros ->; discriminate]].
  destruct (buf_read _ 0 (iv_size cc)) as [src|] eqn:R; [|exact I].
  apply buf_read_length in R.
  destruct (buf_write_cover iv1 iv2 src same_len) as [W1 W2]; [lia|].
  rewrite W1, W2. auto.
Qed.

Lemma lmk_gen_indep :
  same_outcome (crypt_iv_lmk_gen md5_init md5_update md5_export cc iv1 dmreq)
               (crypt_iv_lmk_gen md5_init md5_update md5_export cc iv2 dmreq).
Proof.
  unfold crypt_iv_lmk_gen.
  destruct (rw_eqb (bio_in_dir dmreq) WRITE).
  - pose proof (lmk_one_indep (sg_in_data dmreq)) as H.
    destruct (crypt_iv_lmk_one _ _ _ cc iv1 _ _) as [[r1 v1]|];
      destruct (crypt_iv_lmk_one _ _ _ cc iv2 _ _) as [[r2 v2]|];
      simpl in *; tauto.
  - rewrite <- len1 at 1. rewrite <- len2 at 1.
    rewrite !memset_all, same_len. apply same_outcome_refl.
Qed.

Lemma tcw_gen_indep :
  iv_size cc < 2 ^ 32 ->
  same_outcome
    (crypt_iv_tcw_gen crc32_init crc32_update crc32_final cc iv1 dmreq)
    (crypt_iv_tcw_gen crc32_init crc32_update crc32_final cc iv2 dmreq).
Proof.
  intros B. unfold crypt_iv_tcw_gen.
  destruct (tcw_view (iv_gen_private cc)) as [[c sd] wh].
  destruct (if rw_eqb _ _ then _ else _) as [[r data]|]; [|exact I].
  destruct sd as [iv_seed|]; [|exact I].
  unfold crypto_xor_cpy.
  destruct (buf_read iv_seed 0 8) as [a|] eqn:Ra; [|exact I].
  destruct (buf_read (cpu_to_le64 _) 0 8) as [b|] eqn:Rb; [|exact I].
  apply buf_read_length in Ra, Rb.
  assert (Lx : length (xor_bytes a b) = 8%nat)
    by (rewrite xor_bytes_length; lia).
  destruct (buf_write_cases iv1 iv2 0 (xor_bytes a b) same_len)
    as [[N1 N2]|(k & Hk & Hle & W1 & W2)].
  { rewrite N1, N2. exact I. }
  assert (k = 0%nat) by lia. subst k.
  rewrite W1, W2. cbn [firstn app Nat.add]. rewrite Lx.
  destruct (8 <? iv_size cc) eqn:E8.
  - apply Z.ltb_lt in E8.
    replace (wrap32 (iv_size cc - 8)) with (iv_size cc - 8)
      by (unfold wrap32; rewrite Z.mod_small; lia).
    destruct (buf_read iv_seed 8 _) as [a'|] eqn:Ra'; [|exact I].
    destruct (buf_read (cpu_to_le64 _) 0 (iv_size cc - 8)) as [b'|] eqn:Rb';
      [|exact I].
    apply buf_read_length in Ra', Rb'.
    assert (Ly : Z.of_nat (length (xor_bytes a' b')) = iv_size cc - 8)
      by (rewrite xor_bytes_length; lia).
    assert (T : forall old y, length old = length y ->
              buf_write (xor_bytes a b ++ old) 8 y = Some (xor_bytes a b ++ y)).
    { intros old y Ho. rewrite <- (buf_write_tail (xor_bytes a b) old y Ho).
      now rewrite Lx. }
    rewrite !T by (rewrite length_skipn; lia).
    cbn. auto.
  - apply Z.ltb_ge in E8.
    rewrite !skipn_all2 by lia. simpl. auto.
Qed.

(** Every generator but [random] is a function of the configuration and
    the request alone. *)
Lemma generator_indep m rnd1 rnd2 :
  m <> random -> iv_size cc < 2 ^ 32 ->
  same_outcome
    (generator essiv_encrypt_one md5_init md5_update md5_export
       crc32_init crc32_update crc32_final m cc iv1 dmreq rnd1)
    (generator essiv_encrypt_one md5_init md5_update md5_export
       crc32_init crc32_update crc32_final m cc iv2 dmreq rnd2).
Proof.
  intros Hm B.
  assert (M : forall c, memset iv1 0 c (iv_size cc) = memset iv2 0 c (iv_size cc)).
  { intros c. rewrite <- len1 at 1. rewrite <- len2 at 1.
    now rewrite !memset_all, same_len. }
  destruct m; cbn [generator]; try congruence.
  - unfold crypt_iv_plain_gen. rewrite M. apply same_outcome_refl.
  - unfold crypt_iv_plain64_gen. rewrite M. apply same_outcome_refl.
  - unfold crypt_iv_plain64be_gen. rewrite M. apply same_outcome_refl.
  - rewrite essiv_gen_indep. apply same_outcome_refl.
  - destruct (Z_lt_le_dec (iv_size cc) 8) as [Hs|Hs].
    + unfold crypt_iv_benbi_gen.
      destruct (iv_gen_private cc) as [|shift| |]; try exact I.
      assert (W : wrap64 (iv_size cc - 8) = iv_size cc - 8 + 2 ^ 64).
      { unfold wrap64. symmetry. apply (Z.mod_unique _ _ (-1)); lia. }
      assert (N : forall b, Z.of_nat (length b) = iv_size cc ->
                  memset b 0 0 (wrap64 (iv_size cc - 8)) = None).
      { intros b Lb. unfold memset. rewrite W, Lb.
        replace (0 + (iv_size cc - 8 + 2 ^ 64) <=? iv_size cc) with false
          by (symmetry; apply Z.leb_gt; lia).
        now rewrite andb_false_r. }
      rewrite !N by assumption. exact I.
    + unfold crypt_iv_benbi_gen.
      destruct (iv_gen_private cc) as [|shift| |] eqn:P; try exact I.
      fold (crypt_iv_benbi_gen cc iv1 dmreq).
      assert (G : forall b, Z.of_nat (length b) = iv_size cc ->
                  same_outcome (crypt_iv_benbi_gen cc b dmreq)
                    (crypt_iv_benbi_gen cc iv2 dmreq)).
      { intros b Lb.
        rewrite (benbi_gen_closed cc b dmreq Lb shift) by (auto; lia).
        rewrite (benbi_gen_closed cc iv2 dmreq len2 shift) by (auto; lia).
        cbn. replace (length b) with (length iv2) by lia. auto. }
      specialize (G iv1 len1). unfold crypt_iv_benbi_gen in G.
      now rewrite P in G.
  - unfold crypt_iv_null_gen. rewrite M. apply same_outcome_refl.
  - apply lmk_gen_indep.
  - now apply tcw_gen_indep.
Qed.

End Determinism.

(** *** The IV buffer keeps its size *)

Lemma memset_length buf off c n buf' :
  memset buf off c n = Some buf' -> length buf' = length buf.
Proof.
  unfold memset. destruct (_ && _); [apply buf_write_length|discriminate].
Qed.

Lemma xor_cpy_length dst doff s1 o1 s2 o2 n dst' :
  crypto_xor_cpy dst doff s1 o1 s2 o2 n = Some dst' -> length dst' = length dst.
Proof.
  unfold crypto_xor_cpy.
  destruct (buf_read s1 o1 n); [|discriminate].
  destruct (buf_read s2 o2 n); [|discriminate].
  apply buf_write_length.
Qed.

Ltac len_step :=
  match goal with
  | H : memset _ _ _ _ = Some _ |- _ => apply memset_length in H
  | H : buf_write _ _ _ = Some _ |- _ => apply buf_write_length in H
  | H : crypto_xor_cpy _ _ _ _ _ _ _ = Some _ |- _ => apply xor_cpy_length in H
  end.

Ltac split_match H :=
  repeat (match type of H with
          | context [match ?e with _ => _ end] => destruct e eqn:?
          end; try discriminate H).

Section FixedSize.

Variable essiv_encrypt_one : list Z -> list Z.
Variable md5_desc : Type.
Variable md5_init : Z * md5_desc.
Variable md5_update : md5_desc -> list Z -> Z * md5_desc.
Variable md5_export : md5_desc -> Z * list Z.
Variable crc_desc : Type.
Variable crc32_init : Z * crc_desc.
Variable crc32_update : crc_desc -> list Z -> Z * crc_desc.
Variable crc32_final : crc_desc -> Z * list Z.

Lemma lmk_one_length cc iv dmreq data r iv' :
  crypt_iv_lmk_one md5_init md5_update md5_export cc iv dmreq data
  = Some (r, iv') ->
  length iv' = length iv.
Proof.
  unfold crypt_iv_lmk_one. intros H.
  split_match H; inversion H; subst; repeat len_step; congruence.
Qed.

Lemma generator_length m cc iv dmreq rnd o :
  generator essiv_encrypt_one md5_init md5_update md5_export
    crc32_init crc32_update crc32_final m cc iv dmreq rnd = Some o ->
  length (g_iv o) = length iv.
Proof.
  destruct m; cbn [generator];
    unfold crypt_iv_plain_gen, crypt_iv_plain64_gen, crypt_iv_plain64be_gen,
      crypt_iv_essiv_gen, crypt_iv_benbi_gen, crypt_iv_null_gen,
      crypt_iv_lmk_gen, crypt_iv_tcw_gen, crypt_iv_random_gen; intros H.
  1-6, 9: split_match H; inversion H; subst; cbn [g_iv];
    repeat len_step; congruence.
  2: { split_match H; inversion H; subst; cbn [g_iv].
       all: match goal with
            | E : (if ?c then _ else _) = Some _ |- length ?x = _ =>
                destruct c; [|inversion E; subst]
            end.
       all: repeat len_step; congruence. }
  destruct (rw_eqb (bio_in_dir dmreq) WRITE).
  - destruct (crypt_iv_lmk_one _ _ _ cc iv dmreq _) as [[r v]|] eqn:E;
      [|discriminate].
    inversion H; subst; cbn. eapply lmk_one_length; eauto.
  - split_match H. inversion H; subst; cbn. len_step. congruence.
Qed.

End FixedSize.

(** *** Collision freedom of the sector-number generators *)

(** Sector numbers below this bound get pairwise distinct IVs. *)
Definition collision_free_below (m : iv_mode) (cc : crypt_config) : Z :=
  match m with
  | plain => 2 ^ 32
  | plain64 | plain64be => 2 ^ 64
  | benbi =>
      match iv_gen_private cc with
      | priv_benbi shift =>
          if (0 <=? shift) && (shift <=? 64) then 2 ^ (64 - shift) else 0
      | _ => 0
      end
  | _ => 0
  end.

Lemma wrap64_succ x :
  0 <= x < 2 ^ 64 -> wrap64 (x + 1) = if x =? 2 ^ 64 - 1 then 0 else x + 1.
Proof.
  intros H. unfold wrap64. destruct (x =? 2 ^ 64 - 1) eqn:E.
  - apply Z.eqb_eq in E. subst x. reflexivity.
  - apply Z.eqb_neq in E. apply Z.mod_small. lia.
Qed.

Lemma shiftl_in_range s shift :
  0 <= shift <= 64 -> 0 <= s < 2 ^ (64 - shift) ->
  0 <= Z.shiftl s shift < 2 ^ 64.
Proof.
  intros Hs H. rewrite Z.shiftl_mul_pow2 by lia.
  assert (P : 0 < 2 ^ shift) by (apply Z.pow_pos_nonneg; lia).
  replace (2 ^ 64) with (2 ^ (64 - shift) * 2 ^ shift)
    by (rewrite <- Z.pow_add_r by lia; f_equal; lia).
  split; [apply Z.mul_nonneg_nonneg; lia|].
  apply Z.mul_lt_mono_pos_r; lia.
Qed.

Lemma benbi_val_inj shift s1 s2 :
  0 <= shift <= 64 ->
  0 <= s1 < 2 ^ (64 - shift) -> 0 <= s2 < 2 ^ (64 - shift) ->
  wrap64 (wrap64 (Z.shiftl s1 shift) + 1)
  = wrap64 (wrap64 (Z.shiftl s2 shift) + 1) ->
  s1 = s2.
Proof.
  intros Hs H1 H2 E.
  pose proof (shiftl_in_range s1 shift Hs H1) as R1.
  pose proof (shiftl_in_range s2 shift Hs H2) as R2.
  rewrite !(wrap64_small (Z.shiftl _ _)) in E by assumption.
  rewrite !wrap64_succ in E by assumption.
  assert (A : Z.shiftl s1 shift = Z.shiftl s2 shift).
  { destruct (Z.shiftl s1 shift =? 2 ^ 64 - 1) eqn:E1;
      destruct (Z.shiftl s2 shift =? 2 ^ 64 - 1) eqn:E2;
      try apply Z.eqb_eq in E1; try apply Z.eqb_eq in E2; lia. }
  rewrite !Z.shiftl_mul_pow2 in A by lia.
  apply Z.mul_reg_r in A; [assumption|].
  apply Z.pow_nonzero; lia.
Qed.

Lemma land_u32 s : 0 <= s < 2 ^ 32 -> Z.land s 0xffffffff = s.
Proof.
  intros H. change 0xffffffff with (Z.ones 32).
  rewrite Z.land_ones by lia. now apply Z.mod_small.
Qed.

Lemma sector_iv_injective m cc d1 d2 iv1 iv2 :
  In m [plain; plain64; plain64be; benbi] ->
  8 <= iv_size cc < 2 ^ 32 ->
  Z.of_nat (length iv1) = iv_size cc -> Z.of_nat (length iv2) = iv_size cc ->
  0 <= iv_sector d1 < collision_free_below m cc ->
  0 <= iv_sector d2 < collision_free_below m cc ->
  iv_sector d1 <> iv_sector d2 ->
  forall gen : crypt_config -> list Z -> dm_crypt_request -> option gen_out,
  gen = match m with
        | plain => crypt_iv_plain_gen
        | plain64 => crypt_iv_plain64_gen
        | plain64be => crypt_iv_plain64be_gen
        | _ => crypt_iv_benbi_gen
        end ->
  exists o1 o2, gen cc iv1 d1 = Some o1 /\ gen cc iv2 d2 = Some o2
    /\ g_ret o1 = 0 /\ g_ret o2 = 0 /\ g_iv o1 <> g_iv o2.
Proof.
  intros Hm Hsz L1 L2 R1 R2 Hne gen ->.
  assert (LL : length iv1 = length iv2) by lia.
  destruct Hm as [<-|[<-|[<-|[<-|[]]]]]; cbn [collision_free_below] in R1, R2.
  - rewrite (plain_gen_closed cc iv1 d1 L1), (plain_gen_closed cc iv2 d2 L2)
      by lia.
    do 2 eexists. repeat split. cbn [g_iv]. rewrite LL. intros E.
    apply app_inv_tail in E. apply cpu_to_le32_inj in E.
    + rewrite !land_u32 in E by assumption. contradiction.
    + rewrite land_u32; assumption.
    + rewrite land_u32; assumption.
  - rewrite (plain64_gen_closed cc iv1 d1 L1), (plain64_gen_closed cc iv2 d2 L2)
      by lia.
    do 2 eexists. repeat split. cbn [g_iv]. rewrite LL. intros E.
    apply app_inv_tail in E. apply cpu_to_le64_inj in E; auto.
  - rewrite (plain64be_gen_closed cc iv1 d1 L1),
      (plain64be_gen_closed cc iv2 d2 L2) by lia.
    do 2 eexists. repeat split. cbn [g_iv]. rewrite LL. intros E.
    apply app_inv_head in E. apply cpu_to_be64_inj in E; auto.
  - destruct (iv_gen_private cc) as [|shift| |] eqn:P; try lia.
    destruct ((0 <=? shift) && (shift <=? 64)) eqn:B; [|lia].
    apply andb_true_iff in B as [B0 B1]. apply Z.leb_le in B0, B1.
    rewrite (benbi_gen_closed cc iv1 d1 L1 shift),
      (benbi_gen_closed cc iv2 d2 L2 shift) by (auto; lia).
    do 2 eexists. repeat split. cbn [g_iv]. rewrite LL. intros E.
    apply app_inv_head in E.
    apply cpu_to_be64_inj in E;
      try (unfold wrap64; apply Z.mod_pos_bound; lia).
    apply benbi_val_inj in E; auto.
Qed.

(** *** Properties of the IV generators *)

Section IVProperties.

Variable essiv_encrypt_one : list Z -> list Z.
Variable md5_desc : Type.
Variable md5_init : Z * md5_desc.
Variable md5_update : md5_desc -> list Z -> Z * md5_desc.
Variable md5_export : md5_desc -> Z * list Z.
Variable crc_desc : Type.
Variable crc32_init : Z * crc_desc.
Variable crc32_update : crc_desc -> list Z -> Z * crc_desc.
Variable crc32_final : crc_desc -> Z * list Z.

Let gen := generator essiv_encrypt_one md5_init md5_update md5_export
             crc32_init crc32_update crc32_final.

(** C4 (as amended). Under a configuration whose IV size is at least 8
    bytes (what [crypt_ctr_ivmode] sets up), every IV mode except [random]
    is deterministic: the outcome of [generate] depends neither on the
    previous contents of the IV buffer nor on the random source, and on
    success the IV is the same; the IV buffer keeps its size [iv_size] in
    every mode, [random] included; and distinct sector numbers get distinct
    IVs for [plain] on sectors below 2^32, for [plain64] and [plain64be] on
    all 64-bit sectors, and for [benbi] on sectors below 2^(64 - shift). *)
Theorem iv_generate_deterministic_collision_free (cc : crypt_config) :
  8 <= iv_size cc < 2 ^ 32 ->
  (forall m dmreq iv1 iv2 rnd1 rnd2,
      m <> random ->
      Z.of_nat (length iv1) = iv_size cc ->
      Z.of_nat (length iv2) = iv_size cc ->
      same_outcome (gen m cc iv1 dmreq rnd1) (gen m cc iv2 dmreq rnd2))
  /\ (forall m dmreq iv rnd o,
      Z.of_nat (length iv) = iv_size cc ->
      gen m cc iv dmreq rnd = Some o ->
      Z.of_nat (length (g_iv o)) = iv_size cc)
  /\ (forall m d1 d2 iv1 iv2 rnd1 rnd2,
      In m [plain; plain64; plain64be; benbi] ->
      Z.of_nat (length iv1) = iv_size cc ->
      Z.of_nat (length iv2) = iv_size cc ->
      0 <= iv_sector d1 < collision_free_below m cc ->
      0 <= iv_sector d2 < collision_free_below m cc ->
      iv_sector d1 <> iv_sector d2 ->
      exists o1 o2,
        gen m cc iv1 d1 rnd1 = Some o1 /\ gen m cc iv2 d2 rnd2 = Some o2
        /\ g_ret o1 = 0 /\ g_ret o2 = 0 /\ g_iv o1 <> g_iv o2).
Proof.
  intros Hsz. split; [|split].
  - intros m dmreq iv1 iv2 rnd1 rnd2 Hm L1 L2.
    apply generator_indep; auto; lia.
  - intros m dmreq iv rnd o L G.
    apply generator_length in G. lia.
  - intros m d1 d2 iv1 iv2 rnd1 rnd2 Hm L1 L2 R1 R2 Hne.
    pose proof (sector_iv_injective m cc d1 d2 iv1 iv2 Hm Hsz L1 L2 R1 R2 Hne)
      as Inj.
    destruct Hm as [<-|[<-|[<-|[<-|[]]]]]; unfold gen; cbn [generator];
      eapply Inj; reflexivity.
Qed.

End IVProperties.

Definition cc_aes16 (m : iv_mode) (p : iv_gen_private_u) : crypt_config :=
  {| iv_gen_ops := Some m; iv_gen_private := p; iv_size := 16;
     sector_size := 512; key_size := 32; key_parts := 1; tfms_count := 1;
     blocksize := 16 |}.

Definition req_at (s : Z) : dm_crypt_request :=
  {| iv_sector := s; bio_in_dir := WRITE; sg_in_data := repeat 0 512 |}.

(** C4, as the claim states it, fails for [plain]: with a 16-byte IV (a
    16-byte cipher block) the sectors 0 and 2^32, both of which fit the 64-bit
    sector type and the cipher block, get the same IV. *)
Lemma plain_iv_collides_at_2_32 :
  let cc := cc_aes16 plain priv_zero in
  0 <> 2 ^ 32
  /\ 0 <= 2 ^ 32 < 2 ^ 64
  /\ 2 ^ 32 < 2 ^ (8 * blocksize cc)
  /\ crypt_iv_plain_gen cc (repeat 0 16) (req_at 0)
     = Some {| g_ret := 0; g_iv := repeat 0 16; g_data := repeat 0 512 |}
  /\ crypt_iv_plain_gen cc (repeat 0 16) (req_at (2 ^ 32))
     = crypt_iv_plain_gen cc (repeat 0 16) (req_at 0).
Proof.
  cbv zeta. repeat split; try (vm_compute; congruence).
Qed.

Lemma iv_generate_deterministic_collision_free_witness :
  let gen := generator (fun b => b) (0, tt) (fun d _ => (0, d))
               (fun _ => (0, [1; 2; 3; 4])) (0, tt) (fun d _ => (0, d))
               (fun _ => (0, [0; 0; 0; 0])) in
  same_outcome
    (gen benbi (cc_aes16 benbi (priv_benbi 5)) (repeat 0 16) (req_at 7) [])
    (gen benbi (cc_aes16 benbi (priv_benbi 5)) (repeat 255 16) (req_at 7) [9])
  /\ exists o1 o2,
       gen plain64 (cc_aes16 plain64 priv_zero) (repeat 0 16) (req_at 1) []
       = Some o1
       /\ gen plain64 (cc_aes16 plain64 priv_zero) (repeat 0 16) (req_at 2) []
          = Some o2
       /\ g_ret o1 = 0 /\ g_ret o2 = 0 /\ g_iv o1 <> g_iv o2.
Proof.
  cbv zeta. split.
  - apply (iv_generate_deterministic_collision_free
             (fun b => b) unit (0, tt) (fun d _ => (0, d))
             (fun _ => (0, [1; 2; 3; 4])) unit (0, tt) (fun d _ => (0, d))
             (fun _ => (0, [0; 0; 0; 0])) (cc_aes16 benbi (priv_benbi 5)));
      [cbn; lia|discriminate|reflexivity|reflexivity].
  - apply (iv_generate_deterministic_collision_free
             (fun b => b) unit (0, tt) (fun d _ => (0, d))
             (fun _ => (0, [1; 2; 3; 4])) unit (0, tt) (fun d _ => (0, d))
             (fun _ => (0, [0; 0; 0; 0])) (cc_aes16 plain64 priv_zero));
      [cbn; lia|cbn; auto|reflexivity|reflexivity|cbn; lia|cbn; lia|cbn; lia].
Defined.

(** *** benbi *)

Lemma ilog2_pos bs : 0 < bs -> ilog2 bs = Z.log2 bs.
Proof.
  intros H. unfold ilog2.
  destruct (bs =? 0) eqn:E; [apply Z.eqb_eq in E; lia|reflexivity].
Qed.

Lemma benbi_val_closed s shift :
  0 <= shift ->
  wrap64 (wrap64 (Z.shiftl s shift) + 1) = (s * 2 ^ shift + 1) mod 2 ^ 64.
Proof.
  intros H. unfold wrap64. rewrite Z.shiftl_mul_pow2 by assumption.
  now rewrite Z.add_mod_idemp_l by lia.
Qed.

(** C5. With a positive cipher block size [bs]: [crypt_iv_benbi_ctr] fails
    with -EINVAL, leaving the configuration alone, whenever [bs] is not a
    power of two or exceeds 512; it succeeds with shift = 9 - log2 bs for
    every power of two up to 512; and once it succeeded, the IV generated
    for sector [s] is zero except for its last 8 bytes, which hold the
    big-endian 64-bit block count [(s << shift) + 1] (the count starts at
    1 and wraps at 2^64). *)
Theorem benbi_ctr_and_gen (cc : crypt_config) :
  0 < blocksize cc ->
  let r := crypt_iv_benbi_ctr cc in
  (((forall k, 0 <= k -> blocksize cc <> 2 ^ k) \/ 512 < blocksize cc) ->
     c_ret r = - EINVAL /\ c_cc r = cc /\ c_error r <> None)
  /\ (forall k, 0 <= k <= 9 -> blocksize cc = 2 ^ k ->
        c_ret r = 0 /\ iv_gen_private (c_cc r) = priv_benbi (9 - k))
  /\ (c_ret r = 0 ->
      exists k, 0 <= k <= 9 /\ blocksize cc = 2 ^ k
        /\ k = Z.log2 (blocksize cc)
        /\ iv_gen_private (c_cc r) = priv_benbi (9 - k)
        /\ forall iv dmreq,
             8 <= iv_size cc < 2 ^ 32 ->
             Z.of_nat (length iv) = iv_size cc ->
             crypt_iv_benbi_gen (c_cc r) iv dmreq
             = Some {| g_ret := 0;
                       g_iv := repeat 0 (length iv - 8)
                               ++ cpu_to_be64
                                    ((iv_sector dmreq * 2 ^ (9 - k) + 1)
                                     mod 2 ^ 64);
                       g_data := sg_in_data dmreq |}).
Proof.
  intros Hbs r. subst r. unfold crypt_iv_benbi_ctr.
  rewrite ilog2_pos by assumption.
  pose proof (Z.log2_nonneg (blocksize cc)) as Hlog.
  rewrite Z.shiftl_1_l.
  destruct (2 ^ Z.log2 (blocksize cc) =? blocksize cc) eqn:Epow; cbn [negb].
  - apply Z.eqb_eq in Epow.
    destruct (9 <? Z.log2 (blocksize cc)) eqn:E9.
    + (* a power of two above 512 *)
      apply Z.ltb_lt in E9. cbn [c_ret c_cc c_error].
      split; [|split].
      * intros _. repeat split. discriminate.
      * intros k Hk Hk2. rewrite Hk2, Z.log2_pow2 in E9 by lia. lia.
      * intros C. unfold EINVAL in C. lia.
    + (* a power of two up to 512 *)
      apply Z.ltb_ge in E9. cbn [c_ret c_cc c_error].
      split; [|split].
      * intros [Hno|Hbig]; [exfalso; apply (Hno _ Hlog); now symmetry|].
        exfalso. rewrite <- Epow in Hbig.
        assert (2 ^ Z.log2 (blocksize cc) <= 2 ^ 9)
          by (apply Z.pow_le_mono_r; lia).
        change (2 ^ 9) with 512 in *. lia.
      * intros k Hk Hk2. split; [reflexivity|].
        cbn. rewrite Hk2, Z.log2_pow2 by lia. reflexivity.
      * intros _. exists (Z.log2 (blocksize cc)).
        split; [lia|]. split; [now symmetry|]. split; [reflexivity|].
        split; [reflexivity|].
        intros iv dmreq Hsz Hlen.
        rewrite (benbi_gen_closed
                   (set_private cc (priv_benbi (9 - Z.log2 (blocksize cc))))
                   iv dmreq Hlen (9 - Z.log2 (blocksize cc)))
          by (cbn; auto).
        rewrite benbi_val_closed by lia. reflexivity.
  - (* not a power of two *)
    apply Z.eqb_neq in Epow. cbn [c_ret c_cc c_error].
    split; [|split].
    + intros _. repeat split. discriminate.
    + intros k Hk Hk2. exfalso. apply Epow.
      rewrite Hk2, Z.log2_pow2 by lia. reflexivity.
    + intros C. unfold EINVAL in C. lia.
Qed.

Lemma benbi_ctr_and_gen_witness :
  let r := crypt_iv_benbi_ctr (cc_aes16 benbi priv_zero) in
  c_ret r = 0 /\ iv_gen_private (c_cc r) = priv_benbi 5.
Proof.
  cbv zeta.
  apply (proj1 (proj2 (benbi_ctr_and_gen (cc_aes16 benbi priv_zero)
                         ltac:(cbn; lia))) 4);
    [lia|reflexivity].
Defined.

(** *** lmk and tcw need 512-byte sectors *)

(** C6. For every configuration whose sector size is not exactly 512 bytes
    and whatever the allocators would answer, [crypt_iv_lmk_ctr] and
    [crypt_iv_tcw_ctr] return -EINVAL with an error message, before any
    allocation: the configuration (the generator's private state included)
    is unchanged and nothing was allocated. *)
Theorem lmk_tcw_ctr_reject_sector_size (cc : crypt_config) (env : alloc_env) :
  sector_size cc <> 512 ->
  (c_ret (crypt_iv_lmk_ctr cc env) = - EINVAL
   /\ c_cc (crypt_iv_lmk_ctr cc env) = cc
   /\ c_allocs (crypt_iv_lmk_ctr cc env) = []
   /\ c_error (crypt_iv_lmk_ctr cc env)
      = Some "Unsupported sector size for LMK"%string)
  /\ (c_ret (crypt_iv_tcw_ctr cc env) = - EINVAL
      /\ c_cc (crypt_iv_tcw_ctr cc env) = cc
      /\ c_allocs (crypt_iv_tcw_ctr cc env) = []
      /\ c_error (crypt_iv_tcw_ctr cc env)
         = Some "Unsupported sector size for TCW"%string).
Proof.
  intros H. unfold crypt_iv_lmk_ctr, crypt_iv_tcw_ctr.
  change (Z.shiftl 1 SECTOR_SHIFT) with 512.
  destruct (sector_size cc =? 512) eqn:E;
    [apply Z.eqb_eq in E; contradiction|].
  cbn. repeat split.
Qed.

Definition cc_lmk_4k : crypt_config :=
  {| iv_gen_ops := Some lmk; iv_gen_private := priv_zero; iv_size := 16;
     sector_size := 4096; key_size := 32 * 65; key_parts := 65;
     tfms_count := 64; blocksize := 16 |}.

Lemma lmk_tcw_ctr_reject_sector_size_witness :
  let env := {| alloc_shash := tfm_ok; kzalloc_first := true;
                kzalloc_second := true |} in
  c_ret (crypt_iv_lmk_ctr cc_lmk_4k env) = - EINVAL
  /\ c_allocs (crypt_iv_tcw_ctr cc_lmk_4k env) = [].
Proof.
  cbv zeta.
  pose proof (lmk_tcw_ctr_reject_sector_size cc_lmk_4k
                {| alloc_shash := tfm_ok; kzalloc_first := true;
                   kzalloc_second := true |} ltac:(cbn; lia)) as H.
  split; [exact (proj1 (proj1 H))|exact (proj1 (proj2 (proj2 (proj2 H))))].
Defined.

(** ** Further properties of the IV generators *)

(** *** plain is plain64 of the sector cut to 32 bits *)

Definition with_sector (dmreq : dm_crypt_request) (s : Z) : dm_crypt_request :=
  {| iv_sector := s; bio_in_dir := bio_in_dir dmreq;
     sg_in_data := sg_in_data dmreq |}.

Lemma le_bytes_app n k v :
  le_bytes (n + k) v = le_bytes n v ++ le_bytes k (v / 256 ^ Z.of_nat n).
Proof.
  revert v. induction n as [|n IH]; intros v.
  - cbn [Nat.add le_bytes app]. now rewrite Z.pow_0_r, Z.div_1_r.
  - cbn [Nat.add le_bytes app]. rewrite IH. f_equal. f_equal.
    rewrite Nat2Z.inj_succ, Z.pow_succ_r by lia.
    now rewrite Z.div_div by lia.
Qed.

Lemma le_bytes_zero n : le_bytes n 0 = repeat 0 n.
Proof. induction n as [|n IH]; cbn; [reflexivity|now rewrite IH]. Qed.

Lemma le64_of_u32 v :
  0 <= v < 2 ^ 32 -> cpu_to_le64 v = cpu_to_le32 v ++ repeat 0 4.
Proof.
  intros H. unfold cpu_to_le64, cpu_to_le32.
  change 8%nat with (4 + 4)%nat. rewrite le_bytes_app.
  change (256 ^ Z.of_nat 4) with (2 ^ 32).
  now rewrite Z.div_small, le_bytes_zero by assumption.
Qed.

Lemma land_u32_range s : 0 <= Z.land s 0xffffffff < 2 ^ 32.
Proof.
  change 0xffffffff with (Z.ones 32). rewrite Z.land_ones by lia.
  apply Z.mod_pos_bound. lia.
Qed.

(** X1. The [plain] generator yields, for every sector, the IV that [plain64]
    yields for the sector's low 32 bits; below 2^32 the two generators
    agree. *)
Theorem plain_is_plain64_of_low_32_bits
    (cc : crypt_config) (iv : list Z) (dmreq : dm_crypt_request) :
  Z.of_nat (length iv) = iv_size cc ->
  8 <= iv_size cc ->
  crypt_iv_plain_gen cc iv dmreq
  = crypt_iv_plain64_gen cc iv
      (with_sector dmreq (Z.land (iv_sector dmreq) 0xffffffff))
  /\ (0 <= iv_sector dmreq < 2 ^ 32 ->
      crypt_iv_plain_gen cc iv dmreq = crypt_iv_plain64_gen cc iv dmreq).
Proof.
  intros L H.
  assert (A : crypt_iv_plain_gen cc iv dmreq
              = crypt_iv_plain64_gen cc iv
                  (with_sector dmreq (Z.land (iv_sector dmreq) 0xffffffff))).
  { rewrite (plain_gen_closed cc iv dmreq L) by lia.
    rewrite (plain64_gen_closed cc iv _ L) by lia.
    cbn [with_sector iv_sector sg_in_data].
    rewrite le64_of_u32 by apply land_u32_range.
    rewrite <- app_assoc, <- repeat_app.
    replace (4 + (length iv - 8))%nat with (length iv - 4)%nat by lia.
    reflexivity. }
  split; [exact A|].
  intros B. rewrite A. rewrite land_u32 by assumption.
  now destruct dmreq.
Qed.

Lemma plain_is_plain64_of_low_32_bits_witness :
  crypt_iv_plain_gen (cc_aes16 plain priv_zero) (repeat 7 16)
    (req_at (2 ^ 32 + 5))
  = crypt_iv_plain64_gen (cc_aes16 plain priv_zero) (repeat 7 16) (req_at 5).
Proof.
  exact (proj1 (plain_is_plain64_of_low_32_bits (cc_aes16 plain priv_zero)
                  (repeat 7 16) (req_at (2 ^ 32 + 5)) eq_refl
                  ltac:(cbn; lia))).
Defined.

(** *** ESSIV: the encrypted sector number *)

(** X2. [crypt_iv_essiv_gen] hands out the ESSIV cipher's encryption of the
    [plain64] IV; when that cipher maps distinct blocks to distinct blocks
    of the same size (it is a block cipher under the salt key), distinct
    64-bit sector numbers get distinct IVs. *)
Theorem essiv_iv_is_encrypted_sector
    (essiv_encrypt_one : list Z -> list Z)
    (cc : crypt_config) (iv : list Z) (d1 d2 : dm_crypt_request) :
  (forall b, length (essiv_encrypt_one b) = length b) ->
  (forall a b, length a = length b ->
               essiv_encrypt_one a = essiv_encrypt_one b -> a = b) ->
  Z.of_nat (length iv) = iv_size cc ->
  8 <= iv_size cc ->
  0 <= iv_sector d1 < 2 ^ 64 ->
  0 <= iv_sector d2 < 2 ^ 64 ->
  exists o1 o2,
    crypt_iv_essiv_gen essiv_encrypt_one cc iv d1 = Some o1
    /\ crypt_iv_essiv_gen essiv_encrypt_one cc iv d2 = Some o2
    /\ g_ret o1 = 0
    /\ g_iv o1
       = essiv_encrypt_one
           (cpu_to_le64 (iv_sector d1) ++ repeat 0 (length iv - 8))
    /\ length (g_iv o1) = length iv
    /\ (g_iv o1 = g_iv o2 -> iv_sector d1 = iv_sector d2).
Proof.
  intros Elen Einj L H B1 B2.
  assert (G : forall d,
    crypt_iv_essiv_gen essiv_encrypt_one cc iv d
    = Some {| g_ret := 0;
              g_iv := essiv_encrypt_one
                        (cpu_to_le64 (iv_sector d) ++ repeat 0 (length iv - 8));
              g_data := sg_in_data d |}).
  { intros d. unfold crypt_iv_essiv_gen.
    rewrite <- L, memset_all.
    rewrite buf_write_zero_head
      by (unfold cpu_to_le64; rewrite le_bytes_length; lia).
    unfold cpu_to_le64 at 2. rewrite le_bytes_length.
    rewrite buf_write_all; [reflexivity|]. apply Elen. }
  rewrite !G. do 2 eexists. repeat split; cbn [g_iv].
  - rewrite Elen, length_app, repeat_length.
    unfold cpu_to_le64. rewrite le_bytes_length. lia.
  - intros E. apply Einj in E.
    + apply app_inv_tail in E. now apply cpu_to_le64_inj in E.
    + rewrite !length_app. unfold cpu_to_le64. now rewrite !le_bytes_length.
Qed.

Lemma rev_same_length_inj (a b : list Z) : length a = length b -> rev a = rev b -> a = b.
Proof.
  intros _ E. apply (f_equal (@rev Z)) in E. now rewrite !rev_involutive in E.
Qed.

Lemma essiv_iv_is_encrypted_sector_witness :
  exists o1 o2,
    crypt_iv_essiv_gen (@rev Z) (cc_aes16 essiv priv_zero) (repeat 0 16) (req_at 7)
    = Some o1
    /\ crypt_iv_essiv_gen (@rev Z) (cc_aes16 essiv priv_zero) (repeat 0 16)
         (req_at 9) = Some o2
    /\ g_ret o1 = 0
    /\ g_iv o1 = rev (cpu_to_le64 7 ++ repeat 0 8)
    /\ length (g_iv o1) = 16%nat
    /\ (g_iv o1 = g_iv o2 -> 7 = 9).
Proof.
  exact (essiv_iv_is_encrypted_sector (@rev Z) (cc_aes16 essiv priv_zero)
           (repeat 0 16) (req_at 7) (req_at 9)
           (@length_rev Z) rev_same_length_inj eq_refl
           ltac:(cbn; lia) ltac:(cbn; lia) ltac:(cbn; lia)).
Defined.

(** *** lmk: what the IV depends on, and the post hook *)

Lemma buf_read_from a b k off n :
  off = Z.of_nat k -> length a = length b -> skipn k a = skipn k b ->
  buf_read a off n = buf_read b off n.
Proof.
  intros -> L S. unfold buf_read. rewrite L, !Nat2Z.id, S. reflexivity.
Qed.

Lemma lmk_sector_words s s' :
  Z.land s (2 ^ 56 - 1) = Z.land s' (2 ^ 56 - 1) ->
  Z.land s 0xFFFFFFFF = Z.land s' 0xFFFFFFFF
  /\ Z.land (Z.shiftr s 32) 0x00FFFFFF = Z.land (Z.shiftr s' 32) 0x00FFFFFF.
Proof.
  intros E. split.
  - change 0xFFFFFFFF with (Z.land (2 ^ 56 - 1) 0xFFFFFFFF).
    now rewrite !Z.land_assoc, E.
  - change 0x00FFFFFF with (Z.shiftr (2 ^ 56 - 1) 32).
    now rewrite <- !Z.shiftr_land, E.
Qed.

Section LmkProps.

Variable md5_desc : Type.
Variable md5_init : Z * md5_desc.
Variable md5_update : md5_desc -> list Z -> Z * md5_desc.
Variable md5_export : md5_desc -> Z * list Z.

Let lmk_one := crypt_iv_lmk_one md5_init md5_update md5_export.

(** [crypt_iv_lmk_post]: the return value, the IV buffer and the sector
    behind [dmreq->sg_out]. *)
Definition crypt_iv_lmk_post (cc : crypt_config) (iv : list Z)
    (dmreq : dm_crypt_request) (dst : list Z)
  : option (Z * list Z * list Z) :=
  if rw_eqb (bio_in_dir dmreq) WRITE then Some (0, iv, dst)
  else
    res <- crypt_iv_lmk_one md5_init md5_update md5_export cc iv dmreq dst ;;
    let '(r, iv') := res in
    if r =? 0 then
      dst' <- crypto_xor dst 0 iv' 0 (iv_size cc) ;;
      Some (r, iv', dst')
    else Some (r, iv', dst).

Lemma lmk_one_depends cc iv d d' data data' :
  length data = length data' ->
  skipn 16 data = skipn 16 data' ->
  Z.land (iv_sector d) (2 ^ 56 - 1) = Z.land (iv_sector d') (2 ^ 56 - 1) ->
  lmk_one cc iv d data = lmk_one cc iv d' data'.
Proof.
  intros L S E. unfold lmk_one, crypt_iv_lmk_one.
  destruct (lmk_sector_words _ _ E) as [W0 W1].
  rewrite (buf_read_from data data' 16 16 (16 * 31) eq_refl L S).
  now rewrite W0, W1.
Qed.

(** X3. The lmk IV is a function of the seed, of the sector's bytes from the
    second 16-byte block on and of the low 56 bits of the sector number:
    the first block of the data and the bits of the sector number from bit
    56 up do not enter it, for [crypt_iv_lmk_one] and so for the generator
    on writes. *)
Theorem lmk_iv_ignores_first_block_and_high_sector_bits
    (cc : crypt_config) (iv : list Z) (d d' : dm_crypt_request)
    (data data' : list Z) :
  length data = length data' ->
  skipn 16 data = skipn 16 data' ->
  Z.land (iv_sector d) (2 ^ 56 - 1) = Z.land (iv_sector d') (2 ^ 56 - 1) ->
  crypt_iv_lmk_one md5_init md5_update md5_export cc iv d data
  = crypt_iv_lmk_one md5_init md5_update md5_export cc iv d' data'
  /\ (bio_in_dir d = WRITE -> bio_in_dir d' = WRITE ->
      sg_in_data d = data -> sg_in_data d' = data' ->
      forall o o',
        crypt_iv_lmk_gen md5_init md5_update md5_export cc iv d = Some o ->
        crypt_iv_lmk_gen md5_init md5_update md5_export cc iv d' = Some o' ->
        g_ret o = g_ret o' /\ g_iv o = g_iv o').
Proof.
  intros L S E.
  pose proof (lmk_one_depends cc iv d d' data data' L S E) as A.
  split; [exact A|].
  intros W W' D D' o o'. unfold crypt_iv_lmk_gen. rewrite W, W', D, D'.
  cbn [rw_eqb]. fold (lmk_one cc iv d data) (lmk_one cc iv d' data').
  rewrite A.
  destruct (lmk_one cc iv d' data') as [[r v]|]; [|discriminate].
  intros [= <-] [= <-]. split; reflexivity.
Qed.

Lemma xor_bytes_twice a v :
  length a = length v -> xor_bytes (xor_bytes a v) v = a.
Proof.
  revert v. induction a as [|x a IH]; intros [|y v]; cbn [xor_bytes length];
    try discriminate; [reflexivity|].
  intros [= L]. rewrite (IH v L). f_equal.
  now rewrite Z.lxor_assoc, Z.lxor_nilpotent, Z.lxor_0_r.
Qed.

Lemma buf_read_head buf n :
  (n <= length buf)%nat -> buf_read buf 0 (Z.of_nat n) = Some (firstn n buf).
Proof.
  intros H. unfold buf_read.
  replace (0 <=? Z.of_nat n) with true by (symmetry; apply Z.leb_le; lia).
  replace (0 + Z.of_nat n <=? Z.of_nat (length buf)) with true
    by (symmetry; apply Z.leb_le; lia).
  cbn [andb Z.leb Z.compare]. now rewrite Nat2Z.id.
Qed.

Lemma buf_write_head buf bs :
  (length bs <= length buf)%nat ->
  buf_write buf 0 bs = Some (bs ++ skipn (length bs) buf).
Proof.
  intros H. change 0 with (Z.of_nat 0). now rewrite buf_write_at by lia.
Qed.

(** X4. On writes the generator hashes the plaintext into the IV; a read runs
    the cipher with a zero IV, which leaves the first block of the
    plaintext xor-ed with the write IV and the other blocks plain. On such
    a sector the post hook recomputes the write IV and restores the first
    block: the sector is the plaintext again. *)
Theorem lmk_post_restores_first_block
    (cc : crypt_config) (iv iv_r : list Z) (s : Z) (plain ivw : list Z) :
  0 <= iv_size cc <= 16 ->
  Z.of_nat (length iv) = iv_size cc ->
  Z.of_nat (length iv_r) = iv_size cc ->
  (512 <= length plain)%nat ->
  crypt_iv_lmk_gen md5_init md5_update md5_export cc iv
    {| iv_sector := s; bio_in_dir := WRITE; sg_in_data := plain |}
  = Some {| g_ret := 0; g_iv := ivw; g_data := plain |} ->
  let n := Z.to_nat (iv_size cc) in
  let garbled := xor_bytes (firstn n plain) ivw ++ skipn n plain in
  crypt_iv_lmk_gen md5_init md5_update md5_export cc iv_r
    {| iv_sector := s; bio_in_dir := READ; sg_in_data := garbled |}
  = Some {| g_ret := 0; g_iv := repeat 0 n; g_data := garbled |}
  /\ crypt_iv_lmk_post cc (repeat 0 n)
       {| iv_sector := s; bio_in_dir := READ; sg_in_data := garbled |} garbled
     = Some (0, ivw, plain).
Proof.
  intros B L Lr P G n garbled.
  unfold crypt_iv_lmk_gen in G. cbn [bio_in_dir rw_eqb sg_in_data] in G.
  fold (lmk_one cc iv {| iv_sector := s; bio_in_dir := WRITE;
                         sg_in_data := plain |} plain) in G.
  destruct (lmk_one cc iv _ plain) as [[r v]|] eqn:One; [|discriminate].
  cbn [fst snd] in G. injection G as -> ->.
  assert (Lw : length ivw = n).
  { pose proof One as Lv. unfold lmk_one in Lv.
    apply lmk_one_length in Lv. unfold n. lia. }
  assert (Lx : length (xor_bytes (firstn n plain) ivw) = n).
  { rewrite xor_bytes_length, length_firstn. unfold n in *. lia. }
  assert (Lg : length garbled = length plain).
  { unfold garbled. rewrite length_app, Lx, length_skipn. unfold n. lia. }
  assert (Sg : skipn 16 garbled = skipn 16 plain).
  { unfold garbled. rewrite skipn_app, Lx.
    rewrite (skipn_all2 (xor_bytes _ _)) by (rewrite Lx; unfold n; lia).
    cbn [app]. rewrite skipn_skipn. f_equal. unfold n. lia. }
  split.
  - unfold crypt_iv_lmk_gen. cbn [bio_in_dir rw_eqb sg_in_data].
    rewrite <- Lr, memset_all. do 3 f_equal. unfold n. lia.
  - unfold crypt_iv_lmk_post. cbn [bio_in_dir rw_eqb].
    fold (lmk_one cc (repeat 0 n)
            {| iv_sector := s; bio_in_dir := READ; sg_in_data := garbled |}
            garbled).
    rewrite (lmk_one_depends cc (repeat 0 n)
               {| iv_sector := s; bio_in_dir := READ; sg_in_data := garbled |}
               {| iv_sector := s; bio_in_dir := WRITE; sg_in_data := plain |}
               garbled plain Lg Sg eq_refl).
    pose proof (lmk_one_indep md5_desc md5_init md5_update md5_export cc
                  {| iv_sector := s; bio_in_dir := WRITE; sg_in_data := plain |}
                  iv (repeat 0 n) L
                  ltac:(rewrite repeat_length; unfold n; lia) plain) as I.
    fold (lmk_one cc iv {| iv_sector := s; bio_in_dir := WRITE;
                           sg_in_data := plain |} plain) in I.
    fold (lmk_one cc (repeat 0 n)
            {| iv_sector := s; bio_in_dir := WRITE; sg_in_data := plain |}
            plain) in I.
    rewrite One in I.
    destruct (lmk_one cc (repeat 0 n) _ plain) as [[r2 v2]|]; [|contradiction].
    destruct I as [<- I]. specialize (I eq_refl). subst v2.
    cbn [Z.eqb]. unfold crypto_xor, crypto_xor_cpy.
    replace (iv_size cc) with (Z.of_nat n) by (unfold n; lia).
    rewrite (buf_read_head garbled n) by lia.
    rewrite (buf_read_head ivw n) by lia.
    rewrite (firstn_all2 (n := n) ivw) by lia.
    assert (Fg : firstn n garbled = xor_bytes (firstn n plain) ivw).
    { unfold garbled. rewrite firstn_app, Lx, Nat.sub_diag.
      cbn [firstn]. rewrite app_nil_r. apply firstn_all2. lia. }
    assert (Kg : skipn n garbled = skipn n plain).
    { unfold garbled. rewrite skipn_app, Lx, Nat.sub_diag.
      rewrite (skipn_all2 (xor_bytes _ _)) by lia. reflexivity. }
    rewrite Fg, xor_bytes_twice by (rewrite length_firstn; lia).
    rewrite buf_write_head by (rewrite length_firstn; lia).
    rewrite length_firstn, Nat.min_l by lia.
    now rewrite Kg, firstn_skipn.
Qed.

End LmkProps.

Arguments crypt_iv_lmk_post {md5_desc}.

(** A stand-in for the md5 transform: the state is the sum of the bytes
    seen, exported as four words. *)
Definition toy_md5_update (d : Z) (bs : list Z) : Z * Z :=
  (0, fold_left Z.add bs d).
Definition toy_md5_export (d : Z) : Z * list Z := (0, [d; d + 1; d + 2; d + 3]).

Definition cc_lmk : crypt_config :=
  {| iv_gen_ops := Some lmk;
     iv_gen_private := priv_lmk tfm_ok (Some (repeat 3 64));
     iv_size := 16; sector_size := 512; key_size := 32 * 65; key_parts := 65;
     tfms_count := 64; blocksize := 16 |}.

Lemma lmk_iv_ignores_first_block_and_high_sector_bits_witness :
  crypt_iv_lmk_one (0, 0) toy_md5_update toy_md5_export cc_lmk (repeat 0 16)
    (req_at 5) (repeat 1 16 ++ repeat 9 496)
  = crypt_iv_lmk_one (0, 0) toy_md5_update toy_md5_export cc_lmk (repeat 0 16)
      (req_at (2 ^ 56 + 5)) (repeat 2 16 ++ repeat 9 496).
Proof.
  exact (proj1 (lmk_iv_ignores_first_block_and_high_sector_bits Z (0, 0)
                  toy_md5_update toy_md5_export cc_lmk (repeat 0 16)
                  (req_at 5) (req_at (2 ^ 56 + 5))
                  (repeat 1 16 ++ repeat 9 496) (repeat 2 16 ++ repeat 9 496)
                  eq_refl eq_refl eq_refl)).
Defined.

Definition lmk_plain : list Z := map Z.of_nat (seq 0 512).

Definition lmk_write_iv : list Z :=
  Eval vm_compute in
    match crypt_iv_lmk_gen (0, 0) toy_md5_update toy_md5_export cc_lmk
            (repeat 0 16)
            {| iv_sector := 5; bio_in_dir := WRITE; sg_in_data := lmk_plain |}
    with
    | Some o => g_iv o
    | None => []
    end.

Lemma lmk_post_restores_first_block_witness :
  let garbled := xor_bytes (firstn 16 lmk_plain) lmk_write_iv
                 ++ skipn 16 lmk_plain in
  crypt_iv_lmk_post (0, 0) toy_md5_update toy_md5_export cc_lmk (repeat 0 16)
    {| iv_sector := 5; bio_in_dir := READ; sg_in_data := garbled |} garbled
  = Some (0, lmk_write_iv, lmk_plain).
Proof.
  exact (proj2 (lmk_post_restores_first_block Z (0, 0) toy_md5_update
                  toy_md5_export cc_lmk (repeat 0 16) (repeat 0 16) 5
                  lmk_plain lmk_write_iv
                  ltac:(cbn; lia) eq_refl eq_refl ltac:(cbn; lia) eq_refl)).
Defined.

(** *** tcw: the whitening *)

Lemma xor_bytes_app a1 a2 b1 b2 :
  length a1 = length b1 ->
  xor_bytes (a1 ++ a2) (b1 ++ b2) = xor_bytes a1 b1 ++ xor_bytes a2 b2.
Proof.
  revert b1. induction a1 as [|x a1 IH]; intros [|y b1]; cbn [length app xor_bytes];
    try discriminate; [reflexivity|].
  intros [= L]. now rewrite IH.
Qed.

Lemma concat_repeat_snoc {A} (m : list A) n :
  concat (repeat m (S n)) = concat (repeat m n) ++ m.
Proof.
  induction n as [|n IH].
  - cbn. now rewrite app_nil_r.
  - change (repeat m (S (S n))) with (m :: repeat m (S n)).
    cbn [concat]. rewrite IH at 1. cbn [repeat concat]. now rewrite app_assoc.
Qed.

Lemma concat_repeat_length {A} (m : list A) n :
  length (concat (repeat m n)) = (n * length m)%nat.
Proof.
  induction n as [|n IH]; cbn [repeat concat length]; [reflexivity|].
  rewrite length_app, IH. lia.
Qed.

(** The sector with its first [n] 8-byte words xor-ed with [mask]. *)
Definition whiten (data mask : list Z) (n : nat) : list Z :=
  xor_bytes (firstn (8 * n) data) (concat (repeat mask n)) ++ skipn (8 * n) data.

Lemma whiten_length data mask n :
  length mask = 8%nat -> (8 * n <= length data)%nat ->
  length (whiten data mask n) = length data.
Proof.
  intros M H. unfold whiten.
  rewrite length_app, xor_bytes_length, length_firstn, length_skipn,
    concat_repeat_length, M. lia.
Qed.

Lemma whiten_twice data mask n :
  length mask = 8%nat -> (8 * n <= length data)%nat ->
  whiten (whiten data mask n) mask n = data.
Proof.
  intros M H.
  assert (Lx : length (xor_bytes (firstn (8 * n) data) (concat (repeat mask n)))
               = (8 * n)%nat).
  { rewrite xor_bytes_length, length_firstn, concat_repeat_length, M. lia. }
  unfold whiten at 1.
  unfold whiten. rewrite firstn_app, skipn_app, Lx, Nat.sub_diag.
  cbn [firstn skipn]. rewrite app_nil_r.
  rewrite (firstn_all2 (xor_bytes _ _)) by lia.
  rewrite (skipn_all2 (xor_bytes _ _)) by lia.
  rewrite xor_bytes_twice
    by (rewrite length_firstn, concat_repeat_length, M; lia).
  cbn [app]. apply firstn_skipn.
Qed.

Lemma tcw_apply_app data buf l1 l2 :
  tcw_apply data buf (l1 ++ l2)
  = (d <- tcw_apply data buf l1 ;; tcw_apply d buf l2).
Proof.
  revert data. induction l1 as [|i l1 IH]; intros data; cbn [app tcw_apply].
  - reflexivity.
  - destruct (crypto_xor data (i * 8) buf 0 8); [apply IH|reflexivity].
Qed.

Lemma buf_read_at buf k n :
  (k + n <= length buf)%nat ->
  buf_read buf (Z.of_nat k) (Z.of_nat n) = Some (firstn n (skipn k buf)).
Proof.
  intros H. unfold buf_read.
  replace (0 <=? Z.of_nat k) with true by (symmetry; apply Z.leb_le; lia).
  replace (0 <=? Z.of_nat n) with true by (symmetry; apply Z.leb_le; lia).
  replace (Z.of_nat k + Z.of_nat n <=? Z.of_nat (length buf)) with true
    by (symmetry; apply Z.leb_le; lia).
  cbn [andb]. now rewrite !Nat2Z.id.
Qed.

(** The loop of [crypt_iv_tcw_whitening] over the first [n] words. *)
Lemma tcw_apply_seq data buf n :
  (8 <= length buf)%nat -> (8 * n <= length data)%nat ->
  tcw_apply data buf (map Z.of_nat (seq 0 n))
  = Some (whiten data (firstn 8 buf) n).
Proof.
  intros Hb. induction n as [|n IH]; intros H.
  - cbn [seq map tcw_apply]. unfold whiten. cbn. reflexivity.
  - rewrite seq_S, map_app, tcw_apply_app, IH by lia.
    cbn [Nat.add map tcw_apply].
    set (m := firstn 8 buf).
    assert (Lm : length m = 8%nat) by (unfold m; rewrite length_firstn; lia).
    set (X := xor_bytes (firstn (8 * n) data) (concat (repeat m n))).
    assert (LX : length X = (8 * n)%nat).
    { unfold X. rewrite xor_bytes_length, length_firstn, concat_repeat_length, Lm.
      lia. }
    unfold whiten at 1. fold X.
    set (R := skipn (8 * n) data).
    assert (LR : (8 <= length R)%nat) by (unfold R; rewrite length_skipn; lia).
    set (chunk := firstn 8 R).
    assert (Lc : length chunk = 8%nat)
      by (unfold chunk; rewrite length_firstn; lia).
    assert (Rd : buf_read (X ++ R) (Z.of_nat n * 8) 8 = Some chunk).
    { replace (Z.of_nat n * 8) with (Z.of_nat (8 * n)) by lia.
      change 8 with (Z.of_nat 8).
      rewrite buf_read_at by (rewrite length_app; lia).
      rewrite skipn_app, LX, Nat.sub_diag, (skipn_all2 X) by lia.
      rewrite skipn_O. reflexivity. }
    assert (Rm : buf_read buf 0 8 = Some m).
    { change 8 with (Z.of_nat 8). change 0 with (Z.of_nat 0).
      rewrite buf_read_at by lia. now rewrite skipn_O. }
    assert (Wr : buf_write (X ++ R) (Z.of_nat n * 8) (xor_bytes chunk m)
                 = Some (X ++ xor_bytes chunk m ++ skipn 8 R)).
    { replace (Z.of_nat n * 8) with (Z.of_nat (length X)) by lia.
      rewrite buf_write_at
        by (rewrite length_app, xor_bytes_length; lia).
      rewrite firstn_app, Nat.sub_diag, firstn_O, app_nil_r.
      rewrite (firstn_all2 X) by lia.
      rewrite skipn_app, (skipn_all2 X) by lia.
      rewrite xor_bytes_length, Lc, Lm.
      replace (length X + Nat.min 8 8 - length X)%nat with 8%nat by lia.
      reflexivity. }
    unfold crypto_xor, crypto_xor_cpy. rewrite Rd, Rm, Wr.
    f_equal. unfold whiten.
    replace (8 * S n)%nat with (8 * n + 8)%nat by lia.
    rewrite concat_repeat_snoc.
    rewrite <- (firstn_skipn (8 * n) (firstn (8 * n + 8) data)).
    rewrite firstn_firstn, Nat.min_l by lia.
    rewrite xor_bytes_app
      by (rewrite length_firstn, concat_repeat_length, Lm; lia).
    fold X. rewrite <- app_assoc. f_equal.
    rewrite skipn_firstn_comm.
    replace (8 * n + 8 - 8 * n)%nat with 8%nat by lia.
    fold R. fold chunk. f_equal.
    unfold R. rewrite skipn_skipn. f_equal. lia.
Qed.

Section TcwProps.

Variable crc_desc : Type.
Variable crc32_init : Z * crc_desc.
Variable crc32_update : crc_desc -> list Z -> Z * crc_desc.
Variable crc32_final : crc_desc -> Z * list Z.

Let whitening := crypt_iv_tcw_whitening crc32_init crc32_update crc32_final.
Let tcw_gen := crypt_iv_tcw_gen crc32_init crc32_update crc32_final.

(** [crypt_iv_tcw_post]: the return value and the sector behind
    [dmreq->sg_out]. *)
Definition crypt_iv_tcw_post (cc : crypt_config) (dmreq : dm_crypt_request)
    (dst : list Z) : option (Z * list Z) :=
  if negb (rw_eqb (bio_in_dir dmreq) WRITE) then Some (0, dst)
  else crypt_iv_tcw_whitening crc32_init crc32_update crc32_final cc dmreq dst.

Lemma tcw_crc_round_length buf i r buf' :
  tcw_crc_round crc32_init crc32_update crc32_final buf i = Some (r, buf') ->
  length buf' = length buf.
Proof.
  unfold tcw_crc_round. intros H.
  split_match H; inversion H; subst; repeat len_step; congruence.
Qed.

Lemma tcw_crc_rounds_length idxs : forall buf r buf',
  tcw_crc_rounds crc32_init crc32_update crc32_final buf idxs = Some (r, buf') ->
  length buf' = length buf.
Proof.
  induction idxs as [|i idxs IH]; intros buf r buf'; cbn [tcw_crc_rounds].
  - now intros [= _ <-].
  - destruct (tcw_crc_round _ _ _ buf i) as [[r1 b1]|] eqn:R; [|discriminate].
    apply tcw_crc_round_length in R. cbn [fst snd].
    destruct (negb (r1 =? 0)).
    + intros [= _ <-]. exact R.
    + intros H. apply IH in H. congruence.
Qed.

(** A successful whitening is the xor of the sector's 64 words with one
    8-byte mask that depends on the whitening seed and the sector number
    alone. *)
Lemma whitening_is_mask cc d data out :
  (512 <= length data)%nat ->
  whitening cc d data = Some (0, out) ->
  exists mask, length mask = 8%nat
    /\ out = whiten data mask 64
    /\ forall d' data',
         iv_sector d' = iv_sector d -> (512 <= length data')%nat ->
         whitening cc d' data' = Some (0, whiten data' mask 64).
Proof.
  intros Hd H. unfold whitening, crypt_iv_tcw_whitening in *.
  destruct (tcw_view (iv_gen_private cc)) as [[c sd] wh].
  destruct wh as [w|]; [|discriminate].
  destruct (crypto_xor_cpy _ 0 w 0 _ 0 8) as [buf1|] eqn:E1; [|discriminate].
  destruct (crypto_xor_cpy buf1 8 w 8 _ 0 8) as [buf2|] eqn:E2; [|discriminate].
  destruct (tcw_crc_rounds _ _ _ buf2 _) as [[r buf3]|] eqn:E3; [|discriminate].
  destruct (negb (r =? 0)) eqn:Er.
  { injection H as -> _. discriminate Er. }
  destruct (crypto_xor buf3 0 buf3 12 4) as [buf4|] eqn:E4; [|discriminate].
  destruct (crypto_xor buf4 4 buf4 8 4) as [buf5|] eqn:E5; [|discriminate].
  assert (L5 : length buf5 = 16%nat).
  { apply xor_cpy_length in E1, E2, E4, E5.
    apply tcw_crc_rounds_length in E3.
    rewrite E5, E4, E3, E2, E1. reflexivity. }
  change (Z.to_nat (Z.shiftl 1 SECTOR_SHIFT / 8)) with 64%nat in *.
  rewrite tcw_apply_seq in H by lia.
  injection H as -> <-.
  exists (firstn 8 buf5). split; [rewrite length_firstn; lia|].
  split; [reflexivity|].
  intros d' data' Es Hd'. rewrite Es, E1, E2, E3. cbn [negb Z.eqb].
  rewrite E4, E5, tcw_apply_seq by lia. reflexivity.
Qed.

(** X5. The whitening that the post hook applies to a sector of ciphertext on
    a write is taken off again by the generator when the sector is read
    back; the same call yields the IV the write used. *)
Theorem tcw_whitening_round_trip
    (cc : crypt_config) (iv : list Z) (s : Z)
    (plain cipher whitened : list Z) (ow : gen_out) :
  (512 <= length cipher)%nat ->
  crypt_iv_tcw_gen crc32_init crc32_update crc32_final cc iv
    {| iv_sector := s; bio_in_dir := WRITE; sg_in_data := plain |} = Some ow ->
  crypt_iv_tcw_post cc
    {| iv_sector := s; bio_in_dir := WRITE; sg_in_data := plain |} cipher
  = Some (0, whitened) ->
  g_data ow = plain
  /\ length whitened = length cipher
  /\ crypt_iv_tcw_whitening crc32_init crc32_update crc32_final cc
       {| iv_sector := s; bio_in_dir := READ; sg_in_data := whitened |} whitened
     = Some (0, cipher)
  /\ crypt_iv_tcw_gen crc32_init crc32_update crc32_final cc iv
       {| iv_sector := s; bio_in_dir := READ; sg_in_data := whitened |}
     = Some {| g_ret := 0; g_iv := g_iv ow; g_data := cipher |}
  /\ crypt_iv_tcw_post cc
       {| iv_sector := s; bio_in_dir := READ; sg_in_data := whitened |} cipher
     = Some (0, cipher).
Proof.
  intros Hc G P.
  unfold crypt_iv_tcw_post in P. cbn [bio_in_dir rw_eqb negb] in P.
  destruct (whitening_is_mask cc _ cipher whitened Hc P)
    as (mask & Lm & -> & Again).
  assert (Lw : length (whiten cipher mask 64) = length cipher)
    by (apply whiten_length; [assumption|lia]).
  assert (W : whitening cc
                {| iv_sector := s; bio_in_dir := READ;
                   sg_in_data := whiten cipher mask 64 |}
                (whiten cipher mask 64) = Some (0, cipher)).
  { rewrite (Again {| iv_sector := s; bio_in_dir := READ;
                      sg_in_data := whiten cipher mask 64 |}
               (whiten cipher mask 64) eq_refl) by lia.
    rewrite whiten_twice by (auto; lia). reflexivity. }
  unfold crypt_iv_tcw_gen in G. cbn [bio_in_dir rw_eqb sg_in_data] in G.
  destruct (tcw_view (iv_gen_private cc)) as [[c sd] wh] eqn:V.
  cbn [iv_sector] in G.
  split.
  { split_match G. now injection G as <-. }
  split; [exact Lw|]. split; [exact W|]. split; [|reflexivity].
  unfold crypt_iv_tcw_gen. rewrite V.
  cbn [bio_in_dir rw_eqb sg_in_data iv_sector].
  fold (whitening cc {| iv_sector := s; bio_in_dir := READ;
                        sg_in_data := whiten cipher mask 64 |}
          (whiten cipher mask 64)).
  rewrite W.
  destruct sd as [iv_seed|]; [|discriminate].
  destruct (crypto_xor_cpy iv 0 iv_seed 0 _ 0 8) as [iv1|]; [|discriminate].
  destruct (if 8 <? iv_size cc then _ else _) as [iv2|]; [|discriminate].
  injection G as <-. reflexivity.
Qed.

End TcwProps.

Arguments crypt_iv_tcw_post {crc_desc}.

(** A stand-in for the crc32 transform: the state is the bytes seen, the
    digest their successors. *)
Definition toy_crc_update (d : list Z) (bs : list Z) : Z * list Z := (0, d ++ bs).
Definition toy_crc_final (d : list Z) : Z * list Z :=
  (0, map (fun b => (b + 1) mod 256) (firstn 4 d)).

Definition cc_tcw : crypt_config :=
  {| iv_gen_ops := Some tcw;
     iv_gen_private := priv_tcw tfm_ok (Some (repeat 5 16))
                         (Some (map Z.of_nat (seq 1 16)));
     iv_size := 16; sector_size := 512; key_size := 64; key_parts := 3;
     tfms_count := 1; blocksize := 16 |}.

Definition tcw_cipher : list Z := map Z.of_nat (seq 0 512).

Definition tcw_on_disk : list Z :=
  Eval vm_compute in
    match crypt_iv_tcw_post (0, []) toy_crc_update toy_crc_final cc_tcw
            {| iv_sector := 9; bio_in_dir := WRITE; sg_in_data := [] |}
            tcw_cipher
    with
    | Some (_, w) => w
    | None => []
    end.

Definition tcw_write_out : gen_out :=
  Eval vm_compute in
    match crypt_iv_tcw_gen (0, []) toy_crc_update toy_crc_final cc_tcw
            (repeat 0 16)
            {| iv_sector := 9; bio_in_dir := WRITE; sg_in_data := [] |}
    with
    | Some o => o
    | None => {| g_ret := 1; g_iv := []; g_data := [] |}
    end.

Lemma tcw_whitening_round_trip_witness :
  tcw_on_disk <> tcw_cipher
  /\ crypt_iv_tcw_gen (0, []) toy_crc_update toy_crc_final cc_tcw (repeat 0 16)
       {| iv_sector := 9; bio_in_dir := READ; sg_in_data := tcw_on_disk |}
     = Some {| g_ret := 0; g_iv := g_iv tcw_write_out; g_data := tcw_cipher |}.
Proof.
  split; [vm_compute; discriminate|].
  exact (proj1 (proj2 (proj2 (proj2
           (tcw_whitening_round_trip (list Z) (0, []) toy_crc_update
              toy_crc_final cc_tcw (repeat 0 16) 9 [] tcw_cipher tcw_on_disk
              tcw_write_out ltac:(cbn; lia) eq_refl eq_refl))))).
Defined.

(** *** Constructors and destructors of lmk and tcw: what they hold *)

(** Handles and buffers held after a sequence of allocations and
    releases. *)
Fixpoint held (evs : list alloc_ev) : Z * Z :=
  match evs with
  | [] => (0, 0)
  | e :: rest =>
      let '(h, b) := held rest in
      match e with
      | Alloc_shash _ => (h + 1, b)
      | Free_shash => (h - 1, b)
      | Kzalloc _ => (h, b + 1)
      | Kzfree => (h, b - 1)
      end
  end.

(** What [crypto_alloc_shash] may return: a live handle, or an error
    pointer, which carries one of the negated errno values. *)
Definition alloc_result (p : tfm_ptr) : Prop :=
  match p with
  | tfm_ok => True
  | tfm_err e => -4095 <= e < 0
  | tfm_null => False
  end.

(** X6. [crypt_dtr] calls the generator's destructor whether its constructor
    succeeded or failed half way. Starting from the zeroed private area,
    for every answer of the allocators: the constructor followed by the
    destructor holds nothing (no leak), a second destructor call releases
    nothing (no double free), and a successful constructor holds the hash
    handle and its seed buffers: for lmk one buffer unless the key has no
    seed part, for tcw two. *)
Theorem lmk_tcw_ctr_dtr_release_everything
    (cc : crypt_config) (env : alloc_env) :
  iv_gen_private cc = priv_zero ->
  alloc_result (alloc_shash env) ->
  (let r := crypt_iv_lmk_ctr cc env in
   held (c_allocs r ++ snd (crypt_iv_lmk_dtr (c_cc r))) = (0, 0)
   /\ snd (crypt_iv_lmk_dtr (fst (crypt_iv_lmk_dtr (c_cc r)))) = []
   /\ (c_ret r = 0 ->
       held (c_allocs r)
       = (1, if key_parts cc =? tfms_count cc then 0 else 1)))
  /\ (let r := crypt_iv_tcw_ctr cc env in
      held (c_allocs r ++ snd (crypt_iv_tcw_dtr (c_cc r))) = (0, 0)
      /\ snd (crypt_iv_tcw_dtr (fst (crypt_iv_tcw_dtr (c_cc r)))) = []
      /\ (c_ret r = 0 -> held (c_allocs r) = (1, 2))).
Proof.
  intros P N. cbv zeta. split.
  - unfold crypt_iv_lmk_ctr, crypt_iv_lmk_dtr. rewrite ?P.
    destruct (negb (sector_size cc =? Z.shiftl 1 SECTOR_SHIFT)).
    { cbn. rewrite ?P. cbn. repeat split. discriminate. }
    destruct (alloc_shash env) as [|e|]; [contradiction| |].
    + cbn in N. cbn. repeat split. lia.
    + destruct (key_parts cc =? tfms_count cc).
      * cbn. repeat split.
      * destruct (kzalloc_first env); cbn; repeat split; discriminate.
  - unfold crypt_iv_tcw_ctr, crypt_iv_tcw_dtr. rewrite ?P.
    destruct (negb (sector_size cc =? Z.shiftl 1 SECTOR_SHIFT)).
    { cbn. rewrite ?P. cbn. repeat split. discriminate. }
    destruct (key_size cc <=? wrap32 (iv_size cc + TCW_WHITENING_SIZE)).
    { cbn. rewrite ?P. cbn. repeat split. discriminate. }
    cbn [tcw_view].
    destruct (alloc_shash env) as [|e|]; [contradiction| |].
    + cbn in N. cbn. repeat split. lia.
    + destruct (kzalloc_first env), (kzalloc_second env); cbn; repeat split;
        discriminate.
Qed.

Lemma lmk_tcw_ctr_dtr_release_everything_witness :
  let env := {| alloc_shash := tfm_ok; kzalloc_first := true;
                kzalloc_second := false |} in
  let cc := {| iv_gen_ops := Some tcw; iv_gen_private := priv_zero;
               iv_size := 16; sector_size := 512; key_size := 64;
               key_parts := 3; tfms_count := 1; blocksize := 16 |} in
  c_ret (crypt_iv_tcw_ctr cc env) = - ENOMEM
  /\ c_allocs (crypt_iv_tcw_ctr cc env)
     = [Alloc_shash "crc32"%string; Kzalloc 16; Kzfree; Free_shash]
  /\ held (c_allocs (crypt_iv_tcw_ctr cc env)
           ++ snd (crypt_iv_tcw_dtr (c_cc (crypt_iv_tcw_ctr cc env)))) = (0, 0).
Proof.
  cbv zeta. split; [reflexivity|]. split; [reflexivity|].
  exact (proj1 (proj2 (lmk_tcw_ctr_dtr_release_everything
                         {| iv_gen_ops := Some tcw; iv_gen_private := priv_zero;
                            iv_size := 16; sector_size := 512; key_size := 64;
                            key_parts := 3; tfms_count := 1; blocksize := 16 |}
                         {| alloc_shash := tfm_ok; kzalloc_first := true;
                            kzalloc_second := false |}
                         eq_refl I))).
Defined.

(** *** crypt_ctr_ivmode *)

(** Result of [crypt_ctr_ivmode]: the return value, [ti->error], and the
    fields of the configuration it writes. *)
Record ivmode_result := {
  m_ret : Z;
  m_error : option String.string;
  m_cc : crypt_config;
  m_key_extra_size : Z;
  m_integrity_iv_size : Z
}.

Definition set_ivmode (cc : crypt_config) (ops : option iv_mode)
    (ivsize parts : Z) : crypt_config :=
  {| iv_gen_ops := ops; iv_gen_private := iv_gen_private cc; iv_size := ivsize;
     sector_size := sector_size cc; key_size := key_size cc;
     key_parts := parts; tfms_count := tfms_count cc;
     blocksize := blocksize cc |}.

(** [crypt_ctr_ivmode(ti, ivmode)]. [tfm_ivsize] is the IV size the
    transform in use reports ([crypto_aead_ivsize] or
    [crypto_skcipher_ivsize]); [key_extra_size] and [integrity_iv_size] are
    the fields as they stand. *)
Definition crypt_ctr_ivmode (cc : crypt_config)
    (key_extra_size integrity_iv_size : Z) (tfm_ivsize : Z)
    (ivmode : option String.string) : ivmode_result :=
  let ivsize := if negb (tfm_ivsize =? 0) then Z.max tfm_ivsize 8
                else tfm_ivsize in
  let ivmode := if negb (tfm_ivsize =? 0) then ivmode else None in
  let ok ops parts extra iiv :=
    {| m_ret := 0; m_error := None; m_cc := set_ivmode cc ops ivsize parts;
       m_key_extra_size := extra; m_integrity_iv_size := iiv |} in
  match ivmode with
  | None => ok None (key_parts cc) key_extra_size integrity_iv_size
  | Some name =>
      if String.eqb name "plain" then
        ok (Some plain) (key_parts cc) key_extra_size integrity_iv_size
      else if String.eqb name "plain64" then
        ok (Some plain64) (key_parts cc) key_extra_size integrity_iv_size
      else if String.eqb name "plain64be" then
        ok (Some plain64be) (key_parts cc) key_extra_size integrity_iv_size
      else if String.eqb name "essiv" then
        ok (Some essiv) (key_parts cc) key_extra_size integrity_iv_size
      else if String.eqb name "benbi" then
        ok (Some benbi) (key_parts cc) key_extra_size integrity_iv_size
      else if String.eqb name "null" then
        ok (Some null) (key_parts cc) key_extra_size integrity_iv_size
      else if String.eqb name "lmk" then
        if negb (key_size cc mod key_parts cc =? 0) then
          let parts := wrap32 (key_parts cc + 1) in
          ok (Some lmk) parts (key_size cc / parts) integrity_iv_size
        else ok (Some lmk) (key_parts cc) key_extra_size integrity_iv_size
      else if String.eqb name "tcw" then
        ok (Some tcw) (wrap32 (key_parts cc + 2))
          (wrap32 (ivsize + TCW_WHITENING_SIZE)) integrity_iv_size
      else if String.eqb name "random" then
        ok (Some random) (key_parts cc) key_extra_size ivsize
      else
        {| m_ret := - EINVAL; m_error := Some "Invalid IV mode"%string;
           m_cc := set_ivmode cc (iv_gen_ops cc) ivsize (key_parts cc);
           m_key_extra_size := key_extra_size;
           m_integrity_iv_size := integrity_iv_size |}
  end.

Definition iv_mode_names : list String.string :=
  ["plain"; "plain64"; "plain64be"; "essiv"; "benbi"; "null"; "lmk"; "tcw";
   "random"]%string.

Lemma ivmode_ops_size cc kx ii ivsize ivmode mode :
  0 <= ivsize ->
  iv_gen_ops (m_cc (crypt_ctr_ivmode cc kx ii ivsize ivmode)) = Some mode ->
  m_ret (crypt_ctr_ivmode cc kx ii ivsize ivmode) = 0 ->
  iv_size (m_cc (crypt_ctr_ivmode cc kx ii ivsize ivmode)) = Z.max ivsize 8
  /\ ivsize <> 0.
Proof.
  intros B. unfold crypt_ctr_ivmode.
  destruct (Z.eqb_spec ivsize 0) as [->|N]; cbn [negb].
  - cbn. discriminate.
  - destruct ivmode as [name|]; [|cbn; discriminate].
    repeat match goal with
           | |- context [if ?c then _ else _] => destruct c
           end; cbn; try discriminate; auto.
Qed.

(** X7. The name decides: with a cipher that has an IV, [crypt_ctr_ivmode]
    succeeds exactly for no name or one of the nine known names, and a
    generator is selected exactly when a name is given; with a cipher that
    has no IV every name, known or not, is accepted and ignored. The IV
    size is the transform's, raised to 8 bytes when it is smaller and not
    zero. *)
Theorem crypt_ctr_ivmode_accepts_known_names
    (cc : crypt_config) (kx ii ivsize : Z) (ivmode : option String.string) :
  0 <= ivsize ->
  let r := crypt_ctr_ivmode cc kx ii ivsize ivmode in
  (m_ret r = 0 \/ m_ret r = - EINVAL)
  /\ (m_ret r = 0 <->
      ivsize = 0 \/ ivmode = None
      \/ exists name, ivmode = Some name /\ In name iv_mode_names)
  /\ (ivsize = 0 -> m_ret r = 0 /\ iv_gen_ops (m_cc r) = None
                    /\ iv_size (m_cc r) = 0)
  /\ (ivsize <> 0 -> iv_size (m_cc r) = Z.max ivsize 8)
  /\ (m_ret r = 0 -> ivsize <> 0 ->
      (iv_gen_ops (m_cc r) = None <-> ivmode = None)).
Proof.
  intros B. cbv zeta. unfold crypt_ctr_ivmode.
  destruct (Z.eqb_spec ivsize 0) as [->|N]; cbn [negb].
  { cbn. repeat split; auto; try contradiction. }
  destruct ivmode as [name|].
  2:{ cbn. repeat split; auto; try contradiction. }
  unfold iv_mode_names.
  repeat match goal with
         | |- context [if String.eqb ?a ?b then _ else _] =>
             destruct (String.eqb_spec a b)
         end;
    try destruct (negb (key_size cc mod key_parts cc =? 0));
    cbn [m_ret m_cc iv_gen_ops iv_size set_ivmode];
    (split; [auto|]); (split; [|split; [contradiction|split; [reflexivity|]]]).
  all: try (split; [intros _; right; right; exists name; split;
                      [reflexivity|subst name; cbn; tauto]
                   |reflexivity]).
  all: try (intros _ _; split; discriminate).
  all: try (intros H; discriminate H).
  all: split; [discriminate|].
  all: intros [E|[E|(nm & E & I)]]; [contradiction|discriminate|].
  all: injection E as <-; cbn in I.
  all: repeat (destruct I as [I|I]; [symmetry in I; contradiction|]).
  all: contradiction.
Qed.

Lemma crypt_ctr_ivmode_accepts_known_names_witness :
  m_ret (crypt_ctr_ivmode (cc_aes16 plain priv_zero) 0 0 0
           (Some "no-such-mode"%string)) = 0
  /\ m_ret (crypt_ctr_ivmode (cc_aes16 plain priv_zero) 0 0 16
              (Some "no-such-mode"%string)) = - EINVAL
  /\ iv_size (m_cc (crypt_ctr_ivmode (cc_aes16 plain priv_zero) 0 0 4
                      (Some "plain64"%string))) = 8.
Proof.
  split; [|split].
  - exact (proj1
             (proj1 (proj2 (proj2
                (crypt_ctr_ivmode_accepts_known_names (cc_aes16 plain priv_zero)
                   0 0 0 (Some "no-such-mode"%string) ltac:(lia))))
                eq_refl)).
  - reflexivity.
  - exact (proj1 (proj2 (proj2 (proj2
             (crypt_ctr_ivmode_accepts_known_names (cc_aes16 plain priv_zero)
                0 0 4 (Some "plain64"%string) ltac:(lia)))))
             ltac:(discriminate)).
Defined.

Section IvmodeBounds.

Variable essiv_encrypt_one : list Z -> list Z.
Variable md5_desc : Type.
Variable md5_init : Z * md5_desc.
Variable md5_update : md5_desc -> list Z -> Z * md5_desc.
Variable md5_export : md5_desc -> Z * list Z.
Variable crc_desc : Type.
Variable crc32_init : Z * crc_desc.
Variable crc32_update : crc_desc -> list Z -> Z * crc_desc.
Variable crc32_final : crc_desc -> Z * list Z.

Let gen := generator essiv_encrypt_one md5_init md5_update md5_export
             crc32_init crc32_update crc32_final.

(** X8. The sector-number generators write the IV buffer at fixed places: 4 or
    8 bytes at its start, or 8 bytes at its end. Whenever
    [crypt_ctr_ivmode] selects one of them the IV buffer is at least 8
    bytes long, so on a buffer of [iv_size] bytes the generator stays
    inside it and succeeds: the configuration as [crypt_ctr_ivmode] leaves
    it serves plain, plain64, plain64be and null, and benbi once its own
    constructor has accepted the cipher block size. *)
Theorem selected_generator_stays_inside_iv_buffer
    (cc : crypt_config) (kx ii ivsize : Z) (ivmode : option String.string)
    (mode : iv_mode) (cc' : crypt_config)
    (iv : list Z) (dmreq : dm_crypt_request) (rnd : list Z) :
  0 <= ivsize < 2 ^ 32 ->
  let r := crypt_ctr_ivmode cc kx ii ivsize ivmode in
  m_ret r = 0 ->
  iv_gen_ops (m_cc r) = Some mode ->
  (In mode [plain; plain64; plain64be; null] /\ cc' = m_cc r)
  \/ (mode = benbi /\ c_ret (crypt_iv_benbi_ctr (m_cc r)) = 0
      /\ cc' = c_cc (crypt_iv_benbi_ctr (m_cc r))) ->
  Z.of_nat (length iv) = iv_size (m_cc r) ->
  8 <= iv_size (m_cc r)
  /\ exists out,
       gen mode cc' iv dmreq rnd = Some out
       /\ g_ret out = 0
       /\ length (g_iv out) = length iv.
Proof.
  intros B r R Ops Which L.
  destruct (ivmode_ops_size cc kx ii ivsize ivmode mode (proj1 B) Ops R)
    as [Sz Nz].
  fold r in Sz.
  assert (S8 : 8 <= iv_size (m_cc r) < 2 ^ 32) by lia.
  split; [lia|].
  destruct Which as [[I ->]|(-> & Rb & ->)].
  - cbn in I. destruct I as [<-|[<-|[<-|[<-|[]]]]]; unfold gen; cbn [generator].
    + rewrite (plain_gen_closed _ iv dmreq L) by lia.
      eexists. split; [reflexivity|]. split; [reflexivity|]. cbn [g_iv].
      rewrite length_app, repeat_length. unfold cpu_to_le32.
      rewrite le_bytes_length. lia.
    + rewrite (plain64_gen_closed _ iv dmreq L) by lia.
      eexists. split; [reflexivity|]. split; [reflexivity|]. cbn [g_iv].
      rewrite length_app, repeat_length. unfold cpu_to_le64.
      rewrite le_bytes_length. lia.
    + rewrite (plain64be_gen_closed _ iv dmreq L) by lia.
      eexists. split; [reflexivity|]. split; [reflexivity|]. cbn [g_iv].
      rewrite length_app, repeat_length, be64_length. lia.
    + rewrite (null_gen_closed _ iv dmreq L).
      eexists. split; [reflexivity|]. split; [reflexivity|]. cbn [g_iv].
      apply repeat_length.
  - unfold gen; cbn [generator].
    unfold crypt_iv_benbi_ctr in *.
    destruct (negb (Z.shiftl 1 (ilog2 (blocksize (m_cc r))) =? blocksize (m_cc r)));
      [discriminate Rb|].
    destruct (9 <? ilog2 (blocksize (m_cc r))); [discriminate Rb|].
    cbn [c_cc].
    rewrite (benbi_gen_closed
               (set_private (m_cc r)
                  (priv_benbi (9 - ilog2 (blocksize (m_cc r)))))
               iv dmreq L (9 - ilog2 (blocksize (m_cc r))))
      by (auto; cbn; lia).
    eexists. split; [reflexivity|]. split; [reflexivity|]. cbn [g_iv].
    rewrite length_app, repeat_length, be64_length. lia.
Qed.

End IvmodeBounds.

Definition no_md5 : Z * unit := (0, tt).
Definition no_md5_update (d : unit) (bs : list Z) : Z * unit := (0, d).
Definition no_md5_export (d : unit) : Z * list Z := (0, []).

Lemma selected_generator_stays_inside_iv_buffer_witness :
  let r := crypt_ctr_ivmode (cc_aes16 plain priv_zero) 0 0 4
             (Some "plain64be"%string) in
  8 <= iv_size (m_cc r)
  /\ exists out,
       generator (fun b => b) no_md5 no_md5_update no_md5_export
         (0, []) toy_crc_update toy_crc_final plain64be (m_cc r)
         (repeat 0 8) (req_at 3) [] = Some out
       /\ g_ret out = 0
       /\ length (g_iv out) = length (repeat 0 8).
Proof.
  exact (selected_generator_stays_inside_iv_buffer (fun b => b) unit no_md5
           no_md5_update no_md5_export (list Z) (0, []) toy_crc_update
           toy_crc_final (cc_aes16 plain priv_zero) 0 0 4
           (Some "plain64be"%string) plain64be _ (repeat 0 8) (req_at 3) []
           ltac:(lia) eq_refl eq_refl
           (or_introl (conj (or_intror (or_intror (or_introl eq_refl)))
                            eq_refl))
           eq_refl).
Defined.

End IV.

(** * The write tree: kcryptd_crypt_write_io_submit and dmcrypt_write *)

Module WriteTree.

(** What the write path reads of [struct dm_crypt_io]. *)
Record dm_crypt_io := {
  io_id : nat;          (* identity of the request *)
  io_sector : Z;        (* io->sector when kcryptd_crypt_write_io_submit
                           runs: the starting sector of the write *)
  io_error : Z;         (* io->error, a blk_status_t; 0 is success *)
  clone_sectors : Z     (* bio_sectors(io->ctx.bio_out) *)
}.

(** The local [sector] of [kcryptd_crypt_write_convert] after
    [sector += bio_sectors(clone)]: the value the function stores into
    [io->sector] once it has submitted the request itself. *)
Definition end_sector (io : dm_crypt_io) : Z :=
  wrap64 (io_sector io + clone_sectors io).

Inductive color := Red | Black.

(** [struct rb_root]: [RB_ROOT] is the empty tree. A node is embedded in
    its request; [moved] tells whether [kcryptd_crypt_write_convert] has
    overwritten [io->sector] with the end sector since the node was
    linked. *)
Inductive rb_root :=
| RB_ROOT
| rb_node (c : color) (rb_left : rb_root) (io : dm_crypt_io) (moved : bool)
    (rb_right : rb_root).

(** [crypt_io_from_node(node)->sector], as a descent reads it. *)
Definition node_sector (io : dm_crypt_io) (moved : bool) : Z :=
  if moved then end_sector io else io_sector io.

(** The in-order sequence of the nodes, and of the requests alone. *)
Fixpoint nodes (t : rb_root) : list (dm_crypt_io * bool) :=
  match t with
  | RB_ROOT => []
  | rb_node _ l io moved r => nodes l ++ (io, moved) :: nodes r
  end.

Fixpoint inorder (t : rb_root) : list dm_crypt_io :=
  match t with
  | RB_ROOT => []
  | rb_node _ l io _ r => inorder l ++ io :: inorder r
  end.

Definition RB_EMPTY_ROOT (t : rb_root) : bool :=
  match t with RB_ROOT => true | _ => false end.

(** The descent of [kcryptd_crypt_write_io_submit] followed by
    [rb_link_node]: left when [sector < parent->sector], right otherwise;
    the new node is linked red at the leaf reached. [sector] is the new
    request's [io->sector]; [parent->sector] is whatever the parent's
    [io->sector] holds by now. *)
Fixpoint rb_link_node (io : dm_crypt_io) (t : rb_root) : rb_root :=
  match t with
  | RB_ROOT => rb_node Red RB_ROOT io false RB_ROOT
  | rb_node c l parent moved r =>
      if io_sector io <? node_sector parent moved
      then rb_node c (rb_link_node io l) parent moved r
      else rb_node c l parent moved (rb_link_node io r)
  end.

(** [io->sector = sector] at the end of [kcryptd_crypt_write_convert], seen
    from the tree: the request [id], if it is still linked, now carries its
    end sector. *)
Fixpoint move_sector (id : nat) (t : rb_root) : rb_root :=
  match t with
  | RB_ROOT => RB_ROOT
  | rb_node c l io moved r =>
      rb_node c (move_sector id l) io (moved || (io_id io =? id)%nat)
        (move_sector id r)
  end.

(** [rb_first]: the leftmost node. *)
Fixpoint rb_first (t : rb_root) : option dm_crypt_io :=
  match t with
  | RB_ROOT => None
  | rb_node _ RB_ROOT io _ _ => Some io
  | rb_node _ l _ _ _ => rb_first l
  end.

(** Unlinking the leftmost node: its right child takes its place. *)
Fixpoint unlink_first (t : rb_root) : rb_root :=
  match t with
  | RB_ROOT => RB_ROOT
  | rb_node _ RB_ROOT _ _ r => r
  | rb_node c l io moved r => rb_node c (unlink_first l) io moved r
  end.



(** The Write Reordering Stage: the tree under [write_thread_wait.lock],
    and what left the stage: the batches the write thread submitted (oldest
    first), the clones submitted directly, and the requests released on
    error. *)
Record stage := {
  write_tree : rb_root;
  batches : list (list dm_crypt_io);
  direct : list dm_crypt_io;
  released : list dm_crypt_io
}.

Definition stage_init : stage :=
  {| write_tree := RB_ROOT; batches := []; direct := []; released := [] |}.

(** What happens to the stage. [kcryptd_crypt_write_convert] calls
    [kcryptd_crypt_write_io_submit(io, 0)] and then assigns [io->sector]
    without holding the lock, so other completions and the write thread may
    run between the two: they are two events. *)
Inductive event :=
| Converted (io : dm_crypt_io) (async : bool)  (* kcryptd_crypt_write_io_submit *)
| SectorMoved (id : nat)                       (* io->sector = sector *)
| WriteThread.                                 (* one pass of dmcrypt_write *)

Section Rbtree.

(** Modelled from the spec: the rebalancing steps of the kernel's red-black
    tree library (rb_insert_color, and the recolouring inside rb_erase) are
    not part of the driver's source. The spec asks only for an ordered
    structure keyed by sector; the two steps are parameters that may
    recolour and rotate, that is, rearrange the tree while keeping its
    in-order sequence. *)
Variable rb_insert_color : rb_root -> rb_root.
Variable rb_erase_color : rb_root -> rb_root.

(** [rb_erase(&io->rb_node, &write_tree)] for [io = rb_first(&write_tree)]. *)
Definition rb_erase_first (t : rb_root) : rb_root :=
  rb_erase_color (unlink_first t).

(** The do-while loop of [dmcrypt_write]: take the first node, erase it,
    submit it; stop when the tree is empty. [None]: [rb_first] returned
    NULL, or the fuel ran out. *)
Fixpoint drain (fuel : nat) (t : rb_root) : option (list dm_crypt_io) :=
  match fuel with
  | O => None
  | S fuel' =>
      match rb_first t with
      | None => None
      | Some io =>
          let t' := rb_erase_first t in
          if RB_EMPTY_ROOT t' then Some [io]
          else match drain fuel' t' with
               | Some rest => Some (io :: rest)
               | None => None
               end
      end
  end.

Definition kcryptd_crypt_write_io_submit (no_offload : bool) (st : stage)
    (io : dm_crypt_io) (async : bool) : stage :=
  if negb (io_error io =? 0) then
    {| write_tree := write_tree st; batches := batches st;
       direct := direct st; released := released st ++ [io] |}
  else if negb async && no_offload then
    {| write_tree := write_tree st; batches := batches st;
       direct := direct st ++ [io]; released := released st |}
  else
    {| write_tree := rb_insert_color (rb_link_node io (write_tree st));
       batches := batches st; direct := direct st; released := released st |}.

(** One pass of the loop of [dmcrypt_write]: sleep on an empty tree;
    otherwise take the whole tree, leave [RB_ROOT] behind and submit the
    entries. *)
Definition dmcrypt_write (st : stage) : option stage :=
  if RB_EMPTY_ROOT (write_tree st) then Some st
  else
    match drain (length (inorder (write_tree st))) (write_tree st) with
    | Some batch =>
        Some {| write_tree := RB_ROOT; batches := batches st ++ [batch];
                direct := direct st; released := released st |}
    | None => None
    end.

Definition step (no_offload : bool) (st : stage) (e : event) : option stage :=
  match e with
  | Converted io async => Some (kcryptd_crypt_write_io_submit no_offload st io async)
  | SectorMoved id =>
      Some {| write_tree := move_sector id (write_tree st);
              batches := batches st; direct := direct st;
              released := released st |}
  | WriteThread => dmcrypt_write st
  end.

Fixpoint run (no_offload : bool) (st : stage) (es : list event) : option stage :=
  match es with
  | [] => Some st
  | e :: es' =>
      match step no_offload st e with
      | Some st' => run no_offload st' es'
      | None => None
      end
  end.

End Rbtree.

(** The requests handed to [kcryptd_crypt_write_io_submit], oldest first. *)
Definition converted (es : list event) : list dm_crypt_io :=
  flat_map (fun e => match e with Converted io _ => [io] | _ => [] end) es.

(** *** The tree as its in-order sequence *)

Lemma inorder_nodes t : inorder t = map fst (nodes t).
Proof.
  induction t as [|c l IHl io mv r IHr]; [reflexivity|].
  cbn [inorder nodes]. now rewrite map_app, IHl, IHr.
Qed.

Lemma inorder_nil t : inorder t = [] -> t = RB_ROOT.
Proof.
  destruct t as [|c l io mv r]; [reflexivity|].
  simpl. intros H. now apply app_eq_nil in H as [_ H].
Qed.

Lemma RB_EMPTY_ROOT_inorder t : RB_EMPTY_ROOT t = true <-> inorder t = [].
Proof.
  split.
  - destruct t; [reflexivity|discriminate].
  - intros H. now rewrite (inorder_nil t H).
Qed.

Lemma rb_first_inorder t : rb_first t = hd_error (inorder t).
Proof.
  induction t as [|c l IHl io mv r _]; [reflexivity|].
  destruct l as [|cl ll lio lmv lr]; [reflexivity|].
  change (rb_first (rb_node c (rb_node cl ll lio lmv lr) io mv r))
    with (rb_first (rb_node cl ll lio lmv lr)).
  rewrite IHl. cbn [inorder].
  destruct (inorder ll ++ lio :: inorder lr) eqn:E; [|reflexivity].
  now apply app_eq_nil in E as [_ E].
Qed.

Lemma unlink_first_inorder t : inorder (unlink_first t) = tl (inorder t).
Proof.
  induction t as [|c l IHl io mv r _]; [reflexivity|].
  destruct l as [|cl ll lio lmv lr]; [reflexivity|].
  change (unlink_first (rb_node c (rb_node cl ll lio lmv lr) io mv r))
    with (rb_node c (unlink_first (rb_node cl ll lio lmv lr)) io mv r).
  cbn [inorder] in *. rewrite IHl.
  destruct (inorder ll ++ lio :: inorder lr) eqn:E; [|reflexivity].
  now apply app_eq_nil in E as [_ E].
Qed.

(** The assignment to [io->sector] moves no node. *)
Lemma move_sector_nodes id t :
  nodes (move_sector id t)
  = map (fun n => (fst n, snd n || (io_id (fst n) =? id)%nat)) (nodes t).
Proof.
  induction t as [|c l IHl io mv r IHr]; [reflexivity|].
  cbn [move_sector nodes]. now rewrite map_app, IHl, IHr.
Qed.

Lemma move_sector_inorder id t : inorder (move_sector id t) = inorder t.
Proof.
  rewrite !inorder_nodes, move_sector_nodes, map_map. reflexivity.
Qed.







Lemma rb_link_node_nodes_perm io t :
  Permutation ((io, false) :: nodes t) (nodes (rb_link_node io t)).
Proof.
  induction t as [|c l IHl p mv r IHr]; [reflexivity|].
  cbn [rb_link_node nodes].
  destruct (io_sector io <? node_sector p mv); cbn [nodes].
  - rewrite <- IHl. reflexivity.
  - rewrite <- IHr. apply Permutation_sym.
    etransitivity; [apply Permutation_app_head, perm_swap|].
    apply Permutation_sym.
    apply (Permutation_middle (nodes l) ((p, mv) :: nodes r) (io, false)).
Qed.

Lemma rb_link_node_perm io t :
  Permutation (io :: inorder t) (inorder (rb_link_node io t)).
Proof.
  rewrite !inorder_nodes.
  apply (Permutation_map fst (rb_link_node_nodes_perm io t)).
Qed.






(** *** Draining the tree *)

Section Drain.

Variable rb_erase_color : rb_root -> rb_root.
Hypothesis rb_erase_color_inorder :
  forall t, inorder (rb_erase_color t) = inorder t.

Lemma drain_inorder fuel t :
  inorder t <> [] -> (length (inorder t) <= fuel)%nat ->
  drain rb_erase_color fuel t = Some (inorder t).
Proof.
  revert t. induction fuel as [|fuel IH]; intros t Hne Hlen.
  - destruct (inorder t); [contradiction|simpl in Hlen; lia].
  - cbn [drain]. rewrite rb_first_inorder.
    destruct (inorder t) as [|io rest] eqn:E; [contradiction|].
    cbn [hd_error].
    assert (R : inorder (rb_erase_first rb_erase_color t) = rest).
    { unfold rb_erase_first.
      now rewrite rb_erase_color_inorder, unlink_first_inorder, E. }
    destruct (RB_EMPTY_ROOT (rb_erase_first rb_erase_color t)) eqn:Em.
    + apply RB_EMPTY_ROOT_inorder in Em. rewrite R in Em. now rewrite Em.
    + assert (rest <> []).
      { intros ->. apply RB_EMPTY_ROOT_inorder in R. congruence. }
      rewrite IH; rewrite R; auto. simpl in Hlen. lia.
Qed.


End Drain.

(** *** The order in which the write thread submits a batch *)




Section WriteOrder.

Variable rb_insert_color : rb_root -> rb_root.
Variable rb_erase_color : rb_root -> rb_root.
Hypothesis rb_insert_color_nodes :
  forall t, nodes (rb_insert_color t) = nodes t.
Hypothesis rb_erase_color_inorder :
  forall t, inorder (rb_erase_color t) = inorder t.

Lemma rb_insert_color_inorder t : inorder (rb_insert_color t) = inorder t.
Proof. now rewrite !inorder_nodes, rb_insert_color_nodes. Qed.









(** Requests converted without error and handed to the write thread by the
    completion callback. *)
Definition queued (ios : list dm_crypt_io) : list event :=
  map (fun io => Converted io true) ios.







End WriteOrder.

Lemma run_app ic ec no_offload es1 es2 st :
  run ic ec no_offload st (es1 ++ es2)
  = match run ic ec no_offload st es1 with
    | Some st' => run ic ec no_offload st' es2
    | None => None
    end.
Proof.
  revert st. induction es1 as [|e es1 IH]; intros st; [reflexivity|].
  cbn [app run]. destruct (step ic ec no_offload st e); auto.
Qed.

Definition io_at (s : Z) : dm_crypt_io :=
  {| io_id := Z.to_nat s; io_sector := s; io_error := 0; clone_sectors := 1 |}.



(** A rebalancing step for the examples: a right rotation at the root. *)
Definition rotate_right (t : rb_root) : rb_root :=
  match t with
  | rb_node c (rb_node cl a x mx b) y my r =>
      rb_node cl a x mx (rb_node c b y my r)
  | _ => t
  end.

Lemma rotate_right_nodes t : nodes (rotate_right t) = nodes t.
Proof.
  destruct t as [|c [|cl a x mx b] y my r]; try reflexivity.
  cbn [rotate_right nodes]. now rewrite <- app_assoc.
Qed.

Lemma rotate_right_inorder t : inorder (rotate_right t) = inorder t.
Proof. now rewrite !inorder_nodes, rotate_right_nodes. Qed.



(** ** Nothing is lost in the stage, and equal sectors keep their order *)

(** Everything the stage holds or has let go. *)
Definition accounted_for (st : stage) : list dm_crypt_io :=
  released st ++ direct st ++ concat (batches st) ++ inorder (write_tree st).

Definition failed_io (io : dm_crypt_io) : bool := negb (io_error io =? 0).

Section Conservation.

Variable rb_insert_color : rb_root -> rb_root.
Variable rb_erase_color : rb_root -> rb_root.
Hypothesis rb_insert_color_inorder :
  forall t, inorder (rb_insert_color t) = inorder t.
Hypothesis rb_erase_color_inorder :
  forall t, inorder (rb_erase_color t) = inorder t.

(** The invariant: what the stage accounts for is what was handed in; the
    failed requests were released, in order; nothing that failed is in the
    tree or was submitted; direct submission happens only with
    [DM_CRYPT_NO_OFFLOAD]. *)
Record conserved (no_offload : bool) (seen : list dm_crypt_io) (st : stage)
  : Prop := {
  cons_perm : Permutation seen (accounted_for st);
  cons_released : released st = filter failed_io seen;
  cons_clean :
    Forall (fun io => io_error io = 0)
      (direct st ++ concat (batches st) ++ inorder (write_tree st));
  cons_direct : no_offload = false -> direct st = []
}.

Lemma filter_snoc {A} (p : A -> bool) l x :
  filter p (l ++ [x]) = filter p l ++ (if p x then [x] else []).
Proof. rewrite filter_app. cbn [filter]. now destruct (p x). Qed.

Lemma perm_snoc_into {A} (pre mid post : list A) x :
  Permutation ((pre ++ mid ++ post) ++ [x]) (pre ++ (mid ++ [x]) ++ post).
Proof.
  rewrite <- !app_assoc. do 2 apply Permutation_app_head.
  apply Permutation_app_comm.
Qed.

Lemma submit_conserved no_offload seen st io async :
  conserved no_offload seen st ->
  conserved no_offload (seen ++ [io])
    (kcryptd_crypt_write_io_submit rb_insert_color no_offload st io async).
Proof.
  intros [P R C D]. unfold kcryptd_crypt_write_io_submit, accounted_for in *.
  destruct (io_error io =? 0) eqn:E; cbn [negb].
  - apply Z.eqb_eq in E.
    destruct (negb async && no_offload) eqn:O.
    + constructor; unfold accounted_for;
        cbn [released direct batches write_tree].
      * etransitivity; [apply Permutation_app_tail; exact P|].
        apply perm_snoc_into.
      * rewrite filter_snoc. unfold failed_io at 2. rewrite E. cbn.
        now rewrite app_nil_r.
      * rewrite <- app_assoc. apply Forall_app in C as [C1 C2].
        apply Forall_app. split; [assumption|].
        constructor; assumption.
      * intros ->. now rewrite andb_false_r in O.
    + constructor; unfold accounted_for;
        cbn [released direct batches write_tree].
      * rewrite rb_insert_color_inorder, <- rb_link_node_perm.
        etransitivity; [apply Permutation_app_tail; exact P|].
        rewrite <- !app_assoc.
        do 3 apply Permutation_app_head.
        apply Permutation_sym, Permutation_cons_append.
      * rewrite filter_snoc. unfold failed_io at 2. rewrite E. cbn.
        now rewrite app_nil_r.
      * rewrite rb_insert_color_inorder.
        apply Forall_app in C as [C1 C2]. apply Forall_app in C2 as [C2 C3].
        apply Forall_app. split; [assumption|].
        apply Forall_app. split; [assumption|].
        eapply Permutation_Forall; [apply rb_link_node_perm|].
        constructor; assumption.
      * assumption.
  - constructor; unfold accounted_for;
      cbn [released direct batches write_tree]; try assumption.
    + etransitivity; [apply Permutation_app_tail; exact P|].
      apply (perm_snoc_into [] (released st)).
    + rewrite filter_snoc. unfold failed_io at 2. rewrite E. cbn.
      now rewrite R.
Qed.

Lemma move_sector_conserved no_offload seen st id :
  conserved no_offload seen st ->
  conserved no_offload seen
    {| write_tree := move_sector id (write_tree st); batches := batches st;
       direct := direct st; released := released st |}.
Proof.
  intros [P R C D]. constructor; unfold accounted_for in *;
    cbn [released direct batches write_tree];
    rewrite ?move_sector_inorder; assumption.
Qed.

Lemma write_conserved no_offload seen st :
  conserved no_offload seen st ->
  exists st', dmcrypt_write rb_erase_color st = Some st'
    /\ conserved no_offload seen st'
    /\ write_tree st' = RB_ROOT.
Proof.
  intros [P R C D]. unfold dmcrypt_write.
  destruct (RB_EMPTY_ROOT (write_tree st)) eqn:E.
  - exists st. split; [reflexivity|]. split; [now constructor|].
    apply RB_EMPTY_ROOT_inorder in E. now apply inorder_nil.
  - assert (Hne : inorder (write_tree st) <> []).
    { intros N. apply RB_EMPTY_ROOT_inorder in N. congruence. }
    rewrite (drain_inorder rb_erase_color rb_erase_color_inorder) by auto.
    eexists. split; [reflexivity|]. split; [|reflexivity].
    unfold accounted_for in *.
    constructor; unfold accounted_for;
      cbn [released direct batches write_tree inorder]; try assumption.
    + rewrite P, concat_app. cbn [concat]. now rewrite !app_nil_r.
    + rewrite concat_app. cbn [concat]. now rewrite !app_nil_r.
Qed.

Lemma run_conserved no_offload es : forall seen st st',
  conserved no_offload seen st ->
  run rb_insert_color rb_erase_color no_offload st es = Some st' ->
  conserved no_offload (seen ++ converted es) st'.
Proof.
  induction es as [|e es IH]; intros seen st st' Hc; cbn [run converted flat_map].
  - intros [= <-]. now rewrite app_nil_r.
  - destruct e as [io async|id|]; cbn [step].
    + intros H. fold (converted es).
      rewrite app_assoc. eapply IH; [|exact H].
      now apply submit_conserved.
    + intros H. cbn [app]. fold (converted es). eapply IH; [|exact H].
      now apply move_sector_conserved.
    + destruct (write_conserved no_offload seen st Hc) as (st1 & -> & Hc1 & _).
      intros H. cbn [app]. fold (converted es). eapply IH; eauto.
Qed.

Lemma run_total no_offload es : forall seen st,
  conserved no_offload seen st ->
  exists st', run rb_insert_color rb_erase_color no_offload st es = Some st'.
Proof.
  induction es as [|e es IH]; intros seen st Hc; cbn [run].
  - now exists st.
  - destruct e as [io async|id|]; cbn [step].
    + eapply IH. apply submit_conserved. exact Hc.
    + eapply IH. apply move_sector_conserved. exact Hc.
    + destruct (write_conserved no_offload seen st Hc) as (st1 & -> & Hc1 & _).
      eapply IH. exact Hc1.
Qed.

End Conservation.

Lemma stage_init_conserved no_offload : conserved no_offload [] stage_init.
Proof. constructor; cbn; auto. Qed.

(** X9. Whatever the rebalancing does (as long as it keeps the in-order
    sequence) and for every interleaving of write completions and passes
    of the write thread, the stage runs without fault and every request
    handed to [kcryptd_crypt_write_io_submit] is in exactly one place:
    released, submitted directly, submitted in a batch, or waiting in the
    tree. The requests released are exactly those that carry an error, in
    the order they came; no request with an error is ever submitted or
    queued; requests are submitted directly only when
    [DM_CRYPT_NO_OFFLOAD] is set; and one more pass of the write thread
    empties the tree, after which every error-free request has been
    submitted exactly once. *)
Theorem every_write_is_released_or_submitted_once
    (rb_insert_color rb_erase_color : rb_root -> rb_root)
    (no_offload : bool) (es : list event) :
  (forall t, inorder (rb_insert_color t) = inorder t) ->
  (forall t, inorder (rb_erase_color t) = inorder t) ->
  exists st st',
    run rb_insert_color rb_erase_color no_offload stage_init es = Some st
    /\ Permutation (converted es)
         (released st ++ direct st ++ concat (batches st)
          ++ inorder (write_tree st))
    /\ released st = filter failed_io (converted es)
    /\ Forall (fun io => io_error io = 0)
         (direct st ++ concat (batches st) ++ inorder (write_tree st))
    /\ (no_offload = false -> direct st = [])
    /\ dmcrypt_write rb_erase_color st = Some st'
    /\ write_tree st' = RB_ROOT
    /\ Permutation (filter (fun io => negb (failed_io io)) (converted es))
         (direct st' ++ concat (batches st')).
Proof.
  intros Hins Hers.
  destruct (run_total rb_insert_color rb_erase_color Hins Hers no_offload es
              [] stage_init (stage_init_conserved no_offload)) as (st & R).
  pose proof (run_conserved rb_insert_color rb_erase_color Hins Hers
                no_offload es [] stage_init st
                (stage_init_conserved no_offload) R) as Hc.
  cbn [app] in Hc.
  destruct (write_conserved rb_erase_color Hers no_offload _ st Hc)
    as (st' & W & Hc' & T).
  exists st, st'. destruct Hc as [P Rl C D].
  split; [exact R|]. split; [exact P|]. split; [exact Rl|].
  split; [exact C|]. split; [exact D|]. split; [exact W|]. split; [exact T|].
  destruct Hc' as [P' Rl' C' D']. unfold accounted_for in P'.
  rewrite T in P', C'. cbn [inorder] in P', C'. rewrite app_nil_r in P', C'.
  assert (F : forall (l : list dm_crypt_io),
            Permutation l (filter failed_io l
                           ++ filter (fun io => negb (failed_io io)) l)).
  { induction l as [|x l IH]; [reflexivity|]. cbn [filter].
    destruct (failed_io x); cbn [negb app].
    - now constructor.
    - rewrite <- Permutation_middle. now constructor. }
  rewrite Rl' in P'.
  rewrite (F (converted es)) in P' at 1.
  now apply Permutation_app_inv_l in P'.
Qed.

Lemma every_write_is_released_or_submitted_once_witness :
  exists st st',
    run rotate_right (fun t => t) true stage_init
      [Converted (io_at 7) true;
       Converted {| io_id := 1; io_sector := 3; io_error := 10; clone_sectors := 1 |} false;
       Converted (io_at 2) false; Converted (io_at 4) true] = Some st
    /\ released st = [{| io_id := 1; io_sector := 3; io_error := 10; clone_sectors := 1 |}]
    /\ direct st = [io_at 2]
    /\ dmcrypt_write (fun t => t) st = Some st'
    /\ batches st' = [[io_at 4; io_at 7]].
Proof.
  destruct (every_write_is_released_or_submitted_once rotate_right
              (fun t => t) true
              [Converted (io_at 7) true;
               Converted {| io_id := 1; io_sector := 3; io_error := 10; clone_sectors := 1 |} false;
               Converted (io_at 2) false; Converted (io_at 4) true]
              rotate_right_inorder (fun t => eq_refl))
    as (st & st' & R & _ & Rl & _ & _ & W & _).
  exists st, st'. split; [exact R|].
  cbn in R. injection R as <-. cbn in W. injection W as <-.
  repeat split.
Defined.

(** *** Requests for the same sector *)







Section SameSector.

Variable rb_insert_color : rb_root -> rb_root.
Variable rb_erase_color : rb_root -> rb_root.
Hypothesis rb_insert_color_nodes :
  forall t, nodes (rb_insert_color t) = nodes t.
Hypothesis rb_erase_color_inorder :
  forall t, inorder (rb_erase_color t) = inorder t.




End SameSector.



End WriteTree.

(** * Conversion: the request builders, crypt_convert and kcryptd_async_done *)

Module Convert.

Definition BLK_STS_OK : Z := 0.
Definition BLK_STS_PROTECTION : Z := 8.
Definition BLK_STS_IOERR : Z := 10.

(** Bits of [cc->cipher_flags] ([enum cipher_flags]). *)
Definition CRYPT_MODE_INTEGRITY_AEAD : Z := 0.
Definition CRYPT_IV_LARGE_SECTORS : Z := 1.

Definition test_bit (nr flags : Z) : bool := Z.testbit flags nr.

(** ** bios and their iterators *)

Record bio_vec := { bv_len : Z; bv_offset : Z }.

Record bvec_iter := {
  bi_sector : Z;
  bi_size : Z;
  bi_idx : Z;
  bi_bvec_done : Z
}.

Record bio := {
  bi_dir : rw;                 (* bio_data_dir *)
  bi_io_vec : list bio_vec;
  bi_iter : bvec_iter
}.

(** Modelled from the spec: the bio iterator helpers of the block layer
    (bio_iter_iovec, bio_advance_iter, bvec_iter_advance) are kernel headers
    outside the driver's source. The spec speaks of data cursors advanced by
    one sector-group; the cursor is the kernel's [struct bvec_iter] over the
    segment table: [bio_iter_iovec] is the rest of the current segment,
    capped by the bytes left. *)
Definition bio_iter_iovec (b : bio) (it : bvec_iter) : bio_vec :=
  let bv := nth (Z.to_nat (bi_idx it)) (bi_io_vec b)
              {| bv_len := 0; bv_offset := 0 |} in
  {| bv_len := Z.min (bi_size it) (bv_len bv - bi_bvec_done it);
     bv_offset := bv_offset bv + bi_bvec_done it |}.

(** Modelled from the spec: the loop of [bvec_iter_advance] over the
    segments from [bi_idx] on: consume [min(bytes, rest of the segment)],
    move to the next segment when the current one is used up. *)
Fixpoint bvec_advance (bvs : list bio_vec) (it : bvec_iter) (bytes : Z)
  : bvec_iter :=
  if bytes =? 0 then it else
  match bvs with
  | [] => it
  | bv :: rest =>
      let len := Z.min bytes (Z.min (bi_size it) (bv_len bv - bi_bvec_done it)) in
      if bi_bvec_done it + len =? bv_len bv then
        bvec_advance rest
          {| bi_sector := bi_sector it; bi_size := bi_size it - len;
             bi_idx := bi_idx it + 1; bi_bvec_done := 0 |}
          (bytes - len)
      else
        {| bi_sector := bi_sector it; bi_size := bi_size it - len;
           bi_idx := bi_idx it; bi_bvec_done := bi_bvec_done it + len |}
  end.

(** Modelled from the spec: [bio_advance_iter] for a bio that carries data:
    the sector moves by [bytes >> 9]; advancing past the end empties the
    iterator (the kernel warns); otherwise the segments are walked. *)
Definition bio_advance_iter (b : bio) (it : bvec_iter) (bytes : Z) : bvec_iter :=
  let it1 := {| bi_sector := wrap64 (bi_sector it + Z.shiftr bytes 9);
                bi_size := bi_size it; bi_idx := bi_idx it;
                bi_bvec_done := bi_bvec_done it |} in
  if bi_size it <? bytes then
    {| bi_sector := bi_sector it1; bi_size := 0; bi_idx := bi_idx it1;
       bi_bvec_done := bi_bvec_done it1 |}
  else bvec_advance (skipn (Z.to_nat (bi_idx it)) (bi_io_vec b)) it1 bytes.

(** ** Configuration and conversion context *)

(** What conversion reads of [struct crypt_config]. [has_generator] and
    [has_post] say whether [cc->iv_gen_ops] and its [post] hook are set. *)
Record crypt_config := {
  sector_size : Z;
  sector_shift : Z;
  iv_offset : Z;
  iv_size : Z;
  integrity_iv_size : Z;
  integrity_tag_size : Z;
  on_disk_tag_size : Z;
  cipher_flags : Z;
  has_generator : bool;
  has_post : bool
}.

Definition crypt_integrity_aead (cc : crypt_config) : bool :=
  test_bit CRYPT_MODE_INTEGRITY_AEAD (cipher_flags cc).

(** [struct convert_context]. [r_req] is [ctx->r.req] (NULL is [None]);
    [restart] counts the pending signals of the completion [ctx->restart]. *)
Record convert_context := {
  restart : Z;
  bio_in : bio;
  bio_out : bio;
  iter_in : bvec_iter;
  iter_out : bvec_iter;
  cc_sector : Z;
  cc_pending : Z;
  r_req : option nat
}.

Definition set_iters (ctx : convert_context) (i o : bvec_iter) : convert_context :=
  {| restart := restart ctx; bio_in := bio_in ctx; bio_out := bio_out ctx;
     iter_in := i; iter_out := o; cc_sector := cc_sector ctx;
     cc_pending := cc_pending ctx; r_req := r_req ctx |}.

Definition set_pending (ctx : convert_context) (n : Z) : convert_context :=
  {| restart := restart ctx; bio_in := bio_in ctx; bio_out := bio_out ctx;
     iter_in := iter_in ctx; iter_out := iter_out ctx;
     cc_sector := cc_sector ctx; cc_pending := n; r_req := r_req ctx |}.

Definition set_req (ctx : convert_context) (r : option nat) : convert_context :=
  {| restart := restart ctx; bio_in := bio_in ctx; bio_out := bio_out ctx;
     iter_in := iter_in ctx; iter_out := iter_out ctx;
     cc_sector := cc_sector ctx; cc_pending := cc_pending ctx; r_req := r |}.

Definition set_sector (ctx : convert_context) (s : Z) : convert_context :=
  {| restart := restart ctx; bio_in := bio_in ctx; bio_out := bio_out ctx;
     iter_in := iter_in ctx; iter_out := iter_out ctx;
     cc_sector := s; cc_pending := cc_pending ctx; r_req := r_req ctx |}.

Definition set_restart (ctx : convert_context) (n : Z) : convert_context :=
  {| restart := n; bio_in := bio_in ctx; bio_out := bio_out ctx;
     iter_in := iter_in ctx; iter_out := iter_out ctx;
     cc_sector := cc_sector ctx; cc_pending := cc_pending ctx;
     r_req := r_req ctx |}.

(** [atomic_t] operations on [ctx->cc_pending]. *)
Definition atomic_set (ctx : convert_context) (n : Z) := set_pending ctx n.
Definition atomic_inc (ctx : convert_context) := set_pending ctx (cc_pending ctx + 1).
Definition atomic_dec (ctx : convert_context) := set_pending ctx (cc_pending ctx - 1).
Definition atomic_dec_and_test (ctx : convert_context) : bool * convert_context :=
  (cc_pending ctx - 1 =? 0, set_pending ctx (cc_pending ctx - 1)).

(** [crypt_convert_init]. *)
Definition crypt_convert_init (cc : crypt_config) (ctx : convert_context)
    (b_out b_in : option bio) (sector : Z) : convert_context :=
  {| restart := 0;
     bio_in := match b_in with Some b => b | None => bio_in ctx end;
     bio_out := match b_out with Some b => b | None => bio_out ctx end;
     iter_in := match b_in with Some b => bi_iter b | None => iter_in ctx end;
     iter_out := match b_out with Some b => bi_iter b | None => iter_out ctx end;
     cc_sector := wrap64 (sector + iv_offset cc);
     cc_pending := cc_pending ctx;
     r_req := r_req ctx |}.

(** ** The request builders *)

(** What the crypto API answers during one call of a request builder: the
    IV generator, the cipher ([crypto_skcipher_encrypt] and the like), and
    the generator's post hook. *)
Record engine := { gen_ret : Z; crypt_ret : Z; post_ret : Z }.

(** What the builder wrote into [struct dm_crypt_request]. *)
Record dm_crypt_request := {
  iv_sector : Z;
  org_tag : Z;          (* *org_tag_of_dmreq *)
  org_sector : Z;       (* *org_sector_of_dmreq *)
  sg_len : Z;           (* length of the data scatterlist entry *)
  sg_in_offset : Z;
  sg_out_offset : Z;
  crypt_len : Z         (* cryptlen handed to the cipher *)
}.

(** Result of a builder: the return value, the context, and the request
    handed to the cipher when the call got that far. *)
Record block_result := {
  b_ret : Z;
  b_ctx : convert_context;
  b_submitted : option dm_crypt_request
}.

Definition build_dmreq (cc : crypt_config) (ctx : convert_context)
    (tag_offset : Z) (cryptlen : Z) : dm_crypt_request :=
  let bv_in := bio_iter_iovec (bio_in ctx) (iter_in ctx) in
  let bv_out := bio_iter_iovec (bio_out ctx) (iter_out ctx) in
  {| iv_sector := if test_bit CRYPT_IV_LARGE_SECTORS (cipher_flags cc)
                  then Z.shiftr (cc_sector ctx) (sector_shift cc)
                  else cc_sector ctx;
     org_tag := tag_offset;
     org_sector := wrap64 (cc_sector ctx - iv_offset cc);
     sg_len := sector_size cc;
     sg_in_offset := bv_offset bv_in;
     sg_out_offset := bv_offset bv_out;
     crypt_len := cryptlen |}.

(** The part the two builders share once the alignment check passed: IV
    set-up (stored IV on reads with [integrity_iv_size], else the
    generator, whose failure returns at once), the cipher, the post hook,
    and the advance of both cursors. *)
Definition convert_block_body (cc : crypt_config) (ctx : convert_context)
    (dmreq : dm_crypt_request) (eng : engine) : block_result :=
  let use_stored := negb (integrity_iv_size cc =? 0)
                    && negb (rw_eqb (bi_dir (bio_in ctx)) WRITE) in
  if has_generator cc && negb use_stored && (gen_ret eng <? 0) then
    {| b_ret := gen_ret eng; b_ctx := ctx; b_submitted := None |}
  else
    let r := crypt_ret eng in
    let r := if (r =? 0) && has_generator cc && has_post cc
             then post_ret eng else r in
    {| b_ret := r;
       b_ctx := set_iters ctx
                  (bio_advance_iter (bio_in ctx) (iter_in ctx) (sector_size cc))
                  (bio_advance_iter (bio_out ctx) (iter_out ctx) (sector_size cc));
       b_submitted := Some dmreq |}.

Definition crypt_convert_block_skcipher (cc : crypt_config)
    (ctx : convert_context) (tag_offset : Z) (eng : engine) : block_result :=
  let bv_in := bio_iter_iovec (bio_in ctx) (iter_in ctx) in
  if negb (Z.land (bv_len bv_in) (sector_size cc - 1) =? 0) then
    {| b_ret := - EIO; b_ctx := ctx; b_submitted := None |}
  else
    convert_block_body cc ctx (build_dmreq cc ctx tag_offset (sector_size cc)) eng.

(** [None] is the [BUG_ON] at the head of the function. *)
Definition crypt_convert_block_aead (cc : crypt_config)
    (ctx : convert_context) (tag_offset : Z) (eng : engine)
  : option block_result :=
  let bv_in := bio_iter_iovec (bio_in ctx) (iter_in ctx) in
  if negb (integrity_iv_size cc =? 0)
     && negb (integrity_iv_size cc =? iv_size cc) then None
  else if negb (Z.land (bv_len bv_in) (sector_size cc - 1) =? 0) then
    Some {| b_ret := - EIO; b_ctx := ctx; b_submitted := None |}
  else
    let cryptlen :=
      if rw_eqb (bi_dir (bio_in ctx)) WRITE then sector_size cc
      else wrap32 (sector_size cc + integrity_tag_size cc) in
    Some (convert_block_body cc ctx (build_dmreq cc ctx tag_offset cryptlen) eng).

(** ** crypt_convert, its callers and kcryptd_async_done as a machine

    The conversion of one I/O runs on a kcryptd worker ([crypt_convert] and
    its caller, [kcryptd_crypt_read_convert] or
    [kcryptd_crypt_write_convert]) while the crypto engine calls
    [kcryptd_async_done] from other contexts. The machine interleaves the
    two: an event is one atomic step of the worker, or one call of the
    callback. *)

Inductive who := Submitter | Callback.

(** The conversion-completion action. *)
Inductive action :=
| ReadDone                      (* kcryptd_crypt_read_done(io) *)
| WriteSubmit (async : bool).   (* kcryptd_crypt_write_io_submit(io, async) *)

(** One call of a request builder, with the cursors it was called at. *)
Record submission := {
  s_req : option nat;
  s_sector : Z;
  s_tag_offset : Z;
  s_iter_in : bvec_iter;
  s_iter_out : bvec_iter;
  s_ret : Z
}.

(** What happened to [cc_pending] and around it, newest first. *)
Inductive op :=
| OpSet (n : Z)
| OpInc
| OpCall (s : submission)
| OpDec (w : who)
| OpComplete (w : who) (a : action).

(** Where the worker stands. *)
Inductive pc_t :=
| PcInit                 (* entering crypt_convert *)
| PcLoop                 (* at the while condition *)
| PcCall                 (* request allocated, counter incremented *)
| PcSwitch (r : Z)       (* the builder returned r *)
| PcWait                 (* in wait_for_completion(&ctx->restart) *)
| PcReturned (st : Z)    (* crypt_convert returned st to its caller *)
| PcDone.                (* the caller dropped its reference *)

Record machine := {
  io_dir : rw;             (* bio_data_dir(io->base_bio) *)
  ctx : convert_context;   (* io->ctx *)
  io_error : Z;            (* io->error *)
  pc : pc_t;
  tag_offset : Z;
  backlog : list nat;      (* requests the engine holds in its backlog *)
  inflight : list nat;     (* requests the engine is processing *)
  next_req : nat;          (* next request of cc->req_pool *)
  trace : list op
}.

Inductive event :=
| Worker (eng : engine)
| AsyncDone (req : nat) (error : Z) (post : Z).

Definition is_async_code (r : Z) : bool :=
  (r =? - EBUSY) || (r =? - EINPROGRESS).

Definition sector_step (cc : crypt_config) : Z :=
  Z.shiftr (sector_size cc) SECTOR_SHIFT.

(** [crypt_alloc_req]: take a request from the pool unless one is attached. *)
Definition crypt_alloc_req (m : machine) : convert_context * nat :=
  match r_req (ctx m) with
  | Some _ => (ctx m, next_req m)
  | None => (set_req (ctx m) (Some (next_req m)), S (next_req m))
  end.

(** The two arms of the switch that go on to the next sector. *)
Definition next_sector (cc : crypt_config) (c : convert_context) : convert_context :=
  set_sector c (wrap64 (cc_sector c + sector_step cc)).

Definition completion_action (dir : rw) (w : who) : action :=
  match dir, w with
  | READ, _ => ReadDone
  | WRITE, Submitter => WriteSubmit false
  | WRITE, Callback => WriteSubmit true
  end.

Definition mk (m : machine) (c : convert_context) (err : Z) (p : pc_t)
    (tag : Z) (bl ifl : list nat) (nx : nat) (tr : list op) : machine :=
  {| io_dir := io_dir m; ctx := c; io_error := err; pc := p;
     tag_offset := tag; backlog := bl; inflight := ifl; next_req := nx;
     trace := tr |}.

(** One step of the worker. [None]: the worker cannot move (it finished,
    or it sleeps in [wait_for_completion]), or it hit the [BUG_ON] of the
    AEAD builder. *)
Definition worker_step (cc : crypt_config) (m : machine) (eng : engine)
  : option machine :=
  match pc m with
  | PcInit =>
      Some (mk m (atomic_set (ctx m) 1) (io_error m) PcLoop 0
              (backlog m) (inflight m) (next_req m) (OpSet 1 :: trace m))
  | PcLoop =>
      if negb (bi_size (iter_in (ctx m)) =? 0)
         && negb (bi_size (iter_out (ctx m)) =? 0) then
        let '(c, nx) := crypt_alloc_req m in
        Some (mk m (atomic_inc c) (io_error m) PcCall (tag_offset m)
                (backlog m) (inflight m) nx (OpInc :: trace m))
      else
        Some (mk m (ctx m) (io_error m) (PcReturned BLK_STS_OK) (tag_offset m)
                (backlog m) (inflight m) (next_req m) (trace m))
  | PcCall =>
      match (if crypt_integrity_aead cc
             then crypt_convert_block_aead cc (ctx m) (tag_offset m) eng
             else Some (crypt_convert_block_skcipher cc (ctx m) (tag_offset m) eng))
      with
      | None => None
      | Some res =>
          let req := match r_req (ctx m) with Some r => r | None => O end in
          let sub := {| s_req := r_req (ctx m); s_sector := cc_sector (ctx m);
                        s_tag_offset := tag_offset m;
                        s_iter_in := iter_in (ctx m);
                        s_iter_out := iter_out (ctx m);
                        s_ret := b_ret res |} in
          let queued := match b_submitted res with
                        | Some _ => true | None => false end in
          Some (mk m (b_ctx res) (io_error m) (PcSwitch (b_ret res))
                  (tag_offset m)
                  (if queued && (crypt_ret eng =? - EBUSY)
                   then req :: backlog m else backlog m)
                  (if queued && (crypt_ret eng =? - EINPROGRESS)
                   then req :: inflight m else inflight m)
                  (next_req m) (OpCall sub :: trace m))
      end
  | PcSwitch r =>
      if r =? - EBUSY then
        Some (mk m (ctx m) (io_error m) PcWait (tag_offset m)
                (backlog m) (inflight m) (next_req m) (trace m))
      else if r =? - EINPROGRESS then
        Some (mk m (next_sector cc (set_req (ctx m) None)) (io_error m) PcLoop
                (wrap32 (tag_offset m + 1))
                (backlog m) (inflight m) (next_req m) (trace m))
      else if r =? 0 then
        Some (mk m (next_sector cc (atomic_dec (ctx m))) (io_error m) PcLoop
                (wrap32 (tag_offset m + 1))
                (backlog m) (inflight m) (next_req m)
                (OpDec Submitter :: trace m))
      else if r =? - EBADMSG then
        Some (mk m (atomic_dec (ctx m)) (io_error m)
                (PcReturned BLK_STS_PROTECTION) (tag_offset m)
                (backlog m) (inflight m) (next_req m)
                (OpDec Submitter :: trace m))
      else
        Some (mk m (atomic_dec (ctx m)) (io_error m)
                (PcReturned BLK_STS_IOERR) (tag_offset m)
                (backlog m) (inflight m) (next_req m)
                (OpDec Submitter :: trace m))
  | PcWait =>
      if 0 <? restart (ctx m) then
        (* wait_for_completion returns; reinit_completion; fall through *)
        Some (mk m (next_sector cc (set_req (set_restart (ctx m) 0) None))
                (io_error m) PcLoop (wrap32 (tag_offset m + 1))
                (backlog m) (inflight m) (next_req m) (trace m))
      else None
  | PcReturned r =>
      let err := if r =? 0 then io_error m else r in
      let '(zero, c) := atomic_dec_and_test (ctx m) in
      Some (mk m c err PcDone (tag_offset m)
              (backlog m) (inflight m) (next_req m)
              (if zero
               then OpComplete Submitter (completion_action (io_dir m) Submitter)
                    :: OpDec Submitter :: trace m
               else OpDec Submitter :: trace m))
  | PcDone => None
  end.

Fixpoint remove_one (x : nat) (l : list nat) : list nat :=
  match l with
  | [] => []
  | y :: l' => if Nat.eqb x y then l' else y :: remove_one x l'
  end.

Fixpoint mem (x : nat) (l : list nat) : bool :=
  match l with
  | [] => false
  | y :: l' => Nat.eqb x y || mem x l'
  end.

(** [kcryptd_async_done] for request [req]. The engine reports
    -EINPROGRESS for a request that leaves its backlog, and one final
    result for a request it is processing; [None]: no such request. *)
Definition async_done (cc : crypt_config) (m : machine) (req : nat)
    (error post : Z) : option machine :=
  if error =? - EINPROGRESS then
    if mem req (backlog m) then
      Some (mk m (set_restart (ctx m) (restart (ctx m) + 1)) (io_error m)
              (pc m) (tag_offset m) (remove_one req (backlog m))
              (req :: inflight m) (next_req m) (trace m))
    else None
  else if mem req (inflight m) then
    let error := if (error =? 0) && has_generator cc && has_post cc
                 then post else error in
    let err := if error =? - EBADMSG then BLK_STS_PROTECTION
               else if error <? 0 then BLK_STS_IOERR else io_error m in
    let '(zero, c) := atomic_dec_and_test (ctx m) in
    Some (mk m c err (pc m) (tag_offset m) (backlog m)
            (remove_one req (inflight m)) (next_req m)
            (if zero
             then OpComplete Callback (completion_action (io_dir m) Callback)
                  :: OpDec Callback :: trace m
             else OpDec Callback :: trace m))
  else None.

(** The hooks of the IV generator never answer with the two codes of the
    cipher's asynchronous protocol. *)
Definition hooks_conform (eng : engine) : bool :=
  negb (is_async_code (gen_ret eng)) && negb (is_async_code (post_ret eng)).

Definition step (cc : crypt_config) (m : machine) (e : event) : option machine :=
  match e with
  | Worker eng => if hooks_conform eng then worker_step cc m eng else None
  | AsyncDone req error post => async_done cc m req error post
  end.

Fixpoint run (cc : crypt_config) (m : machine) (es : list event)
  : option machine :=
  match es with
  | [] => Some m
  | e :: es' =>
      match step cc m e with
      | Some m' => run cc m' es'
      | None => None
      end
  end.

(** The machine as [kcryptd_crypt_read_convert] and
    [kcryptd_crypt_write_convert] start it: [crypt_convert_init] ran, the
    counter is whatever the per-bio data held. *)
Definition start (cc : crypt_config) (dir : rw) (b_in b_out : bio)
    (sector : Z) (req : option nat) (stale_pending : Z) : machine :=
  {| io_dir := dir;
     ctx := {| restart := 0; bio_in := b_in; bio_out := b_out;
               iter_in := bi_iter b_in; iter_out := bi_iter b_out;
               cc_sector := wrap64 (sector + iv_offset cc);
               cc_pending := stale_pending; r_req := req |};
     io_error := 0; pc := PcInit; tag_offset := 0;
     backlog := []; inflight := [];
     next_req := match req with Some r => S r | None => O end;
     trace := [] |}.

(** ** Accounting of [cc_pending] *)

Definition count (p : op -> bool) (tr : list op) : Z :=
  Z.of_nat (length (filter p tr)).

Definition is_set (o : op) : bool :=
  match o with OpSet _ => true | _ => false end.
Definition is_inc (o : op) : bool :=
  match o with OpInc => true | _ => false end.
Definition is_call (o : op) : bool :=
  match o with OpCall _ => true | _ => false end.
(** A builder call the cipher accepted asynchronously (in progress or
    backlogged), and one that finished within the call. *)
Definition is_async_call (o : op) : bool :=
  match o with OpCall s => is_async_code (s_ret s) | _ => false end.
Definition is_sync_call (o : op) : bool :=
  match o with OpCall s => negb (is_async_code (s_ret s)) | _ => false end.
Definition is_dec (w : who) (o : op) : bool :=
  match o, w with
  | OpDec Submitter, Submitter | OpDec Callback, Callback => true
  | _, _ => false
  end.
Definition is_complete (o : op) : bool :=
  match o with OpComplete _ _ => true | _ => false end.

(** The worker's own reference, taken by [atomic_set(.., 1)] and dropped by
    the caller of [crypt_convert]. *)
Definition holder (p : pc_t) : Z :=
  match p with PcDone => 0 | _ => 1 end.

(** The reference of the sub-request the worker is submitting right now,
    until the switch hands it to the engine or drops it. *)
Definition in_hand (p : pc_t) : Z :=
  match p with
  | PcCall => 1
  | PcSwitch r => if is_async_code r then 0 else 1
  | _ => 0
  end.

Definition at_call (p : pc_t) : Z :=
  match p with PcCall => 1 | _ => 0 end.

Definition finished (p : pc_t) : Z :=
  match p with PcDone => 1 | _ => 0 end.

Definition in_switch (p : pc_t) : Z :=
  match p with
  | PcSwitch r => if is_async_code r then 0 else 1
  | _ => 0
  end.

Definition outstanding (m : machine) : Z :=
  Z.of_nat (length (backlog m)) + Z.of_nat (length (inflight m)).

Record accounted (m : machine) : Prop := {
  acc_seed : exists ops, trace m = ops ++ [OpSet 1] /\ count is_set ops = 0;
  acc_balance :
    cc_pending (ctx m) = holder (pc m) + in_hand (pc m) + outstanding m;
  acc_inc : count is_inc (trace m) = count is_call (trace m) + at_call (pc m);
  acc_dec_sync :
    count (is_dec Submitter) (trace m) + in_switch (pc m)
    = count is_sync_call (trace m) + finished (pc m);
  acc_dec_async :
    count (is_dec Callback) (trace m) + outstanding m
    = count is_async_call (trace m);
  acc_complete :
    count is_complete (trace m) = if cc_pending (ctx m) =? 0 then 1 else 0;
  acc_who :
    cc_pending (ctx m) = 0 ->
    exists w rest,
      trace m = OpComplete w (completion_action (io_dir m) w) :: OpDec w :: rest
}.

Definition inv (m : machine) : Prop :=
  match pc m with
  | PcInit => trace m = [] /\ backlog m = [] /\ inflight m = []
  | _ => accounted m
  end.

Lemma count_cons p o tr :
  count p (o :: tr) = (if p o then 1 else 0) + count p tr.
Proof.
  unfold count. cbn [filter]. destruct (p o); cbn [length]; lia.
Qed.

Lemma count_nonneg p tr : 0 <= count p tr.
Proof. unfold count; lia. Qed.

Lemma remove_one_length x l :
  mem x l = true -> Z.of_nat (length (remove_one x l)) = Z.of_nat (length l) - 1.
Proof.
  induction l as [|y l IH]; cbn [mem remove_one]; [discriminate|].
  destruct (Nat.eqb x y); cbn [orb length]; [lia|].
  intros H. rewrite Nat2Z.inj_succ, (IH H). lia.
Qed.

(** What a builder returns tells whether the engine took the request. *)
Lemma block_body_async cc c dmreq eng :
  hooks_conform eng = true ->
  let res := convert_block_body cc c dmreq eng in
  (is_async_code (b_ret res) = true ->
     b_submitted res = Some dmreq /\ crypt_ret eng = b_ret res)
  /\ (is_async_code (b_ret res) = false ->
     b_submitted res = None \/ is_async_code (crypt_ret eng) = false).
Proof.
  intros H. cbv zeta. unfold hooks_conform in H. unfold convert_block_body.
  apply andb_true_iff in H as [Hg Hp].
  apply negb_true_iff in Hg, Hp.
  destruct (has_generator cc && _ && (gen_ret eng <? 0)); cbn [b_ret b_submitted].
  - split; [congruence|auto].
  - destruct ((crypt_ret eng =? 0) && has_generator cc && has_post cc) eqn:E.
    + split; [congruence|]. intros _. right.
      apply andb_true_iff in E as [E _]. apply andb_true_iff in E as [E _].
      apply Z.eqb_eq in E. rewrite E. reflexivity.
    + split; auto.
Qed.

Lemma builder_async cc m eng res :
  hooks_conform eng = true ->
  (if crypt_integrity_aead cc
   then crypt_convert_block_aead cc (ctx m) (tag_offset m) eng
   else Some (crypt_convert_block_skcipher cc (ctx m) (tag_offset m) eng))
  = Some res ->
  (is_async_code (b_ret res) = true ->
     b_submitted res <> None /\ crypt_ret eng = b_ret res)
  /\ (is_async_code (b_ret res) = false ->
     b_submitted res = None \/ is_async_code (crypt_ret eng) = false).
Proof.
  intros Hc.
  unfold crypt_convert_block_aead, crypt_convert_block_skcipher.
  destruct (crypt_integrity_aead cc).
  - destruct (negb (integrity_iv_size cc =? 0) && _); [discriminate|].
    destruct (negb (Z.land _ _ =? 0)); intros [= <-].
    + cbn [b_ret b_submitted]. split; [discriminate|auto].
    + destruct (block_body_async cc (ctx m)
                  (build_dmreq cc (ctx m) (tag_offset m)
                     (if rw_eqb (bi_dir (bio_in (ctx m))) WRITE
                      then sector_size cc
                      else wrap32 (sector_size cc + integrity_tag_size cc)))
                  eng Hc) as [A B].
      split; [|exact B]. intros H. destruct (A H) as [A1 A2].
      split; [congruence|assumption].
  - destruct (negb (Z.land _ _ =? 0)); intros [= <-].
    + cbn [b_ret b_submitted]. split; [discriminate|auto].
    + destruct (block_body_async cc (ctx m)
                  (build_dmreq cc (ctx m) (tag_offset m) (sector_size cc))
                  eng Hc) as [A B].
      split; [|exact B]. intros H. destruct (A H) as [A1 A2].
      split; [congruence|assumption].
Qed.

Lemma builder_queue cc m eng res :
  hooks_conform eng = true ->
  (if crypt_integrity_aead cc
   then crypt_convert_block_aead cc (ctx m) (tag_offset m) eng
   else Some (crypt_convert_block_skcipher cc (ctx m) (tag_offset m) eng))
  = Some res ->
  match b_submitted res with Some _ => true | None => false end
    && (crypt_ret eng =? - EBUSY) = (b_ret res =? - EBUSY)
  /\ match b_submitted res with Some _ => true | None => false end
       && (crypt_ret eng =? - EINPROGRESS) = (b_ret res =? - EINPROGRESS).
Proof.
  intros Hc Eres.
  destruct (builder_async cc m eng res Hc Eres) as [Ha Hs].
  unfold is_async_code in Ha, Hs.
  destruct ((b_ret res =? - EBUSY) || (b_ret res =? - EINPROGRESS)) eqn:E.
  - destruct (Ha eq_refl) as [Hsub Hret]. rewrite Hret.
    destruct (b_submitted res); [split; reflexivity|contradiction].
  - apply orb_false_iff in E as [E1 E2]. rewrite E1, E2.
    destruct (Hs eq_refl) as [Hn|Hn].
    + rewrite Hn. split; reflexivity.
    + apply orb_false_iff in Hn as [N1 N2]. rewrite N1, N2.
      now rewrite !andb_false_r.
Qed.

(** A builder touches nothing of the context but the two cursors. *)
Lemma builder_frame cc m eng res :
  (if crypt_integrity_aead cc
   then crypt_convert_block_aead cc (ctx m) (tag_offset m) eng
   else Some (crypt_convert_block_skcipher cc (ctx m) (tag_offset m) eng))
  = Some res ->
  cc_pending (b_ctx res) = cc_pending (ctx m)
  /\ r_req (b_ctx res) = r_req (ctx m)
  /\ cc_sector (b_ctx res) = cc_sector (ctx m)
  /\ restart (b_ctx res) = restart (ctx m).
Proof.
  unfold crypt_convert_block_aead, crypt_convert_block_skcipher,
    convert_block_body.
  intros H.
  repeat match type of H with
         | context [if ?c then _ else _] => destruct c
         end;
    try discriminate; injection H as <-; repeat split.
Qed.

Ltac acc_simpl :=
  unfold outstanding in *;
  cbn [mk trace pc ctx cc_pending io_dir backlog inflight atomic_set atomic_inc
       atomic_dec atomic_dec_and_test set_pending next_sector set_sector
       set_req set_restart holder in_hand at_call finished in_switch length
       fst snd] in *;
  rewrite ?count_cons in *;
  cbn [is_set is_inc is_call is_async_call is_sync_call is_dec is_complete
       s_ret negb] in *.

Ltac acc_seed H :=
  let ops := fresh "ops" in
  let E := fresh "E" in
  let S := fresh "S" in
  destruct H as (ops & E & S);
  match goal with
  | |- exists _, ?new :: ?new2 :: _ = _ /\ _ =>
      exists (new :: new2 :: ops); rewrite E; split; [reflexivity|];
      rewrite !count_cons; cbn [is_set]; lia
  | |- exists _, ?new :: _ = _ /\ _ =>
      exists (new :: ops); rewrite E; split; [reflexivity|];
      rewrite !count_cons; cbn [is_set]; lia
  | |- exists _, _ = _ /\ _ => exists ops; split; assumption
  end.

Ltac acc_arith :=
  repeat match goal with
         | |- context [if is_async_code ?r then _ else _] =>
             destruct (is_async_code r)
         | H : context [if is_async_code ?r then _ else _] |- _ =>
             destruct (is_async_code r)
         end;
  repeat match goal with
         | |- context [?a =? 0] => destruct (Z.eqb_spec a 0)
         | H : context [?a =? 0] |- _ => destruct (Z.eqb_spec a 0)
         end;
  try (intros _; do 2 eexists; reflexivity);
  try (intros; exfalso; lia); try lia.

Lemma worker_step_inv cc m eng m' :
  inv m -> hooks_conform eng = true -> worker_step cc m eng = Some m' -> inv m'.
Proof.
  intros Hinv Hc Hstep. unfold worker_step in Hstep. unfold inv in *.
  destruct (pc m) eqn:Epc.
  - (* PcInit *)
    destruct Hinv as (Ht & Hb & Hi). inversion Hstep; subst m'; clear Hstep.
    cbn [pc mk]. constructor; acc_simpl; rewrite ?Ht, ?Hb, ?Hi; cbn.
    + exists []. split; reflexivity.
    + reflexivity.
    + reflexivity.
    + reflexivity.
    + reflexivity.
    + reflexivity.
    + discriminate.
  - (* PcLoop *)
    destruct Hinv as [Hseed Hbal Hinc Hds Hda Hcomp Hwho].
    rewrite Epc in *.
    destruct (negb _ && negb _).
    + unfold crypt_alloc_req in Hstep.
      destruct (r_req (ctx m)); inversion Hstep; subst m'; clear Hstep.
      all: cbn [pc mk]; constructor; acc_simpl.
      all: try acc_seed Hseed; acc_arith.
    + inversion Hstep; subst m'; clear Hstep.
      cbn [pc mk]; constructor; acc_simpl.
      all: try acc_seed Hseed; acc_arith.
  - (* PcCall *)
    destruct Hinv as [Hseed Hbal Hinc Hds Hda Hcomp Hwho].
    rewrite Epc in *.
    destruct (if crypt_integrity_aead cc then _ else _) as [res|] eqn:Eres;
      [|discriminate].
    destruct (builder_queue cc m eng res Hc Eres) as [Q1 Q2].
    destruct (builder_frame cc m eng res Eres) as (F1 & _).
    rewrite Q1, Q2 in Hstep. clear Q1 Q2.
    assert (A : is_async_code (b_ret res)
                = (b_ret res =? - EBUSY) || (b_ret res =? - EINPROGRESS))
      by reflexivity.
    destruct (b_ret res =? - EBUSY) eqn:E1;
      destruct (b_ret res =? - EINPROGRESS) eqn:E2; cbn [orb] in A.
    { apply Z.eqb_eq in E1, E2. rewrite E1 in E2. discriminate E2. }
    all: injection Hstep as <-; cbn [pc mk]; constructor; acc_simpl;
      rewrite ?A in *; cbn [negb] in *; rewrite ?F1;
      try acc_seed Hseed; acc_arith.
  - (* PcSwitch *)
    destruct Hinv as [Hseed Hbal Hinc Hds Hda Hcomp Hwho].
    rewrite Epc in *. unfold in_hand, in_switch, is_async_code in *.
    destruct (r =? - EBUSY) eqn:E1; [|destruct (r =? - EINPROGRESS) eqn:E2;
      [|destruct (r =? 0) eqn:E3; [|destruct (r =? - EBADMSG) eqn:E4]]];
      injection Hstep as <-; cbn [pc mk orb] in *;
      constructor; acc_simpl; try acc_seed Hseed; acc_arith.
  - (* PcWait *)
    destruct Hinv as [Hseed Hbal Hinc Hds Hda Hcomp Hwho].
    rewrite Epc in *.
    destruct (0 <? restart (ctx m)); [|discriminate].
    injection Hstep as <-; cbn [pc mk] in *;
      constructor; acc_simpl; try acc_seed Hseed; acc_arith.
  - (* PcReturned *)
    destruct Hinv as [Hseed Hbal Hinc Hds Hda Hcomp Hwho].
    rewrite Epc in *. unfold atomic_dec_and_test in Hstep.
    injection Hstep as <-; cbn [pc mk] in *.
    destruct (cc_pending (ctx m) - 1 =? 0) eqn:Ez;
      constructor; acc_simpl; try acc_seed Hseed; acc_arith.
  - (* PcDone *)
    discriminate.
Qed.

Lemma async_done_inv cc m req error post m' :
  inv m -> async_done cc m req error post = Some m' -> inv m'.
Proof.
  intros Hinv Hstep. unfold async_done in Hstep. unfold inv in *.
  destruct (pc m) eqn:Epc.
  1: { destruct Hinv as (_ & Hb & Hi). rewrite Hb, Hi in Hstep.
       cbn [mem] in Hstep. now destruct (error =? - EINPROGRESS). }
  all: destruct Hinv as [Hseed Hbal Hinc Hds Hda Hcomp Hwho];
    rewrite Epc in *.
  all: destruct (error =? - EINPROGRESS);
    [ destruct (mem req (backlog m)) eqn:Hmem; [|discriminate];
      pose proof (remove_one_length _ _ Hmem) as L
    | destruct (mem req (inflight m)) eqn:Hmem; [|discriminate];
      pose proof (remove_one_length _ _ Hmem) as L;
      unfold atomic_dec_and_test in Hstep;
      destruct (cc_pending (ctx m) - 1 =? 0) eqn:Ez ].
  all: injection Hstep as <-; cbn [pc mk]; rewrite ?Epc;
    constructor; acc_simpl; try acc_seed Hseed; acc_arith.
Qed.

Lemma step_inv cc m e m' : inv m -> step cc m e = Some m' -> inv m'.
Proof.
  destruct e as [eng|req error post]; cbn [step]; intros Hinv H.
  - destruct (hooks_conform eng) eqn:Hc; [|discriminate].
    eapply worker_step_inv; eauto.
  - eapply async_done_inv; eauto.
Qed.

Lemma run_inv cc es m m' : inv m -> run cc m es = Some m' -> inv m'.
Proof.
  revert m. induction es as [|e es IH]; cbn [run]; intros m Hinv H.
  - now injection H as <-.
  - destruct (step cc m e) as [m1|] eqn:E; [|discriminate].
    eapply IH; [|exact H]. eapply step_inv; eauto.
Qed.

Lemma step_dir cc m e m' : step cc m e = Some m' -> io_dir m' = io_dir m.
Proof.
  destruct e as [eng|req error post]; cbn [step].
  - destruct (hooks_conform eng); [|discriminate].
    unfold worker_step, crypt_alloc_req, atomic_dec_and_test.
    intros H.
    repeat match type of H with
           | context [match ?c with _ => _ end] => destruct c
           end; try discriminate; now injection H as <-.
  - unfold async_done, atomic_dec_and_test. intros H.
    repeat match type of H with
           | context [match ?c with _ => _ end] => destruct c
           end; try discriminate; now injection H as <-.
Qed.

Lemma run_dir cc es m m' : run cc m es = Some m' -> io_dir m' = io_dir m.
Proof.
  revert m. induction es as [|e es IH]; cbn [run]; intros m H.
  - now injection H as <-.
  - destruct (step cc m e) as [m1|] eqn:E; [|discriminate].
    rewrite (IH _ H). eapply step_dir; eauto.
Qed.

Lemma length_zero_nil {A} (l : list A) : Z.of_nat (length l) = 0 -> l = [].
Proof. destruct l; [reflexivity|cbn [length]; lia]. Qed.

Lemma zero_iff_finished m :
  accounted m ->
  (cc_pending (ctx m) = 0
   <-> pc m = PcDone /\ backlog m = [] /\ inflight m = []).
Proof.
  intros [_ Hbal _ _ _ _ _]. unfold outstanding in Hbal. split.
  - intros Hz. rewrite Hz in Hbal.
    destruct (pc m); cbn [holder in_hand] in Hbal;
      try (destruct (is_async_code r)); try lia.
    split; [reflexivity|]. split; apply length_zero_nil; lia.
  - intros (P & B & I). rewrite Hbal, P, B, I. reflexivity.
Qed.

(** *** What one step does to the counter *)

(** The conversion-completion action as the two callers and
    [kcryptd_async_done] take it. *)
Lemma completion_action_cases dir w :
  completion_action dir w
  = match dir, w with
    | READ, _ => ReadDone
    | WRITE, Submitter => WriteSubmit false
    | WRITE, Callback => WriteSubmit true
    end.
Proof. reflexivity. Qed.

(** The operations a decrement by [w] adds to the trace: the decrement,
    and the completion action when it reached zero. *)
Definition dec_ops (after : Z) (w : who) (a : action) : list op :=
  if after =? 0 then [OpComplete w a; OpDec w] else [OpDec w].

Lemma worker_step_effect cc m eng m' :
  worker_step cc m eng = Some m' ->
  match pc m with
  | PcInit =>
      pc m' = PcLoop /\ cc_pending (ctx m') = 1
      /\ trace m' = OpSet 1 :: trace m
  | PcLoop =>
      (pc m' = PcCall /\ cc_pending (ctx m') = cc_pending (ctx m) + 1
       /\ trace m' = OpInc :: trace m)
      \/ (pc m' = PcReturned BLK_STS_OK
          /\ cc_pending (ctx m') = cc_pending (ctx m)
          /\ trace m' = trace m)
  | PcCall =>
      exists s, pc m' = PcSwitch (s_ret s)
        /\ cc_pending (ctx m') = cc_pending (ctx m)
        /\ trace m' = OpCall s :: trace m
  | PcSwitch r =>
      if is_async_code r
      then cc_pending (ctx m') = cc_pending (ctx m) /\ trace m' = trace m
      else cc_pending (ctx m') = cc_pending (ctx m) - 1
           /\ trace m' = OpDec Submitter :: trace m
  | PcWait => cc_pending (ctx m') = cc_pending (ctx m) /\ trace m' = trace m
  | PcReturned _ =>
      pc m' = PcDone /\ cc_pending (ctx m') = cc_pending (ctx m) - 1
      /\ trace m'
         = dec_ops (cc_pending (ctx m')) Submitter
             (match io_dir m with
              | READ => ReadDone
              | WRITE => WriteSubmit false
              end) ++ trace m
  | PcDone => False
  end.
Proof.
  unfold worker_step. intros H. destruct (pc m) eqn:Epc.
  - injection H as <-. repeat split.
  - destruct (negb _ && negb _).
    + left. unfold crypt_alloc_req in H.
      destruct (r_req (ctx m)); injection H as <-; repeat split.
    + right. injection H as <-. repeat split.
  - destruct (if crypt_integrity_aead cc then _ else _) as [res|] eqn:Eres;
      [|discriminate].
    destruct (builder_frame cc m eng res Eres) as (F1 & _).
    injection H as <-. eexists. cbn [mk pc ctx trace].
    split; [|split; [exact F1|reflexivity]]. reflexivity.
  - unfold is_async_code.
    destruct (r =? - EBUSY); [|destruct (r =? - EINPROGRESS);
      [|destruct (r =? 0); [|destruct (r =? - EBADMSG)]]];
      injection H as <-; repeat split.
  - destruct (0 <? restart (ctx m)); [|discriminate].
    injection H as <-. repeat split.
  - unfold atomic_dec_and_test in H. injection H as <-.
    cbn [mk pc ctx trace io_dir set_pending cc_pending]. unfold dec_ops.
    split; [reflexivity|]. split; [reflexivity|].
    destruct (cc_pending (ctx m) - 1 =? 0); destruct (io_dir m); reflexivity.
  - discriminate.
Qed.

Lemma mem_In x l : mem x l = true <-> In x l.
Proof.
  induction l as [|y l IH]; cbn [mem In]; [split; [discriminate|tauto]|].
  rewrite orb_true_iff, Nat.eqb_eq, IH. split; intros [H|H]; auto.
Qed.

Lemma async_done_effect cc m req error post m' :
  async_done cc m req error post = Some m' ->
  pc m' = pc m
  /\ if error =? - EINPROGRESS
     then In req (backlog m)
          /\ cc_pending (ctx m') = cc_pending (ctx m) /\ trace m' = trace m
          /\ backlog m' = remove_one req (backlog m)
          /\ inflight m' = req :: inflight m
     else In req (inflight m)
          /\ cc_pending (ctx m') = cc_pending (ctx m) - 1
          /\ trace m'
             = dec_ops (cc_pending (ctx m')) Callback
                 (match io_dir m with
                  | READ => ReadDone
                  | WRITE => WriteSubmit true
                  end) ++ trace m
          /\ backlog m' = backlog m
          /\ inflight m' = remove_one req (inflight m).
Proof.
  unfold async_done. intros H.
  destruct (error =? - EINPROGRESS).
  - destruct (mem req (backlog m)) eqn:Hm; [|discriminate].
    apply mem_In in Hm. injection H as <-. repeat split. exact Hm.
  - destruct (mem req (inflight m)) eqn:Hm; [|discriminate].
    apply mem_In in Hm. unfold atomic_dec_and_test in H. injection H as <-.
    cbn [mk pc ctx trace io_dir set_pending cc_pending backlog inflight].
    unfold dec_ops.
    split; [reflexivity|]. split; [exact Hm|]. split; [reflexivity|].
    split; [|split; reflexivity].
    destruct (cc_pending (ctx m) - 1 =? 0); destruct (io_dir m); reflexivity.
Qed.

(** The steps that drop a reference can always be taken: the caller after
    [crypt_convert] returned, and the callback for a request in flight. *)
Lemma decrements_enabled cc m :
  (forall st eng, pc m = PcReturned st -> hooks_conform eng = true ->
     exists m', step cc m (Worker eng) = Some m')
  /\ (forall req error post, In req (inflight m) ->
        error <> - EINPROGRESS ->
        exists m', step cc m (AsyncDone req error post) = Some m').
Proof.
  split.
  - intros st eng Hpc Hc. cbn [step]. rewrite Hc. unfold worker_step.
    rewrite Hpc. unfold atomic_dec_and_test. eexists. reflexivity.
  - intros req error post Hin Hne. cbn [step]. unfold async_done.
    apply Z.eqb_neq in Hne. rewrite Hne.
    apply mem_In in Hin. rewrite Hin. unfold atomic_dec_and_test.
    eexists. reflexivity.
Qed.

(** C7. For every interleaving of worker steps and completion callbacks
    from the start of a conversion, and for the state [m] it reaches.

    What the next step does: entering [crypt_convert] sets [cc_pending] to
    1 whatever it held; the loop, when data remains, increments it once and
    calls a request builder once, which leaves it alone; after the call the
    worker leaves it alone if the cipher took the request asynchronously
    (busy or in progress) and decrements it once otherwise, without
    completing; leaving [wait_for_completion] does not touch it; the caller
    of [crypt_convert] decrements it once; [kcryptd_async_done] leaves it
    alone when the engine only reports a backlogged request as started, and
    otherwise decrements it once for a request in flight, which it retires.
    The two decrement-and-test sites, and only they, take the completion
    action, and only when their decrement reached zero: read completion
    for a read; for a write, submission with [async] clear by the caller
    and set by the callback. Both sites can always be taken when due.

    What has happened so far, once the worker has entered [crypt_convert]:
    the first operation is the seed and the counter is never set again;
    increments, calls and decrements balance; the counter equals the
    worker's reference plus the sub-requests not yet finished; it is zero
    exactly when the caller has dropped its reference and no request is
    outstanding; the completion action ran exactly once if the counter is
    at zero and not at all otherwise, and then it is the last thing that
    happened, right after the decrement that reached zero, taken by the
    path that made it. *)
Theorem cc_pending_seeded_counted_completed_once
    (cc : crypt_config) (dir : rw) (b_in b_out : bio) (sector : Z)
    (req : option nat) (stale : Z) (es : list event) (m : machine) :
  run cc (start cc dir b_in b_out sector req stale) es = Some m ->
  io_dir m = dir
  /\ (pc m = PcInit -> trace m = [] /\ backlog m = [] /\ inflight m = [])
  /\ (forall eng m', step cc m (Worker eng) = Some m' ->
      match pc m with
      | PcInit =>
          pc m' = PcLoop /\ cc_pending (ctx m') = 1 /\ trace m' = [OpSet 1]
      | PcLoop =>
          (pc m' = PcCall /\ cc_pending (ctx m') = cc_pending (ctx m) + 1
           /\ trace m' = OpInc :: trace m)
          \/ (pc m' = PcReturned BLK_STS_OK
              /\ cc_pending (ctx m') = cc_pending (ctx m)
              /\ trace m' = trace m)
      | PcCall =>
          exists s, pc m' = PcSwitch (s_ret s)
            /\ cc_pending (ctx m') = cc_pending (ctx m)
            /\ trace m' = OpCall s :: trace m
      | PcSwitch r =>
          if is_async_code r
          then cc_pending (ctx m') = cc_pending (ctx m)
               /\ trace m' = trace m
          else cc_pending (ctx m') = cc_pending (ctx m) - 1
               /\ trace m' = OpDec Submitter :: trace m
      | PcWait =>
          cc_pending (ctx m') = cc_pending (ctx m) /\ trace m' = trace m
      | PcReturned _ =>
          pc m' = PcDone /\ cc_pending (ctx m') = cc_pending (ctx m) - 1
          /\ trace m'
             = (if cc_pending (ctx m') =? 0
                then [OpComplete Submitter
                        (match dir with
                         | READ => ReadDone
                         | WRITE => WriteSubmit false
                         end);
                      OpDec Submitter]
                else [OpDec Submitter]) ++ trace m
      | PcDone => False
      end)
  /\ (forall r error post m', step cc m (AsyncDone r error post) = Some m' ->
      pc m' = pc m
      /\ if error =? - EINPROGRESS
         then In r (backlog m)
              /\ cc_pending (ctx m') = cc_pending (ctx m)
              /\ trace m' = trace m
         else In r (inflight m)
              /\ inflight m' = remove_one r (inflight m)
              /\ cc_pending (ctx m') = cc_pending (ctx m) - 1
              /\ trace m'
                 = (if cc_pending (ctx m') =? 0
                    then [OpComplete Callback
                            (match dir with
                             | READ => ReadDone
                             | WRITE => WriteSubmit true
                             end);
                          OpDec Callback]
                    else [OpDec Callback]) ++ trace m)
  /\ (forall st eng, pc m = PcReturned st -> hooks_conform eng = true ->
      exists m', step cc m (Worker eng) = Some m')
  /\ (forall r error post, In r (inflight m) -> error <> - EINPROGRESS ->
      exists m', step cc m (AsyncDone r error post) = Some m')
  /\ (pc m <> PcInit ->
      accounted m
      /\ (cc_pending (ctx m) = 0
          <-> pc m = PcDone /\ backlog m = [] /\ inflight m = [])
      /\ (count is_complete (trace m) = 1
          <-> pc m = PcDone /\ backlog m = [] /\ inflight m = [])
      /\ (cc_pending (ctx m) <> 0 -> count is_complete (trace m) = 0)
      /\ (cc_pending (ctx m) = 0 ->
          exists w rest,
            trace m
            = OpComplete w
                (match dir, w with
                 | READ, _ => ReadDone
                 | WRITE, Submitter => WriteSubmit false
                 | WRITE, Callback => WriteSubmit true
                 end) :: OpDec w :: rest
            /\ count is_complete rest = 0)).
Proof.
  intros Hrun.
  assert (Hinv : inv m).
  { eapply run_inv; [|exact Hrun]. cbn. auto. }
  pose proof (run_dir _ _ _ _ Hrun) as Hdir. cbn [start io_dir] in Hdir.
  split; [exact Hdir|]. split.
  { intros Hpc. unfold inv in Hinv. now rewrite Hpc in Hinv. }
  split.
  { intros eng m' Hs. cbn [step] in Hs.
    destruct (hooks_conform eng); [|discriminate].
    pose proof (worker_step_effect cc m eng m' Hs) as E.
    unfold dec_ops in E. rewrite Hdir in E.
    destruct (pc m) eqn:Epc; try exact E.
    unfold inv in Hinv. rewrite Epc in Hinv. destruct Hinv as (Ht & _).
    now rewrite Ht in E. }
  split.
  { intros r error post m' Hs. cbn [step] in Hs.
    destruct (async_done_effect cc m r error post m' Hs) as (Hp & E).
    unfold dec_ops in E. rewrite Hdir in E. split; [exact Hp|].
    destruct (error =? - EINPROGRESS); tauto. }
  split; [apply decrements_enabled|]. split; [apply decrements_enabled|].
  intros Hpc.
  assert (Hacc : accounted m).
  { unfold inv in Hinv. destruct (pc m); try contradiction; exact Hinv. }
  pose proof (zero_iff_finished m Hacc) as Hz.
  pose proof (acc_complete m Hacc) as Hc.
  split; [exact Hacc|]. split; [exact Hz|].
  split; [|split].
  - rewrite Hc.
    destruct (Z.eqb_spec (cc_pending (ctx m)) 0) as [Hc0|Hc0]; split.
    + intros _. now apply Hz.
    + reflexivity.
    + discriminate.
    + intros H. exfalso. apply Hc0. now apply Hz.
  - intros Hnz. rewrite Hc. apply Z.eqb_neq in Hnz. now rewrite Hnz.
  - intros H0. destruct (acc_who m Hacc H0) as (w & rest & Et).
    exists w, rest. rewrite Hdir, completion_action_cases in Et.
    split; [exact Et|].
    rewrite Et, H0 in Hc. rewrite !count_cons in Hc.
    cbn [is_complete Z.eqb] in Hc. lia.
Qed.

(** ** The cursors move by one sector-group per cipher operation *)

Definition segments_total (bvs : list bio_vec) : Z :=
  fold_right (fun bv acc => bv_len bv + acc) 0 bvs.

Lemma bvec_advance_consumes bvs it bytes :
  0 <= bytes <= bi_size it ->
  0 <= bi_bvec_done it ->
  bi_size it <= segments_total bvs - bi_bvec_done it ->
  let it' := bvec_advance bvs it bytes in
  bi_size it' = bi_size it - bytes /\ bi_sector it' = bi_sector it.
Proof.
  revert it bytes. induction bvs as [|bv rest IH]; intros it bytes Hb Hd Hfit.
  - cbn [segments_total fold_right] in Hfit.
    assert (bytes = 0) by lia. subst bytes. cbn. split; [lia|reflexivity].
  - cbn [bvec_advance]. destruct (Z.eqb_spec bytes 0) as [->|Hnz].
    + cbv zeta. split; [lia|reflexivity].
    + cbn [segments_total fold_right] in Hfit.
      fold (segments_total rest) in Hfit.
      set (len := Z.min bytes (Z.min (bi_size it) (bv_len bv - bi_bvec_done it))).
      destruct (Z.eqb_spec (bi_bvec_done it + len) (bv_len bv)) as [Heq|Hne].
      * specialize (IH {| bi_sector := bi_sector it; bi_size := bi_size it - len;
                          bi_idx := bi_idx it + 1; bi_bvec_done := 0 |}
                       (bytes - len)).
        cbn [bi_size bi_bvec_done bi_sector] in IH.
        destruct IH as [I1 I2]; unfold len in *; cbv zeta; lia.
      * cbv zeta. cbn [bi_size bi_sector]. unfold len in *.
        split; [lia|reflexivity].
Qed.

(** When the iterator holds at least [bytes] and the segment table covers
    what it claims, [bio_advance_iter] consumes exactly [bytes] and moves
    the sector by [bytes >> 9]. *)
Lemma bio_advance_iter_exact b it bytes :
  0 <= bytes <= bi_size it ->
  0 <= bi_bvec_done it ->
  bi_size it
  <= segments_total (skipn (Z.to_nat (bi_idx it)) (bi_io_vec b)) - bi_bvec_done it ->
  bi_size (bio_advance_iter b it bytes) = bi_size it - bytes
  /\ bi_sector (bio_advance_iter b it bytes)
     = wrap64 (bi_sector it + Z.shiftr bytes 9).
Proof.
  intros Hb Hd Hfit. unfold bio_advance_iter.
  replace (bi_size it <? bytes) with false by (symmetry; apply Z.ltb_ge; lia).
  apply (bvec_advance_consumes _
           {| bi_sector := wrap64 (bi_sector it + Z.shiftr bytes 9);
              bi_size := bi_size it; bi_idx := bi_idx it;
              bi_bvec_done := bi_bvec_done it |}); assumption.
Qed.

(** A call gets as far as the cipher when the input segment is a multiple
    of the sector size and the IV generator, if one is called, does not
    fail. *)
Definition reaches_cipher (cc : crypt_config) (c : convert_context)
    (eng : engine) : bool :=
  (Z.land (bv_len (bio_iter_iovec (bio_in c) (iter_in c))) (sector_size cc - 1)
   =? 0)
  && negb (has_generator cc
           && negb (negb (integrity_iv_size cc =? 0)
                    && negb (rw_eqb (bi_dir (bio_in c)) WRITE))
           && (gen_ret eng <? 0)).

Definition advanced (cc : crypt_config) (c c' : convert_context) : Prop :=
  iter_in c' = bio_advance_iter (bio_in c) (iter_in c) (sector_size cc)
  /\ iter_out c' = bio_advance_iter (bio_out c) (iter_out c) (sector_size cc).

Definition builder_outcome (cc : crypt_config) (c : convert_context)
    (eng : engine) (res : block_result) : Prop :=
  if reaches_cipher cc c eng
  then advanced cc c (b_ctx res) /\ b_submitted res <> None
       /\ b_ret res = (if (crypt_ret eng =? 0) && has_generator cc && has_post cc
                       then post_ret eng else crypt_ret eng)
  else b_ctx res = c /\ b_submitted res = None /\ b_ret res < 0.

Lemma body_outcome cc c eng dmreq :
  (Z.land (bv_len (bio_iter_iovec (bio_in c) (iter_in c))) (sector_size cc - 1)
   =? 0) = true ->
  builder_outcome cc c eng (convert_block_body cc c dmreq eng).
Proof.
  intros Hal. unfold builder_outcome, reaches_cipher, convert_block_body.
  rewrite Hal. cbn [andb].
  destruct (has_generator cc && _ && (gen_ret eng <? 0)) eqn:G; cbn [negb].
  - cbn [b_ctx b_submitted b_ret]. repeat split.
    apply andb_true_iff in G as [_ G]. now apply Z.ltb_lt in G.
  - cbn [b_ctx b_submitted b_ret]. repeat split. discriminate.
Qed.

Lemma skcipher_outcome cc c tag_offset eng :
  builder_outcome cc c eng (crypt_convert_block_skcipher cc c tag_offset eng).
Proof.
  unfold crypt_convert_block_skcipher.
  destruct (Z.land _ _ =? 0) eqn:Hal; cbn [negb].
  - now apply body_outcome.
  - unfold builder_outcome, reaches_cipher. rewrite Hal. cbn. repeat split.
Qed.

Lemma aead_outcome cc c tag_offset eng res :
  crypt_convert_block_aead cc c tag_offset eng = Some res ->
  builder_outcome cc c eng res.
Proof.
  unfold crypt_convert_block_aead.
  destruct (negb (integrity_iv_size cc =? 0) && _); [discriminate|].
  destruct (Z.land _ _ =? 0) eqn:Hal; cbn [negb]; intros [= <-].
  - now apply body_outcome.
  - unfold builder_outcome, reaches_cipher. rewrite Hal. cbn. repeat split.
Qed.

(** C2 (as amended). A call of either request builder that gets as far as
    the cipher operation advances the input and the output cursor by one
    sector-group ([bio_advance_iter] by [cc->sector_size]), whatever the
    cipher and the post hook return: success, asynchronous acceptance,
    busy, integrity violation or any other failure. A call that does not
    get that far (unaligned input segment, failing IV generator) returns a
    negative error with both cursors where they were. One sector-group is
    exactly [sector_size] bytes and [sector_size >> 9] sectors whenever the
    cursor holds that much. *)
Theorem builders_advance_cursors_once_submitted
    (cc : crypt_config) (c : convert_context) (tag_offset : Z) (eng : engine) :
  (let res := crypt_convert_block_skcipher cc c tag_offset eng in
   if reaches_cipher cc c eng
   then advanced cc c (b_ctx res) /\ b_submitted res <> None
        /\ b_ret res = (if (crypt_ret eng =? 0) && has_generator cc && has_post cc
                        then post_ret eng else crypt_ret eng)
   else b_ctx res = c /\ b_submitted res = None /\ b_ret res < 0)
  /\ (forall res, crypt_convert_block_aead cc c tag_offset eng = Some res ->
      if reaches_cipher cc c eng
      then advanced cc c (b_ctx res) /\ b_submitted res <> None
           /\ b_ret res = (if (crypt_ret eng =? 0) && has_generator cc && has_post cc
                           then post_ret eng else crypt_ret eng)
      else b_ctx res = c /\ b_submitted res = None /\ b_ret res < 0)
  /\ (forall b it,
      0 <= sector_size cc <= bi_size it ->
      0 <= bi_bvec_done it ->
      bi_size it
      <= segments_total (skipn (Z.to_nat (bi_idx it)) (bi_io_vec b))
         - bi_bvec_done it ->
      bi_size (bio_advance_iter b it (sector_size cc))
      = bi_size it - sector_size cc
      /\ bi_sector (bio_advance_iter b it (sector_size cc))
         = wrap64 (bi_sector it + Z.shiftr (sector_size cc) 9)).
Proof.
  split; [|split].
  - exact (skcipher_outcome cc c tag_offset eng).
  - intros res H. exact (aead_outcome cc c tag_offset eng res H).
  - intros b it. apply bio_advance_iter_exact.
Qed.

(** ** Concrete conversions *)

Definition demo_cc (ssize shift : Z) : crypt_config :=
  {| sector_size := ssize; sector_shift := shift; iv_offset := 0;
     iv_size := 16; integrity_iv_size := 0; integrity_tag_size := 0;
     on_disk_tag_size := 0; cipher_flags := 8; has_generator := true;
     has_post := false |}.

Definition demo_bio (dir : rw) (segs : list Z) (sector : Z) : bio :=
  {| bi_dir := dir;
     bi_io_vec := map (fun n => {| bv_len := n; bv_offset := 0 |}) segs;
     bi_iter := {| bi_sector := sector; bi_size := fold_right Z.add 0 segs;
                   bi_idx := 0; bi_bvec_done := 0 |} |}.

Definition answers (r : Z) : engine :=
  {| gen_ret := 0; crypt_ret := r; post_ret := 0 |}.

(** A write of 4096 bytes in two 2048-byte segments, converted with
    4096-byte sectors. *)
Definition split_ctx : convert_context :=
  crypt_convert_init (demo_cc 4096 3)
    {| restart := 0; bio_in := demo_bio WRITE [] 0; bio_out := demo_bio WRITE [] 0;
       iter_in := bi_iter (demo_bio WRITE [] 0);
       iter_out := bi_iter (demo_bio WRITE [] 0);
       cc_sector := 0; cc_pending := 2; r_req := Some O |}
    (Some (demo_bio WRITE [4096] 8)) (Some (demo_bio WRITE [2048; 2048] 8)) 8.

(** C2, as the claim states it, fails: the builder rejects the unaligned
    input segment with -EIO and returns with both cursors where they were,
    4096 bytes still to go, not advanced by the sector size. *)
Lemma unaligned_segment_leaves_cursors :
  let res := crypt_convert_block_skcipher (demo_cc 4096 3) split_ctx 0 (answers 0) in
  b_ret res = - EIO
  /\ iter_in (b_ctx res) = iter_in split_ctx
  /\ iter_out (b_ctx res) = iter_out split_ctx
  /\ bi_size (iter_in (b_ctx res)) = 4096
  /\ bi_size (iter_in (b_ctx res))
     <> bi_size (iter_in split_ctx) - sector_size (demo_cc 4096 3)
  /\ iter_in (b_ctx res)
     <> bio_advance_iter (bio_in split_ctx) (iter_in split_ctx) 4096.
Proof.
  cbv zeta. repeat split; try (vm_compute; congruence).
Qed.

(** A write of two 512-byte sectors at sector 8; the per-bio request 0 is
    attached. *)
Definition demo_start : machine :=
  start (demo_cc 512 0) WRITE (demo_bio WRITE [1024] 8) (demo_bio WRITE [1024] 8)
    8 (Some O) 7.

Definition calls (tr : list op) : list submission :=
  flat_map (fun o => match o with OpCall s => [s] | _ => [] end) tr.

(** The first sector is accepted asynchronously, the second finishes within
    the call; the worker drops its reference first, the callback comes
    last. *)
Definition callback_last : list event :=
  [ Worker (answers 0); Worker (answers 0); Worker (answers (- EINPROGRESS));
    Worker (answers 0); Worker (answers 0); Worker (answers 0);
    Worker (answers 0); Worker (answers 0); Worker (answers 0);
    AsyncDone 0 0 0 ].

Definition callback_last_end : machine :=
  Eval vm_compute in
    match run (demo_cc 512 0) demo_start callback_last with
    | Some m => m
    | None => demo_start
    end.

Lemma callback_last_runs :
  run (demo_cc 512 0) demo_start callback_last = Some callback_last_end.
Proof. vm_compute. reflexivity. Qed.

Lemma cc_pending_seeded_counted_completed_once_witness :
  cc_pending (ctx callback_last_end) = 0
  /\ count is_complete (trace callback_last_end) = 1
  /\ exists rest,
       trace callback_last_end
       = OpComplete Callback (WriteSubmit true) :: OpDec Callback :: rest
       /\ count is_complete rest = 0.
Proof.
  destruct (cc_pending_seeded_counted_completed_once (demo_cc 512 0) WRITE
              (demo_bio WRITE [1024] 8) (demo_bio WRITE [1024] 8) 8 (Some O) 7
              callback_last callback_last_end callback_last_runs)
    as (_ & _ & _ & _ & _ & _ & H).
  destruct H as (_ & _ & _ & _ & W); [vm_compute; discriminate|].
  split; [reflexivity|]. split; [reflexivity|].
  destruct (W eq_refl) as (w & rest & Et & Ec).
  exists rest. split; [|exact Ec].
  rewrite Et. vm_compute in Et. injection Et as <- _. reflexivity.
Defined.

(** Both orders of the last decrement, on the same conversion: the callback
    last submits the write with [async] set; the worker last (the callback
    arrives before the caller's decrement) submits it with [async] clear.
    Either way one action, after two increments and three decrements. *)
Lemma completion_once_on_either_path :
  (exists rest,
     trace callback_last_end
     = OpComplete Callback (WriteSubmit true) :: OpDec Callback :: rest
     /\ count is_complete rest = 0)
  /\ (exists m rest,
       run (demo_cc 512 0) demo_start
         [ Worker (answers 0); Worker (answers 0);
           Worker (answers (- EINPROGRESS)); Worker (answers 0);
           AsyncDone 0 0 0;
           Worker (answers 0); Worker (answers 0); Worker (answers 0);
           Worker (answers 0); Worker (answers 0) ] = Some m
       /\ trace m
          = OpComplete Submitter (WriteSubmit false) :: OpDec Submitter :: rest
       /\ count is_complete rest = 0
       /\ count is_inc (trace m) = 2
       /\ count (is_dec Submitter) (trace m) + count (is_dec Callback) (trace m)
          = 3).
Proof.
  split.
  - eexists. split; [vm_compute; reflexivity|reflexivity].
  - do 2 eexists. split; [vm_compute; reflexivity|].
    repeat split; reflexivity.
Qed.

(** ** A busy engine: wait, then go on to the next sector *)

(** The worker asleep in [wait_for_completion] moves only once the
    completion was signalled; it then resets the completion and continues
    with the arm of -EINPROGRESS. *)
Lemma wait_then_next cc w eng :
  pc w = PcWait ->
  worker_step cc w eng
  = if 0 <? restart (ctx w)
    then worker_step cc
           (mk w (set_restart (ctx w) 0) (io_error w) (PcSwitch (- EINPROGRESS))
              (tag_offset w) (backlog w) (inflight w) (next_req w) (trace w))
           eng
    else None.
Proof.
  intros Hpc. unfold worker_step. rewrite Hpc. cbn [pc mk].
  destruct (0 <? restart (ctx w)); reflexivity.
Qed.

(** C1 (as amended). When a request builder returns -EBUSY the engine has
    taken the request into its backlog and the call has consumed one
    sector-group of both data cursors. The worker then sleeps in
    [wait_for_completion]: it cannot move while the completion is not
    signalled; [kcryptd_async_done] with -EINPROGRESS for a backlogged
    request signals it. Once signalled, the worker does not submit the
    request again: it resets the completion and goes on exactly as after
    -EINPROGRESS, with the request detached, the sector cursor one sector
    step further, the tag offset one further, the data cursors as the busy
    call left them, and the pending count still holding the backlogged
    request's reference. *)
Theorem busy_waits_then_continues_with_next_sector
    (cc : crypt_config) (m m1 : machine) (eng : engine) :
  pc m = PcCall ->
  hooks_conform eng = true ->
  worker_step cc m eng = Some m1 ->
  pc m1 = PcSwitch (- EBUSY) ->
  (* the busy call *)
  (advanced cc (ctx m) (ctx m1)
   /\ cc_sector (ctx m1) = cc_sector (ctx m)
   /\ tag_offset m1 = tag_offset m
   /\ cc_pending (ctx m1) = cc_pending (ctx m)
   /\ exists req, r_req (ctx m) = r_req (ctx m1)
        /\ backlog m1 = req :: backlog m
        /\ (forall r, r_req (ctx m) = Some r -> req = r))
  (* the worker goes to sleep *)
  /\ (forall eng1,
        worker_step cc m1 eng1
        = Some (mk m1 (ctx m1) (io_error m1) PcWait (tag_offset m1)
                  (backlog m1) (inflight m1) (next_req m1) (trace m1)))
  (* asleep until signalled, signalled by the backlog-drain callback *)
  /\ (forall w eng1,
        pc w = PcWait -> restart (ctx w) <= 0 -> worker_step cc w eng1 = None)
  /\ (forall w req post,
        pc w = PcWait -> mem req (backlog w) = true ->
        exists w',
          async_done cc w req (- EINPROGRESS) post = Some w'
          /\ pc w' = PcWait
          /\ restart (ctx w') = restart (ctx w) + 1
          /\ ctx w' = set_restart (ctx w) (restart (ctx w) + 1)
          /\ tag_offset w' = tag_offset w
          /\ trace w' = trace w)
  (* woken up: on to the next sector, nothing resubmitted *)
  /\ (forall w eng1,
        pc w = PcWait -> 0 < restart (ctx w) ->
        exists w',
          worker_step cc w eng1 = Some w'
          /\ pc w' = PcLoop
          /\ r_req (ctx w') = None
          /\ cc_sector (ctx w') = wrap64 (cc_sector (ctx w) + sector_step cc)
          /\ tag_offset w' = wrap32 (tag_offset w + 1)
          /\ iter_in (ctx w') = iter_in (ctx w)
          /\ iter_out (ctx w') = iter_out (ctx w)
          /\ cc_pending (ctx w') = cc_pending (ctx w)
          /\ restart (ctx w') = 0
          /\ trace w' = trace w
          /\ worker_step cc w eng1
             = worker_step cc
                 (mk w (set_restart (ctx w) 0) (io_error w)
                    (PcSwitch (- EINPROGRESS)) (tag_offset w) (backlog w)
                    (inflight w) (next_req w) (trace w)) eng1).
Proof.
  intros Hpc Hc Hstep Hsw.
  split; [|split; [|split; [|split]]].
  - unfold worker_step in Hstep. rewrite Hpc in Hstep.
    destruct (if crypt_integrity_aead cc then _ else _) as [res|] eqn:Eres;
      [|discriminate].
    destruct (builder_queue cc m eng res Hc Eres) as [Q1 Q2].
    destruct (builder_frame cc m eng res Eres) as (F1 & F2 & F3 & F4).
    rewrite Q1, Q2 in Hstep.
    injection Hstep as <-. cbn [pc mk] in Hsw. injection Hsw as Hret.
    cbn [ctx mk tag_offset backlog].
    destruct (builder_async cc m eng res Hc Eres) as [A _].
    destruct A as [Asub Aret]; [rewrite Hret; reflexivity|].
    assert (Hsub : reaches_cipher cc (ctx m) eng = true).
    { assert (O : builder_outcome cc (ctx m) eng res).
      { destruct (crypt_integrity_aead cc).
        - eapply aead_outcome; eauto.
        - injection Eres as <-. apply skcipher_outcome. }
      unfold builder_outcome in O.
      destruct (reaches_cipher cc (ctx m) eng); [reflexivity|exfalso].
      destruct O as (_ & N & _). contradiction. }
    assert (Hadv : advanced cc (ctx m) (b_ctx res)).
    { assert (O : builder_outcome cc (ctx m) eng res).
      { destruct (crypt_integrity_aead cc).
        - eapply aead_outcome; eauto.
        - injection Eres as <-. apply skcipher_outcome. }
      unfold builder_outcome in O. rewrite Hsub in O. now destruct O. }
    split; [exact Hadv|]. split; [exact F3|]. split; [reflexivity|].
    split; [exact F1|].
    rewrite Hret. replace (- EBUSY =? - EBUSY) with true by reflexivity.
    eexists. split; [now rewrite F2|]. split; [reflexivity|].
    intros r Hr. now rewrite Hr.
  - intros eng1. unfold worker_step. rewrite Hsw.
    replace (- EBUSY =? - EBUSY) with true by reflexivity. reflexivity.
  - intros w eng1 Hw Hr. unfold worker_step. rewrite Hw.
    replace (0 <? restart (ctx w)) with false
      by (symmetry; apply Z.ltb_ge; lia).
    reflexivity.
  - intros w req post Hw Hmem. unfold async_done.
    replace (- EINPROGRESS =? - EINPROGRESS) with true by reflexivity.
    rewrite Hmem. eexists. split; [reflexivity|]. cbn [pc mk ctx tag_offset trace].
    repeat split; auto.
  - intros w eng1 Hw Hr.
    rewrite (wait_then_next cc w eng1 Hw).
    replace (0 <? restart (ctx w)) with true by (symmetry; apply Z.ltb_lt; lia).
    unfold worker_step at 1. cbn [pc mk].
    replace (- EINPROGRESS =? - EBUSY) with false by reflexivity.
    replace (- EINPROGRESS =? - EINPROGRESS) with true by reflexivity.
    eexists. split; [reflexivity|]. cbn. repeat split.
Qed.

(** The engine is busy at the first sector; its backlog drains; the worker
    goes on and submits once more. *)
Definition busy_first : list event :=
  [ Worker (answers 0); Worker (answers 0); Worker (answers (- EBUSY));
    Worker (answers 0); AsyncDone 0 (- EINPROGRESS) 0; Worker (answers 0);
    Worker (answers 0); Worker (answers 0) ].

Definition busy_first_end : machine :=
  Eval vm_compute in
    match run (demo_cc 512 0) demo_start busy_first with
    | Some m => m
    | None => demo_start
    end.

(** C1, as the claim states it, fails: after the busy submission at sector
    8 (tag offset 0, 1024 bytes to go) and the backlog-drain signal, the
    next submission is not a retry at the same cursors: it is a new request
    at sector 9, tag offset 1, with 512 bytes to go on both cursors. *)
Lemma busy_is_followed_by_the_next_sector :
  run (demo_cc 512 0) demo_start busy_first = Some busy_first_end
  /\ map s_ret (calls (trace busy_first_end)) = [0; - EBUSY]
  /\ map s_sector (calls (trace busy_first_end)) = [9; 8]
  /\ map s_tag_offset (calls (trace busy_first_end)) = [1; 0]
  /\ map (fun s => bi_size (s_iter_in s)) (calls (trace busy_first_end))
     = [512; 1024]
  /\ map (fun s => bi_size (s_iter_out s)) (calls (trace busy_first_end))
     = [512; 1024]
  /\ map s_req (calls (trace busy_first_end)) = [Some 1%nat; Some 0%nat].
Proof.
  repeat split; vm_compute; reflexivity.
Qed.

Definition at_busy_call : machine :=
  Eval vm_compute in
    match run (demo_cc 512 0) demo_start (firstn 2 busy_first) with
    | Some m => m
    | None => demo_start
    end.

Definition after_busy_call : machine :=
  Eval vm_compute in
    match worker_step (demo_cc 512 0) at_busy_call (answers (- EBUSY)) with
    | Some m => m
    | None => demo_start
    end.

Lemma busy_waits_then_continues_with_next_sector_witness :
  advanced (demo_cc 512 0) (ctx at_busy_call) (ctx after_busy_call)
  /\ backlog after_busy_call = [0%nat]
  /\ cc_pending (ctx after_busy_call) = 2.
Proof.
  destruct (busy_waits_then_continues_with_next_sector (demo_cc 512 0)
              at_busy_call after_busy_call (answers (- EBUSY))
              eq_refl eq_refl eq_refl eq_refl)
    as ((A & _ & _ & P & req & _ & B & R) & _).
  split; [exact A|]. split.
  - rewrite B, (R 0%nat eq_refl). reflexivity.
  - rewrite P. reflexivity.
Defined.

(** ** The loop of crypt_convert over a whole bio *)

Lemma convert_run_app cc es1 es2 m :
  run cc m (es1 ++ es2)
  = match run cc m es1 with
    | Some m1 => run cc m1 es2
    | None => None
    end.
Proof.
  revert m. induction es1 as [|e es1 IH]; intros m; cbn [app run].
  - reflexivity.
  - destruct (step cc m e); [apply IH|reflexivity].
Qed.

(** Segments that are whole sector-groups. *)
Definition aligned_vecs (ss : Z) (bvs : list bio_vec) : Prop :=
  Forall (fun bv => 0 < bv_len bv /\ bv_len bv mod ss = 0) bvs.

(** A cursor that stands on a sector-group boundary inside the segment
    table and claims no more than the table holds. *)
Definition cursor_ok (ss : Z) (b : bio) (it : bvec_iter) : Prop :=
  0 <= bi_idx it
  /\ 0 <= bi_bvec_done it
  /\ bi_bvec_done it mod ss = 0
  /\ 0 <= bi_size it
  /\ bi_size it mod ss = 0
  /\ bi_size it
     <= segments_total (skipn (Z.to_nat (bi_idx it)) (bi_io_vec b))
        - bi_bvec_done it
  /\ match skipn (Z.to_nat (bi_idx it)) (bi_io_vec b) with
     | [] => bi_bvec_done it = 0
     | bv :: _ => bi_bvec_done it < bv_len bv
     end.

Lemma nth_skipn_head {A} k (l : list A) d : nth k l d = nth 0 (skipn k l) d.
Proof.
  revert l. induction k as [|k IH]; intros [|x l]; cbn; auto.
Qed.

Lemma skipn_succ_tail {A} k (l : list A) x rest :
  skipn k l = x :: rest -> skipn (S k) l = rest.
Proof.
  revert l. induction k as [|k IH]; intros [|y l]; cbn [skipn]; try discriminate.
  - now intros [= _ <-].
  - intros H. destruct l as [|z l].
    + destruct k; discriminate H.
    + now apply IH in H.
Qed.

Lemma aligned_skipn ss k bvs : aligned_vecs ss bvs -> aligned_vecs ss (skipn k bvs).
Proof.
  unfold aligned_vecs. revert bvs. induction k as [|k IH]; intros [|bv bvs] H;
    cbn [skipn]; auto.
  apply IH. now inversion H.
Qed.

Lemma multiple_ge ss x : 0 < ss -> 0 < x -> x mod ss = 0 -> ss <= x.
Proof.
  intros Hs Hx Hm. apply Z.mod_divide in Hm; [|lia].
  destruct Hm as [q ->].
  assert (0 < q) by nia. nia.
Qed.

Lemma mod_sub_multiple ss a b : 0 < ss -> a mod ss = 0 -> b mod ss = 0 -> (a - b) mod ss = 0.
Proof.
  intros Hs Ha Hb. rewrite Zminus_mod, Ha, Hb. reflexivity.
Qed.

Lemma mod_add_multiple ss a b : 0 < ss -> a mod ss = 0 -> b mod ss = 0 -> (a + b) mod ss = 0.
Proof.
  intros Hs Ha Hb. rewrite Zplus_mod, Ha, Hb. reflexivity.
Qed.

Lemma land_mask_zero j x :
  0 <= j -> 0 <= x -> x mod 2 ^ j = 0 -> Z.land x (2 ^ j - 1) = 0.
Proof.
  intros Hj Hx Hm.
  replace (2 ^ j - 1) with (Z.ones j) by (rewrite Z.ones_equiv; lia).
  now rewrite Z.land_ones by assumption.
Qed.

Lemma bvec_advance_zero bvs it : bvec_advance bvs it 0 = it.
Proof. destruct bvs; reflexivity. Qed.

(** The current segment of a cursor on a boundary is a whole number of
    sector-groups. *)
Lemma cursor_iovec_aligned ss b it :
  0 < ss -> aligned_vecs ss (bi_io_vec b) -> cursor_ok ss b it ->
  0 < bi_size it ->
  0 <= bv_len (bio_iter_iovec b it)
  /\ bv_len (bio_iter_iovec b it) mod ss = 0.
Proof.
  intros Hs Ha (Hi & Hd & Hdm & Hz & Hzm & Hfit & Hcur) Hpos.
  unfold bio_iter_iovec. cbn [bv_len].
  rewrite nth_skipn_head.
  pose proof (aligned_skipn ss (Z.to_nat (bi_idx it)) _ Ha) as Hsk.
  destruct (skipn (Z.to_nat (bi_idx it)) (bi_io_vec b)) as [|bv rest].
  { cbn [segments_total fold_right] in Hfit. lia. }
  cbn [nth]. inversion Hsk as [|? ? [Hp Hm] _]; subst.
  destruct (Z.min_spec (bi_size it) (bv_len bv - bi_bvec_done it)) as [[_ ->]|[_ ->]].
  - split; [lia|assumption].
  - split; [lia|]. now apply mod_sub_multiple.
Qed.

(** Advancing such a cursor by one sector-group keeps it such a cursor,
    with one sector-group less to go. *)
Lemma cursor_advance ss b it :
  0 < ss -> aligned_vecs ss (bi_io_vec b) -> cursor_ok ss b it ->
  ss <= bi_size it ->
  cursor_ok ss b (bio_advance_iter b it ss)
  /\ bi_size (bio_advance_iter b it ss) = bi_size it - ss.
Proof.
  intros Hs Ha (Hi & Hd & Hdm & Hz & Hzm & Hfit & Hcur) Hge.
  unfold bio_advance_iter.
  replace (bi_size it <? ss) with false by (symmetry; apply Z.ltb_ge; lia).
  pose proof (aligned_skipn ss (Z.to_nat (bi_idx it)) _ Ha) as Hsk.
  destruct (skipn (Z.to_nat (bi_idx it)) (bi_io_vec b)) as [|bv rest] eqn:Esk.
  { cbn [segments_total fold_right] in Hfit. lia. }
  inversion Hsk as [|? ? [Hp Hm] Hrest]; subst.
  cbn [segments_total fold_right] in Hfit. fold (segments_total rest) in Hfit.
  cbn [bvec_advance].
  replace (ss =? 0) with false by (symmetry; apply Z.eqb_neq; lia).
  cbn [bi_size bi_bvec_done bi_sector bi_idx].
  assert (Hroom : ss <= bv_len bv - bi_bvec_done it).
  { apply multiple_ge; [lia|lia|]. now apply mod_sub_multiple. }
  replace (Z.min ss (Z.min (bi_size it) (bv_len bv - bi_bvec_done it)))
    with ss by lia.
  destruct (Z.eqb_spec (bi_bvec_done it + ss) (bv_len bv)) as [E|E].
  - replace (ss - ss) with 0 by lia. rewrite bvec_advance_zero.
    split; [|reflexivity].
    unfold cursor_ok. cbn [bi_idx bi_bvec_done bi_size].
    replace (Z.to_nat (bi_idx it + 1)) with (S (Z.to_nat (bi_idx it))) by lia.
    rewrite (skipn_succ_tail _ _ _ _ Esk).
    repeat split; try lia.
    + now apply mod_sub_multiple; [lia| |apply Z.mod_same; lia].
    + destruct rest as [|bv' rest']; [reflexivity|].
      inversion Hrest as [|? ? [Hp' _] _]; subst. exact Hp'.
  - split; [|reflexivity].
    unfold cursor_ok. cbn [bi_idx bi_bvec_done bi_size]. rewrite Esk.
    cbn [segments_total fold_right]. fold (segments_total rest).
    repeat split; try lia.
    + now apply mod_add_multiple; [lia| |apply Z.mod_same; lia].
    + now apply mod_sub_multiple; [lia| |apply Z.mod_same; lia].
Qed.

(** The state a conversion loop is in between two sub-requests, as far as
    the loop depends on it. *)
Record loop_ready (cc : crypt_config) (m : machine) : Prop := {
  lr_pc : pc m = PcLoop;
  lr_in : cursor_ok (sector_size cc) (bio_in (ctx m)) (iter_in (ctx m));
  lr_out : cursor_ok (sector_size cc) (bio_out (ctx m)) (iter_out (ctx m));
  lr_vin : aligned_vecs (sector_size cc) (bi_io_vec (bio_in (ctx m)));
  lr_vout : aligned_vecs (sector_size cc) (bi_io_vec (bio_out (ctx m)));
  lr_sector : 0 <= cc_sector (ctx m) < 2 ^ 64;
  lr_tag : 0 <= tag_offset m < 2 ^ 32
}.

(** What a call recorded in the trace says: sector, tag offset, bytes left
    on the input and on the output cursor, return value. *)
Definition call_summary (s : submission) : Z * Z * Z * Z * Z :=
  (s_sector s, s_tag_offset s, bi_size (s_iter_in s), bi_size (s_iter_out s),
   s_ret s).

(** The [k]-th call of a loop that starts at sector [s0] with tag offset
    [t0] and [n] sector-groups to go. *)
Definition nth_call (cc : crypt_config) (s0 t0 : Z) (n : nat) (k : nat)
  : Z * Z * Z * Z * Z :=
  (wrap64 (s0 + Z.of_nat k * sector_step cc), wrap32 (t0 + Z.of_nat k),
   Z.of_nat (n - k) * sector_size cc, Z.of_nat (n - k) * sector_size cc, 0).

(** The cipher and the hooks finish every sub-request within the call. *)
Definition sync_engine : engine := answers 0.

(** The AEAD builder's [BUG_ON] does not fire. *)
Definition aead_iv_fits (cc : crypt_config) : bool :=
  negb (crypt_integrity_aead cc)
  || (integrity_iv_size cc =? 0) || (integrity_iv_size cc =? iv_size cc).

Lemma builder_sync cc c tag :
  aead_iv_fits cc = true ->
  Z.land (bv_len (bio_iter_iovec (bio_in c) (iter_in c))) (sector_size cc - 1) = 0 ->
  exists res,
    (if crypt_integrity_aead cc
     then crypt_convert_block_aead cc c tag sync_engine
     else Some (crypt_convert_block_skcipher cc c tag sync_engine)) = Some res
    /\ b_ret res = 0
    /\ b_ctx res
       = set_iters c (bio_advance_iter (bio_in c) (iter_in c) (sector_size cc))
                     (bio_advance_iter (bio_out c) (iter_out c) (sector_size cc))
    /\ b_submitted res <> None.
Proof.
  intros Hfit Hal. unfold aead_iv_fits in Hfit.
  unfold crypt_convert_block_aead, crypt_convert_block_skcipher,
    convert_block_body.
  rewrite Hal. cbn [Z.eqb negb].
  cbn [sync_engine answers gen_ret crypt_ret post_ret].
  replace (0 <? 0) with false by reflexivity.
  rewrite !andb_false_r. cbn [Z.eqb andb].
  destruct (crypt_integrity_aead cc).
  - cbn [negb orb] in Hfit.
    replace (negb (integrity_iv_size cc =? 0)
             && negb (integrity_iv_size cc =? iv_size cc)) with false.
    2:{ destruct (integrity_iv_size cc =? 0); [reflexivity|].
        cbn [orb] in Hfit. now rewrite Hfit. }
    eexists. split; [reflexivity|]. cbn [b_ret b_ctx b_submitted].
    split; [now destruct (has_generator cc && has_post cc)|].
    split; [reflexivity|discriminate].
  - eexists. split; [reflexivity|]. cbn [b_ret b_ctx b_submitted].
    split; [now destruct (has_generator cc && has_post cc)|].
    split; [reflexivity|discriminate].
Qed.

(** One turn of the loop with a synchronous engine. *)
Lemma sync_iteration cc j m :
  0 <= j -> sector_size cc = 2 ^ j ->
  aead_iv_fits cc = true ->
  loop_ready cc m ->
  sector_size cc <= bi_size (iter_in (ctx m)) ->
  sector_size cc <= bi_size (iter_out (ctx m)) ->
  exists m' sub,
    run cc m [Worker sync_engine; Worker sync_engine; Worker sync_engine]
    = Some m'
    /\ loop_ready cc m'
    /\ bi_size (iter_in (ctx m')) = bi_size (iter_in (ctx m)) - sector_size cc
    /\ bi_size (iter_out (ctx m')) = bi_size (iter_out (ctx m)) - sector_size cc
    /\ cc_sector (ctx m') = wrap64 (cc_sector (ctx m) + sector_step cc)
    /\ tag_offset m' = wrap32 (tag_offset m + 1)
    /\ cc_pending (ctx m') = cc_pending (ctx m)
    /\ io_error m' = io_error m
    /\ io_dir m' = io_dir m
    /\ backlog m' = backlog m /\ inflight m' = inflight m
    /\ calls (trace m') = sub :: calls (trace m)
    /\ call_summary sub
       = (cc_sector (ctx m), tag_offset m, bi_size (iter_in (ctx m)),
          bi_size (iter_out (ctx m)), 0).
Proof.
  intros Hj Hss Hfit [Hpc Hin Hout Hvin Hvout Hsec Htag] Gin Gout.
  assert (Hpos : 0 < sector_size cc) by (rewrite Hss; lia).
  cbn [run step]. replace (hooks_conform sync_engine) with true by reflexivity.
  (* PcLoop -> PcCall *)
  unfold worker_step at 1. rewrite Hpc.
  replace (bi_size (iter_in (ctx m)) =? 0) with false
    by (symmetry; apply Z.eqb_neq; lia).
  replace (bi_size (iter_out (ctx m)) =? 0) with false
    by (symmetry; apply Z.eqb_neq; lia).
  cbn [negb andb].
  destruct (crypt_alloc_req m) as [c nx] eqn:Ealloc.
  assert (Fc : bio_in c = bio_in (ctx m) /\ bio_out c = bio_out (ctx m)
               /\ iter_in c = iter_in (ctx m) /\ iter_out c = iter_out (ctx m)
               /\ cc_sector c = cc_sector (ctx m)
               /\ cc_pending c = cc_pending (ctx m)).
  { unfold crypt_alloc_req in Ealloc.
    destruct (r_req (ctx m)); injection Ealloc as <- _; repeat split. }
  destruct Fc as (Fbi & Fbo & Fii & Fio & Fs & Fp).
  (* PcCall -> PcSwitch 0 *)
  unfold worker_step at 1. cbn [pc mk ctx tag_offset].
  destruct (cursor_iovec_aligned _ _ _ Hpos Hvin Hin ltac:(lia)) as [Hn Hal].
  assert (Hland : Z.land (bv_len (bio_iter_iovec (bio_in (atomic_inc c))
                                    (iter_in (atomic_inc c))))
                    (sector_size cc - 1) = 0).
  { cbn [atomic_inc set_pending bio_in iter_in]. rewrite Fbi, Fii, Hss.
    apply land_mask_zero; [assumption|assumption|now rewrite <- Hss]. }
  destruct (builder_sync cc (atomic_inc c) (tag_offset m) Hfit Hland)
    as (res & Eres & Rret & Rctx & Rsub).
  rewrite Eres.
  replace (crypt_ret sync_engine =? - EBUSY) with false by reflexivity.
  replace (crypt_ret sync_engine =? - EINPROGRESS) with false by reflexivity.
  rewrite !andb_false_r.
  (* PcSwitch 0 -> PcLoop *)
  unfold worker_step at 1. cbn [pc mk ctx tag_offset]. rewrite Rret.
  replace (0 =? - EBUSY) with false by reflexivity.
  replace (0 =? - EINPROGRESS) with false by reflexivity.
  cbn [Z.eqb].
  destruct (cursor_advance _ _ _ Hpos Hvin Hin Gin) as [Hin' Sin'].
  destruct (cursor_advance _ _ _ Hpos Hvout Hout Gout) as [Hout' Sout'].
  do 2 eexists. split; [reflexivity|].
  rewrite Rctx.
  cbn [mk ctx pc tag_offset io_error io_dir backlog inflight trace next_sector
       atomic_dec atomic_inc set_pending set_sector set_iters bio_in bio_out
       iter_in iter_out cc_sector cc_pending calls flat_map app].
  rewrite Fbi, Fbo, Fii, Fio, Fs, Fp.
  split.
  { constructor;
      cbn [mk ctx pc tag_offset next_sector atomic_dec atomic_inc set_pending
           set_sector set_iters bio_in bio_out iter_in iter_out cc_sector];
      rewrite ?Fbi, ?Fbo, ?Fii, ?Fio, ?Fs; auto.
    - unfold wrap64. apply Z.mod_pos_bound. lia.
    - unfold wrap32. apply Z.mod_pos_bound. lia. }
  repeat split; try assumption; try lia.
Qed.

Lemma wrap64_add_l a b : wrap64 (wrap64 a + b) = wrap64 (a + b).
Proof. unfold wrap64. now rewrite Zplus_mod_idemp_l. Qed.

Lemma wrap32_add_l a b : wrap32 (wrap32 a + b) = wrap32 (a + b).
Proof. unfold wrap32. now rewrite Zplus_mod_idemp_l. Qed.

(** [n] turns of the loop. *)
Lemma sync_loop cc j n : forall m,
  0 <= j -> sector_size cc = 2 ^ j ->
  aead_iv_fits cc = true ->
  loop_ready cc m ->
  bi_size (iter_in (ctx m)) = Z.of_nat n * sector_size cc ->
  bi_size (iter_out (ctx m)) = Z.of_nat n * sector_size cc ->
  exists m' subs,
    run cc m (repeat (Worker sync_engine) (3 * n)) = Some m'
    /\ loop_ready cc m'
    /\ bi_size (iter_in (ctx m')) = 0
    /\ bi_size (iter_out (ctx m')) = 0
    /\ cc_sector (ctx m')
       = wrap64 (cc_sector (ctx m) + Z.of_nat n * sector_step cc)
    /\ tag_offset m' = wrap32 (tag_offset m + Z.of_nat n)
    /\ cc_pending (ctx m') = cc_pending (ctx m)
    /\ io_error m' = io_error m
    /\ io_dir m' = io_dir m
    /\ backlog m' = backlog m /\ inflight m' = inflight m
    /\ calls (trace m') = rev subs ++ calls (trace m)
    /\ map call_summary subs
       = map (nth_call cc (cc_sector (ctx m)) (tag_offset m) n) (seq 0 n).
Proof.
  induction n as [|n IH]; intros m Hj Hss Hfit Hr Sin Sout.
  - exists m, []. cbn [Nat.mul repeat run rev app map seq Z.of_nat] in *.
    pose proof Hr as [_ _ _ _ _ Hsec Htag].
    split; [reflexivity|]. split; [exact Hr|].
    split; [lia|]. split; [lia|].
    split.
    { rewrite Z.mul_0_l, Z.add_0_r. unfold wrap64. now rewrite Z.mod_small. }
    split.
    { rewrite Z.add_0_r. unfold wrap32. now rewrite Z.mod_small. }
    repeat (split; [reflexivity|]). reflexivity.
  - assert (Hpos : 0 < sector_size cc) by (rewrite Hss; lia).
    destruct (sync_iteration cc j m Hj Hss Hfit Hr ltac:(nia) ltac:(nia))
      as (m1 & sub & R1 & Hr1 & Si1 & So1 & Sec1 & Tag1 & P1 & E1 & D1 & B1 & I1
          & C1 & Sum1).
    destruct (IH m1 Hj Hss Hfit Hr1 ltac:(nia) ltac:(nia))
      as (m2 & subs & R2 & Hr2 & Si2 & So2 & Sec2 & Tag2 & P2 & E2 & D2 & B2 & I2
          & C2 & Sum2).
    exists m2, (sub :: subs).
    replace (3 * S n)%nat with (3 + 3 * n)%nat by lia.
    rewrite repeat_app, convert_run_app.
    change (repeat (Worker sync_engine) 3)
      with [Worker sync_engine; Worker sync_engine; Worker sync_engine].
    rewrite R1, R2.
    split; [reflexivity|]. split; [assumption|].
    split; [assumption|]. split; [assumption|].
    split.
    { rewrite Sec2, Sec1, wrap64_add_l. f_equal. lia. }
    split.
    { rewrite Tag2, Tag1, wrap32_add_l. f_equal. lia. }
    split; [congruence|]. split; [congruence|]. split; [congruence|].
    split; [congruence|]. split; [congruence|].
    split.
    { rewrite C2, C1. cbn [rev]. now rewrite <- app_assoc. }
    cbn [map]. rewrite Sum1, Sum2.
    destruct Hr as [? ? ? ? ? Hsec Htag].
    change (seq 0 (S n)) with (0%nat :: seq 1 n).
    rewrite <- seq_shift. cbn [map]. rewrite map_map. f_equal.
    + unfold nth_call. cbn [Z.of_nat]. rewrite !Z.mul_0_l, !Z.add_0_r.
      rewrite Nat.sub_0_r.
      unfold wrap64, wrap32. rewrite !Z.mod_small by assumption.
      now rewrite Sin, Sout.
    + apply map_ext. intros k. unfold nth_call.
      rewrite Sec1, Tag1, wrap64_add_l, wrap32_add_l.
      replace (S n - S k)%nat with (n - k)%nat by lia.
      replace (cc_sector (ctx m) + sector_step cc + Z.of_nat k * sector_step cc)
        with (cc_sector (ctx m) + Z.of_nat (S k) * sector_step cc) by lia.
      replace (tag_offset m + 1 + Z.of_nat k)
        with (tag_offset m + Z.of_nat (S k)) by lia.
      reflexivity.
Qed.

(** A bio whose iterator is a fresh cursor over aligned segments. *)
Definition aligned_bio (ss : Z) (b : bio) : Prop :=
  aligned_vecs ss (bi_io_vec b) /\ cursor_ok ss b (bi_iter b).

(** X11. With a cipher that finishes every sub-request within the call,
    [crypt_convert] over an input and an output of [n] sector-groups each
    takes [3 n + 3] steps of the worker, makes exactly [n] builder calls,
    the [k]-th at sector [sector + iv_offset + k * (sector_size >> 9)] with
    tag offset [k] and [n - k] sector-groups left on both cursors, each
    returning 0; it uses up both cursors, returns [BLK_STS_OK] with no
    error recorded, and the caller's decrement brings the pending count to
    zero, so that the completion action runs on the worker. *)
Theorem crypt_convert_sync_converts_every_sector
    (cc : crypt_config) (j : Z) (n : nat) (dir : rw) (b_in b_out : bio)
    (sector : Z) (req : option nat) (stale : Z) :
  0 <= j -> sector_size cc = 2 ^ j ->
  aead_iv_fits cc = true ->
  aligned_bio (sector_size cc) b_in ->
  aligned_bio (sector_size cc) b_out ->
  bi_size (bi_iter b_in) = Z.of_nat n * sector_size cc ->
  bi_size (bi_iter b_out) = Z.of_nat n * sector_size cc ->
  exists m rest,
    run cc (start cc dir b_in b_out sector req stale)
      (repeat (Worker sync_engine) (3 * n + 3)) = Some m
    /\ pc m = PcDone
    /\ cc_pending (ctx m) = 0
    /\ io_error m = BLK_STS_OK
    /\ backlog m = [] /\ inflight m = []
    /\ bi_size (iter_in (ctx m)) = 0
    /\ bi_size (iter_out (ctx m)) = 0
    /\ map call_summary (rev (calls (trace m)))
       = map (nth_call cc (wrap64 (sector + iv_offset cc)) 0 n) (seq 0 n)
    /\ trace m
       = OpComplete Submitter (completion_action dir Submitter)
         :: OpDec Submitter :: rest.
Proof.
  intros Hj Hss Hfit [Vin Cin] [Vout Cout] Sin Sout.
  replace (3 * n + 3)%nat with (1 + (3 * n + 2))%nat by lia.
  rewrite repeat_app, convert_run_app.
  cbn [repeat run step]. replace (hooks_conform sync_engine) with true by reflexivity.
  unfold worker_step at 1. cbn [start pc].
  set (m0 := mk _ _ _ PcLoop 0 _ _ _ _).
  assert (Hr0 : loop_ready cc m0).
  { constructor; cbn; auto; try lia.
    unfold wrap64. apply Z.mod_pos_bound. lia. }
  destruct (sync_loop cc j n m0 Hj Hss Hfit Hr0 Sin Sout)
    as (m1 & subs & R & Hr1 & Si & So & Sec & Tag & P & E & D & B & I & C & Sum).
  rewrite repeat_app, convert_run_app, R.
  cbn [repeat run step]. replace (hooks_conform sync_engine) with true by reflexivity.
  destruct Hr1 as [Hpc1 _ _ _ _ _ _].
  unfold worker_step at 1. rewrite Hpc1, Si. cbn [Z.eqb negb andb].
  unfold worker_step at 1. cbn [pc mk ctx io_error tag_offset backlog inflight
                                 next_req trace io_dir].
  unfold atomic_dec_and_test. rewrite P. cbn [m0 mk ctx atomic_set set_pending
                                               cc_pending].
  cbn [Z.sub Z.add Z.opp Z.pos_sub Z.eqb BLK_STS_OK].
  do 2 eexists. split; [reflexivity|].
  cbn [mk pc ctx set_pending cc_pending io_error backlog inflight trace
       iter_in iter_out io_dir].
  change (calls (OpComplete Submitter (completion_action (io_dir m1) Submitter)
                 :: OpDec Submitter :: trace m1)) with (calls (trace m1)).
  rewrite E, B, I, D, Si, So, C.
  cbn [m0 mk io_error backlog inflight io_dir trace calls flat_map app].
  rewrite app_nil_r, rev_involutive, Sum.
  repeat split.
Qed.

Lemma demo_bio_aligned dir n :
  aligned_bio 512 (demo_bio dir (repeat 1024 n) 8).
Proof.
  assert (V : aligned_vecs 512
                (map (fun k => {| bv_len := k; bv_offset := 0 |})
                   (repeat 1024 n))).
  { unfold aligned_vecs. induction n as [|n IH]; cbn [repeat map];
      constructor; [cbn; split; [lia|reflexivity]|exact IH]. }
  split; [exact V|].
  unfold cursor_ok, demo_bio. cbn [bi_iter bi_idx bi_bvec_done bi_size bi_io_vec
                                   Z.to_nat skipn].
  assert (T : forall k,
            fold_right Z.add 0 (repeat 1024 k) = 1024 * Z.of_nat k
            /\ segments_total
                 (map (fun k => {| bv_len := k; bv_offset := 0 |})
                    (repeat 1024 k)) = 1024 * Z.of_nat k).
  { induction k as [|k [I1 I2]]; [split; reflexivity|].
    cbn [repeat map fold_right segments_total bv_len].
    fold (segments_total
            (map (fun k => {| bv_len := k; bv_offset := 0 |}) (repeat 1024 k))).
    rewrite I1, I2. lia. }
  destruct (T n) as [T1 T2]. rewrite T1, T2.
  repeat split; try lia.
  - rewrite Z.mul_comm. replace 1024 with (2 * 512) by reflexivity.
    rewrite Z.mul_assoc. apply Z.mod_mul. lia.
  - destruct n; cbn; lia.
Qed.

Lemma crypt_convert_sync_converts_every_sector_witness :
  exists m rest,
    run (demo_cc 512 0) (start (demo_cc 512 0) WRITE
                           (demo_bio WRITE (repeat 1024 2) 8)
                           (demo_bio WRITE (repeat 1024 2) 8) 8 None 7)
      (repeat (Worker sync_engine) 15) = Some m
    /\ pc m = PcDone
    /\ cc_pending (ctx m) = 0
    /\ io_error m = BLK_STS_OK
    /\ backlog m = [] /\ inflight m = []
    /\ bi_size (iter_in (ctx m)) = 0
    /\ bi_size (iter_out (ctx m)) = 0
    /\ map call_summary (rev (calls (trace m)))
       = map (nth_call (demo_cc 512 0) 8 0 4) (seq 0 4)
    /\ trace m
       = OpComplete Submitter (completion_action WRITE Submitter)
         :: OpDec Submitter :: rest.
Proof.
  exact (crypt_convert_sync_converts_every_sector (demo_cc 512 0) 9 4 WRITE
           (demo_bio WRITE (repeat 1024 2) 8) (demo_bio WRITE (repeat 1024 2) 8)
           8 None 7 ltac:(lia) eq_refl eq_refl
           (demo_bio_aligned WRITE 2) (demo_bio_aligned WRITE 2)
           eq_refl eq_refl).
Defined.

(** ** Failures *)

(** The codes on which the switch of [crypt_convert] leaves the loop. *)
Definition is_failure (r : Z) : bool :=
  negb ((r =? 0) || is_async_code r).

(** The conversion has failed within a builder call: the worker is about
    to leave the loop, has left it with a status other than OK, or is done
    with an error recorded. *)
Definition failed (m : machine) : Prop :=
  match pc m with
  | PcSwitch r => is_failure r = true
  | PcReturned st => st <> 0
  | PcDone => io_error m <> 0
  | _ => False
  end.

Ltac case_if :=
  match goal with
  | |- context [if ?c then _ else _] => destruct c
  end.

Lemma step_error_sticky cc m e m' :
  step cc m e = Some m' -> io_error m <> 0 -> io_error m' <> 0.
Proof.
  destruct e as [eng|req error post]; cbn [step].
  - destruct (hooks_conform eng); [|discriminate].
    unfold worker_step, crypt_alloc_req, atomic_dec_and_test.
    destruct (pc m) eqn:Epc; intros H N;
      repeat match type of H with
             | context [match ?c with _ => _ end] => destruct c eqn:?
             end; try discriminate; injection H as <-; cbn [mk io_error];
      try assumption.
    all: apply Z.eqb_neq; assumption.
  - unfold async_done, atomic_dec_and_test. intros H N.
    destruct (error =? - EINPROGRESS).
    + destruct (mem req (backlog m)); [|discriminate].
      injection H as <-. exact N.
    + destruct (mem req (inflight m)); [|discriminate].
      injection H as <-. cbn [mk io_error].
      repeat case_if; try discriminate; exact N.
Qed.

Lemma run_error_sticky cc es : forall m m',
  run cc m es = Some m' -> io_error m <> 0 -> io_error m' <> 0.
Proof.
  induction es as [|e es IH]; cbn [run]; intros m m' H N.
  - now injection H as <-.
  - destruct (step cc m e) as [m1|] eqn:E; [|discriminate].
    eapply IH; [exact H|]. eapply step_error_sticky; eauto.
Qed.

(** X12. When [kcryptd_async_done] is told that a sub-request failed (by the
    cipher, or by the post hook after a successful cipher operation), it
    records [BLK_STS_PROTECTION] for -EBADMSG and [BLK_STS_IOERR] for any
    other negative code, and whatever happens to the I/O afterwards, later
    successes included, the recorded error is never cleared. *)
Theorem failed_completion_fails_the_io
    (cc : crypt_config) (m m1 m2 : machine) (req : nat) (error post : Z)
    (es : list event) :
  async_done cc m req error post = Some m1 ->
  error <> - EINPROGRESS ->
  (if (error =? 0) && has_generator cc && has_post cc then post else error) < 0 ->
  run cc m1 es = Some m2 ->
  io_error m1
  = (if (if (error =? 0) && has_generator cc && has_post cc then post else error)
        =? - EBADMSG
     then BLK_STS_PROTECTION else BLK_STS_IOERR)
  /\ io_error m2 <> 0.
Proof.
  intros A N F R.
  assert (E1 : io_error m1
               = (if (if (error =? 0) && has_generator cc && has_post cc
                      then post else error) =? - EBADMSG
                  then BLK_STS_PROTECTION else BLK_STS_IOERR)).
  { unfold async_done, atomic_dec_and_test in A.
    replace (error =? - EINPROGRESS) with false in A
      by (symmetry; now apply Z.eqb_neq).
    destruct (mem req (inflight m)); [|discriminate].
    injection A as <-. cbn [mk io_error].
    apply Z.ltb_lt in F. rewrite F.
    destruct (cc_pending (ctx m) - 1 =? 0); reflexivity. }
  split; [exact E1|].
  apply (run_error_sticky cc es m1 m2 R). rewrite E1.
  repeat case_if; discriminate.
Qed.

Definition one_in_flight : machine :=
  Eval vm_compute in
    match run (demo_cc 512 0) demo_start
            [Worker sync_engine; Worker sync_engine;
             Worker (answers (- EINPROGRESS))] with
    | Some m => m
    | None => demo_start
    end.

Definition after_bad_tag : machine :=
  Eval vm_compute in
    match async_done (demo_cc 512 0) one_in_flight 0 (- EBADMSG) 0 with
    | Some m => m
    | None => demo_start
    end.

Definition after_bad_tag_end : machine :=
  Eval vm_compute in
    match run (demo_cc 512 0) after_bad_tag
            [Worker sync_engine; Worker sync_engine; Worker sync_engine;
             Worker sync_engine; Worker sync_engine; Worker sync_engine] with
    | Some m => m
    | None => demo_start
    end.

Lemma failed_completion_fails_the_io_witness :
  io_error after_bad_tag = BLK_STS_PROTECTION
  /\ pc after_bad_tag_end = PcDone
  /\ io_error after_bad_tag_end <> 0.
Proof.
  pose proof (failed_completion_fails_the_io (demo_cc 512 0) one_in_flight
                after_bad_tag after_bad_tag_end 0 (- EBADMSG) 0
                [Worker sync_engine; Worker sync_engine; Worker sync_engine;
                 Worker sync_engine; Worker sync_engine; Worker sync_engine]
                eq_refl ltac:(discriminate) eq_refl eq_refl) as [A B].
  split; [exact A|]. split; [reflexivity|exact B].
Defined.

Lemma step_failed cc m e m' :
  failed m -> step cc m e = Some m' ->
  failed m'
  /\ calls (trace m') = calls (trace m)
  /\ iter_in (ctx m') = iter_in (ctx m)
  /\ iter_out (ctx m') = iter_out (ctx m)
  /\ cc_sector (ctx m') = cc_sector (ctx m)
  /\ tag_offset m' = tag_offset m.
Proof.
  unfold failed. intros F H.
  pose proof (step_error_sticky cc m e m' H) as Sticky.
  destruct e as [eng|req error post]; cbn [step] in H.
  - destruct (hooks_conform eng); [|discriminate].
    unfold worker_step in H.
    destruct (pc m) eqn:Epc; try contradiction.
    + unfold is_failure, is_async_code in F.
      apply negb_true_iff in F. apply orb_false_iff in F as [F0 F].
      apply orb_false_iff in F as [F1 F2]. rewrite F0, F1, F2 in H.
      destruct (r =? - EBADMSG); injection H as <-;
        cbn [mk pc ctx trace tag_offset atomic_dec set_pending iter_in iter_out
             cc_sector calls flat_map app];
        repeat split; discriminate.
    + unfold atomic_dec_and_test in H.
      replace (st =? 0) with false in H by (symmetry; now apply Z.eqb_neq).
      destruct (cc_pending (ctx m) - 1 =? 0); injection H as <-;
        cbn [mk pc ctx trace tag_offset set_pending iter_in iter_out cc_sector
             io_error calls flat_map app];
        repeat split; assumption.
    + discriminate.
  - unfold async_done, atomic_dec_and_test in H.
    destruct (error =? - EINPROGRESS).
    + destruct (mem req (backlog m)); [|discriminate].
      injection H as <-.
      cbn [mk pc ctx trace tag_offset set_restart iter_in iter_out cc_sector
           io_error].
      destruct (pc m); try contradiction; repeat split; assumption.
    + destruct (mem req (inflight m)); [|discriminate].
      assert (G : forall tr c err,
                calls tr = calls (trace m) ->
                iter_in c = iter_in (ctx m) -> iter_out c = iter_out (ctx m) ->
                cc_sector c = cc_sector (ctx m) ->
                (io_error m <> 0 -> err <> 0) ->
                let m1 := mk m c err (pc m) (tag_offset m) (backlog m)
                            (remove_one req (inflight m)) (next_req m) tr in
                match pc m1 with
                | PcSwitch r => is_failure r = true
                | PcReturned st => st <> 0
                | PcDone => io_error m1 <> 0
                | _ => False
                end
                /\ calls (trace m1) = calls (trace m)
                /\ iter_in (ctx m1) = iter_in (ctx m)
                /\ iter_out (ctx m1) = iter_out (ctx m)
                /\ cc_sector (ctx m1) = cc_sector (ctx m)
                /\ tag_offset m1 = tag_offset m).
      { intros tr c err ? ? ? ? He. cbv zeta. cbn [mk pc ctx trace tag_offset io_error].
        destruct (pc m); try contradiction; repeat split; auto. }
      assert (He : io_error m <> 0 ->
                   (if (if (error =? 0) && has_generator cc && has_post cc
                        then post else error) =? - EBADMSG
                    then BLK_STS_PROTECTION
                    else if (if (error =? 0) && has_generator cc && has_post cc
                             then post else error) <? 0
                         then BLK_STS_IOERR else io_error m) <> 0).
      { intros N. repeat case_if; try discriminate; exact N. }
      destruct (cc_pending (ctx m) - 1 =? 0); injection H as <-;
        apply G; auto.
Qed.

(** X13. Once a builder call has failed (any result other than 0, -EBUSY and
    -EINPROGRESS), whatever the worker and the completion callbacks of the
    sub-requests still in flight do afterwards: no further sub-request is
    submitted, the cursors, the sector and the tag offset stay where the
    failing call left them, the status returned by [crypt_convert] is
    [BLK_STS_PROTECTION] for -EBADMSG and [BLK_STS_IOERR] otherwise, and
    when the worker is done the I/O carries an error. *)
Theorem convert_stops_at_first_failure
    (cc : crypt_config) (m m' : machine) (r : Z) (es : list event) :
  pc m = PcSwitch r ->
  is_failure r = true ->
  run cc m es = Some m' ->
  calls (trace m') = calls (trace m)
  /\ iter_in (ctx m') = iter_in (ctx m)
  /\ iter_out (ctx m') = iter_out (ctx m)
  /\ cc_sector (ctx m') = cc_sector (ctx m)
  /\ tag_offset m' = tag_offset m
  /\ (pc m' = PcDone -> io_error m' <> 0)
  /\ (forall eng m1, worker_step cc m eng = Some m1 ->
        pc m1 = PcReturned (if r =? - EBADMSG then BLK_STS_PROTECTION
                            else BLK_STS_IOERR)).
Proof.
  intros Hpc Hf Hrun.
  assert (F0 : failed m) by (unfold failed; now rewrite Hpc).
  assert (G : forall es m m', failed m -> run cc m es = Some m' ->
            failed m'
            /\ calls (trace m') = calls (trace m)
            /\ iter_in (ctx m') = iter_in (ctx m)
            /\ iter_out (ctx m') = iter_out (ctx m)
            /\ cc_sector (ctx m') = cc_sector (ctx m)
            /\ tag_offset m' = tag_offset m).
  { clear. induction es as [|e es IH]; cbn [run]; intros m m' F H.
    - injection H as <-. repeat split; auto.
    - destruct (step cc m e) as [m1|] eqn:E; [|discriminate].
      destruct (step_failed cc m e m1 F E) as (F1 & A1 & A2 & A3 & A4 & A5).
      destruct (IH m1 m' F1 H) as (F2 & B1 & B2 & B3 & B4 & B5).
      repeat split; congruence. }
  destruct (G es m m' F0 Hrun) as (F & A1 & A2 & A3 & A4 & A5).
  repeat (split; [assumption|]).
  split.
  - intros D. unfold failed in F. now rewrite D in F.
  - intros eng m1. unfold worker_step. rewrite Hpc.
    unfold is_failure, is_async_code in Hf.
    apply negb_true_iff in Hf. apply orb_false_iff in Hf as [H0 Hf].
    apply orb_false_iff in Hf as [H1 H2]. rewrite H0, H1, H2.
    destruct (r =? - EBADMSG); intros [= <-]; reflexivity.
Qed.

Definition at_failure : machine :=
  Eval vm_compute in
    match run (demo_cc 512 0) demo_start
            [Worker sync_engine; Worker sync_engine;
             Worker (answers (- EIO))] with
    | Some m => m
    | None => demo_start
    end.

Definition after_failure : machine :=
  Eval vm_compute in
    match run (demo_cc 512 0) at_failure
            [Worker sync_engine; Worker sync_engine] with
    | Some m => m
    | None => demo_start
    end.

Lemma convert_stops_at_first_failure_witness :
  map s_sector (calls (trace after_failure)) = [8]
  /\ bi_size (iter_in (ctx after_failure)) = 512
  /\ pc after_failure = PcDone
  /\ io_error after_failure = BLK_STS_IOERR.
Proof.
  pose proof (convert_stops_at_first_failure (demo_cc 512 0) at_failure
                after_failure (- EIO)
                [Worker sync_engine; Worker sync_engine]
                eq_refl eq_refl eq_refl) as (A & B & _).
  split; [rewrite A; reflexivity|].
  split; [rewrite B; reflexivity|].
  split; reflexivity.
Defined.

End Convert.

(** * crypt_map *)

Module Map.

(** Constants of the block layer and of the memory allocator that
    [crypt_map] uses; their values come from kernel headers outside the
    driver's source and are parameters of the embedding. *)
Record blk_consts := {
  REQ_PREFLUSH : Z;
  REQ_OP_MASK : Z;
  REQ_OP_DISCARD : Z;
  BIO_MAX_PAGES : Z;
  PAGE_SHIFT : Z;
  KMALLOC_MAX_SIZE : Z
}.

(** The values of Linux 4.14 with 4 KiB pages. *)
Definition linux_4_14 : blk_consts :=
  {| REQ_PREFLUSH := Z.shiftl 1 18; REQ_OP_MASK := 255; REQ_OP_DISCARD := 3;
     BIO_MAX_PAGES := 256; PAGE_SHIFT := 12; KMALLOC_MAX_SIZE := Z.shiftl 1 22 |}.

Inductive disposition :=
  DM_MAPIO_SUBMITTED | DM_MAPIO_REMAPPED | DM_MAPIO_KILL.

Record bio := {
  bi_opf : Z;
  bi_bdev : nat;      (* the device the bio is aimed at *)
  bi_sector : Z;      (* bi_iter.bi_sector *)
  bi_size : Z         (* bi_iter.bi_size *)
}.

Record dm_target := { ti_begin : Z }.

(** What [crypt_map] reads of [struct crypt_config]. *)
Record crypt_config := {
  dev : nat;                  (* cc->dev->bdev *)
  start : Z;
  sector_size : Z;
  sector_shift : Z;
  on_disk_tag_size : Z;
  tag_pool_max_sectors : Z;
  integrity_aead : bool;      (* crypt_integrity_aead(cc) *)
  mode_skcipher : bool;       (* crypt_mode_skcipher(cc) *)
  mode_diskcipher : bool      (* crypt_mode_diskcipher(cc) *)
}.

(** [io->integrity_metadata]: NULL, a [kmalloc]ed buffer of the given
    size, or an entry of [cc->tag_pool]. *)
Inductive metadata := meta_null | meta_kmalloc (len : Z) | meta_pool.

(** [struct dm_crypt_io] as [crypt_map] leaves it. *)
Record dm_crypt_io := {
  io_sector : Z;
  io_error : Z;
  io_pending : Z;
  integrity_metadata : metadata;
  integrity_metadata_from_pool : bool;
  req_attached : bool                     (* ctx.r.req = (io + 1) *)
}.

(** What [crypt_map] did besides returning. *)
Inductive effect :=
| AcceptPartial (n_sectors : Z)   (* dm_accept_partial_bio *)
| IoInit (sector : Z)             (* crypt_io_init on the per-bio data *)
| Kmalloc (len : Z) (ok : bool)   (* kmalloc of the integrity metadata *)
| TagPoolAlloc                    (* mempool_alloc(cc->tag_pool) *)
| IoRead (failed : bool)          (* kcryptd_io_read(io, GFP_NOWAIT) *)
| QueueRead                       (* kcryptd_queue_read *)
| QueueCrypt.                     (* kcryptd_queue_crypt *)

(** Answers of the environment: does [kmalloc] succeed, does
    [kcryptd_io_read] fail. *)
Record map_env := { kmalloc_ok : bool; io_read_fails : bool }.

Record map_result := {
  m_ret : disposition;
  m_bio : bio;
  m_io : option dm_crypt_io;
  m_effects : list effect
}.

Section WithConsts.

Variable K : blk_consts.

Definition bio_op (b : bio) : Z := Z.land (bi_opf b) (REQ_OP_MASK K).

Definition bio_data_dir (b : bio) : rw :=
  if Z.land (bio_op b) 1 =? 0 then READ else WRITE.

Definition bio_sectors (b : bio) : Z := Z.shiftr (bi_size b) SECTOR_SHIFT.

Definition dm_target_offset (ti : dm_target) (sector : Z) : Z :=
  wrap64 (sector - ti_begin ti).

Definition set_bio (b : bio) (d : nat) (sector size : Z) : bio :=
  {| bi_opf := bi_opf b; bi_bdev := d; bi_sector := sector; bi_size := size |}.

(** Modelled from the spec: [dm_accept_partial_bio] belongs to the
    device-mapper core. The spec has the external layer told to split the
    request into an accepted portion and a remainder; the accepted portion
    is what the bio then carries, [n_sectors] sectors. *)
Definition dm_accept_partial_bio (b : bio) (n_sectors : Z) : bio :=
  set_bio b (bi_bdev b) (bi_sector b) (wrap32 (Z.shiftl n_sectors SECTOR_SHIFT)).

Definition is_flush_or_discard (b : bio) : bool :=
  negb (Z.land (bi_opf b) (REQ_PREFLUSH K) =? 0)
  || (bio_op b =? REQ_OP_DISCARD K).

Definition max_bytes : Z := Z.shiftl (BIO_MAX_PAGES K) (PAGE_SHIFT K).

(** The split of a bio that is too large. *)
Definition split_large (cc : crypt_config) (b : bio) : bio * list effect :=
  if (max_bytes <? bi_size b)
     && (rw_eqb (bio_data_dir b) WRITE || negb (on_disk_tag_size cc =? 0))
  then (dm_accept_partial_bio b (Z.shiftr max_bytes SECTOR_SHIFT),
        [AcceptPartial (Z.shiftr max_bytes SECTOR_SHIFT)])
  else (b, []).

Definition misaligned (cc : crypt_config) (b : bio) : bool :=
  negb (Z.land (bi_sector b) (Z.shiftr (sector_size cc) SECTOR_SHIFT - 1) =? 0)
  || negb (Z.land (bi_size b) (sector_size cc - 1) =? 0).

Definition crypt_map (ti : dm_target) (cc : crypt_config) (b : bio)
    (env : map_env) : map_result :=
  if is_flush_or_discard b then
    let b1 := set_bio b (dev cc) (bi_sector b) (bi_size b) in
    let b2 := if negb (bio_sectors b1 =? 0)
              then set_bio b1 (bi_bdev b1)
                     (wrap64 (start cc + dm_target_offset ti (bi_sector b1)))
                     (bi_size b1)
              else b1 in
    {| m_ret := DM_MAPIO_REMAPPED; m_bio := b2; m_io := None; m_effects := [] |}
  else
    let '(b1, e1) := split_large cc b in
    if negb (Z.land (bi_sector b1) (Z.shiftr (sector_size cc) SECTOR_SHIFT - 1)
             =? 0) then
      {| m_ret := DM_MAPIO_KILL; m_bio := b1; m_io := None; m_effects := e1 |}
    else if negb (Z.land (bi_size b1) (sector_size cc - 1) =? 0) then
      {| m_ret := DM_MAPIO_KILL; m_bio := b1; m_io := None; m_effects := e1 |}
    else
      let sector := dm_target_offset ti (bi_sector b1) in
      let e2 := e1 ++ [IoInit sector] in
      (* integrity metadata *)
      let '(b2, meta, from_pool, e3) :=
        if negb (on_disk_tag_size cc =? 0) then
          let tag_len := wrap32 (on_disk_tag_size cc
                                 * Z.shiftr (bio_sectors b1) (sector_shift cc)) in
          if KMALLOC_MAX_SIZE K <? tag_len then
            let '(b', e') :=
              if tag_pool_max_sectors cc <? bio_sectors b1
              then (dm_accept_partial_bio b1 (tag_pool_max_sectors cc),
                    [AcceptPartial (tag_pool_max_sectors cc)])
              else (b1, []) in
            (b', meta_pool, true,
             e2 ++ e' ++ [TagPoolAlloc])
          else if kmalloc_ok env then
            (b1, meta_kmalloc tag_len, false, e2 ++ [Kmalloc tag_len true])
          else
            let '(b', e') :=
              if tag_pool_max_sectors cc <? bio_sectors b1
              then (dm_accept_partial_bio b1 (tag_pool_max_sectors cc),
                    [AcceptPartial (tag_pool_max_sectors cc)])
              else (b1, []) in
            (b', meta_pool, true,
             e2 ++ [Kmalloc tag_len false] ++ e' ++ [TagPoolAlloc])
        else (b1, meta_null, false, e2) in
      let io := {| io_sector := sector; io_error := 0; io_pending := 0;
                   integrity_metadata := meta;
                   integrity_metadata_from_pool := from_pool;
                   req_attached := integrity_aead cc || mode_skcipher cc |} in
      let e4 :=
        if rw_eqb (bio_data_dir b2) READ || mode_diskcipher cc then
          if io_read_fails env then [IoRead true; QueueRead] else [IoRead false]
        else [QueueCrypt] in
      {| m_ret := DM_MAPIO_SUBMITTED; m_bio := b2; m_io := Some io;
         m_effects := e3 ++ e4 |}.

End WithConsts.

Lemma is_flush_or_discard_spec K b :
  is_flush_or_discard K b = true
  <-> (Z.land (bi_opf b) (REQ_PREFLUSH K) <> 0
       \/ bio_op K b = REQ_OP_DISCARD K).
Proof.
  unfold is_flush_or_discard. rewrite orb_true_iff, negb_true_iff.
  now rewrite Z.eqb_neq, Z.eqb_eq.
Qed.

Lemma split_large_sector K cc b :
  bi_sector (fst (split_large K cc b)) = bi_sector b
  /\ bi_opf (fst (split_large K cc b)) = bi_opf b
  /\ bi_bdev (fst (split_large K cc b)) = bi_bdev b.
Proof.
  unfold split_large. destruct (_ && _); repeat split.
Qed.

Lemma split_large_small K cc b :
  bi_size b <= max_bytes K -> split_large K cc b = (b, []).
Proof.
  intros H. unfold split_large.
  replace (max_bytes K <? bi_size b) with false
    by (symmetry; apply Z.ltb_ge; lia).
  reflexivity.
Qed.

(** C10. A bio with REQ_PREFLUSH set, or a discard, never enters the
    encryption pipeline: [crypt_map] aims it at the underlying device,
    translates its sector by the start offset when it carries sectors
    (leaves the sector alone when it carries none), reports it remapped,
    and does nothing else: no tracking record is initialised, nothing is
    allocated, nothing is queued or converted; size and flags of the bio
    are unchanged. *)
Theorem flush_and_discard_bypass
    (K : blk_consts) (ti : dm_target) (cc : crypt_config) (b : bio)
    (env : map_env) :
  Z.land (bi_opf b) (REQ_PREFLUSH K) <> 0 \/ bio_op K b = REQ_OP_DISCARD K ->
  let r := crypt_map K ti cc b env in
  m_ret r = DM_MAPIO_REMAPPED
  /\ m_effects r = []
  /\ m_io r = None
  /\ bi_bdev (m_bio r) = dev cc
  /\ bi_sector (m_bio r)
     = (if bio_sectors b =? 0 then bi_sector b
        else wrap64 (start cc + wrap64 (bi_sector b - ti_begin ti)))
  /\ bi_size (m_bio r) = bi_size b
  /\ bi_opf (m_bio r) = bi_opf b.
Proof.
  intros H. apply is_flush_or_discard_spec in H.
  cbv zeta. unfold crypt_map. rewrite H.
  unfold bio_sectors, dm_target_offset. cbn [set_bio bi_size bi_sector].
  destruct (Z.shiftr (bi_size b) SECTOR_SHIFT =? 0); cbn; repeat split.
Qed.

Definition cc_4k : crypt_config :=
  {| dev := 1%nat; start := 2048; sector_size := 4096; sector_shift := 3;
     on_disk_tag_size := 0; tag_pool_max_sectors := 0;
     integrity_aead := false; mode_skcipher := true; mode_diskcipher := false |}.

Definition mk_bio (opf sector size : Z) : bio :=
  {| bi_opf := opf; bi_bdev := 0%nat; bi_sector := sector; bi_size := size |}.

Definition demo_env : map_env := {| kmalloc_ok := true; io_read_fails := false |}.

Lemma flush_and_discard_bypass_witness :
  let b := mk_bio 3 64 32768 in
  let r := crypt_map linux_4_14 {| ti_begin := 0 |} cc_4k b demo_env in
  m_ret r = DM_MAPIO_REMAPPED
  /\ m_effects r = []
  /\ m_io r = None
  /\ bi_bdev (m_bio r) = dev cc_4k
  /\ bi_sector (m_bio r)
     = (if bio_sectors b =? 0 then bi_sector b
        else wrap64 (start cc_4k + wrap64 (bi_sector b - 0)))
  /\ bi_size (m_bio r) = bi_size b
  /\ bi_opf (m_bio r) = bi_opf b.
Proof.
  exact (flush_and_discard_bypass linux_4_14 {| ti_begin := 0 |} cc_4k
           (mk_bio 3 64 32768) demo_env (or_intror eq_refl)).
Defined.

(** C8 (as amended). For a bio that is neither a preflush nor a discard:
    if its starting sector is not a multiple of the sector size (in
    512-byte units), or its byte length, as left by the split of a bio that
    is too large, is not a multiple of the sector size, [crypt_map] returns
    DM_MAPIO_KILL at once: no tracking record is initialised, nothing is
    allocated, queued or converted; the only thing that may have happened
    is the announcement of that split, and a bio within the size limit is
    left untouched. *)
Theorem misaligned_bio_is_killed
    (K : blk_consts) (ti : dm_target) (cc : crypt_config) (b : bio)
    (env : map_env) :
  Z.land (bi_opf b) (REQ_PREFLUSH K) = 0 ->
  bio_op K b <> REQ_OP_DISCARD K ->
  Z.land (bi_sector b) (Z.shiftr (sector_size cc) SECTOR_SHIFT - 1) <> 0
  \/ Z.land (bi_size (fst (split_large K cc b))) (sector_size cc - 1) <> 0 ->
  let r := crypt_map K ti cc b env in
  m_ret r = DM_MAPIO_KILL
  /\ m_io r = None
  /\ m_bio r = fst (split_large K cc b)
  /\ m_effects r = snd (split_large K cc b)
  /\ Forall (fun e => exists n, e = AcceptPartial n) (m_effects r)
  /\ (bi_size b <= max_bytes K -> m_effects r = [] /\ m_bio r = b).
Proof.
  intros Hf Hd Hmis. cbv zeta. unfold crypt_map.
  assert (F : is_flush_or_discard K b = false).
  { destruct (is_flush_or_discard K b) eqn:E; [|reflexivity].
    apply is_flush_or_discard_spec in E. tauto. }
  rewrite F.
  destruct (split_large_sector K cc b) as (Ss & _).
  assert (Eff : Forall (fun e => exists n, e = AcceptPartial n)
                  (snd (split_large K cc b))).
  { unfold split_large. destruct (_ && _); cbn [snd]; repeat constructor.
    eexists; reflexivity. }
  assert (Small : bi_size b <= max_bytes K ->
                  snd (split_large K cc b) = [] /\ fst (split_large K cc b) = b).
  { intros H. now rewrite split_large_small. }
  destruct (split_large K cc b) as [b1 e1]. cbn [fst snd] in *.
  rewrite Ss.
  destruct (Z.eqb_spec (Z.land (bi_sector b)
                          (Z.shiftr (sector_size cc) SECTOR_SHIFT - 1)) 0)
    as [Hs|Hs]; cbn [negb].
  - destruct (Z.eqb_spec (Z.land (bi_size b1) (sector_size cc - 1)) 0)
      as [Hz|Hz]; cbn [negb].
    + exfalso. tauto.
    + cbn. repeat split; auto; now apply Small.
  - cbn. repeat split; auto; now apply Small.
Qed.

Lemma misaligned_bio_is_killed_witness :
  let b := mk_bio 1 9 4096 in
  let r := crypt_map linux_4_14 {| ti_begin := 0 |} cc_4k b demo_env in
  m_ret r = DM_MAPIO_KILL
  /\ m_io r = None
  /\ m_bio r = fst (split_large linux_4_14 cc_4k b)
  /\ m_effects r = snd (split_large linux_4_14 cc_4k b)
  /\ Forall (fun e => exists n, e = AcceptPartial n) (m_effects r)
  /\ (bi_size b <= max_bytes linux_4_14 -> m_effects r = [] /\ m_bio r = b).
Proof.
  refine (misaligned_bio_is_killed linux_4_14 {| ti_begin := 0 |} cc_4k
            (mk_bio 1 9 4096) demo_env eq_refl _ (or_introl _));
    vm_compute; discriminate.
Defined.

(** C8, as the claim states it, fails. A discard whose starting sector (9)
    is not a multiple of the 8-sector encryption sector is not killed but
    remapped; and a write of 1 MiB + 512 bytes at an aligned sector, whose
    length is not a multiple of 4096, is not killed either: it is cut to
    1 MiB, given a tracking record and queued for encryption. *)
Lemma misaligned_discard_and_long_write_pass :
  let env := demo_env in
  let discard := mk_bio 3 9 4096 in
  let long_write := mk_bio 1 8 (1048576 + 512) in
  misaligned cc_4k discard = true
  /\ is_flush_or_discard linux_4_14 discard = true
  /\ m_ret (crypt_map linux_4_14 {| ti_begin := 0 |} cc_4k discard env)
     = DM_MAPIO_REMAPPED
  /\ misaligned cc_4k long_write = true
  /\ m_ret (crypt_map linux_4_14 {| ti_begin := 0 |} cc_4k long_write env)
     = DM_MAPIO_SUBMITTED
  /\ m_effects (crypt_map linux_4_14 {| ti_begin := 0 |} cc_4k long_write env)
     = [AcceptPartial 2048; IoInit 8; QueueCrypt].
Proof.
  cbv zeta. repeat split; vm_compute; reflexivity.
Qed.

(** ** What crypt_map does with a bio that enters the pipeline *)

Definition is_dispatch (e : effect) : bool :=
  match e with
  | IoRead _ | QueueRead | QueueCrypt => true
  | _ => false
  end.

(** How [crypt_map] hands the I/O on. *)
Definition dispatch (K : blk_consts) (cc : crypt_config) (b : bio)
    (env : map_env) : list effect :=
  if rw_eqb (bio_data_dir K b) READ || mode_diskcipher cc then
    if io_read_fails env then [IoRead true; QueueRead] else [IoRead false]
  else [QueueCrypt].

Lemma misaligned_split K cc b :
  misaligned cc (fst (split_large K cc b)) = false ->
  (Z.land (bi_sector (fst (split_large K cc b)))
     (Z.shiftr (sector_size cc) SECTOR_SHIFT - 1) =? 0) = true
  /\ (Z.land (bi_size (fst (split_large K cc b))) (sector_size cc - 1) =? 0)
     = true.
Proof.
  unfold misaligned. intros H. apply orb_false_iff in H as [H1 H2].
  apply negb_false_iff in H1, H2. now split.
Qed.

Lemma data_dir_partial K b n :
  bio_data_dir K (dm_accept_partial_bio b n) = bio_data_dir K b.
Proof. reflexivity. Qed.

(** The shape of the result for a bio that passes the checks. *)
Lemma crypt_map_enters K ti cc b env :
  is_flush_or_discard K b = false ->
  misaligned cc (fst (split_large K cc b)) = false ->
  exists b2 meta from_pool pre,
    crypt_map K ti cc b env
    = {| m_ret := DM_MAPIO_SUBMITTED; m_bio := b2;
         m_io := Some {| io_sector := dm_target_offset ti (bi_sector b);
                         io_error := 0; io_pending := 0;
                         integrity_metadata := meta;
                         integrity_metadata_from_pool := from_pool;
                         req_attached := integrity_aead cc || mode_skcipher cc |};
         m_effects := pre ++ dispatch K cc b env |}
    /\ forallb (fun e => negb (is_dispatch e)) pre = true
    /\ bi_sector b2 = bi_sector b /\ bi_opf b2 = bi_opf b
    /\ bi_bdev b2 = bi_bdev b.
Proof.
  intros F M. destruct (misaligned_split K cc b M) as [A1 A2].
  destruct (split_large_sector K cc b) as (Ss & So & Sd).
  unfold crypt_map. rewrite F.
  assert (E1 : forallb (fun e => negb (is_dispatch e)) (snd (split_large K cc b))
               = true).
  { unfold split_large. now destruct (_ && _). }
  destruct (split_large K cc b) as [b1 e1]. cbn [fst snd] in *.
  rewrite A1, A2. cbn [negb]. rewrite Ss.
  assert (D : forall b', bi_opf b' = bi_opf b ->
            (if rw_eqb (bio_data_dir K b') READ || mode_diskcipher cc
             then if io_read_fails env then [IoRead true; QueueRead]
                  else [IoRead false]
             else [QueueCrypt]) = dispatch K cc b env).
  { intros b' Ho. unfold dispatch, bio_data_dir, bio_op. now rewrite Ho. }
  destruct (negb (on_disk_tag_size cc =? 0)).
  - destruct (KMALLOC_MAX_SIZE K <? _).
    + destruct (tag_pool_max_sectors cc <? bio_sectors b1).
      * do 4 eexists. split; [rewrite D by exact So; reflexivity|].
        rewrite !forallb_app, E1. cbn. auto.
      * do 4 eexists. split; [rewrite D by exact So; reflexivity|].
        rewrite !forallb_app, E1. cbn. auto.
    + destruct (kmalloc_ok env).
      * do 4 eexists. split; [rewrite D by exact So; reflexivity|].
        rewrite !forallb_app, E1. cbn. auto.
      * destruct (tag_pool_max_sectors cc <? bio_sectors b1).
        -- do 4 eexists. split; [rewrite D by exact So; reflexivity|].
           rewrite !forallb_app, E1. cbn. auto.
        -- do 4 eexists. split; [rewrite D by exact So; reflexivity|].
           rewrite !forallb_app, E1. cbn. auto.
  - do 4 eexists. split; [rewrite D by exact So; reflexivity|].
    rewrite !forallb_app, E1. cbn. auto.
Qed.

Ltac outcome_goals :=
  repeat split;
  try reflexivity;
  try (let X := fresh in let Y := fresh in
       intros [X Y]; first [discriminate X | discriminate Y]);
  try (let X := fresh in intros X; discriminate X);
  try (let X := fresh in intros X; now contradiction X);
  try match goal with H : _ = _ |- _ => discriminate H end;
  try match goal with H : ?x <> ?x |- _ => now contradiction H end;
  auto.

(** X14. [crypt_map] has three outcomes and the bio decides: a preflush or a
    discard is remapped; any other bio is killed exactly when its start or
    its length (as the size limit leaves it) is not aligned to the sector
    size; every other bio is accepted ([DM_MAPIO_SUBMITTED]). An accepted
    bio gets a tracking record with the sector relative to the target, no
    error and no reference taken yet, and is handed on exactly once, as
    the last thing [crypt_map] does. Outside disk-cipher mode a write goes
    to the encryption queue and is never submitted by [crypt_map] itself.
    A read, and in disk-cipher mode every bio, writes included, goes
    through [kcryptd_io_read]: it is submitted at once, and queued for the
    I/O thread only if that fails; in disk-cipher mode nothing goes to the
    encryption queue. The bio's own sector is left as it came. *)
Theorem crypt_map_outcomes
    (K : blk_consts) (ti : dm_target) (cc : crypt_config) (b : bio)
    (env : map_env) :
  let r := crypt_map K ti cc b env in
  let aligned := negb (misaligned cc (fst (split_large K cc b))) in
  (m_ret r = DM_MAPIO_REMAPPED <-> is_flush_or_discard K b = true)
  /\ (m_ret r = DM_MAPIO_KILL
      <-> is_flush_or_discard K b = false /\ aligned = false)
  /\ (m_ret r = DM_MAPIO_SUBMITTED
      <-> is_flush_or_discard K b = false /\ aligned = true)
  /\ (m_ret r = DM_MAPIO_SUBMITTED ->
      exists io pre hand_off,
        m_io r = Some io
        /\ io_sector io = dm_target_offset ti (bi_sector b)
        /\ io_error io = 0 /\ io_pending io = 0
        /\ m_effects r = pre ++ hand_off
        /\ forallb (fun e => negb (is_dispatch e)) pre = true
        /\ (bio_data_dir K b = WRITE -> mode_diskcipher cc = false ->
            hand_off = [QueueCrypt])
        /\ (bio_data_dir K b = READ \/ mode_diskcipher cc = true ->
            hand_off = if io_read_fails env then [IoRead true; QueueRead]
                       else [IoRead false])
        /\ bi_sector (m_bio r) = bi_sector b
        /\ bi_bdev (m_bio r) = bi_bdev b)
  /\ (m_ret r <> DM_MAPIO_SUBMITTED ->
      m_io r = None /\ filter is_dispatch (m_effects r) = []).
Proof.
  cbv zeta.
  destruct (is_flush_or_discard K b) eqn:F.
  - unfold crypt_map. rewrite F. cbn [m_ret m_io m_effects filter].
    outcome_goals.
  - destruct (misaligned cc (fst (split_large K cc b))) eqn:M; cbn [negb].
    + assert (R : m_ret (crypt_map K ti cc b env) = DM_MAPIO_KILL
                  /\ m_io (crypt_map K ti cc b env) = None
                  /\ filter is_dispatch (m_effects (crypt_map K ti cc b env))
                     = []).
      { unfold crypt_map. rewrite F. unfold misaligned in M.
        assert (E1 : filter is_dispatch (snd (split_large K cc b)) = []).
        { unfold split_large. now destruct (_ && _). }
        destruct (split_large K cc b) as [b1 e1]. cbn [fst snd] in *.
        destruct (negb (Z.land (bi_sector b1) _ =? 0)); [now repeat split|].
        cbn [orb] in M. rewrite M. now repeat split. }
      destruct R as (R1 & R2 & R3). rewrite R1, R2, R3.
      outcome_goals.
    + destruct (crypt_map_enters K ti cc b env F M)
        as (b2 & meta & fp & pre & -> & Hpre & Hs & Ho & Hd).
      cbn [m_ret m_io m_effects m_bio].
      outcome_goals.
      intros _. exists
        {| io_sector := dm_target_offset ti (bi_sector b);
           io_error := 0; io_pending := 0;
           integrity_metadata := meta;
           integrity_metadata_from_pool := fp;
           req_attached := integrity_aead cc || mode_skcipher cc |},
        pre, (dispatch K cc b env).
      repeat split; auto.
      * intros Hw Hd0. unfold dispatch. now rewrite Hw, Hd0.
      * intros [Hr|Hd1]; unfold dispatch.
        -- now rewrite Hr.
        -- rewrite Hd1. now rewrite orb_true_r.
Qed.

(** *** The integrity metadata is large enough *)

Definition POOL_ENTRY_SIZE : Z := 512.
Definition MAX_TAG_SIZE : Z := 480.

(** The tag pool as [crypt_ctr] sets it up: the size of a pool element and
    [cc->tag_pool_max_sectors]. *)
Definition tag_pool_setup (on_disk_tag_size sector_shift : Z) : Z * Z :=
  let n := wrap32 (POOL_ENTRY_SIZE / on_disk_tag_size) in
  let n := if n =? 0 then 1 else n in
  (wrap32 (n * on_disk_tag_size), wrap32 (Z.shiftl n sector_shift)).

(** Bytes of integrity tags that the accepted bio needs: one tag per
    encryption sector. *)
Definition tags_needed (cc : crypt_config) (b : bio) : Z :=
  on_disk_tag_size cc * Z.shiftr (bio_sectors b) (sector_shift cc).

Lemma shiftr_le_mono a b n : 0 <= n -> a <= b -> Z.shiftr a n <= Z.shiftr b n.
Proof.
  intros Hn H. rewrite !Z.shiftr_div_pow2 by assumption.
  apply Z.div_le_mono; [|assumption]. apply Z.pow_pos_nonneg; lia.
Qed.

(** X15. With a tag size that [crypt_ctr_optional] accepts (1 to 480 bytes) and
    the tag pool as [crypt_ctr] sets it up, the metadata buffer that
    [crypt_map] attaches to an accepted bio always holds the tags of the
    bio as [crypt_map] leaves it: a [kmalloc]ed buffer has exactly the
    size needed, and when the pool is used (the size is above the
    [kmalloc] limit, or [kmalloc] failed) the bio has been cut so that its
    tags fit one pool element. *)
Theorem integrity_metadata_holds_the_tags
    (K : blk_consts) (ti : dm_target) (cc : crypt_config) (b : bio)
    (env : map_env) (io : dm_crypt_io) :
  0 < on_disk_tag_size cc <= MAX_TAG_SIZE ->
  0 <= sector_shift cc <= 3 ->
  tag_pool_max_sectors cc
  = snd (tag_pool_setup (on_disk_tag_size cc) (sector_shift cc)) ->
  0 <= bi_size b < 2 ^ 32 ->
  0 <= max_bytes K < 2 ^ 32 ->
  m_io (crypt_map K ti cc b env) = Some io ->
  match integrity_metadata io with
  | meta_kmalloc len =>
      len = tags_needed cc (m_bio (crypt_map K ti cc b env))
      /\ len <= KMALLOC_MAX_SIZE K
      /\ integrity_metadata_from_pool io = false
  | meta_pool =>
      tags_needed cc (m_bio (crypt_map K ti cc b env))
      <= fst (tag_pool_setup (on_disk_tag_size cc) (sector_shift cc))
      /\ integrity_metadata_from_pool io = true
  | meta_null => False
  end.
Proof.
  intros Ht Hs Hp Hb Hk.
  (* the pool *)
  set (t := on_disk_tag_size cc) in *. set (sh := sector_shift cc) in *.
  assert (Hn : 1 <= POOL_ENTRY_SIZE / t <= 512).
  { unfold POOL_ENTRY_SIZE, MAX_TAG_SIZE in *. split.
    - apply Z.div_le_lower_bound; lia.
    - apply Z.div_le_upper_bound; lia. }
  assert (Hsetup : tag_pool_setup t sh
                   = (POOL_ENTRY_SIZE / t * t,
                      Z.shiftl (POOL_ENTRY_SIZE / t) sh)).
  { unfold tag_pool_setup.
    assert (W : wrap32 (POOL_ENTRY_SIZE / t) = POOL_ENTRY_SIZE / t)
      by (unfold wrap32; apply Z.mod_small; lia).
    rewrite W.
    replace (POOL_ENTRY_SIZE / t =? 0) with false
      by (symmetry; apply Z.eqb_neq; lia).
    assert (Hmul : POOL_ENTRY_SIZE / t * t <= 512).
    { unfold POOL_ENTRY_SIZE. rewrite Z.mul_comm.
      apply Z.mul_div_le. lia. }
    assert (Hshl : Z.shiftl (POOL_ENTRY_SIZE / t) sh <= 4096).
    { rewrite Z.shiftl_mul_pow2 by lia.
      assert (2 ^ sh <= 2 ^ 3) by (apply Z.pow_le_mono_r; lia).
      change (2 ^ 3) with 8 in *. nia. }
    assert (0 <= Z.shiftl (POOL_ENTRY_SIZE / t) sh)
      by (apply Z.shiftl_nonneg; lia).
    unfold wrap32. rewrite !Z.mod_small by nia. reflexivity. }
  rewrite Hsetup in *. cbn [fst snd] in *.
  set (n := POOL_ENTRY_SIZE / t) in *.
  assert (Hmax : 0 <= Z.shiftl n sh <= 4096).
  { split; [apply Z.shiftl_nonneg; lia|].
    rewrite Z.shiftl_mul_pow2 by lia.
    assert (2 ^ sh <= 2 ^ 3) by (apply Z.pow_le_mono_r; lia).
    change (2 ^ 3) with 8 in *. nia. }
  (* a bio of at most [tag_pool_max_sectors] sectors fits *)
  assert (Fit : forall b', bio_sectors b' <= Z.shiftl n sh ->
            t * Z.shiftr (bio_sectors b') sh <= n * t).
  { intros b' Hle.
    assert (Z.shiftr (bio_sectors b') sh <= n).
    { etransitivity; [apply shiftr_le_mono; [lia|exact Hle]|].
      rewrite Z.shiftr_shiftl_l, Z.sub_diag by lia. cbn. lia. }
    nia. }
  assert (Cut : bio_sectors (dm_accept_partial_bio b (Z.shiftl n sh))
                <= Z.shiftl n sh
                /\ forall b1, bio_sectors (dm_accept_partial_bio b1 (Z.shiftl n sh))
                              <= Z.shiftl n sh).
  { assert (C : forall b1, bio_sectors (dm_accept_partial_bio b1 (Z.shiftl n sh))
                           <= Z.shiftl n sh).
    { intros b1. unfold bio_sectors, dm_accept_partial_bio, set_bio.
      cbn [bi_size]. unfold SECTOR_SHIFT.
      assert (Z.shiftl (Z.shiftl n sh) 9 < 2 ^ 32).
      { rewrite (Z.shiftl_mul_pow2 _ 9) by lia. change (2 ^ 9) with 512. lia. }
      assert (0 <= Z.shiftl (Z.shiftl n sh) 9)
        by (apply Z.shiftl_nonneg; lia).
      unfold wrap32. rewrite Z.mod_small by lia.
      rewrite Z.shiftr_shiftl_l, Z.sub_diag by lia. cbn. lia. }
    split; [apply C|exact C]. }
  destruct Cut as [_ Cut].
  unfold crypt_map, tags_needed. fold t sh. rewrite Hp.
  destruct (is_flush_or_discard K b); [discriminate|].
  assert (B1 : 0 <= bi_size (fst (split_large K cc b)) < 2 ^ 32).
  { unfold split_large. destruct (_ && _); cbn [fst]; [|assumption].
    unfold dm_accept_partial_bio, set_bio. cbn [bi_size].
    unfold wrap32. apply Z.mod_pos_bound. lia. }
  destruct (split_large K cc b) as [b1 e1]. cbn [fst] in B1.
  destruct (negb (Z.land (bi_sector b1) _ =? 0)); [discriminate|].
  destruct (negb (Z.land (bi_size b1) _ =? 0)); [discriminate|].
  replace (negb (t =? 0)) with true
    by (symmetry; apply negb_true_iff, Z.eqb_neq; lia).
  assert (Wt : wrap32 (t * Z.shiftr (bio_sectors b1) sh)
               = t * Z.shiftr (bio_sectors b1) sh).
  { unfold wrap32. apply Z.mod_small.
    assert (0 <= bio_sectors b1 < 2 ^ 23).
    { unfold bio_sectors, SECTOR_SHIFT. rewrite Z.shiftr_div_pow2 by lia.
      split; [apply Z.div_pos; lia|].
      apply Z.div_lt_upper_bound; [lia|]. change (2 ^ 9 * 2 ^ 23) with (2 ^ 32).
      lia. }
    assert (0 <= Z.shiftr (bio_sectors b1) sh <= bio_sectors b1).
    { rewrite Z.shiftr_div_pow2 by lia. split; [apply Z.div_pos; [lia|]|].
      - apply Z.pow_pos_nonneg; lia.
      - apply Z.div_le_upper_bound; [apply Z.pow_pos_nonneg; lia|].
        assert (1 <= 2 ^ sh) by (apply (Z.pow_le_mono_r 2 0 sh); lia). nia. }
    unfold MAX_TAG_SIZE in *. change (2 ^ 23) with 8388608 in *.
    change (2 ^ 32) with 4294967296. nia. }
  rewrite Wt.
  destruct (KMALLOC_MAX_SIZE K <? t * Z.shiftr (bio_sectors b1) sh) eqn:Big.
  - destruct (Z.shiftl n sh <? bio_sectors b1) eqn:Over;
      intros [= <-]; cbn [integrity_metadata integrity_metadata_from_pool m_bio].
    + split; [|reflexivity]. apply Fit, Cut.
    + split; [|reflexivity]. apply Fit. apply Z.ltb_ge in Over. exact Over.
  - destruct (kmalloc_ok env).
    + intros [= <-]. cbn [integrity_metadata integrity_metadata_from_pool m_bio].
      apply Z.ltb_ge in Big. repeat split. exact Big.
    + destruct (Z.shiftl n sh <? bio_sectors b1) eqn:Over;
        intros [= <-]; cbn [integrity_metadata integrity_metadata_from_pool m_bio].
      * split; [|reflexivity]. apply Fit, Cut.
      * split; [|reflexivity]. apply Fit. apply Z.ltb_ge in Over. exact Over.
Qed.

Definition cc_integrity : crypt_config :=
  {| dev := 1%nat; start := 0; sector_size := 4096; sector_shift := 3;
     on_disk_tag_size := 32;
     tag_pool_max_sectors := snd (tag_pool_setup 32 3);
     integrity_aead := true; mode_skcipher := false; mode_diskcipher := false |}.

Lemma integrity_metadata_holds_the_tags_witness :
  let r := crypt_map linux_4_14 {| ti_begin := 0 |} cc_integrity
             (mk_bio 1 8 1048576)
             {| kmalloc_ok := false; io_read_fails := false |} in
  bi_size (m_bio r) = 65536
  /\ tags_needed cc_integrity (m_bio r) = 512
  /\ (tags_needed cc_integrity (m_bio r) <= fst (tag_pool_setup 32 3)
      /\ true = true).
Proof.
  cbv zeta. split; [reflexivity|]. split; [reflexivity|].
  exact (integrity_metadata_holds_the_tags linux_4_14 {| ti_begin := 0 |}
           cc_integrity (mk_bio 1 8 1048576)
           {| kmalloc_ok := false; io_read_fails := false |}
           {| io_sector := 8; io_error := 0; io_pending := 0;
              integrity_metadata := meta_pool;
              integrity_metadata_from_pool := true;
              req_attached := true |}
           ltac:(unfold MAX_TAG_SIZE; cbn; lia) ltac:(cbn; lia) eq_refl
           ltac:(cbn; lia) ltac:(unfold max_bytes; cbn; lia) eq_refl).
Defined.

(** ** crypt_io_hints *)

(** The limits [crypt_io_hints] touches. *)
Record queue_limits := {
  max_segment_size : Z;
  logical_block_size : Z;     (* unsigned short *)
  physical_block_size : Z;
  io_min : Z
}.

Definition wrap16 (x : Z) : Z := x mod 2 ^ 16.

Definition PAGE_SIZE (K : blk_consts) : Z := Z.shiftl 1 (PAGE_SHIFT K).

Definition crypt_io_hints (K : blk_consts) (cc : crypt_config)
    (limits : queue_limits) : queue_limits :=
  {| max_segment_size := PAGE_SIZE K;
     logical_block_size :=
       if mode_diskcipher cc then wrap16 (PAGE_SIZE K)
       else Z.max (wrap16 (logical_block_size limits)) (wrap16 (sector_size cc));
     physical_block_size :=
       Z.max (wrap32 (physical_block_size limits)) (wrap32 (sector_size cc));
     io_min := Z.max (wrap32 (io_min limits)) (wrap32 (sector_size cc)) |}.

Lemma pow2_divides a b : 0 <= a <= b -> (2 ^ b) mod (2 ^ a) = 0.
Proof.
  intros H. replace b with (a + (b - a)) by lia.
  rewrite Z.pow_add_r by lia. rewrite Z.mul_comm. apply Z.mod_mul.
  apply Z.pow_nonzero; lia.
Qed.

Lemma land_low_bits j x :
  0 <= j -> 0 <= x -> x mod 2 ^ j = 0 -> Z.land x (2 ^ j - 1) = 0.
Proof.
  intros Hj Hx Hm.
  replace (2 ^ j - 1) with (Z.ones j) by (rewrite Z.ones_equiv; lia).
  now rewrite Z.land_ones by assumption.
Qed.

Lemma mod_of_multiple x a b :
  0 < a -> 0 < b -> b mod a = 0 -> x mod b = 0 -> x mod a = 0.
Proof.
  intros Ha Hb Hba Hxb.
  apply Z.mod_divide in Hba; [|lia]. apply Z.mod_divide in Hxb; [|lia].
  apply Z.mod_divide; [lia|]. eapply Z.divide_trans; eauto.
Qed.

(** X16. [crypt_io_hints] never lowers the physical block size and the
    minimum I/O size it is given. Outside disk-cipher mode it sets the
    logical block size to the larger of the one given and the encryption
    sector size, so it does not lower it either; in disk-cipher mode it
    sets the logical block size to [PAGE_SIZE] whatever was given, which
    lowers a larger one. In both modes the logical block size advertised
    is at least the encryption sector size, applying the function twice
    changes nothing more, and a bio that is neither a preflush nor a
    discard and that respects the logical block size so advertised (its
    start in bytes and its length are multiples of it) is never killed by
    [crypt_map]: it is accepted. The sector sizes are those
    [crypt_ctr_optional] accepts, the limit on the size of a bio is a
    multiple of them, and in disk-cipher mode pages have 4 to 32 KiB. *)
Theorem bio_within_io_hints_is_accepted
    (K : blk_consts) (ti : dm_target) (cc : crypt_config) (b : bio)
    (env : map_env) (limits : queue_limits) (j k : Z) :
  9 <= j <= 12 -> sector_size cc = 2 ^ j ->
  9 <= k <= 15 -> logical_block_size limits = 2 ^ k ->
  0 <= physical_block_size limits < 2 ^ 32 ->
  0 <= io_min limits < 2 ^ 32 ->
  (mode_diskcipher cc = true -> 12 <= PAGE_SHIFT K <= 15) ->
  0 <= max_bytes K < 2 ^ 32 -> max_bytes K mod 2 ^ 12 = 0 ->
  let hinted := crypt_io_hints K cc limits in
  is_flush_or_discard K b = false ->
  0 <= bi_sector b -> 0 <= bi_size b ->
  (bi_sector b * 512) mod logical_block_size hinted = 0 ->
  bi_size b mod logical_block_size hinted = 0 ->
  (mode_diskcipher cc = false ->
   logical_block_size hinted
   = Z.max (logical_block_size limits) (sector_size cc))
  /\ (mode_diskcipher cc = true -> logical_block_size hinted = PAGE_SIZE K)
  /\ sector_size cc <= logical_block_size hinted
  /\ physical_block_size limits <= physical_block_size hinted
  /\ io_min limits <= io_min hinted
  /\ crypt_io_hints K cc hinted = hinted
  /\ m_ret (crypt_map K ti cc b env) = DM_MAPIO_SUBMITTED.
Proof.
  intros Hj Hss Hk Hl Hp Hi Hd Hm Hmm hinted F Bs Bz As Az.
  assert (P2 : forall a, 0 <= a -> 0 < 2 ^ a)
    by (intros; apply Z.pow_pos_nonneg; lia).
  assert (R16 : forall x, 0 <= x < 2 ^ 16 -> wrap16 x = x)
    by (intros; unfold wrap16; now apply Z.mod_small).
  assert (R32 : forall x, 0 <= x < 2 ^ 32 -> wrap32 x = x)
    by (intros; unfold wrap32; now apply Z.mod_small).
  assert (J16 : 0 < 2 ^ j < 2 ^ 16)
    by (split; [apply P2; lia|apply Z.pow_lt_mono_r; lia]).
  assert (K16 : 0 < 2 ^ k < 2 ^ 16)
    by (split; [apply P2; lia|apply Z.pow_lt_mono_r; lia]).
  assert (J32 : 2 ^ j < 2 ^ 32) by (apply Z.pow_lt_mono_r; lia).
  assert (Wss : wrap16 (sector_size cc) = 2 ^ j)
    by (rewrite Hss; apply R16; lia).
  assert (Wl : wrap16 (logical_block_size limits) = 2 ^ k)
    by (rewrite Hl; apply R16; lia).
  assert (W32 : wrap32 (sector_size cc) = 2 ^ j)
    by (rewrite Hss; apply R32; lia).
  assert (Pg : mode_diskcipher cc = true ->
               wrap16 (PAGE_SIZE K) = 2 ^ PAGE_SHIFT K).
  { intros D. specialize (Hd D). unfold PAGE_SIZE.
    rewrite Z.shiftl_1_l. apply R16.
    split; [specialize (P2 (PAGE_SHIFT K)); lia|].
    apply Z.pow_lt_mono_r; lia. }
  assert (Lh : exists q, j <= q <= 15 /\ logical_block_size hinted = 2 ^ q).
  { unfold hinted, crypt_io_hints. cbn [logical_block_size].
    destruct (mode_diskcipher cc) eqn:D.
    - exists (PAGE_SHIFT K). specialize (Hd eq_refl).
      split; [lia|]. now apply Pg.
    - exists (Z.max j k). split; [lia|]. rewrite Wss, Wl.
      destruct (Z.max_spec j k) as [[Hlt ->]|[Hge ->]].
      + apply Z.max_l. apply Z.pow_le_mono_r; lia.
      + apply Z.max_r. apply Z.pow_le_mono_r; lia. }
  destruct Lh as (q & Hq & Lh).
  assert (Hdiv : logical_block_size hinted mod 2 ^ j = 0).
  { rewrite Lh. apply pow2_divides. lia. }
  assert (Hpos : 0 < logical_block_size hinted)
    by (rewrite Lh; apply P2; lia).
  split.
  { intros D. unfold hinted, crypt_io_hints. cbn [logical_block_size].
    now rewrite D, Wss, Wl, Hl, Hss. }
  split.
  { intros D. unfold hinted, crypt_io_hints. cbn [logical_block_size].
    rewrite D, (Pg D). unfold PAGE_SIZE. now rewrite Z.shiftl_1_l. }
  split.
  { rewrite Lh, Hss. apply Z.pow_le_mono_r; lia. }
  split.
  { unfold hinted, crypt_io_hints. cbn [physical_block_size].
    rewrite (R32 (physical_block_size limits)) by assumption. lia. }
  split.
  { unfold hinted, crypt_io_hints. cbn [io_min].
    rewrite (R32 (io_min limits)) by assumption. lia. }
  split.
  { unfold hinted, crypt_io_hints.
    cbn [logical_block_size physical_block_size io_min max_segment_size].
    rewrite Wss, Wl, W32.
    rewrite (R32 (physical_block_size limits)) by assumption.
    rewrite (R32 (io_min limits)) by assumption.
    rewrite (R32 (Z.max (physical_block_size limits) (2 ^ j))) by lia.
    rewrite (R32 (Z.max (io_min limits) (2 ^ j))) by lia.
    destruct (mode_diskcipher cc).
    - f_equal; lia.
    - rewrite (R16 (Z.max (2 ^ k) (2 ^ j))) by lia. f_equal; lia. }
  (* the bio passes the alignment checks *)
  assert (Sz : bi_size b mod 2 ^ j = 0)
    by (eapply mod_of_multiple; [apply P2; lia|exact Hpos|exact Hdiv|exact Az]).
  assert (Sc : bi_sector b mod 2 ^ (j - 9) = 0).
  { assert (S512 : (bi_sector b * 512) mod 2 ^ j = 0)
      by (eapply mod_of_multiple; [apply P2; lia|exact Hpos|exact Hdiv|exact As]).
    replace j with (9 + (j - 9)) in S512 by lia.
    rewrite Z.pow_add_r in S512 by lia. change (2 ^ 9) with 512 in S512.
    rewrite (Z.mul_comm (bi_sector b)) in S512.
    rewrite Z.mul_mod_distr_l in S512 by (try lia; specialize (P2 (j - 9)); lia).
    lia. }
  assert (Mx : max_bytes K mod 2 ^ j = 0).
  { eapply (mod_of_multiple _ (2 ^ j) (2 ^ 12));
      [apply P2; lia|lia|apply pow2_divides; lia|exact Hmm]. }
  assert (M : misaligned cc (fst (split_large K cc b)) = false).
  2:{ destruct (crypt_map_enters K ti cc b env F M)
        as (b2 & meta & fp & pre & -> & _). reflexivity. }
  unfold misaligned.
  destruct (split_large_sector K cc b) as (Ss & _). rewrite Ss.
  replace (Z.shiftr (sector_size cc) SECTOR_SHIFT) with (2 ^ (j - 9)).
  2:{ rewrite Hss. unfold SECTOR_SHIFT. rewrite Z.shiftr_div_pow2 by lia.
      replace j with (9 + (j - 9)) at 2 by lia.
      rewrite Z.pow_add_r by lia. rewrite Z.mul_comm.
      now rewrite Z.div_mul by lia. }
  rewrite land_low_bits by (auto; lia).
  rewrite Hss.
  assert (Sp : 0 <= bi_size (fst (split_large K cc b))
               /\ bi_size (fst (split_large K cc b)) mod 2 ^ j = 0).
  { unfold split_large. destruct (_ && _); cbn [fst]; [|split; assumption].
    unfold dm_accept_partial_bio, set_bio. cbn [bi_size].
    unfold SECTOR_SHIFT.
    assert (Z.shiftl (Z.shiftr (max_bytes K) 9) 9 = max_bytes K).
    { rewrite Z.shiftl_mul_pow2, Z.shiftr_div_pow2 by lia.
      assert (max_bytes K mod 2 ^ 9 = 0).
      { eapply (mod_of_multiple _ (2 ^ 9) (2 ^ 12));
          [lia|lia|reflexivity|exact Hmm]. }
      pose proof (Z.div_mod (max_bytes K) (2 ^ 9) ltac:(lia)). lia. }
    rewrite H. unfold wrap32. rewrite Z.mod_small by assumption.
    split; [lia|exact Mx]. }
  destruct Sp as [Sp0 Spm].
  rewrite land_low_bits by (auto; lia).
  reflexivity.
Qed.

(** Disk-cipher mode on a device that advertised 8192-byte blocks. *)
Definition cc_disk : crypt_config :=
  {| dev := dev cc_4k; start := start cc_4k; sector_size := 4096;
     sector_shift := 3; on_disk_tag_size := 0;
     tag_pool_max_sectors := tag_pool_max_sectors cc_4k;
     integrity_aead := false; mode_skcipher := false;
     mode_diskcipher := true |}.

Definition limits_8k : queue_limits :=
  {| max_segment_size := 65536; logical_block_size := 8192;
     physical_block_size := 8192; io_min := 8192 |}.

Lemma bio_within_io_hints_is_accepted_witness :
  logical_block_size limits_8k = 8192
  /\ logical_block_size (crypt_io_hints linux_4_14 cc_disk limits_8k) = 4096
  /\ physical_block_size (crypt_io_hints linux_4_14 cc_disk limits_8k) = 8192
  /\ m_ret (crypt_map linux_4_14 {| ti_begin := 0 |} cc_disk
              (mk_bio 1 8 4096) demo_env) = DM_MAPIO_SUBMITTED.
Proof.
  destruct (bio_within_io_hints_is_accepted linux_4_14 {| ti_begin := 0 |}
              cc_disk (mk_bio 1 8 4096) demo_env limits_8k 12 13
              ltac:(lia) eq_refl ltac:(lia) eq_refl
              ltac:(cbn; lia) ltac:(cbn; lia) ltac:(intros _; cbn; lia)
              ltac:(unfold max_bytes; cbn; lia) eq_refl
              eq_refl ltac:(cbn; lia) ltac:(cbn; lia) eq_refl eq_refl)
    as (_ & L & _ & _ & _ & _ & M).
  split; [reflexivity|]. split; [exact (L eq_refl)|].
  split; [reflexivity|exact M].
Defined.

End Map.

(** * Key handling: crypt_message, crypt_set_key, crypt_wipe_key, resume *)

Module Key.

Import Ascii.
Abbreviation string := String.string.

(** Bits of [cc->flags] ([enum flags]). *)
Definition DM_CRYPT_SUSPENDED : Z := 0.
Definition DM_CRYPT_KEY_VALID : Z := 1.

Definition test_bit (nr flags : Z) : bool := Z.testbit flags nr.
Definition set_bit (nr flags : Z) : Z := Z.setbit flags nr.
Definition clear_bit (nr flags : Z) : Z := Z.clearbit flags nr.

(** ** C strings *)

(** Modelled from the spec: the C string routines that key handling calls
    ([strlen], [isspace], [tolower], [strcasecmp], [strncmp], [strpbrk],
    [hex2bin], [sscanf] with the format of [get_key_size]) belong to the
    kernel's library, which is outside this file. A C string is the
    characters before its terminating NUL. *)
Definition strlen (s : string) : Z := Z.of_nat (String.length s).

Definition code (c : ascii) : Z := Z.of_nat (nat_of_ascii c).

(** [isspace] of the kernel's ctype table. *)
Definition isspace (c : ascii) : bool :=
  let n := code c in ((9 <=? n) && (n <=? 13)) || (n =? 32) || (n =? 160).

Fixpoint contains_whitespace (s : string) : bool :=
  match s with
  | String.EmptyString => false
  | String.String c s' => isspace c || contains_whitespace s'
  end.

Definition tolower (c : ascii) : ascii :=
  let n := code c in
  if (65 <=? n) && (n <=? 90) then ascii_of_nat (Z.to_nat (n + 32)) else c.

Fixpoint strcasecmp_eq (a b : string) : bool :=
  match a, b with
  | String.EmptyString, String.EmptyString => true
  | String.String x a', String.String y b' =>
      Ascii.eqb (tolower x) (tolower y) && strcasecmp_eq a' b'
  | _, _ => false
  end.

(** [strncmp(a, b, n) == 0]: the strings agree on their first [n]
    characters, or up to and including their common end. *)
Fixpoint strncmp_eq (a b : string) (n : nat) : bool :=
  match n with
  | O => true
  | S n' =>
      match a, b with
      | String.EmptyString, String.EmptyString => true
      | String.String x a', String.String y b' =>
          Ascii.eqb x y && strncmp_eq a' b' n'
      | _, _ => false
      end
  end.

(** [strpbrk(s, ":")] as the offset of the first colon. *)
Fixpoint find_colon (s : string) : option nat :=
  match s with
  | String.EmptyString => None
  | String.String c s' =>
      if Ascii.eqb c ":"%char then Some O
      else match find_colon s' with Some i => Some (S i) | None => None end
  end.

Fixpoint drop (n : nat) (s : string) : string :=
  match n, s with
  | O, _ => s
  | S n', String.String _ s' => drop n' s'
  | S _, String.EmptyString => String.EmptyString
  end.

(** [memset(s, '0', strlen(s))]. *)
Fixpoint wipe_string (s : string) : string :=
  match s with
  | String.EmptyString => String.EmptyString
  | String.String _ s' => String.String "0"%char (wipe_string s')
  end.

Definition hex_to_bin (c : ascii) : option Z :=
  let n := code (tolower c) in
  if (48 <=? n) && (n <=? 57) then Some (n - 48)
  else if (97 <=? n) && (n <=? 102) then Some (n - 97 + 10)
  else None.

(** [hex2bin(dst, src, count)]: bytes are stored until a character that is
    no hex digit (the end of the string included) makes it fail. Returns
    whether it succeeded and the bytes stored. *)
Fixpoint hex2bin (src : string) (count : nat) : bool * list Z :=
  match count with
  | O => (true, [])
  | S count' =>
      match src with
      | String.String h (String.String l src') =>
          match hex_to_bin h, hex_to_bin l with
          | Some hi, Some lo =>
              let '(ok, rest) := hex2bin src' count' in
              (ok, Z.lor (Z.shiftl hi 4) lo :: rest)
          | _, _ => (false, [])
          end
      | _ => (false, [])
      end
  end.

(** Leading decimal digits of [s] and what follows them. *)
Fixpoint scan_digits (s : string) (acc : Z) (seen : bool)
  : option (Z * string) :=
  match s with
  | String.String c s' =>
      let n := code c in
      if (48 <=? n) && (n <=? 57) then scan_digits s' (acc * 10 + (n - 48)) true
      else if seen then Some (acc, s) else None
  | String.EmptyString => if seen then Some (acc, s) else None
  end.

Fixpoint skip_spaces (s : string) : string :=
  match s with
  | String.String c s' => if isspace c then skip_spaces s' else s
  | String.EmptyString => s
  end.

(** Two's complement reading of a 32-bit value as an [int]. *)
Definition as_int (x : Z) : Z :=
  let u := wrap32 x in if u <? 2 ^ 31 then u else u - 2 ^ 32.

(** [get_key_size(&key_string)] (CONFIG_KEYS): the size, and the string the
    pointer is left at. *)
Definition get_key_size (key_string : string) : Z * string :=
  match key_string with
  | String.String c rest =>
      if negb (Ascii.eqb c ":"%char) then
        (as_int (Z.shiftr (strlen key_string) 1), key_string)
      else
        match find_colon rest with
        | None => (- EINVAL, key_string)
        | Some i =>
            match scan_digits (skip_spaces rest) 0 false with
            | Some (n, String.String d _) =>
                if Ascii.eqb d ":"%char then (as_int n, drop i rest)
                else (- EINVAL, key_string)
            | _ => (- EINVAL, key_string)
            end
        end
  | String.EmptyString => (as_int (Z.shiftr (strlen key_string) 1), key_string)
  end.

(** ** Configuration *)

(** The IV generators that have [init] and [wipe] hooks, and the rest. *)
Inductive iv_hooks := hooks_none | hooks_essiv | hooks_lmk | hooks_tcw.

(** What key handling reads and writes of [struct crypt_config].
    [iv_secret] stands for the generator's key-derived material (the ESSIV
    salt, the lmk seed, the tcw seed and whitening). *)
Record crypt_config := {
  flags : Z;
  key_size : Z;
  key_extra_size : Z;
  key_mac_size : Z;
  tfms_count : Z;
  integrity_aead : bool;
  iv_gen_ops : iv_hooks;
  iv_secret : list Z;
  key_string : option string;
  key : list Z
}.

Definition with_flags (cc : crypt_config) (f : Z) : crypt_config :=
  {| flags := f; key_size := key_size cc; key_extra_size := key_extra_size cc;
     key_mac_size := key_mac_size cc; tfms_count := tfms_count cc;
     integrity_aead := integrity_aead cc; iv_gen_ops := iv_gen_ops cc;
     iv_secret := iv_secret cc; key_string := key_string cc; key := key cc |}.

Definition with_key (cc : crypt_config) (k : list Z) : crypt_config :=
  {| flags := flags cc; key_size := key_size cc;
     key_extra_size := key_extra_size cc; key_mac_size := key_mac_size cc;
     tfms_count := tfms_count cc; integrity_aead := integrity_aead cc;
     iv_gen_ops := iv_gen_ops cc; iv_secret := iv_secret cc;
     key_string := key_string cc; key := k |}.

Definition with_key_string (cc : crypt_config) (ks : option string) : crypt_config :=
  {| flags := flags cc; key_size := key_size cc;
     key_extra_size := key_extra_size cc; key_mac_size := key_mac_size cc;
     tfms_count := tfms_count cc; integrity_aead := integrity_aead cc;
     iv_gen_ops := iv_gen_ops cc; iv_secret := iv_secret cc;
     key_string := ks; key := key cc |}.

Definition with_iv_secret (cc : crypt_config) (s : list Z) : crypt_config :=
  {| flags := flags cc; key_size := key_size cc;
     key_extra_size := key_extra_size cc; key_mac_size := key_mac_size cc;
     tfms_count := tfms_count cc; integrity_aead := integrity_aead cc;
     iv_gen_ops := iv_gen_ops cc; iv_secret := s;
     key_string := key_string cc; key := key cc |}.

Definition key_valid (cc : crypt_config) : bool :=
  test_bit DM_CRYPT_KEY_VALID (flags cc).
Definition suspended (cc : crypt_config) : bool :=
  test_bit DM_CRYPT_SUSPENDED (flags cc).

(** What the kernel keyring answers to [request_key] and
    [user_key_payload_locked]. An error pointer carries a negated errno. *)
Inductive keyring_answer :=
| key_error (errno : positive)   (* IS_ERR(key), PTR_ERR(key) = -errno *)
| key_revoked                    (* no payload *)
| key_payload (data : list Z).

(** Answers of the environment during one call. [rta_header] is the
    [struct rtattr] with its [crypto_authenc_key_param] that precedes the
    keys of an authenc key, [RTA_SPACE] of the parameter's size bytes whose layout
    comes from headers outside this file. *)
Record key_env := {
  random_byte : nat -> Z;        (* get_random_bytes, byte by byte *)
  setkey_ret : nat -> list Z -> Z;
                                 (* crypto_*_setkey of transform i on a key *)
  rta_header : Z -> list Z;
  essiv_setkey_ret : Z;          (* crypto_cipher_setkey of the ESSIV cipher *)
  essiv_digest_ret : Z;          (* crypto_ahash_digest in crypt_iv_essiv_init *)
  derived_secret : list Z;       (* what the init hook derives from the key *)
  kstrdup_ok : bool;
  keyring : keyring_answer
}.

(** Store [bs] at the start of [buf], as far as [buf] reaches. *)
Definition overwrite (buf : list Z) (bs : list Z) : list Z :=
  firstn (length buf) bs ++ skipn (length bs) buf.

Definition crypt_subkey_size (cc : crypt_config) : Z :=
  Z.shiftr (wrap32 (key_size cc - key_extra_size cc)) (IV.ilog2 (tfms_count cc)).

Definition crypt_integrity_hmac (cc : crypt_config) : bool :=
  integrity_aead cc && negb (key_mac_size cc =? 0).

(** [len] bytes of [buf] from offset [off]. *)
Definition slice (buf : list Z) (off len : Z) : list Z :=
  firstn (Z.to_nat len) (skipn (Z.to_nat off) buf).

Definition crypt_copy_authenckey (env : key_env) (k : list Z)
    (enckeylen authkeylen : Z) : list Z :=
  rta_header env enckeylen ++ slice k enckeylen authkeylen ++ slice k 0 enckeylen.

(** [crypt_setkey]: every transform is given its key; the last failure, if
    any, is returned. *)
Definition crypt_setkey (cc : crypt_config) (env : key_env) : Z :=
  let subkey_size := crypt_subkey_size cc in
  if crypt_integrity_hmac cc && (subkey_size <? key_mac_size cc)
  then - EINVAL
  else
    let authenc_key :=
      crypt_copy_authenckey env (key cc)
        (wrap32 (subkey_size - key_mac_size cc)) (key_mac_size cc) in
    fold_left
      (fun err i =>
         let r :=
           if crypt_integrity_hmac cc then setkey_ret env i authenc_key
           else setkey_ret env i
                  (slice (key cc) (Z.of_nat i * subkey_size) subkey_size) in
         if r =? 0 then err else r)
      (seq 0 (Z.to_nat (tfms_count cc))) 0.

(** [crypt_set_keyring_key(cc, key_string)] (CONFIG_KEYS). *)
Definition crypt_set_keyring_key (cc : crypt_config) (ks : string)
    (env : key_env) : Z * crypt_config :=
  if contains_whitespace ks then (- EINVAL, cc) else
  match find_colon ks with
  | None => (- EINVAL, cc)
  | Some i =>
      if Nat.eqb i 0 || (strlen (drop (S i) ks) =? 0) then (- EINVAL, cc)
      else if negb (strncmp_eq ks "logon:"%string (S i))
              && negb (strncmp_eq ks "user:"%string (S i)) then (- EINVAL, cc)
      else if negb (kstrdup_ok env) then (- ENOMEM, cc)
      else
        match keyring env with
        | key_error errno => (Z.neg errno, cc)
        | key_revoked => (- EKEYREVOKED, cc)
        | key_payload data =>
            if negb (key_size cc =? Z.of_nat (length data)) then (- EINVAL, cc)
            else
              let cc1 := with_key cc (overwrite (key cc) data) in
              let cc2 := with_flags cc1 (clear_bit DM_CRYPT_KEY_VALID (flags cc1)) in
              let ret := crypt_setkey cc2 env in
              if ret =? 0 then
                (ret, with_key_string
                        (with_flags cc2 (set_bit DM_CRYPT_KEY_VALID (flags cc2)))
                        (Some ks))
              else (ret, cc2)
        end
  end.

Definition starts_with_colon (s : string) : bool :=
  match s with
  | String.String c _ => Ascii.eqb c ":"%char
  | String.EmptyString => false
  end.

(** [crypt_set_key(cc, key)]: the return value, the configuration, and the
    key string as it is left (wiped). *)
Definition crypt_set_key (cc : crypt_config) (k : string) (env : key_env)
  : Z * crypt_config * string :=
  if (key_size cc =? 0) && negb (String.eqb k "-"%string) then
    (- EINVAL, cc, wipe_string k)
  else if starts_with_colon k then
    let '(r, cc') := crypt_set_keyring_key cc (drop 1 k) env in
    (r, cc', wipe_string k)
  else
    let cc1 := with_flags cc (clear_bit DM_CRYPT_KEY_VALID (flags cc)) in
    let cc2 := with_key_string cc1 None in
    let '(ok, bytes) :=
      if key_size cc2 =? 0 then (true, [])
      else hex2bin k (Z.to_nat (key_size cc2)) in
    let cc3 := with_key cc2 (overwrite (key cc2) bytes) in
    if negb ok then (- EINVAL, cc3, wipe_string k)
    else
      let r := crypt_setkey cc3 env in
      if r =? 0 then
        (r, with_flags cc3 (set_bit DM_CRYPT_KEY_VALID (flags cc3)),
         wipe_string k)
      else (r, cc3, wipe_string k).

(** [crypt_wipe_key]. *)
Definition crypt_wipe_key (cc : crypt_config) (env : key_env) : Z * crypt_config :=
  let cc1 := with_flags cc (clear_bit DM_CRYPT_KEY_VALID (flags cc)) in
  let cc2 := with_key cc1 (overwrite (key cc1)
                             (map (random_byte env)
                                (seq 0 (Z.to_nat (key_size cc1))))) in
  let cc3 := with_key_string cc2 None in
  let r := crypt_setkey cc3 env in
  (r, with_key cc3 (overwrite (key cc3) (repeat 0 (Z.to_nat (key_size cc3))))).

(** The [wipe] and [init] hooks of the IV generator, [None] when the
    generator has none. *)
Definition iv_wipe (cc : crypt_config) (env : key_env)
  : option (Z * crypt_config) :=
  let zeroed := with_iv_secret cc (repeat 0 (length (iv_secret cc))) in
  match iv_gen_ops cc with
  | hooks_none => None
  | hooks_essiv => Some (essiv_setkey_ret env, zeroed)
  | hooks_lmk | hooks_tcw => Some (0, zeroed)
  end.

Definition iv_init (cc : crypt_config) (env : key_env)
  : option (Z * crypt_config) :=
  let derived := with_iv_secret cc (overwrite (iv_secret cc) (derived_secret env)) in
  match iv_gen_ops cc with
  | hooks_none => None
  | hooks_essiv =>
      if negb (essiv_digest_ret env =? 0) then Some (essiv_digest_ret env, derived)
      else Some (essiv_setkey_ret env, derived)
  | hooks_lmk | hooks_tcw => Some (0, derived)
  end.

(** [crypt_message]: the return value, the configuration and the argument
    vector (key strings are wiped in place). *)
Definition crypt_message (cc : crypt_config) (argv : list string)
    (env : key_env) : Z * crypt_config * list string :=
  match argv with
  | a0 :: a1 :: rest =>
      if strcasecmp_eq a0 "key"%string then
        if negb (suspended cc) then (- EINVAL, cc, argv)
        else
          match rest with
          | [a2] =>
              if strcasecmp_eq a1 "set"%string then
                let '(ksize, k) := get_key_size a2 in
                if (ksize <? 0) || negb (key_size cc =? wrap32 ksize) then
                  (- EINVAL, cc, [a0; a1; wipe_string k])
                else
                  let '(ret, cc1, k') := crypt_set_key cc k env in
                  if negb (ret =? 0) then (ret, cc1, [a0; a1; k'])
                  else
                    let '(ret, cc2) :=
                      match iv_init cc1 env with
                      | Some (r, c) => (r, c)
                      | None => (ret, cc1)
                      end in
                    let cc3 :=
                      match key_string cc2 with
                      | Some _ =>
                          with_key cc2
                            (overwrite (key cc2)
                               (repeat 0 (Z.to_nat (key_size cc2))))
                      | None => cc2
                      end in
                    (ret, cc3, [a0; a1; k'])
              else (- EINVAL, cc, argv)
          | [] =>
              if strcasecmp_eq a1 "wipe"%string then
                match iv_wipe cc env with
                | Some (r, cc1) =>
                    if negb (r =? 0) then (r, cc1, argv)
                    else let '(r', cc2) := crypt_wipe_key cc1 env in (r', cc2, argv)
                | None =>
                    let '(r', cc2) := crypt_wipe_key cc env in (r', cc2, argv)
                end
              else (- EINVAL, cc, argv)
          | _ => (- EINVAL, cc, argv)
          end
      else (- EINVAL, cc, argv)
  | _ => (- EINVAL, cc, argv)
  end.

Definition crypt_postsuspend (cc : crypt_config) : crypt_config :=
  with_flags cc (set_bit DM_CRYPT_SUSPENDED (flags cc)).

Definition crypt_preresume (cc : crypt_config) : Z :=
  if negb (test_bit DM_CRYPT_KEY_VALID (flags cc)) then - EAGAIN else 0.

Definition crypt_resume (cc : crypt_config) : crypt_config :=
  with_flags cc (clear_bit DM_CRYPT_SUSPENDED (flags cc)).

(** ** The target's hooks called in any order *)

Inductive op :=
| Message (argv : list string) (env : key_env)
| Postsuspend
| Preresume
| Resume.

(** One call: the value it returns (0 for the [void] hooks) and the
    configuration it leaves. *)
Definition apply_op (cc : crypt_config) (o : op) : Z * crypt_config :=
  match o with
  | Message argv env => fst (crypt_message cc argv env)
  | Postsuspend => (0, crypt_postsuspend cc)
  | Preresume => (crypt_preresume cc, cc)
  | Resume => (0, crypt_resume cc)
  end.

(** The calls of [ops] in order: what each returned, and the configuration
    at the end. *)
Fixpoint run (cc : crypt_config) (ops : list op) : list (op * Z) * crypt_config :=
  match ops with
  | [] => ([], cc)
  | o :: rest =>
      let '(r, cc1) := apply_op cc o in
      let '(log, cc2) := run cc1 rest in
      ((o, r) :: log, cc2)
  end.

Definition is_preresume (o : op) : bool :=
  match o with Preresume => true | _ => false end.

(** The call is a [key set] message that [crypt_message] hands to
    [crypt_set_key], and [crypt_set_key] returns 0. *)
Definition successful_key_set (cc : crypt_config) (o : op) : bool :=
  match o with
  | Message [a0; a1; a2] env =>
      strcasecmp_eq a0 "key"%string && suspended cc
      && strcasecmp_eq a1 "set"%string
      && (let '(ksize, k) := get_key_size a2 in
          negb ((ksize <? 0) || negb (key_size cc =? wrap32 ksize))
          && (fst (fst (crypt_set_key cc k env)) =? 0))
  | _ => false
  end.

(** No call of [ops], made from [cc] on, is a successful key set. *)
Fixpoint no_key_set (cc : crypt_config) (ops : list op) : bool :=
  match ops with
  | [] => true
  | o :: rest =>
      negb (successful_key_set cc o) && no_key_set (snd (apply_op cc o)) rest
  end.

(** ** The key-valid flag along key operations *)

Lemma test_set_bit nr f : 0 <= nr -> test_bit nr (set_bit nr f) = true.
Proof. intro H. unfold test_bit, set_bit. now apply Z.setbit_eq. Qed.

Lemma test_clear_bit nr f : test_bit nr (clear_bit nr f) = false.
Proof. unfold test_bit, clear_bit. apply Z.clearbit_eq. Qed.

Lemma test_set_other nr m f :
  0 <= nr -> nr <> m -> test_bit m (set_bit nr f) = test_bit m f.
Proof. intros H N. unfold test_bit, set_bit. now apply Z.setbit_neq. Qed.

Lemma test_clear_other nr m f :
  nr <> m -> test_bit m (clear_bit nr f) = test_bit m f.
Proof. intro H. unfold test_bit, clear_bit. now apply Z.clearbit_neq. Qed.

Lemma key_valid_set cc :
  key_valid (with_flags cc (set_bit DM_CRYPT_KEY_VALID (flags cc))) = true.
Proof. unfold key_valid. cbn [flags with_flags]. now apply test_set_bit. Qed.

Lemma key_valid_clear cc :
  key_valid (with_flags cc (clear_bit DM_CRYPT_KEY_VALID (flags cc))) = false.
Proof. unfold key_valid. cbn [flags with_flags]. apply test_clear_bit. Qed.

(** What [crypt_set_keyring_key] leaves of the flag: set when it returns 0,
    and never set from clear when it fails. *)
Lemma crypt_set_keyring_key_flag cc ks env :
  let '(r, cc') := crypt_set_keyring_key cc ks env in
  (r = 0 -> key_valid cc' = true)
  /\ (r <> 0 -> key_valid cc = false -> key_valid cc' = false).
Proof.
  unfold crypt_set_keyring_key.
  assert (F : forall e, e <> 0 ->
            (e = 0 -> key_valid cc = true)
            /\ (e <> 0 -> key_valid cc = false -> key_valid cc = false))
    by (intros e He; split; [intro; contradiction | auto]).
  destruct (contains_whitespace ks); [apply F; discriminate|].
  destruct (find_colon ks) as [i|]; [|apply F; discriminate].
  destruct (Nat.eqb i 0 || _); [apply F; discriminate|].
  destruct (negb _ && negb _); [apply F; discriminate|].
  destruct (negb (kstrdup_ok env)); [apply F; discriminate|].
  destruct (keyring env) as [errno| |data];
    [apply F; discriminate | apply F; discriminate |].
  destruct (negb _); [apply F; discriminate|].
  cbv zeta.
  match goal with |- context [crypt_setkey ?c env] => set (cc2 := c) end.
  destruct (crypt_setkey cc2 env =? 0) eqn:E; cbv beta iota.
  - split; [intros _|intro N; apply Z.eqb_eq in E; contradiction].
    apply (key_valid_set cc2).
  - split; [intro N; apply Z.eqb_neq in E; contradiction|intros _ _].
    apply (key_valid_clear (with_key cc (overwrite (key cc) data))).
Qed.

(** The same for [crypt_set_key]. *)
Lemma crypt_set_key_flag cc k env :
  let '(r, cc', _) := crypt_set_key cc k env in
  (r = 0 -> key_valid cc' = true)
  /\ (r <> 0 -> key_valid cc = false -> key_valid cc' = false).
Proof.
  unfold crypt_set_key.
  destruct ((key_size cc =? 0) && _).
  { split; [discriminate | auto]. }
  destruct (starts_with_colon k).
  { pose proof (crypt_set_keyring_key_flag cc (drop 1 k) env) as H.
    destruct (crypt_set_keyring_key cc (drop 1 k) env) as [r cc']. exact H. }
  cbv zeta.
  set (cc2 := with_key_string _ None).
  destruct (if key_size cc2 =? 0 then (true, []) else hex2bin k _) as [ok bytes].
  destruct ok; cbn [negb].
  - set (cc3 := with_key cc2 _).
    destruct (crypt_setkey cc3 env =? 0) eqn:E; cbv beta iota.
    + split; [intros _|intro N; apply Z.eqb_eq in E; contradiction].
      apply (key_valid_set cc3).
    + split; [intro N; apply Z.eqb_neq in E; contradiction|intros _ _].
      apply (key_valid_clear cc).
  - split; [discriminate|intros _ _]. apply (key_valid_clear cc).
Qed.

Lemma iv_init_flags cc env r c : iv_init cc env = Some (r, c) -> flags c = flags cc.
Proof.
  unfold iv_init. destruct (iv_gen_ops cc); try discriminate;
    try destruct (negb _); intro H; injection H as _ <-; reflexivity.
Qed.

Lemma iv_wipe_flags cc env r c : iv_wipe cc env = Some (r, c) -> flags c = flags cc.
Proof.
  unfold iv_wipe. destruct (iv_gen_ops cc); try discriminate;
    intro H; injection H as _ <-; reflexivity.
Qed.

Lemma crypt_wipe_key_flag cc env : key_valid (snd (crypt_wipe_key cc env)) = false.
Proof. apply (key_valid_clear cc). Qed.

Lemma key_valid_flags c c' : flags c' = flags c -> key_valid c' = key_valid c.
Proof. unfold key_valid. now intros ->. Qed.

(** A [key set] message past its checks: the flag is as [crypt_set_key]
    leaves it. *)
Lemma key_set_tail_flag cc k env a0 a1 :
  let '(ret, cc1, k') := crypt_set_key cc k env in
  key_valid
    (snd (fst
       (if negb (ret =? 0) then (ret, cc1, [a0; a1; k'])
        else
          let '(ret, cc2) :=
            match iv_init cc1 env with
            | Some (r, c) => (r, c)
            | None => (ret, cc1)
            end in
          let cc3 :=
            match key_string cc2 with
            | Some _ =>
                with_key cc2
                  (overwrite (key cc2) (repeat 0 (Z.to_nat (key_size cc2))))
            | None => cc2
            end in
          (ret, cc3, [a0; a1; k'])))) = key_valid cc1.
Proof.
  destruct (crypt_set_key cc k env) as [[ret cc1] k'].
  destruct (negb (ret =? 0)); [reflexivity|].
  destruct (iv_init cc1 env) as [[r c]|] eqn:E.
  - apply iv_init_flags in E.
    destruct (key_string c); cbn [fst snd]; now apply key_valid_flags.
  - destruct (key_string cc1); reflexivity.
Qed.

(** A message sets the flag exactly when it is a successful key set. *)
Lemma message_flag cc argv env :
  (successful_key_set cc (Message argv env) = true ->
   key_valid (snd (fst (crypt_message cc argv env))) = true)
  /\ (successful_key_set cc (Message argv env) = false ->
      key_valid cc = false ->
      key_valid (snd (fst (crypt_message cc argv env))) = false).
Proof.
  assert (Same : (false = true -> key_valid cc = true)
                 /\ (false = false -> key_valid cc = false ->
                     key_valid cc = false))
    by (split; [discriminate | auto]).
  destruct argv as [|a0 [|a1 [|a2 [|a3 rest]]]]; cbn [crypt_message successful_key_set];
    try exact Same.
  - (* two words: wipe *)
    destruct (strcasecmp_eq a0 "key"%string); [|exact Same].
    destruct (negb (suspended cc)); [exact Same|].
    destruct (strcasecmp_eq a1 "wipe"%string); [|exact Same].
    split; [discriminate|intros _ V].
    destruct (iv_wipe cc env) as [[r c]|] eqn:E.
    + apply iv_wipe_flags in E.
      destruct (negb (r =? 0)); cbn [fst snd].
      * now rewrite (key_valid_flags cc c E).
      * pose proof (crypt_wipe_key_flag c env) as W.
        destruct (crypt_wipe_key c env). exact W.
    + pose proof (crypt_wipe_key_flag cc env) as W.
      destruct (crypt_wipe_key cc env). exact W.
  - (* three words: set *)
    destruct (strcasecmp_eq a0 "key"%string); [|exact Same].
    unfold suspended at 1. fold (suspended cc).
    destruct (suspended cc); cbn [negb andb]; [|exact Same].
    destruct (strcasecmp_eq a1 "set"%string); cbn [andb]; [|exact Same].
    destruct (get_key_size a2) as [ksize k].
    destruct ((ksize <? 0) || negb (key_size cc =? wrap32 ksize));
      cbn [negb andb]; [exact Same|].
    pose proof (crypt_set_key_flag cc k env) as F.
    pose proof (key_set_tail_flag cc k env a0 a1) as T.
    destruct (crypt_set_key cc k env) as [[ret cc1] k'].
    cbn [fst snd] in *. rewrite T. destruct F as [F1 F2].
    split.
    + intro H. apply Z.eqb_eq in H. auto.
    + intros H V. apply Z.eqb_neq in H. auto.
  - (* four words or more *)
    destruct (strcasecmp_eq a0 "key"%string); [|exact Same].
    destruct (negb (suspended cc)); exact Same.
Qed.

(** Any call other than a successful key set leaves a clear flag clear. *)
Lemma apply_op_keeps_invalid cc o :
  key_valid cc = false -> successful_key_set cc o = false ->
  key_valid (snd (apply_op cc o)) = false.
Proof.
  intros V Q. destruct o as [argv env| | |]; cbn [apply_op snd].
  - now apply message_flag.
  - unfold crypt_postsuspend, key_valid. cbn [flags with_flags].
    rewrite test_set_other; [exact V| |]; unfold DM_CRYPT_SUSPENDED,
      DM_CRYPT_KEY_VALID; lia.
  - exact V.
  - unfold crypt_resume, key_valid. cbn [flags with_flags].
    rewrite test_clear_other; [exact V|]; unfold DM_CRYPT_SUSPENDED,
      DM_CRYPT_KEY_VALID; lia.
Qed.

Lemma apply_op_revalidates cc o :
  successful_key_set cc o = true -> key_valid (snd (apply_op cc o)) = true.
Proof.
  intro Q. destruct o as [argv env| | |]; try discriminate.
  cbn [apply_op]. now apply message_flag.
Qed.

Lemma preresume_iff cc :
  (key_valid cc = false -> crypt_preresume cc = - EAGAIN)
  /\ (key_valid cc = true -> crypt_preresume cc = 0).
Proof.
  unfold crypt_preresume, key_valid.
  split; intros ->; reflexivity.
Qed.

(** While no key is set successfully, the flag stays clear and every
    [crypt_preresume] fails. *)
Lemma run_keeps_invalid ops : forall cc,
  key_valid cc = false -> no_key_set cc ops = true ->
  (forall o r, In (o, r) (fst (run cc ops)) -> is_preresume o = true ->
               r = - EAGAIN)
  /\ key_valid (snd (run cc ops)) = false.
Proof.
  induction ops as [|o rest IH]; intros cc V Q.
  - split; [intros o r []|exact V].
  - cbn [no_key_set] in Q. apply andb_true_iff in Q as [Q1 Q2].
    apply negb_true_iff in Q1.
    pose proof (apply_op_keeps_invalid cc o V Q1) as V1.
    specialize (IH _ V1 Q2).
    cbn [run].
    assert (R : is_preresume o = true -> fst (apply_op cc o) = - EAGAIN).
    { destruct o; try discriminate. intros _. cbn [apply_op fst].
      now apply preresume_iff. }
    destruct (apply_op cc o) as [r cc1]. cbn [fst snd] in *.
    destruct (run cc1 rest) as [log cc2]. cbn [fst snd] in *.
    destruct IH as [IH1 IH2]. split; [|exact IH2].
    intros o' r' [E|I] P.
    + injection E as <- <-. auto.
    + eauto.
Qed.

Lemma overwrite_full buf bs : length buf = length bs -> overwrite buf bs = bs.
Proof.
  intro H. unfold overwrite.
  rewrite H, firstn_all, <- H, skipn_all. apply app_nil_r.
Qed.

Lemma overwrite_length buf bs : length (overwrite buf bs) = length buf.
Proof.
  unfold overwrite. rewrite length_app, length_firstn, length_skipn. lia.
Qed.

(** [crypt_wipe_key]: the transforms are keyed with random bytes, the key
    buffer is left all zero, the keyring reference is dropped and the flag
    is clear, whatever [crypt_setkey] returns. *)
Lemma crypt_wipe_key_spec cc env :
  length (key cc) = Z.to_nat (key_size cc) ->
  let '(r, cc') := crypt_wipe_key cc env in
  (exists ccR,
      key ccR = map (random_byte env) (seq 0 (Z.to_nat (key_size cc)))
      /\ r = crypt_setkey ccR env)
  /\ key_valid cc' = false
  /\ key cc' = repeat 0 (Z.to_nat (key_size cc))
  /\ key_string cc' = None.
Proof.
  intro L. unfold crypt_wipe_key. cbv zeta.
  cbn [key key_size with_flags with_key with_key_string key_string].
  assert (R : overwrite (key cc)
                (map (random_byte env) (seq 0 (Z.to_nat (key_size cc))))
              = map (random_byte env) (seq 0 (Z.to_nat (key_size cc)))).
  { apply overwrite_full. now rewrite length_map, length_seq. }
  rewrite R. repeat split.
  - eexists. split; [|reflexivity]. reflexivity.
  - apply (key_valid_clear cc).
  - apply overwrite_full. now rewrite length_map, length_seq, repeat_length.
Qed.

(** A [key set] message that returns 0 is a successful key set. *)
Lemma key_set_returning_zero cc a0 a1 a2 env :
  strcasecmp_eq a0 "key"%string = true ->
  strcasecmp_eq a1 "set"%string = true ->
  fst (fst (crypt_message cc [a0; a1; a2] env)) = 0 ->
  successful_key_set cc (Message [a0; a1; a2] env) = true.
Proof.
  intros K S. cbn [crypt_message successful_key_set]. rewrite K, S.
  destruct (suspended cc); cbn [negb andb fst]; [|discriminate].
  destruct (get_key_size a2) as [ksize k].
  destruct ((ksize <? 0) || negb (key_size cc =? wrap32 ksize));
    cbn [negb andb fst]; [discriminate|].
  destruct (crypt_set_key cc k env) as [[ret cc1] k']. cbn [fst].
  destruct (ret =? 0) eqn:E; cbn [negb]; [reflexivity|].
  cbn [fst]. intro H. apply Z.eqb_neq in E. contradiction.
Qed.

(** ** The keys handed to the transforms *)

(** The key [crypt_setkey] hands to transform [i]. *)
Definition transform_key (cc : crypt_config) (env : key_env) (i : nat) : list Z :=
  if crypt_integrity_hmac cc then
    crypt_copy_authenckey env (key cc)
      (wrap32 (crypt_subkey_size cc - key_mac_size cc)) (key_mac_size cc)
  else slice (key cc) (Z.of_nat i * crypt_subkey_size cc) (crypt_subkey_size cc).

Lemma last_failure_zero (r : nat -> Z) (l : list nat) : forall e,
  fold_left (fun err i => if r i =? 0 then err else r i) l e = 0
  <-> e = 0 /\ forall i, In i l -> r i = 0.
Proof.
  induction l as [|x l IH]; intro e; cbn [fold_left].
  - split; [intro H; split; [exact H|intros i []]|intros [H _]; exact H].
  - rewrite IH. destruct (r x =? 0) eqn:E.
    + apply Z.eqb_eq in E. split; intros [H1 H2]; (split; [exact H1|]).
      * intros i [<-|Hi]; auto.
      * intros i Hi. apply H2. now right.
    + apply Z.eqb_neq in E. split; intros [H1 H2].
      * contradiction.
      * exfalso. apply E, H2. now left.
Qed.

Lemma last_failure_kept (r : nat -> Z) (l : list nat) : forall e,
  (forall i, In i l -> r i = 0) ->
  fold_left (fun err i => if r i =? 0 then err else r i) l e = e.
Proof.
  induction l as [|x l IH]; intros e H; cbn [fold_left]; [reflexivity|].
  rewrite (H x (or_introl eq_refl)). cbn. apply IH.
  intros i Hi. apply H. now right.
Qed.

Lemma last_failure_at (r : nat -> Z) (l1 l2 : list nat) (x : nat) (e : Z) :
  r x <> 0 -> (forall i, In i l2 -> r i = 0) ->
  fold_left (fun err i => if r i =? 0 then err else r i) (l1 ++ x :: l2) e = r x.
Proof.
  intros N H. rewrite fold_left_app. cbn [fold_left].
  apply Z.eqb_neq in N. rewrite N. now apply last_failure_kept.
Qed.

Lemma seq_split_at (i n : nat) :
  (i < n)%nat -> seq 0 n = seq 0 i ++ i :: seq (S i) (n - S i).
Proof.
  intro H. replace n with (i + S (n - S i))%nat at 1 by lia.
  rewrite seq_app. reflexivity.
Qed.

Lemma crypt_setkey_fold (cc : crypt_config) (env : key_env) :
  crypt_integrity_hmac cc && (crypt_subkey_size cc <? key_mac_size cc) = false ->
  crypt_setkey cc env
  = fold_left (fun err i =>
                 if setkey_ret env i (transform_key cc env i) =? 0 then err
                 else setkey_ret env i (transform_key cc env i))
      (seq 0 (Z.to_nat (tfms_count cc))) 0.
Proof.
  intro H. unfold crypt_setkey. cbv zeta. rewrite H. unfold transform_key.
  destruct (crypt_integrity_hmac cc); reflexivity.
Qed.

(** [crypt_setkey] reads the key, the sizes and the mode only. *)
Lemma crypt_setkey_ext c1 c2 env :
  key c1 = key c2 -> key_size c1 = key_size c2 ->
  key_extra_size c1 = key_extra_size c2 ->
  key_mac_size c1 = key_mac_size c2 -> tfms_count c1 = tfms_count c2 ->
  integrity_aead c1 = integrity_aead c2 ->
  crypt_setkey c1 env = crypt_setkey c2 env.
Proof.
  intros K S X M T A.
  unfold crypt_setkey, crypt_subkey_size, crypt_integrity_hmac.
  now rewrite K, S, X, M, T, A.
Qed.

(** The key [crypt_wipe_key] hands to the transforms: [key_size] random
    bytes. *)
Definition rekeyed (cc : crypt_config) (env : key_env) : crypt_config :=
  with_key cc (map (random_byte env) (seq 0 (Z.to_nat (key_size cc)))).

Lemma crypt_wipe_key_result cc env :
  length (key cc) = Z.to_nat (key_size cc) ->
  fst (crypt_wipe_key cc env) = crypt_setkey (rekeyed cc env) env.
Proof.
  intro L. unfold crypt_wipe_key. cbv zeta. cbn [fst].
  apply crypt_setkey_ext; try reflexivity.
  cbn [key key_size with_flags with_key with_key_string rekeyed].
  apply overwrite_full. now rewrite length_map, length_seq.
Qed.

(** What [crypt_setkey] returns, by what the transforms answer. *)
Lemma crypt_setkey_zero cc env :
  (crypt_integrity_hmac cc && (crypt_subkey_size cc <? key_mac_size cc) = true
   -> crypt_setkey cc env = - EINVAL)
  /\ (crypt_integrity_hmac cc && (crypt_subkey_size cc <? key_mac_size cc)
      = false ->
      (crypt_setkey cc env = 0
       <-> forall i, (i < Z.to_nat (tfms_count cc))%nat ->
             setkey_ret env i (transform_key cc env i) = 0)).
Proof.
  split.
  - intro H. unfold crypt_setkey. cbv zeta. now rewrite H.
  - intro H. rewrite (crypt_setkey_fold cc env H).
    rewrite (last_failure_zero
               (fun i => setkey_ret env i (transform_key cc env i))).
    split.
    + intros [_ A] i Hi. apply A. apply in_seq. lia.
    + intros A. split; [reflexivity|]. intros i Hi. apply A.
      apply in_seq in Hi. lia.
Qed.

(** The wipe hook leaves everything but the generator's secret alone. *)
Lemma iv_wipe_spec cc env :
  match iv_wipe cc env with
  | None => iv_gen_ops cc = hooks_none
  | Some (r, c) =>
      iv_gen_ops cc <> hooks_none
      /\ r = match iv_gen_ops cc with
             | hooks_essiv => essiv_setkey_ret env
             | _ => 0
             end
      /\ c = with_iv_secret cc (repeat 0 (length (iv_secret cc)))
  end.
Proof.
  unfold iv_wipe. destruct (iv_gen_ops cc); repeat split; discriminate.
Qed.

Lemma crypt_wipe_key_iv_secret cc env :
  iv_secret (snd (crypt_wipe_key cc env)) = iv_secret cc.
Proof. reflexivity. Qed.

(** The [wipe] hook of the generator answers with an error: only the ESSIV
    hook can, when [crypto_cipher_setkey] refuses the zeroed salt. *)
Definition wipe_hook_fails (cc : crypt_config) (env : key_env) : Prop :=
  iv_gen_ops cc = hooks_essiv /\ essiv_setkey_ret env <> 0.

(** C9. A [key wipe] message ([argv[0]] is "key" and [argv[1]] is "wipe",
    in any letter case) is refused with [-EINVAL], the configuration
    untouched, unless the device is suspended. On a suspended device the IV
    generator's wipe hook, if there is one, zeroes the generator's secret;
    if the hook fails (the ESSIV hook, when the cipher refuses the zeroed
    salt) the message returns the hook's error and the key, the keyring
    reference and the flags are as they were. Otherwise, and so for every
    wipe message that returns 0, [crypt_wipe_key] is carried out: the
    transforms are keyed with random bytes (the message returns [-EINVAL]
    if the authenticated key does not fit, and otherwise 0 exactly when
    every transform accepts its random key), the key buffer is left all
    zero (overwritten, the buffer is not freed), the keyring reference is
    dropped and the key-valid flag is clear, whatever [crypt_setkey]
    returned. From then on, along any sequence of calls of the target's
    hooks (messages, postsuspend, preresume, resume) none of which is a
    [key set] message on which [crypt_set_key] returns 0, the flag stays
    clear and every [crypt_preresume] returns [-EAGAIN]; and such a
    [key set] message sets the flag again, after which [crypt_preresume]
    returns 0. Every [key set] message that returns 0 is of that kind. *)
Theorem key_wipe_invalidates_until_key_set
    (cc : crypt_config) (env : key_env) (a0 a1 : string)
    (Hkey : strcasecmp_eq a0 "key"%string = true)
    (Hwipe : strcasecmp_eq a1 "wipe"%string = true)
    (Hlen : length (key cc) = Z.to_nat (key_size cc)) :
  let '(r, cc', argv') := crypt_message cc [a0; a1] env in
  (suspended cc = false -> r = - EINVAL /\ cc' = cc)
  /\ (r = 0 -> suspended cc = true /\ ~ wipe_hook_fails cc env)
  /\ (suspended cc = true ->
      iv_secret cc'
      = match iv_gen_ops cc with
        | hooks_none => iv_secret cc
        | _ => repeat 0 (length (iv_secret cc))
        end)
  /\ (suspended cc = true -> wipe_hook_fails cc env ->
      r = essiv_setkey_ret env
      /\ key cc' = key cc /\ key_string cc' = key_string cc
      /\ flags cc' = flags cc)
  /\ (suspended cc = true -> ~ wipe_hook_fails cc env ->
      r = crypt_setkey (rekeyed cc env) env
      /\ (crypt_integrity_hmac cc
          && (crypt_subkey_size cc <? key_mac_size cc) = true ->
          r = - EINVAL)
      /\ (crypt_integrity_hmac cc
          && (crypt_subkey_size cc <? key_mac_size cc) = false ->
          (r = 0
           <-> forall i, (i < Z.to_nat (tfms_count cc))%nat ->
                 setkey_ret env i (transform_key (rekeyed cc env) env i) = 0))
      /\ key_valid cc' = false
      /\ key cc' = repeat 0 (Z.to_nat (key_size cc))
      /\ key_string cc' = None
      /\ crypt_preresume cc' = - EAGAIN
      /\ (forall ops, no_key_set cc' ops = true ->
          (forall o ret, In (o, ret) (fst (run cc' ops)) ->
                         is_preresume o = true -> ret = - EAGAIN)
          /\ key_valid (snd (run cc' ops)) = false
          /\ (forall o, successful_key_set (snd (run cc' ops)) o = true ->
              key_valid (snd (apply_op (snd (run cc' ops)) o)) = true
              /\ crypt_preresume (snd (apply_op (snd (run cc' ops)) o)) = 0)))
  /\ (forall c b0 b1 b2 e,
        strcasecmp_eq b0 "key"%string = true ->
        strcasecmp_eq b1 "set"%string = true ->
        fst (fst (crypt_message c [b0; b1; b2] e)) = 0 ->
        successful_key_set c (Message [b0; b1; b2] e) = true).
Proof.
  assert (KS : forall c b0 b1 b2 e,
        strcasecmp_eq b0 "key"%string = true ->
        strcasecmp_eq b1 "set"%string = true ->
        fst (fst (crypt_message c [b0; b1; b2] e)) = 0 ->
        successful_key_set c (Message [b0; b1; b2] e) = true)
    by (intros; now apply key_set_returning_zero).
  (* what crypt_wipe_key leaves, on cc or on cc with the secret zeroed *)
  assert (Tail : forall c0,
    key c0 = key cc -> key_size c0 = key_size cc ->
    key_extra_size c0 = key_extra_size cc ->
    key_mac_size c0 = key_mac_size cc -> tfms_count c0 = tfms_count cc ->
    integrity_aead c0 = integrity_aead cc ->
    forall r cc', crypt_wipe_key c0 env = (r, cc') ->
    r = crypt_setkey (rekeyed cc env) env
    /\ (crypt_integrity_hmac cc
        && (crypt_subkey_size cc <? key_mac_size cc) = true ->
        r = - EINVAL)
    /\ (crypt_integrity_hmac cc
        && (crypt_subkey_size cc <? key_mac_size cc) = false ->
        (r = 0
         <-> forall i, (i < Z.to_nat (tfms_count cc))%nat ->
               setkey_ret env i (transform_key (rekeyed cc env) env i) = 0))
    /\ key_valid cc' = false
    /\ key cc' = repeat 0 (Z.to_nat (key_size cc))
    /\ key_string cc' = None
    /\ crypt_preresume cc' = - EAGAIN
    /\ (forall ops, no_key_set cc' ops = true ->
        (forall o ret, In (o, ret) (fst (run cc' ops)) ->
                       is_preresume o = true -> ret = - EAGAIN)
        /\ key_valid (snd (run cc' ops)) = false
        /\ (forall o, successful_key_set (snd (run cc' ops)) o = true ->
            key_valid (snd (apply_op (snd (run cc' ops)) o)) = true
            /\ crypt_preresume (snd (apply_op (snd (run cc' ops)) o)) = 0))).
  { intros c0 K S X M T A r cc' E.
    assert (L0 : length (key c0) = Z.to_nat (key_size c0))
      by now rewrite K, S.
    pose proof (crypt_wipe_key_spec c0 env L0) as W.
    pose proof (crypt_wipe_key_result c0 env L0) as R.
    rewrite E in W, R. cbn [fst] in R. rewrite S in W.
    destruct W as (_ & W2 & W3 & W4).
    assert (Rr : r = crypt_setkey (rekeyed cc env) env).
    { rewrite R. apply crypt_setkey_ext; try assumption.
      unfold rekeyed. cbn [key with_key]. now rewrite S. }
    assert (Hh : crypt_integrity_hmac (rekeyed cc env)
                 && (crypt_subkey_size (rekeyed cc env)
                     <? key_mac_size (rekeyed cc env))
                 = crypt_integrity_hmac cc
                   && (crypt_subkey_size cc <? key_mac_size cc))
      by reflexivity.
    destruct (crypt_setkey_zero (rekeyed cc env) env) as [Z1 Z2].
    rewrite Hh in Z1, Z2.
    split; [exact Rr|]. split; [intro H; rewrite Rr; now apply Z1|].
    split; [intro H; rewrite Rr; now apply Z2|].
    repeat (split; [assumption|]).
    split; [now apply preresume_iff|].
    intros ops Q. destruct (run_keeps_invalid ops cc' W2 Q) as [R1 R2].
    repeat (split; [assumption|]).
    intros o Qo. pose proof (apply_op_revalidates _ _ Qo) as V.
    split; [exact V|now apply preresume_iff]. }
  cbn [crypt_message]. rewrite Hkey, Hwipe.
  destruct (suspended cc) eqn:S; cbn [negb].
  { pose proof (iv_wipe_spec cc env) as Hw.
    destruct (iv_wipe cc env) as [[r0 c0]|] eqn:Ew.
    - destruct Hw as (Hops & Hr0 & Hc0).
      destruct (negb (r0 =? 0)) eqn:N.
      + apply negb_true_iff, Z.eqb_neq in N.
        assert (F : wipe_hook_fails cc env).
        { unfold wipe_hook_fails. rewrite Hr0 in N.
          destruct (iv_gen_ops cc); try contradiction; now split. }
        split; [discriminate|].
        split; [intro Z0; contradiction|].
        split; [intros _; subst c0; destruct (iv_gen_ops cc);
                  [contradiction|reflexivity..]|].
        split.
        { intros _ _. destruct F as [F1 _]. rewrite F1 in Hr0.
          subst c0. repeat split. exact Hr0. }
        split; [intros _ NF; contradiction|exact KS].
      + apply negb_false_iff, Z.eqb_eq in N.
        assert (NF : ~ wipe_hook_fails cc env).
        { intros [F1 F2]. rewrite F1 in Hr0. congruence. }
        destruct (crypt_wipe_key c0 env) as [r cc'] eqn:E.
        split; [discriminate|].
        split; [intros _; split; [reflexivity|exact NF]|].
        split.
        { intros _.
          pose proof (crypt_wipe_key_iv_secret c0 env) as I.
          rewrite E in I. cbn [snd] in I. rewrite I. subst c0.
          destruct (iv_gen_ops cc); [contradiction|reflexivity..]. }
        split; [intros _ F; contradiction|].
        split; [|exact KS].
        intros _ _. subst c0.
        apply (Tail (with_iv_secret cc (repeat 0 (length (iv_secret cc)))));
          try reflexivity; exact E.
    - assert (NF : ~ wipe_hook_fails cc env).
      { intros [F1 _]. congruence. }
      destruct (crypt_wipe_key cc env) as [r cc'] eqn:E.
      split; [discriminate|].
      split; [intros _; split; [reflexivity|exact NF]|].
      split.
      { intros _.
        pose proof (crypt_wipe_key_iv_secret cc env) as I.
        rewrite E in I. cbn [snd] in I. rewrite I. now rewrite Hw. }
      split; [intros _ F; contradiction|].
      split; [|exact KS].
      intros _ _. apply (Tail cc); try reflexivity; exact E. }
  split; [auto|]. split; [discriminate|].
  split; [discriminate|]. split; [discriminate|].
  split; [discriminate|exact KS].
Qed.

(** A suspended ESSIV device with a valid four-byte key, and an environment
    in which every crypto call succeeds. *)
Definition demo_cc : crypt_config :=
  {| flags := 3; key_size := 4; key_extra_size := 0; key_mac_size := 0;
     tfms_count := 1; integrity_aead := false; iv_gen_ops := hooks_essiv;
     iv_secret := [17; 34]; key_string := None; key := [222; 173; 190; 239] |}.

Definition demo_env : key_env :=
  {| random_byte := fun i => 160 + Z.of_nat i;
     setkey_ret := fun _ _ => 0;
     rta_header := fun _ => [];
     essiv_setkey_ret := 0;
     essiv_digest_ret := 0;
     derived_secret := [51; 68];
     kstrdup_ok := true;
     keyring := key_revoked |}.

Lemma key_wipe_invalidates_until_key_set_witness :
  let cc' := snd (fst (crypt_message demo_cc ["KEY"; "wipe"]%string demo_env)) in
  key_valid demo_cc = true
  /\ fst (fst (crypt_message demo_cc ["KEY"; "wipe"]%string demo_env)) = 0
  /\ iv_secret cc' = [0; 0]
  /\ key_valid cc' = false
  /\ key cc' = [0; 0; 0; 0]
  /\ key_string cc' = None
  /\ crypt_preresume cc' = - EAGAIN
  /\ forall ops, no_key_set cc' ops = true ->
       key_valid (snd (run cc' ops)) = false.
Proof.
  pose proof (key_wipe_invalidates_until_key_set demo_cc demo_env
                "KEY"%string "wipe"%string eq_refl eq_refl eq_refl) as H.
  cbv zeta.
  destruct (crypt_message demo_cc ["KEY"; "wipe"]%string demo_env)
    as [[r cc'] argv'].
  cbn [fst snd].
  destruct H as (_ & _ & I & _ & H & _).
  assert (NF : ~ wipe_hook_fails demo_cc demo_env)
    by (intros [_ F]; now apply F).
  destruct (H eq_refl NF) as (_ & _ & Z0 & V & K & S & P & Q).
  split; [reflexivity|].
  split; [apply Z0; [reflexivity|intros i _; reflexivity]|].
  split; [exact (I eq_refl)|].
  split; [exact V|].
  split; [exact K|].
  split; [exact S|].
  split; [exact P|].
  intros ops N. exact (proj1 (proj2 (Q ops N))).
Defined.

(** After the wipe, resume fails, a key of the wrong size is refused and
    resume fails again; a key of the right size is accepted and resume
    passes. *)
Example wipe_then_set_trace :
  let cc' := snd (fst (crypt_message demo_cc ["key"; "wipe"]%string demo_env)) in
  let ops := [Preresume;
              Message ["key"; "set"; "0a0b"]%string demo_env;
              Preresume;
              Message ["key"; "set"; "0a0b0c0d"]%string demo_env;
              Preresume] in
  map snd (fst (run cc' ops)) = [- EAGAIN; - EINVAL; - EAGAIN; 0; 0]
  /\ key (snd (run cc' ops)) = [10; 11; 12; 13]
  /\ key_valid (snd (run cc' ops)) = true.
Proof. cbv zeta. repeat split; vm_compute; reflexivity. Qed.

(** An environment in which the ESSIV cipher refuses every key, and one in
    which the digest of the ESSIV init hook fails. *)
Definition essiv_refuses : key_env :=
  {| random_byte := random_byte demo_env;
     setkey_ret := setkey_ret demo_env;
     rta_header := rta_header demo_env;
     essiv_setkey_ret := - EINVAL;
     essiv_digest_ret := 0;
     derived_secret := [];
     kstrdup_ok := true;
     keyring := key_revoked |}.

Definition digest_fails : key_env :=
  {| random_byte := random_byte demo_env;
     setkey_ret := setkey_ret demo_env;
     rta_header := rta_header demo_env;
     essiv_setkey_ret := 0;
     essiv_digest_ret := - ENOMEM;
     derived_secret := [51; 68];
     kstrdup_ok := true;
     keyring := key_revoked |}.

(** A failing wipe hook ends the message before [crypt_wipe_key]: the key
    and the flag are as they were. *)
Example failed_wipe_hook_keeps_key :
  let '(r, cc', _) :=
    crypt_message demo_cc ["key"; "wipe"]%string essiv_refuses in
  r = - EINVAL /\ key_valid cc' = true /\ key cc' = key demo_cc
  /\ iv_secret cc' = [0; 0].
Proof. cbv zeta. repeat split; vm_compute; reflexivity. Qed.

(** The device after the wipe message of the demonstration. *)
Definition wiped_cc : crypt_config :=
  snd (fst (crypt_message demo_cc ["key"; "wipe"]%string demo_env)).

(** The claim as stated fails on both ends. A wipe message whose ESSIV hook
    fails returns [-EINVAL] and leaves the key valid, so the next resume
    passes. And after a wipe that was carried out, a [key set] message that
    fails, because the digest of the ESSIV init hook fails after
    [crypt_set_key] has set the flag, makes the next resume pass. *)
Theorem failed_messages_leave_key_valid :
  (fst (fst (crypt_message demo_cc ["key"; "wipe"]%string essiv_refuses))
   = - EINVAL
   /\ crypt_preresume
        (snd (fst (crypt_message demo_cc ["key"; "wipe"]%string essiv_refuses)))
      = 0)
  /\ fst (fst (crypt_message demo_cc ["key"; "wipe"]%string demo_env)) = 0
  /\ key_valid wiped_cc = false
  /\ crypt_preresume wiped_cc = - EAGAIN
  /\ map snd
       (fst (run wiped_cc
               [Preresume;
                Message ["key"; "set"; "0a0b0c0d"]%string digest_fails;
                Preresume]))
     = [- EAGAIN; - ENOMEM; 0]
  /\ key_valid
       (snd (run wiped_cc
               [Message ["key"; "set"; "0a0b0c0d"]%string digest_fails]))
     = true.
Proof. repeat split; vm_compute; reflexivity. Qed.

(** ** The key field of the table line *)

(** Modelled from the spec: the formats [%02x] and [%u] of the kernel's
    [scnprintf], and the macro [DMEMIT] of device-mapper.h, which appends
    to [result] at offset [sz] what fits in [maxlen] bytes, the final NUL
    included, and nothing once [sz >= maxlen]. *)
Definition hex_digit (n : Z) : ascii :=
  nth (Z.to_nat n) (String.list_ascii_of_string "0123456789abcdef") "0"%char.

Definition hex_byte (b : Z) : string :=
  String.String (hex_digit (Z.shiftr b 4))
    (String.String (hex_digit (Z.land b 15)) String.EmptyString).

Fixpoint decimal_digits (fuel : nat) (n : Z) (acc : string) : string :=
  match fuel with
  | O => acc
  | S fuel' =>
      let acc' := String.String (ascii_of_nat (Z.to_nat (48 + n mod 10))) acc in
      if n / 10 =? 0 then acc' else decimal_digits fuel' (n / 10) acc'
  end.

(** [%u] of an [unsigned int], which has at most ten digits. *)
Definition decimal (n : Z) : string := decimal_digits 10 n String.EmptyString.

Definition DMEMIT (maxlen : nat) (result x : string) : string :=
  if (maxlen <=? String.length result)%nat then result
  else String.append result
         (String.substring 0 (maxlen - String.length result - 1) x).

(** The key field of [crypt_status] for [STATUSTYPE_TABLE], appended to what
    [result] holds so far. *)
Definition crypt_status_key (cc : crypt_config) (maxlen : nat) (result : string)
  : string :=
  if 0 <? key_size cc then
    match key_string cc with
    | Some ks =>
        DMEMIT maxlen result
          (String.append ":"%string
             (String.append (decimal (key_size cc)) (String.append ":"%string ks)))
    | None =>
        fold_left (fun res b => DMEMIT maxlen res (hex_byte b))
          (firstn (Z.to_nat (key_size cc)) (key cc)) result
    end
  else DMEMIT maxlen result "-"%string.

(** The key field when nothing is cut off. *)
Fixpoint hex_string (bs : list Z) : string :=
  match bs with
  | [] => String.EmptyString
  | b :: rest => String.append (hex_byte b) (hex_string rest)
  end.

Definition key_field (cc : crypt_config) : string :=
  if 0 <? key_size cc then
    match key_string cc with
    | Some ks =>
        String.append ":"%string
          (String.append (decimal (key_size cc)) (String.append ":"%string ks))
    | None => hex_string (firstn (Z.to_nat (key_size cc)) (key cc))
    end
  else "-"%string.

(** The keyring reference a configuration shows in its table line. *)
Definition shown_key_string (cc : crypt_config) : option string :=
  if 0 <? key_size cc then key_string cc else None.

Lemma str_app_assoc (a b c : string) :
  String.append (String.append a b) c = String.append a (String.append b c).
Proof. induction a as [|x a IH]; cbn; [reflexivity|now rewrite IH]. Qed.

Lemma str_app_length (a b : string) :
  String.length (String.append a b) = (String.length a + String.length b)%nat.
Proof. induction a as [|x a IH]; cbn; [reflexivity|now rewrite IH]. Qed.

Lemma str_app_nil (a : string) : String.append a String.EmptyString = a.
Proof. induction a as [|x a IH]; cbn; [reflexivity|now rewrite IH]. Qed.

Lemma substring_whole (x : string) : forall n,
  (String.length x <= n)%nat -> String.substring 0 n x = x.
Proof.
  induction x as [|c x IH]; intros [|n] H; cbn in *; try reflexivity; try lia.
  rewrite IH by lia. reflexivity.
Qed.

Lemma DMEMIT_room (maxlen : nat) (result x : string) :
  (String.length result + String.length x < maxlen)%nat ->
  DMEMIT maxlen result x = String.append result x.
Proof.
  intro H. unfold DMEMIT.
  destruct (Nat.leb_spec maxlen (String.length result)); [lia|].
  rewrite substring_whole by lia. reflexivity.
Qed.

Lemma hex_string_length (bs : list Z) :
  String.length (hex_string bs) = (2 * length bs)%nat.
Proof.
  induction bs as [|b bs IH]; cbn [hex_string length]; [reflexivity|].
  rewrite str_app_length, IH. cbn. lia.
Qed.

Lemma emit_hex_room (maxlen : nat) (bs : list Z) : forall result,
  (String.length result + 2 * length bs < maxlen)%nat ->
  fold_left (fun res b => DMEMIT maxlen res (hex_byte b)) bs result
  = String.append result (hex_string bs).
Proof.
  induction bs as [|b bs IH]; intros result H; cbn [fold_left hex_string].
  - now rewrite str_app_nil.
  - cbn [length] in H. rewrite DMEMIT_room by (cbn; lia).
    rewrite IH by (rewrite str_app_length; cbn; lia).
    apply str_app_assoc.
Qed.

Lemma hex_digit_decodes (d : Z) :
  0 <= d < 16 -> hex_to_bin (hex_digit d) = Some d.
Proof.
  intro H.
  assert (C : d = 0 \/ d = 1 \/ d = 2 \/ d = 3 \/ d = 4 \/ d = 5 \/ d = 6
              \/ d = 7 \/ d = 8 \/ d = 9 \/ d = 10 \/ d = 11 \/ d = 12
              \/ d = 13 \/ d = 14 \/ d = 15) by lia.
  repeat (destruct C as [->|C]; [reflexivity|]). subst d. reflexivity.
Qed.

Lemma nibbles_join (b : Z) :
  0 <= b -> Z.lor (Z.shiftl (Z.shiftr b 4) 4) (Z.land b 15) = b.
Proof.
  intro H. apply Z.bits_inj'. intros n Hn.
  rewrite Z.lor_spec. change 15 with (Z.ones 4).
  destruct (Z.ltb_spec n 4) as [L|L].
  - rewrite Z.shiftl_spec_low by lia. rewrite Z.land_spec, Z.ones_spec_low by lia.
    cbn. apply andb_true_r.
  - rewrite Z.shiftl_spec, Z.shiftr_spec by lia.
    rewrite Z.land_spec, Z.ones_spec_high by lia.
    rewrite andb_false_r, orb_false_r. f_equal. lia.
Qed.

Lemma hex_byte_decodes (b : Z) (rest : string) (n : nat) :
  0 <= b < 256 ->
  hex2bin (String.append (hex_byte b) rest) (S n)
  = let '(ok, r) := hex2bin rest n in (ok, b :: r).
Proof.
  intro H. unfold hex_byte. cbn [String.append hex2bin].
  rewrite (hex_digit_decodes (Z.shiftr b 4)).
  2:{ rewrite Z.shiftr_div_pow2 by lia. change (2 ^ 4) with 16.
      split; [apply Z.div_pos; lia|apply Z.div_lt_upper_bound; lia]. }
  rewrite (hex_digit_decodes (Z.land b 15)).
  2:{ change 15 with (Z.ones 4). rewrite Z.land_ones by lia.
      change (2 ^ 4) with 16. apply Z.mod_pos_bound. lia. }
  rewrite nibbles_join by lia. reflexivity.
Qed.

Lemma hex_string_decodes (bs : list Z) :
  Forall (fun b => 0 <= b < 256) bs ->
  hex2bin (hex_string bs) (length bs) = (true, bs).
Proof.
  induction 1 as [|b bs Hb _ IH]; cbn [hex_string length]; [reflexivity|].
  rewrite hex_byte_decodes by exact Hb. rewrite IH. reflexivity.
Qed.

Lemma hex_string_head (b : Z) (bs : list Z) :
  0 <= b < 256 ->
  exists c s, hex_string (b :: bs) = String.String c s
              /\ Ascii.eqb c ":"%char = false.
Proof.
  intro H. cbn [hex_string]. unfold hex_byte. cbn [String.append].
  eexists _, _. split; [reflexivity|].
  assert (D : 0 <= Z.shiftr b 4 < 16).
  { rewrite Z.shiftr_div_pow2 by lia. change (2 ^ 4) with 16.
    split; [apply Z.div_pos; lia|apply Z.div_lt_upper_bound; lia]. }
  pose proof (hex_digit_decodes _ D) as E.
  destruct (Ascii.eqb_spec (hex_digit (Z.shiftr b 4)) ":"%char) as [C|]; [|reflexivity].
  rewrite C in E. discriminate E.
Qed.

Lemma as_int_small (n : Z) : 0 <= n < 2 ^ 31 -> as_int n = n.
Proof.
  intro H. unfold as_int, wrap32. rewrite Z.mod_small by lia.
  destruct (Z.ltb_spec n (2 ^ 31)); [reflexivity|lia].
Qed.

(** Decimal digits are read back by the [%u] of [sscanf]. *)
Definition is_digit (c : ascii) : bool := (48 <=? code c) && (code c <=? 57).

Fixpoint all_digits (s : string) : bool :=
  match s with
  | String.EmptyString => true
  | String.String c s' => is_digit c && all_digits s'
  end.

Lemma digit_code (m : Z) :
  0 <= m < 10 -> code (ascii_of_nat (Z.to_nat (48 + m))) = 48 + m.
Proof.
  intro H. unfold code. rewrite nat_ascii_embedding by lia. lia.
Qed.

Lemma decimal_digits_acc (fuel : nat) : forall n acc,
  decimal_digits fuel n acc
  = String.append (decimal_digits fuel n String.EmptyString) acc.
Proof.
  induction fuel as [|f IH]; intros n acc; cbn [decimal_digits]; [reflexivity|].
  cbv zeta. destruct (n / 10 =? 0); [reflexivity|].
  rewrite IH. rewrite (IH _ (String.String _ String.EmptyString)).
  rewrite str_app_assoc. reflexivity.
Qed.

Lemma all_digits_app (a b : string) :
  all_digits (String.append a b) = all_digits a && all_digits b.
Proof.
  induction a as [|c a IH]; cbn; [reflexivity|]. rewrite IH. apply andb_assoc.
Qed.

Lemma decimal_digits_all (fuel : nat) : forall n,
  0 <= n -> all_digits (decimal_digits fuel n String.EmptyString) = true.
Proof.
  induction fuel as [|f IH]; intros n H; cbn [decimal_digits]; [reflexivity|].
  cbv zeta.
  assert (D : all_digits (String.String (ascii_of_nat (Z.to_nat (48 + n mod 10)))
                            String.EmptyString) = true).
  { cbn [all_digits]. unfold is_digit. rewrite digit_code
      by (apply Z.mod_pos_bound; lia).
    pose proof (Z.mod_pos_bound n 10 ltac:(lia)).
    destruct (Z.leb_spec 48 (48 + n mod 10)); [|lia].
    destruct (Z.leb_spec (48 + n mod 10) 57); [reflexivity|lia]. }
  destruct (n / 10 =? 0); [exact D|].
  rewrite decimal_digits_acc, all_digits_app, D, IH; [reflexivity|].
  apply Z.div_pos; lia.
Qed.

Lemma decimal_digits_nonempty (fuel : nat) (n : Z) :
  decimal_digits (S fuel) n String.EmptyString <> String.EmptyString.
Proof.
  cbn [decimal_digits]. cbv zeta. destruct (n / 10 =? 0); [discriminate|].
  rewrite decimal_digits_acc.
  destruct (decimal_digits fuel (n / 10) String.EmptyString); discriminate.
Qed.

Lemma decimal_digits_S (fuel : nat) (n : Z) (acc : string) :
  decimal_digits (S fuel) n acc
  = if n / 10 =? 0
    then String.String (ascii_of_nat (Z.to_nat (48 + n mod 10))) acc
    else decimal_digits fuel (n / 10)
           (String.String (ascii_of_nat (Z.to_nat (48 + n mod 10))) acc).
Proof. reflexivity. Qed.

Lemma scan_one_digit (n a : Z) (seen : bool) (s : string) :
  0 <= n ->
  scan_digits (String.String (ascii_of_nat (Z.to_nat (48 + n mod 10))) s) a seen
  = scan_digits s (a * 10 + n mod 10) true.
Proof.
  intro H. cbn [scan_digits]. cbv zeta.
  pose proof (Z.mod_pos_bound n 10 ltac:(lia)) as B.
  rewrite digit_code by exact B.
  destruct (Z.leb_spec 48 (48 + n mod 10)); [|lia].
  destruct (Z.leb_spec (48 + n mod 10) 57); [|lia].
  cbn [andb]. f_equal. lia.
Qed.

Lemma scan_decimal (fuel : nat) : forall n,
  0 <= n < 10 ^ Z.of_nat (S fuel) ->
  exists k, 0 <= k /\ forall a seen s,
    scan_digits (String.append (decimal_digits (S fuel) n String.EmptyString) s)
      a seen
    = scan_digits s (a * 10 ^ k + n) true.
Proof.
  induction fuel as [|f IH]; intros n H;
    pose proof (Z.div_mod n 10 ltac:(lia)) as DM;
    rewrite decimal_digits_S; destruct (n / 10 =? 0) eqn:E.
  - apply Z.eqb_eq in E. exists 1. split; [lia|]. intros a seen s.
    cbn [String.append]. rewrite scan_one_digit by lia. f_equal. lia.
  - apply Z.eqb_neq in E. exfalso. apply E. apply Z.div_small.
    change (10 ^ Z.of_nat 1) with 10 in H. lia.
  - apply Z.eqb_eq in E. exists 1. split; [lia|]. intros a seen s.
    cbn [String.append]. rewrite scan_one_digit by lia. f_equal. lia.
  - assert (Hq : 0 <= n / 10 < 10 ^ Z.of_nat (S f)).
    { split; [apply Z.div_pos; lia|].
      apply Z.div_lt_upper_bound; [lia|].
      replace (Z.of_nat (S (S f))) with (Z.of_nat (S f) + 1) in H by lia.
      rewrite Z.pow_add_r in H by lia. lia. }
    destruct (IH _ Hq) as [k [K0 Hk]]. exists (k + 1). split; [lia|].
    intros a seen s. rewrite decimal_digits_acc, str_app_assoc, Hk.
    cbn [String.append]. rewrite scan_one_digit by lia. f_equal.
    rewrite Z.pow_add_r by lia. lia.
Qed.

Lemma find_colon_digits (d s : string) :
  all_digits d = true ->
  find_colon (String.append d (String.String ":"%char s)) = Some (String.length d).
Proof.
  induction d as [|c d IH]; intro H; cbn [String.append find_colon String.length].
  - reflexivity.
  - cbn [all_digits] in H. apply andb_prop in H as [H1 H2].
    destruct (Ascii.eqb_spec c ":"%char) as [->|_]; [discriminate H1|].
    now rewrite IH.
Qed.

Lemma drop_app (d s : string) : drop (String.length d) (String.append d s) = s.
Proof. induction d as [|c d IH]; cbn; [now destruct s|exact IH]. Qed.

Lemma skip_spaces_digit (c : ascii) (s : string) :
  is_digit c = true -> skip_spaces (String.String c s) = String.String c s.
Proof.
  intro H. cbn [skip_spaces]. unfold is_digit in H. unfold isspace.
  apply andb_prop in H as [H1 H2]. apply Z.leb_le in H1. apply Z.leb_le in H2.
  cbv zeta.
  destruct (Z.leb_spec (code c) 13); [lia|]. rewrite andb_false_r.
  destruct (Z.eqb_spec (code c) 32); [lia|].
  destruct (Z.eqb_spec (code c) 160); [lia|]. reflexivity.
Qed.

(** [get_key_size] on a keyring key field gives back the size and the
    remainder from the second colon on. *)
Lemma get_key_size_keyring (n : Z) (ks : string) :
  0 <= n < 2 ^ 31 ->
  get_key_size
    (String.append ":"%string
       (String.append (decimal n) (String.append ":"%string ks)))
  = (n, String.String ":"%char ks).
Proof.
  intro H. cbn [String.append]. unfold get_key_size.
  change (Ascii.eqb ":"%char ":"%char) with true. cbn [negb].
  pose proof (decimal_digits_all 10 n (proj1 H)) as A. fold (decimal n) in A.
  rewrite (find_colon_digits _ _ A).
  assert (B : 0 <= n < 10 ^ Z.of_nat 10).
  { change (10 ^ Z.of_nat 10) with 10000000000.
    change (2 ^ 31) with 2147483648 in H. lia. }
  destruct (scan_decimal 9 n B) as [k [K0 S]].
  fold (decimal n) in S.
  assert (Sk : skip_spaces (String.append (decimal n) (String.String ":"%char ks))
               = String.append (decimal n) (String.String ":"%char ks)).
  { pose proof (decimal_digits_nonempty 9 n) as NE. fold (decimal n) in NE.
    destruct (decimal n) as [|c r]; [contradiction|].
    cbn [all_digits] in A. apply andb_prop in A as [A1 _].
    cbn [String.append]. now apply skip_spaces_digit. }
  rewrite Sk, S. cbn [scan_digits]. cbv zeta.
  change (code ":"%char) with 58. cbn [Z.leb Z.compare Pos.compare Pos.compare_cont
                                        andb].
  change (Ascii.eqb ":"%char ":"%char) with true. cbv beta iota.
  rewrite drop_app. rewrite Z.mul_0_l, Z.add_0_l, as_int_small by exact H.
  reflexivity.
Qed.

Lemma get_key_size_plain (s : string) :
  starts_with_colon s = false ->
  get_key_size s = (as_int (Z.shiftr (strlen s) 1), s).
Proof.
  destruct s as [|c s]; intro H; [reflexivity|].
  cbn [starts_with_colon] in H. unfold get_key_size. rewrite H. reflexivity.
Qed.

Lemma hex_string_no_colon (bs : list Z) :
  Forall (fun b => 0 <= b < 256) bs -> starts_with_colon (hex_string bs) = false.
Proof.
  intros [|b l Hb _]; [reflexivity|].
  destruct (hex_string_head b l Hb) as [c [s [E N]]]. rewrite E. exact N.
Qed.

Lemma get_key_size_hex (bs : list Z) :
  Forall (fun b => 0 <= b < 256) bs ->
  Z.of_nat (length bs) < 2 ^ 31 ->
  get_key_size (hex_string bs) = (Z.of_nat (length bs), hex_string bs).
Proof.
  intros F L. rewrite get_key_size_plain by now apply hex_string_no_colon.
  unfold strlen. rewrite hex_string_length.
  rewrite Z.shiftr_div_pow2 by lia. change (2 ^ 1) with 2.
  replace (Z.of_nat (2 * length bs)) with (Z.of_nat (length bs) * 2) by lia.
  rewrite Z.div_mul by lia. rewrite as_int_small by lia. reflexivity.
Qed.

(** What [get_key_size] makes of the key field of a table line. *)
Lemma get_key_size_field (cc : crypt_config) :
  0 <= key_size cc < 2 ^ 31 ->
  length (key cc) = Z.to_nat (key_size cc) ->
  Forall (fun b => 0 <= b < 256) (key cc) ->
  get_key_size (key_field cc)
  = (key_size cc,
     match shown_key_string cc with
     | Some ks => String.String ":"%char ks
     | None => key_field cc
     end).
Proof.
  intros S L F. unfold key_field, shown_key_string.
  destruct (Z.ltb_spec 0 (key_size cc)) as [P|P].
  - destruct (key_string cc) as [ks|].
    + now apply get_key_size_keyring.
    + rewrite <- L, firstn_all. rewrite get_key_size_hex; [|exact F|lia].
      f_equal. lia.
  - replace (key_size cc) with 0 by lia. reflexivity.
Qed.

(** A call of [crypt_set_keyring_key] that returns 0 found a payload of the
    right size, copied it and stored the key string. *)
Lemma crypt_set_keyring_key_success (cc : crypt_config) (ks : string)
    (env : key_env) :
  fst (crypt_set_keyring_key cc ks env) = 0 ->
  exists data,
    keyring env = key_payload data
    /\ key_size cc = Z.of_nat (length data)
    /\ key (snd (crypt_set_keyring_key cc ks env)) = overwrite (key cc) data
    /\ key_string (snd (crypt_set_keyring_key cc ks env)) = Some ks
    /\ key_valid (snd (crypt_set_keyring_key cc ks env)) = true
    /\ crypt_setkey (with_key cc (overwrite (key cc) data)) env = 0.
Proof.
  unfold crypt_set_keyring_key.
  destruct (contains_whitespace ks); [discriminate|].
  destruct (find_colon ks) as [i|]; [|discriminate].
  destruct (Nat.eqb i 0 || _); [discriminate|].
  destruct (negb _ && negb _); [discriminate|].
  destruct (negb (kstrdup_ok env)); [discriminate|].
  destruct (keyring env) as [errno| |data]; [discriminate|discriminate|].
  destruct (Z.eqb_spec (key_size cc) (Z.of_nat (length data))) as [E|E];
    cbn [negb]; [|discriminate].
  cbv zeta.
  match goal with |- context [crypt_setkey ?c env] => set (cc2 := c) end.
  destruct (crypt_setkey cc2 env =? 0) eqn:R; cbn [fst snd].
  - intros _. exists data. repeat split; try assumption.
    + apply (key_valid_set cc2).
    + apply Z.eqb_eq in R. exact R.
  - intro H. apply Z.eqb_neq in R. contradiction.
Qed.

(** The hex path of [crypt_set_key]. *)
Lemma crypt_set_key_hex (cc : crypt_config) (k : string) (env : key_env)
    (bytes : list Z) :
  (key_size cc =? 0) && negb (String.eqb k "-"%string) = false ->
  starts_with_colon k = false ->
  (if key_size cc =? 0 then (true, []) else hex2bin k (Z.to_nat (key_size cc)))
  = (true, bytes) ->
  key (snd (fst (crypt_set_key cc k env))) = overwrite (key cc) bytes
  /\ key_string (snd (fst (crypt_set_key cc k env))) = None
  /\ (fst (fst (crypt_set_key cc k env)) = 0
      <-> key_valid (snd (fst (crypt_set_key cc k env))) = true).
Proof.
  intros G C D. unfold crypt_set_key. rewrite G, C. cbv zeta.
  cbn [key_size with_flags with_key_string with_key key flags key_string].
  rewrite D. cbn [negb].
  match goal with |- context [crypt_setkey ?c env] => set (cc3 := c) end.
  destruct (crypt_setkey cc3 env =? 0) eqn:R; cbn [fst snd].
  - apply Z.eqb_eq in R. repeat split; auto. intros _. apply (key_valid_set cc3).
  - apply Z.eqb_neq in R. repeat split; auto.
    intro H. pose proof (key_valid_clear cc) as V.
    unfold key_valid in *. subst cc3.
    cbn [flags with_flags with_key with_key_string] in *. congruence.
Qed.

Lemma iv_init_frame cc env r c :
  iv_init cc env = Some (r, c) ->
  key c = key cc /\ key_string c = key_string cc /\ key_size c = key_size cc
  /\ flags c = flags cc.
Proof.
  unfold iv_init. destruct (iv_gen_ops cc); try discriminate;
    try destruct (negb _); intro H; injection H as _ <-; repeat split.
Qed.

Lemma crypt_set_key_wipes cc k env :
  snd (crypt_set_key cc k env) = wipe_string k.
Proof.
  unfold crypt_set_key.
  destruct ((key_size cc =? 0) && _); [reflexivity|].
  destruct (starts_with_colon k).
  { destruct (crypt_set_keyring_key cc (drop 1 k) env). reflexivity. }
  cbv zeta.
  destruct (if key_size _ =? 0 then (true, []) else hex2bin k _) as [ok bytes].
  destruct (negb ok); [reflexivity|].
  destruct (_ =? 0); reflexivity.
Qed.

Definition only_zeros (s : string) : Prop :=
  forall c, In c (String.list_ascii_of_string s) -> c = "0"%char.

Lemma wipe_string_zeros (s : string) :
  only_zeros (wipe_string s)
  /\ String.length (wipe_string s) = String.length s.
Proof.
  unfold only_zeros. induction s as [|x s [IH1 IH2]]; cbn.
  - split; [intros c []|reflexivity].
  - split; [intros c [<-|H]; auto|now rewrite IH2].
Qed.

(** X17. [crypt_setkey], when the authenticated key fits, returns 0 exactly
    when every transform accepts its key; every transform is keyed even
    after one has failed, and the value of the last transform that failed
    is what [crypt_setkey] returns. *)
Theorem crypt_setkey_reports_last_failure (cc : crypt_config) (env : key_env)
    (Hmac : crypt_integrity_hmac cc
            && (crypt_subkey_size cc <? key_mac_size cc) = false) :
  let n := Z.to_nat (tfms_count cc) in
  let r i := setkey_ret env i (transform_key cc env i) in
  (crypt_setkey cc env = 0 <-> forall i, (i < n)%nat -> r i = 0)
  /\ (forall i, (i < n)%nat -> r i <> 0 ->
        (forall j, (i < j < n)%nat -> r j = 0) -> crypt_setkey cc env = r i).
Proof.
  cbv zeta. rewrite (crypt_setkey_fold cc env Hmac).
  set (r := fun i => setkey_ret env i (transform_key cc env i)).
  change (fun err i => if setkey_ret env i (transform_key cc env i) =? 0 then err
                       else setkey_ret env i (transform_key cc env i))
    with (fun err i => if r i =? 0 then err else r i).
  split.
  - rewrite last_failure_zero. split.
    + intros [_ H] i Hi. apply H. apply in_seq. lia.
    + intro H. split; [reflexivity|]. intros i Hi. apply H.
      apply in_seq in Hi. lia.
  - intros i Hi N Z0. rewrite (seq_split_at i _ Hi).
    apply last_failure_at; [exact N|].
    intros j Hj. apply Z0. apply in_seq in Hj. lia.
Qed.

(** Two transforms of which the first refuses its key. *)
Definition two_tfms_cc : crypt_config :=
  {| flags := 1; key_size := 4; key_extra_size := 0; key_mac_size := 0;
     tfms_count := 2; integrity_aead := false; iv_gen_ops := hooks_none;
     iv_secret := []; key_string := None; key := [1; 2; 3; 4] |}.

Definition first_refuses : key_env :=
  {| random_byte := fun _ => 0;
     setkey_ret := fun i _ => if Nat.eqb i 0 then - EINVAL else 0;
     rta_header := fun _ => [];
     essiv_setkey_ret := 0;
     essiv_digest_ret := 0;
     derived_secret := [];
     kstrdup_ok := true;
     keyring := key_revoked |}.

Lemma crypt_setkey_reports_last_failure_witness :
  crypt_setkey two_tfms_cc first_refuses
  = setkey_ret first_refuses 0 (transform_key two_tfms_cc first_refuses 0).
Proof.
  refine (proj2 (crypt_setkey_reports_last_failure two_tfms_cc first_refuses
                   eq_refl) 0%nat _ _ _).
  - cbn. lia.
  - vm_compute. discriminate.
  - intros j Hj. assert (E : j = 1%nat) by (cbn in Hj; lia). subst j. reflexivity.
Defined.

(** X18. The key field that [crypt_status] emits for the table line, when
    the result buffer has room for it, is the text that loads the same key
    again: [get_key_size] reads the key size back from it and
    [crypt_set_key], on a configuration of that key size, decodes the hex
    digits to the very bytes of the key buffer (no key for "-"), or, for a
    key from the keyring, stores the same key string when it succeeds. *)
Theorem status_key_field_reloads (cc : crypt_config) (maxlen : nat)
    (result : string)
    (Hsize : 0 <= key_size cc < 2 ^ 31)
    (Hlen : length (key cc) = Z.to_nat (key_size cc))
    (Hbytes : Forall (fun b => 0 <= b < 256) (key cc))
    (Hroom : (String.length result + String.length (key_field cc) < maxlen)%nat) :
  crypt_status_key cc maxlen result = String.append result (key_field cc)
  /\ fst (get_key_size (key_field cc)) = key_size cc
  /\ forall c0 env,
       key_size c0 = key_size cc -> length (key c0) = length (key cc) ->
       let out := crypt_set_key c0 (snd (get_key_size (key_field cc))) env in
       match shown_key_string cc with
       | None =>
           key (snd (fst out)) = key cc
           /\ key_string (snd (fst out)) = None
           /\ (fst (fst out) = 0 <-> key_valid (snd (fst out)) = true)
       | Some ks =>
           fst (fst out) = 0 ->
           key_string (snd (fst out)) = Some ks
           /\ key_valid (snd (fst out)) = true
           /\ keyring env = key_payload (key (snd (fst out)))
       end.
Proof.
  rewrite (get_key_size_field cc Hsize Hlen Hbytes). cbn [fst snd].
  split; [|split; [reflexivity|]].
  - unfold crypt_status_key. unfold key_field in *.
    destruct (0 <? key_size cc).
    + destruct (key_string cc) as [ks|]; [now apply DMEMIT_room|].
      apply emit_hex_room. rewrite hex_string_length in Hroom. exact Hroom.
    + now apply DMEMIT_room.
  - intros c0 env Ks Kl. cbv zeta. unfold shown_key_string, key_field.
    destruct (Z.ltb_spec 0 (key_size cc)) as [P|P].
    + destruct (key_string cc) as [ks|].
      * unfold crypt_set_key.
        replace (key_size c0 =? 0) with false
          by (symmetry; apply Z.eqb_neq; lia).
        cbn [andb starts_with_colon].
        change (Ascii.eqb ":"%char ":"%char) with true. cbv beta iota.
        change (drop 1 (String.String ":"%char ks)) with ks.
        pose proof (crypt_set_keyring_key_success c0 ks env) as K.
        destruct (crypt_set_keyring_key c0 ks env) as [r c1]. cbn [fst snd] in *.
        intro R. destruct (K R) as [data [E1 [E2 [E3 [E4 [E5 _]]]]]].
        repeat split; [exact E4|exact E5|].
        rewrite E1, E3. f_equal. symmetry. apply overwrite_full. lia.
      * rewrite <- Hlen, firstn_all.
        assert (D : (if key_size c0 =? 0 then (true, [])
                     else hex2bin (hex_string (key cc)) (Z.to_nat (key_size c0)))
                    = (true, key cc)).
        { replace (key_size c0 =? 0) with false
            by (symmetry; apply Z.eqb_neq; lia).
          rewrite Ks, <- Hlen. now apply hex_string_decodes. }
        destruct (crypt_set_key_hex c0 (hex_string (key cc)) env (key cc))
          as [A [B C]]; [|now apply hex_string_no_colon|exact D|].
        { replace (key_size c0 =? 0) with false
            by (symmetry; apply Z.eqb_neq; lia). reflexivity. }
        rewrite A. repeat split; try assumption; try apply C.
        now apply overwrite_full.
    + assert (Z0 : key_size cc = 0) by lia.
      destruct (crypt_set_key_hex c0 "-"%string env [])
        as [A [B C]]; [| |rewrite Ks, Z0; reflexivity|].
      { rewrite Ks, Z0. reflexivity. }
      { reflexivity. }
      rewrite A. repeat split; try assumption; try apply C.
      rewrite Z0 in Hlen. cbn in Hlen. rewrite Hlen in Kl.
      destruct (key cc); [|discriminate Hlen].
      destruct (key c0); [reflexivity|discriminate Kl].
Qed.

(** A freshly allocated configuration for a four-byte key. *)
Definition blank_cc : crypt_config :=
  {| flags := 0; key_size := 4; key_extra_size := 0; key_mac_size := 0;
     tfms_count := 1; integrity_aead := false; iv_gen_ops := hooks_essiv;
     iv_secret := [0; 0]; key_string := None; key := [0; 0; 0; 0] |}.

Lemma status_key_field_reloads_witness :
  crypt_status_key demo_cc 64 "aes-cbc-essiv:sha256 "%string
  = "aes-cbc-essiv:sha256 deadbeef"%string
  /\ key (snd (fst (crypt_set_key blank_cc "deadbeef"%string demo_env)))
     = key demo_cc.
Proof.
  pose proof (status_key_field_reloads demo_cc 64 "aes-cbc-essiv:sha256 "%string
                ltac:(cbn; lia) eq_refl
                ltac:(repeat constructor; cbn; lia)
                ltac:(vm_compute; lia)) as [A [_ C]].
  split; [exact A|].
  exact (proj1 (C blank_cc demo_env eq_refl eq_refl)).
Defined.

(** X19. A [key set] message on a suspended device leaves no key text in its
    argument vector: whatever the outcome (bad size, bad hex digit, keyring
    failure, success) the key argument, as [get_key_size] left it, comes
    back with every character overwritten by the digit zero. On a device
    that is not suspended the message is refused before the key argument is
    looked at, and the argument is left as it was. *)
Theorem key_set_message_wipes_key_string (cc : crypt_config)
    (a0 a1 a2 : string) (env : key_env)
    (Hkey : strcasecmp_eq a0 "key"%string = true)
    (Hset : strcasecmp_eq a1 "set"%string = true) :
  let out := crypt_message cc [a0; a1; a2] env in
  let k := snd (get_key_size a2) in
  (suspended cc = true ->
     snd out = [a0; a1; wipe_string k]
     /\ only_zeros (wipe_string k)
     /\ String.length (wipe_string k) = String.length k)
  /\ (suspended cc = false -> out = (- EINVAL, cc, [a0; a1; a2])).
Proof.
  cbv zeta. cbn [crypt_message]. rewrite Hkey, Hset.
  split; intro S; rewrite S; cbn [negb]; [|reflexivity].
  split; [|apply wipe_string_zeros].
  destruct (get_key_size a2) as [ksize k]. cbn [snd].
  destruct ((ksize <? 0) || _); [reflexivity|].
  pose proof (crypt_set_key_wipes cc k env) as W.
  destruct (crypt_set_key cc k env) as [[ret cc1] k']. cbn [snd] in W. subst k'.
  destruct (negb (ret =? 0)); [reflexivity|].
  destruct (match iv_init cc1 env with Some (r, c) => (r, c) | None => (ret, cc1) end).
  reflexivity.
Qed.

Lemma key_set_message_wipes_key_string_witness :
  snd (crypt_message demo_cc ["key"; "SET"; "0a0b0c0d"]%string demo_env)
  = ["key"; "SET"; "00000000"]%string.
Proof.
  exact (proj1 (proj1 (key_set_message_wipes_key_string demo_cc
                         "key"%string "SET"%string "0a0b0c0d"%string demo_env
                         eq_refl eq_refl) eq_refl)).
Defined.

(** X20. A failed [crypt_set_key] never leaves a changed key marked valid:
    either the configuration is exactly as it was (the key was refused
    before anything was written) or the key-valid flag is clear. A key
    given in hex that gets past the no-key check always ends with the old
    key invalidated and the keyring reference dropped when it fails. *)
Theorem failed_key_set_invalidates_or_leaves_untouched (cc : crypt_config)
    (k : string) (env : key_env)
    (Hfail : fst (fst (crypt_set_key cc k env)) <> 0) :
  (snd (fst (crypt_set_key cc k env)) = cc
   \/ key_valid (snd (fst (crypt_set_key cc k env))) = false)
  /\ (starts_with_colon k = false ->
      (key_size cc =? 0) && negb (String.eqb k "-"%string) = false ->
      key_valid (snd (fst (crypt_set_key cc k env))) = false
      /\ key_string (snd (fst (crypt_set_key cc k env))) = None).
Proof.
  revert Hfail. unfold crypt_set_key.
  destruct ((key_size cc =? 0) && _).
  { cbn [fst snd]. intros _. split; [now left|discriminate]. }
  destruct (starts_with_colon k).
  { unfold crypt_set_keyring_key.
    destruct (contains_whitespace _);
      [cbn [fst snd]; intros _; split; [now left|discriminate]|].
    destruct (find_colon _) as [i|];
      [|cbn [fst snd]; intros _; split; [now left|discriminate]].
    destruct (Nat.eqb i 0 || _);
      [cbn [fst snd]; intros _; split; [now left|discriminate]|].
    destruct (negb _ && negb _);
      [cbn [fst snd]; intros _; split; [now left|discriminate]|].
    destruct (negb (kstrdup_ok env));
      [cbn [fst snd]; intros _; split; [now left|discriminate]|].
    destruct (keyring env) as [errno| |data];
      [cbn [fst snd]; intros _; split; [now left|discriminate] ..|].
    destruct (negb (key_size cc =? _));
      [cbn [fst snd]; intros _; split; [now left|discriminate]|].
    cbv zeta.
    match goal with |- context [crypt_setkey ?c env] => set (cc2 := c) end.
    destruct (crypt_setkey cc2 env =? 0) eqn:R; cbn [fst snd].
    - apply Z.eqb_eq in R. intro H. contradiction.
    - intros _. split; [right|discriminate].
      apply (key_valid_clear (with_key cc (overwrite (key cc) data))). }
  cbv zeta.
  destruct (if key_size _ =? 0 then (true, []) else hex2bin k _) as [ok bytes].
  destruct ok; cbn [negb].
  - match goal with |- context [crypt_setkey ?c env] => set (cc3 := c) end.
    destruct (crypt_setkey cc3 env =? 0) eqn:R; cbn [fst snd].
    + apply Z.eqb_eq in R. intro H. contradiction.
    + intros _.
      assert (V : key_valid cc3 = false) by apply (key_valid_clear cc).
      split; [now right|]. intros _ _. split; [exact V|reflexivity].
  - cbn [fst snd]. intros _.
    match goal with |- context [key_valid ?c] => set (cc3 := c) end.
    assert (V : key_valid cc3 = false) by apply (key_valid_clear cc).
    split; [now right|]. intros _ _. split; [exact V|reflexivity].
Qed.

Lemma failed_key_set_invalidates_or_leaves_untouched_witness :
  key_valid demo_cc = true
  /\ key_valid (snd (fst (crypt_set_key demo_cc "0a0b0cxy"%string demo_env)))
     = false.
Proof.
  split; [reflexivity|].
  exact (proj1 (proj2 (failed_key_set_invalidates_or_leaves_untouched demo_cc
                         "0a0b0cxy"%string demo_env
                         ltac:(vm_compute; discriminate)) eq_refl eq_refl)).
Defined.

Lemma hex2bin_length (n : nat) : forall s bs,
  hex2bin s n = (true, bs) -> length bs = n.
Proof.
  induction n as [|n IH]; intros s bs H.
  - destruct s; cbn [hex2bin] in H; injection H as <-; reflexivity.
  - destruct s as [|h [|l s]]; cbn [hex2bin] in H; try discriminate.
    destruct (hex_to_bin h); [|discriminate].
    destruct (hex_to_bin l); [|discriminate].
    destruct (hex2bin s n) as [ok rest] eqn:E. cbv beta iota in H.
    injection H as -> <-. cbn [length]. f_equal. now apply (IH s).
Qed.

(** A [crypt_set_key] that returns 0 on a key that starts with a colon went
    through [crypt_set_keyring_key]. *)
Lemma crypt_set_key_colon_ok (cc : crypt_config) (k : string) (env : key_env) :
  starts_with_colon k = true ->
  fst (fst (crypt_set_key cc k env)) = 0 ->
  snd (fst (crypt_set_key cc k env))
  = snd (crypt_set_keyring_key cc (drop 1 k) env)
  /\ fst (crypt_set_keyring_key cc (drop 1 k) env) = 0.
Proof.
  intro C. unfold crypt_set_key.
  destruct ((key_size cc =? 0) && _); [discriminate|].
  rewrite C. destruct (crypt_set_keyring_key cc (drop 1 k) env) as [r c].
  cbn [fst snd]. auto.
Qed.

(** A [crypt_set_key] that returns 0 on any other key decoded it. *)
Lemma crypt_set_key_plain_ok (cc : crypt_config) (k : string) (env : key_env) :
  starts_with_colon k = false ->
  fst (fst (crypt_set_key cc k env)) = 0 ->
  (key_size cc =? 0) && negb (String.eqb k "-"%string) = false
  /\ exists bytes,
       (if key_size cc =? 0 then (true, [])
        else hex2bin k (Z.to_nat (key_size cc))) = (true, bytes).
Proof.
  intro C. unfold crypt_set_key.
  destruct ((key_size cc =? 0) && _); [discriminate|].
  rewrite C. cbv zeta.
  cbn [key_size with_flags with_key_string with_key key flags key_string].
  destruct (if key_size cc =? 0 then (true, []) else hex2bin k _) as [ok bytes].
  destruct ok; cbn [negb]; [|discriminate].
  intros _. split; [reflexivity|]. now exists bytes.
Qed.

(** X21. After a [key set] message whose [crypt_set_key] succeeded, the key is
    valid; a key given in hex stays, decoded, in the key buffer (it is what
    the table line shows later), whereas the payload of a keyring key is
    used to key the transforms and run the IV generator's init hook and is
    then overwritten with zeros, only its key string being kept. *)
Theorem key_set_message_keeps_hex_key_wipes_keyring_payload
    (cc : crypt_config) (a0 a1 a2 : string) (env : key_env)
    (Hkey : strcasecmp_eq a0 "key"%string = true)
    (Hset : strcasecmp_eq a1 "set"%string = true)
    (Hsusp : suspended cc = true)
    (Hlen : length (key cc) = Z.to_nat (key_size cc))
    (Hpos : 0 <= fst (get_key_size a2))
    (Hsame : key_size cc = wrap32 (fst (get_key_size a2)))
    (Hok : fst (fst (crypt_set_key cc (snd (get_key_size a2)) env)) = 0) :
  let k := snd (get_key_size a2) in
  let cc' := snd (fst (crypt_message cc [a0; a1; a2] env)) in
  key_valid cc' = true
  /\ (starts_with_colon k = true ->
      key cc' = repeat 0 (Z.to_nat (key_size cc))
      /\ key_string cc' = Some (drop 1 k)
      /\ exists data,
           keyring env = key_payload data
           /\ crypt_setkey (with_key cc data) env = 0)
  /\ (starts_with_colon k = false ->
      key_string cc' = None
      /\ hex2bin k (Z.to_nat (key_size cc)) = (true, key cc')).
Proof.
  cbv zeta. cbn [crypt_message]. rewrite Hkey, Hset, Hsusp. cbn [negb].
  pose proof (crypt_set_key_flag cc (snd (get_key_size a2)) env) as Fl.
  destruct (get_key_size a2) as [ksize k]. cbn [fst snd] in *.
  replace ((ksize <? 0) || negb (key_size cc =? wrap32 ksize)) with false.
  2:{ symmetry. apply orb_false_iff. split; [apply Z.ltb_ge; lia|].
      apply negb_false_iff, Z.eqb_eq. exact Hsame. }
  assert (Tail : forall ret cc1 k',
    crypt_set_key cc k env = (ret, cc1, k') ->
    exists r c,
      (let '(ret0, cc2) :=
         match iv_init cc1 env with
         | Some (r0, c0) => (r0, c0)
         | None => (ret, cc1)
         end in
       (ret0,
        match key_string cc2 with
        | Some _ => with_key cc2 (overwrite (key cc2)
                                    (repeat 0 (Z.to_nat (key_size cc2))))
        | None => cc2
        end, [a0; a1; k'])) = (r, c, [a0; a1; k'])
      /\ flags c = flags cc1 /\ key_string c = key_string cc1
      /\ key c = match key_string cc1 with
                 | Some _ => overwrite (key cc1)
                               (repeat 0 (Z.to_nat (key_size cc1)))
                 | None => key cc1
                 end).
  { intros ret cc1 k' _.
    destruct (iv_init cc1 env) as [[r0 c0]|] eqn:I.
    - destruct (iv_init_frame _ _ _ _ I) as [I1 [I2 [I3 I4]]].
      eexists _, _. split; [reflexivity|].
      rewrite I2. destruct (key_string cc1) eqn:Ks;
        cbn [flags key_string key with_key]; rewrite ?I1, ?I3;
        repeat split; congruence.
    - eexists _, _. split; [reflexivity|].
      destruct (key_string cc1) eqn:Ks; cbn [flags key_string key with_key];
        repeat split; congruence. }
  assert (Colon := crypt_set_key_colon_ok cc k env).
  assert (Plain := crypt_set_key_plain_ok cc k env).
  assert (Hex := crypt_set_key_hex cc k env).
  assert (Ring := crypt_set_keyring_key_success cc (drop 1 k) env).
  destruct (crypt_set_key cc k env) as [[ret cc1] k'] eqn:E.
  cbn [fst snd] in *. subst ret. cbn [Z.eqb negb].
  destruct (Tail 0 cc1 k' eq_refl) as [r [c [T [Tf [Ts Tk]]]]].
  rewrite T. cbn [fst snd].
  split.
  { rewrite (key_valid_flags cc1 c Tf). now apply Fl. }
  split; intro C.
  - destruct (Colon C eq_refl) as [C1 C2].
    destruct (Ring C2) as [data [R1 [R2 [R3 [R4 [R5 R6]]]]]].
    rewrite <- C1 in R3, R4.
    assert (Full : overwrite (key cc) data = data)
      by (apply overwrite_full; lia).
    rewrite Ts, Tk, R4.
    assert (Ks : key_size cc1 = key_size cc).
    { rewrite C1. clear. unfold crypt_set_keyring_key.
      repeat match goal with
             | |- context [if ?b then _ else _] => destruct b
             | |- context [match ?x with _ => _ end] => destruct x
             end; reflexivity. }
    rewrite Ks, R3, Full.
    split; [|split; [reflexivity|]].
    + apply overwrite_full. rewrite repeat_length. lia.
    + exists data. split; [exact R1|]. now rewrite <- Full.
  - destruct (Plain C eq_refl) as [G [bytes D]].
    destruct (Hex bytes G C D) as [H1 [H2 _]].
    rewrite Ts, Tk, H2. split; [reflexivity|]. rewrite H1.
    destruct (Z.eqb_spec (key_size cc) 0) as [Z0|NZ].
    + injection D as <-.
      assert (Kn : key cc = []).
      { destruct (key cc); [reflexivity|rewrite Z0 in Hlen; discriminate Hlen]. }
      rewrite Kn, Z0. change (Z.to_nat 0) with 0%nat. destruct k; reflexivity.
    + rewrite D. f_equal. symmetry. apply overwrite_full.
      rewrite Hlen. symmetry. now apply (hex2bin_length _ k).
Qed.

(** The keyring holds a four-byte payload. *)
Definition keyring_env : key_env :=
  {| random_byte := random_byte demo_env;
     setkey_ret := setkey_ret demo_env;
     rta_header := rta_header demo_env;
     essiv_setkey_ret := 0;
     essiv_digest_ret := 0;
     derived_secret := [51; 68];
     kstrdup_ok := true;
     keyring := key_payload [202; 254; 186; 190] |}.

Lemma key_set_message_keeps_hex_key_wipes_keyring_payload_witness :
  let cc' := snd (fst (crypt_message demo_cc
                         ["key"; "set"; ":4:logon:disk"]%string keyring_env)) in
  key_valid cc' = true
  /\ key cc' = [0; 0; 0; 0]
  /\ key_string cc' = Some "logon:disk"%string.
Proof.
  pose proof (key_set_message_keeps_hex_key_wipes_keyring_payload demo_cc
                "key"%string "set"%string ":4:logon:disk"%string keyring_env
                eq_refl eq_refl eq_refl eq_refl
                ltac:(vm_compute; discriminate) eq_refl eq_refl) as [V [K _]].
  cbv zeta. split; [exact V|].
  destruct (K eq_refl) as [K1 [K2 _]]. split; [exact K1|exact K2].
Defined.

End Key.

(** * The constructor: request layout, buffers, feature arguments *)

Module Ctr.

(** ** The layout of a crypto request *)

(** Modelled from the spec: [ALIGN(x, a)] of the kernel's headers on an
    unsigned type of [w] bits, [(x + (a - 1)) & ~(a - 1)]. *)
Definition ALIGN (w x a : Z) : Z :=
  Z.land ((x + (a mod 2 ^ w - 1)) mod 2 ^ w) (Z.lnot (a mod 2 ^ w - 1) mod 2 ^ w).

(** Sizes that come from headers and from the crypto API, for the kind of
    transform in use (aead or skcipher). *)
Record sizes := {
  sizeof_request : Z;            (* sizeof(struct aead_request) or
                                    sizeof(struct skcipher_request) *)
  reqsize : Z;                   (* crypto_aead_reqsize, crypto_skcipher_reqsize *)
  alignmask : Z;                 (* crypto_aead_alignmask, crypto_skcipher_alignmask *)
  sizeof_dm_crypt_request : Z;
  alignof_dm_crypt_request : Z;
  CRYPTO_MINALIGN : Z;
  sizeof_dm_crypt_io : Z;
  ARCH_KMALLOC_MINALIGN : Z
}.

Section Layout.

Variable e : sizes.
Variable iv_size : Z.            (* cc->iv_size *)

(** [cc->dmreq_start] as [crypt_ctr] computes it. *)
Definition dmreq_start : Z :=
  ALIGN 32 (wrap32 (wrap32 (sizeof_request e) + reqsize e))
    (alignof_dm_crypt_request e).

Definition iv_size_padding : Z :=
  if alignmask e <? CRYPTO_MINALIGN e then
    Z.land (wrap64 (- (dmreq_start + sizeof_dm_crypt_request e))) (alignmask e)
  else alignmask e.

Definition additional_req_size : Z :=
  wrap64 (sizeof_dm_crypt_request e + iv_size_padding + iv_size + iv_size + 8 + 4).

(** The element size of [cc->req_pool]. *)
Definition req_pool_size : Z := wrap64 (dmreq_start + additional_req_size).

Definition per_bio_data_size : Z :=
  wrap32 (ALIGN 64 (wrap64 (sizeof_dm_crypt_io e + dmreq_start + additional_req_size))
            (ARCH_KMALLOC_MINALIGN e)).

(** The accessors, on addresses. *)
Definition dmreq_of_req (req : Z) : Z := wrap64 (req + dmreq_start).

Definition req_of_dmreq (dmreq : Z) : Z := wrap64 (dmreq - dmreq_start).

Definition iv_of_dmreq (dmreq : Z) : Z :=
  ALIGN 64 (wrap64 (dmreq + sizeof_dm_crypt_request e)) (wrap32 (alignmask e + 1)).

Definition org_iv_of_dmreq (dmreq : Z) : Z := wrap64 (iv_of_dmreq dmreq + iv_size).

Definition org_sector_of_dmreq (dmreq : Z) : Z :=
  wrap64 (iv_of_dmreq dmreq + iv_size + iv_size).

Definition org_tag_of_dmreq (dmreq : Z) : Z :=
  wrap64 (iv_of_dmreq dmreq + iv_size + iv_size + 8).

End Layout.

(** [ALIGN] to a power of two rounds up to the next multiple. *)
Lemma ALIGN_pow2 (w k x : Z) :
  0 <= k <= w -> 0 <= x -> x + 2 ^ k <= 2 ^ w ->
  ALIGN w x (2 ^ k) = x + (- x) mod 2 ^ k.
Proof.
  intros Hk Hx Hfit. unfold ALIGN.
  assert (P : 0 < 2 ^ k) by (apply Z.pow_pos_nonneg; lia).
  assert (Pw : 2 ^ k <= 2 ^ w) by (apply Z.pow_le_mono_r; lia).
  destruct (Z.eq_dec k w) as [->|Nk].
  { assert (x = 0) by lia. subst x.
    rewrite Z.mod_same by lia. change (0 - 1) with (-1).
    change (Z.lnot (-1)) with 0. rewrite (Z.mod_0_l (2 ^ w)) by lia.
    rewrite Z.land_0_r. cbn [Z.opp]. rewrite Z.mod_0_l by lia. reflexivity. }
  assert (Lt : 2 ^ k < 2 ^ w) by (apply Z.pow_lt_mono_r; lia).
  rewrite (Z.mod_small (2 ^ k)) by lia.
  rewrite (Z.mod_small (x + _)) by lia.
  replace (2 ^ k - 1) with (Z.ones k) by (rewrite Z.ones_equiv; lia).
  rewrite <- (Z.land_ones (Z.lnot _)) by lia.
  rewrite Z.land_assoc.
  assert (Y : Z.land (x + Z.ones k) (Z.lnot (Z.ones k))
              = x + (- x) mod 2 ^ k).
  { rewrite <- Z.ldiff_land.
    rewrite Z.ldiff_ones_r by lia.
    rewrite Z.shiftr_div_pow2, Z.shiftl_mul_pow2 by lia.
    pose proof (Z.mod_pos_bound (- x) (2 ^ k) P) as B.
    pose proof (Z.div_mod (- x) (2 ^ k) ltac:(lia)) as D.
    set (p := (- x) mod 2 ^ k) in *. set (c := (- x) / 2 ^ k) in *.
    rewrite Z.ones_equiv.
    replace (x + Z.pred (2 ^ k)) with ((- c) * 2 ^ k + (2 ^ k - 1 - p)) by lia.
    rewrite Z.div_add_l by lia. rewrite Z.div_small by lia. lia. }
  rewrite <- Z.land_assoc, (Z.land_comm (Z.lnot _)), Z.land_assoc.
  rewrite Z.land_ones by lia. rewrite Z.mod_small.
  - exact Y.
  - rewrite Z.ones_equiv. lia.
Qed.

Lemma round_up_multiple (x a : Z) : 0 < a -> (x + (- x) mod a) mod a = 0.
Proof.
  intro H. rewrite Z.add_mod_idemp_r by lia.
  replace (x + - x) with 0 by lia. now apply Z.mod_0_l; lia.
Qed.

Lemma pow2_le_exp (a b : Z) : 0 <= a -> 0 <= b -> 2 ^ a <= 2 ^ b -> a <= b.
Proof. intros Ha Hb H. apply (Z.pow_le_mono_r_iff 2); lia. Qed.

(** The padding to an alignment does not depend on an aligned base. *)
Lemma pad_of_aligned_base (req d k m : Z) :
  0 <= k <= m -> req mod 2 ^ m = 0 ->
  (- (req + d)) mod 2 ^ k = (- d) mod 2 ^ k.
Proof.
  intros Hk Hr.
  assert (P : 0 < 2 ^ k) by (apply Z.pow_pos_nonneg; lia).
  assert (Pm : 0 < 2 ^ m) by (apply Z.pow_pos_nonneg; lia).
  pose proof (Z.div_mod req (2 ^ m) ltac:(lia)) as D. rewrite Hr in D.
  set (q := req / 2 ^ m) in *.
  replace (2 ^ m) with (2 ^ (m - k) * 2 ^ k) in D
    by (rewrite <- Z.pow_add_r by lia; f_equal; lia).
  replace (- (req + d)) with (- d + (- (2 ^ (m - k) * q)) * 2 ^ k)
    by lia.
  apply Z.mod_add. lia.
Qed.

(** X22. The layout [crypt_ctr] computes for a crypto request holds what the
    accessors address. For a request at [req] (kmalloc-aligned when the
    transform asks for no more than that): the dm-crypt part starts on its
    alignment after the crypto API's part; the IV is aligned as the
    transform requires; the working IV, the original IV, the sector number
    and the tag offset follow one another without overlap; and the last of
    them ends inside the [req_pool] element, exactly at its end when the
    padding was computed exactly. The per-bio data has room for such a
    request after [struct dm_crypt_io]. *)
Theorem request_fields_lie_inside_the_request
    (e : sizes) (iv_size req k m j a : Z)
    (Hk : 0 <= k < 32) (Hmask : alignmask e = 2 ^ k - 1)
    (Hm : 0 <= m) (Hmin : CRYPTO_MINALIGN e = 2 ^ m)
    (Hj : 0 <= j) (Halign : alignof_dm_crypt_request e = 2 ^ j)
    (Ha : 0 <= a) (Hkmin : ARCH_KMALLOC_MINALIGN e = 2 ^ a)
    (Hhead : 0 <= sizeof_request e /\ 0 <= reqsize e
             /\ sizeof_request e + reqsize e + 2 ^ j <= 2 ^ 32)
    (Hsizes : 0 <= sizeof_dm_crypt_request e /\ 0 <= iv_size
              /\ 0 <= sizeof_dm_crypt_io e)
    (Hreq : 0 <= req)
    (Hkmalloc : alignmask e < CRYPTO_MINALIGN e -> req mod CRYPTO_MINALIGN e = 0)
    (Hfit : req + dmreq_start e + sizeof_dm_crypt_request e + alignmask e
            + 2 * iv_size + 12 < 2 ^ 64)
    (Hbio : sizeof_dm_crypt_io e + dmreq_start e + sizeof_dm_crypt_request e
            + alignmask e + 2 * iv_size + 12 + 2 ^ a <= 2 ^ 32) :
  let dmreq := dmreq_of_req e req in
  let iv := iv_of_dmreq e dmreq in
  (sizeof_request e + reqsize e <= dmreq_start e
   /\ dmreq_start e mod alignof_dm_crypt_request e = 0)
  /\ req_of_dmreq e dmreq = req
  /\ (dmreq + sizeof_dm_crypt_request e <= iv
      /\ iv mod (alignmask e + 1) = 0)
  /\ (org_iv_of_dmreq e iv_size dmreq = iv + iv_size
      /\ org_sector_of_dmreq e iv_size dmreq = iv + iv_size + iv_size
      /\ org_tag_of_dmreq e iv_size dmreq = iv + iv_size + iv_size + 8)
  /\ org_tag_of_dmreq e iv_size dmreq + 4 <= req + req_pool_size e iv_size
  /\ (alignmask e < CRYPTO_MINALIGN e ->
      org_tag_of_dmreq e iv_size dmreq + 4 = req + req_pool_size e iv_size)
  /\ sizeof_dm_crypt_io e + req_pool_size e iv_size <= per_bio_data_size e iv_size.
Proof.
  destruct Hhead as [Hs [Hr Hsr]]. destruct Hsizes as [Hd [Hiv Hio]].
  assert (Pk : 0 < 2 ^ k) by (apply Z.pow_pos_nonneg; lia).
  assert (Pj : 0 < 2 ^ j) by (apply Z.pow_pos_nonneg; lia).
  assert (Pa : 0 < 2 ^ a) by (apply Z.pow_pos_nonneg; lia).
  assert (Pm : 0 < 2 ^ m) by (apply Z.pow_pos_nonneg; lia).
  assert (K32 : 2 ^ k < 2 ^ 32) by (apply Z.pow_lt_mono_r; lia).
  assert (W : 2 ^ 32 < 2 ^ 64) by (apply Z.pow_lt_mono_r; lia).
  (* dmreq_start *)
  assert (Start : dmreq_start e
                  = sizeof_request e + reqsize e
                    + (- (sizeof_request e + reqsize e)) mod 2 ^ j).
  { unfold dmreq_start, wrap32. rewrite Halign.
    rewrite (Z.mod_small (sizeof_request e)) by lia.
    rewrite (Z.mod_small (sizeof_request e + reqsize e)) by lia.
    apply ALIGN_pow2; [|lia|lia].
    split; [lia|]. apply pow2_le_exp; lia. }
  pose proof (Z.mod_pos_bound (- (sizeof_request e + reqsize e)) (2 ^ j) Pj) as Bj.
  assert (StartM : dmreq_start e mod 2 ^ j = 0)
    by (rewrite Start; now apply round_up_multiple).
  cbv zeta. unfold org_tag_of_dmreq, org_sector_of_dmreq, org_iv_of_dmreq,
    req_pool_size, per_bio_data_size, additional_req_size, iv_size_padding,
    iv_of_dmreq, req_of_dmreq, dmreq_of_req.
  set (DS := dmreq_start e) in *. set (S := sizeof_dm_crypt_request e) in *.
  assert (DS0 : 0 <= DS) by lia.
  assert (W64 : forall x, 0 <= x < 2 ^ 64 -> wrap64 x = x)
    by (intros x Hx; now apply Z.mod_small).
  assert (W32 : forall x, 0 <= x < 2 ^ 32 -> wrap32 x = x)
    by (intros x Hx; now apply Z.mod_small).
  rewrite !(W64 (req + DS)) by lia.
  replace (req + DS - DS) with req by lia.
  rewrite (W64 req) by lia.
  rewrite !(W64 (req + DS + S)) by lia.
  rewrite Hmask. replace (2 ^ k - 1 + 1) with (2 ^ k) by lia.
  rewrite !(W32 (2 ^ k)) by lia.
  rewrite !(ALIGN_pow2 64 k (req + DS + S)) by lia.
  pose proof (Z.mod_pos_bound (- (req + DS + S)) (2 ^ k) Pk) as Bp.
  set (pad := (- (req + DS + S)) mod 2 ^ k) in *.
  (* the padding the constructor reserved *)
  set (P := if 2 ^ k - 1 <? CRYPTO_MINALIGN e
            then Z.land (wrap64 (- (DS + S))) (2 ^ k - 1) else 2 ^ k - 1).
  assert (PadLe : pad <= P /\ P <= 2 ^ k - 1
                  /\ (2 ^ k - 1 < CRYPTO_MINALIGN e -> pad = P)).
  { unfold P. rewrite Hmask in *.
    destruct (Z.ltb_spec (2 ^ k - 1) (CRYPTO_MINALIGN e)) as [L|L].
    - assert (E : Z.land (wrap64 (- (DS + S))) (2 ^ k - 1) = pad).
      { replace (2 ^ k - 1) with (Z.ones k) by (rewrite Z.ones_equiv; lia).
        rewrite Z.land_ones by lia. unfold wrap64.
        rewrite Z.mod_mod_divide
          by (exists (2 ^ (64 - k)); rewrite <- Z.pow_add_r by lia; f_equal; lia).
        unfold pad. symmetry.
        replace (req + DS + S) with (req + (DS + S)) by lia.
        apply (pad_of_aligned_base req (DS + S) k m).
        - split; [lia|]. apply pow2_le_exp; lia.
        - rewrite <- Hmin. now apply Hkmalloc. }
      rewrite E. repeat split; lia.
    - repeat split; try lia. }
  destruct PadLe as [PL [PU PE]].
  assert (P0 : 0 <= P) by lia.
  rewrite Hmask in Hfit, Hbio.
  rewrite !(W64 (req + DS + S + pad + iv_size)) by lia.
  rewrite !(W64 (req + DS + S + pad + iv_size + iv_size)) by lia.
  rewrite !(W64 (req + DS + S + pad + iv_size + iv_size + 8)) by lia.
  rewrite !(W64 (S + P + iv_size + iv_size + 8 + 4)) by lia.
  rewrite !(W64 (DS + (S + P + iv_size + iv_size + 8 + 4))) by lia.
  rewrite Halign.
  split; [split; [lia|exact StartM]|].
  split; [reflexivity|].
  split; [split; [lia|now apply round_up_multiple]|].
  split; [repeat split|].
  split; [lia|].
  split; [intro L; rewrite (PE L); lia|].
  rewrite (W64 (sizeof_dm_crypt_io e + DS + _)) by lia.
  rewrite Hkmin.
  rewrite (ALIGN_pow2 64 a) by
    (repeat split; try lia; apply pow2_le_exp; lia).
  pose proof (Z.mod_pos_bound
                (- (sizeof_dm_crypt_io e + DS
                    + (S + P + iv_size + iv_size + 8 + 4))) (2 ^ a) Pa) as Ba.
  rewrite W32 by lia. lia.
Qed.

(** Sizes as on a 64-bit machine with 128-byte kmalloc alignment, and a
    transform that asks for 16-byte alignment. *)
Definition sizes_64 : sizes :=
  {| sizeof_request := 80; reqsize := 20; alignmask := 15;
     sizeof_dm_crypt_request := 276; alignof_dm_crypt_request := 8;
     CRYPTO_MINALIGN := 128; sizeof_dm_crypt_io := 200;
     ARCH_KMALLOC_MINALIGN := 128 |}.

Lemma request_fields_lie_inside_the_request_witness :
  iv_of_dmreq sizes_64 (dmreq_of_req sizes_64 4096) = 4480
  /\ org_tag_of_dmreq sizes_64 16 (dmreq_of_req sizes_64 4096) + 4
     = 4096 + req_pool_size sizes_64 16.
Proof.
  split; [reflexivity|].
  refine (proj1 (proj2 (proj2 (proj2 (proj2 (proj2
            (request_fields_lie_inside_the_request sizes_64 16 4096 4 7 3 7
               _ eq_refl _ eq_refl _ eq_refl _ eq_refl _ _ _ _ _ _)))))) _);
    try (cbn; lia); try (vm_compute; intuition congruence).
Defined.

(** ** Buffers for the encrypted copy of a write *)

(** What [crypt_alloc_buffer] does to the allocators and to
    [cc->bio_alloc_lock]. *)
Inductive event :=
| Lock | Unlock            (* mutex_lock, mutex_unlock of bio_alloc_lock *)
| BioAlloc | BioPut        (* a bio obtained from the bio set, bio_put *)
| PageAlloc | PageFree.    (* a page obtained from, returned to the page pool *)

Definition event_eqb (a b : event) : bool :=
  match a, b with
  | Lock, Lock | Unlock, Unlock | BioAlloc, BioAlloc | BioPut, BioPut
  | PageAlloc, PageAlloc | PageFree, PageFree => true
  | _, _ => false
  end.

Definition count (x : event) (tr : list event) : nat :=
  length (filter (event_eqb x) tr).

(** Answers of the allocators. A [mempool_alloc] that may block
    ([__GFP_DIRECT_RECLAIM]) does not fail; the others may. *)
Record alloc_env := {
  bio_alloc_ok : bool -> bool;   (* bio_alloc_bioset in the pass that may not
                                    block (false) and in the one that may *)
  page_alloc_ok : nat -> bool;   (* mempool_alloc(GFP_NOWAIT) of page i *)
  bip_alloc_err : option positive;
                                 (* bio_integrity_alloc: IS_ERR with this errno *)
  integrity_add_page_ret : Z     (* bio_integrity_add_page *)
}.

(** The bytes of a bio: the sum of its segments' lengths. *)
Definition list_sum_Z (l : list Z) : Z := fold_right Z.add 0 l.

Section Buffer.

Variable K : Map.blk_consts.
Variable on_disk_tag_size : Z.   (* cc->on_disk_tag_size *)

Definition PAGE_SIZE : Z := Map.PAGE_SIZE K.

(** [dm_crypt_integrity_io_alloc] on a bio of [bi_size] bytes. *)
Definition dm_crypt_integrity_io_alloc (env : alloc_env) (bi_size : Z) : Z :=
  let bio_sectors := Z.shiftr bi_size 9 in
  if (bio_sectors =? 0) || (on_disk_tag_size =? 0) then 0
  else
    match bip_alloc_err env with
    | Some errno => Z.neg errno
    | None =>
        let tag_len := wrap32 (on_disk_tag_size * bio_sectors) in
        if negb (integrity_add_page_ret env =? tag_len) then - ENOMEM else 0
    end.

(** The page loop: [n] pages still to add, page [i] next. Returns whether
    every page was obtained, and the segments added. *)
Fixpoint fill_pages (ok : nat -> bool) (n i : nat) (remaining_size : Z)
    (segs : list Z) : bool * list Z :=
  match n with
  | O => (true, segs)
  | S n' =>
      if ok i then
        let len := if PAGE_SIZE <? remaining_size then PAGE_SIZE
                   else remaining_size in
        fill_pages ok n' (S i) (wrap32 (remaining_size - len)) (segs ++ [len])
      else (false, segs)
  end.

Definition nr_iovecs (size : Z) : Z :=
  wrap32 (Z.shiftr (wrap64 (size + PAGE_SIZE - 1)) (Map.PAGE_SHIFT K)).

(** One pass from [retry] on: the clone's segments ([None] for a NULL
    return) when the pass reaches [out], [None] when it goes back to
    [retry]; and what it did. *)
Definition alloc_pass (env : alloc_env) (blocking : bool) (size : Z)
  : option (option (list Z)) * list event :=
  let lock := if blocking then [Lock] else [] in
  let unlock := if blocking then [Unlock] else [] in
  if negb (bio_alloc_ok env blocking) then (Some None, lock ++ unlock)
  else
    let '(ok, segs) :=
      fill_pages (if blocking then fun _ => true else page_alloc_ok env)
        (Z.to_nat (nr_iovecs size)) 0 size [] in
    let allocs := repeat PageAlloc (length segs) in
    let frees := repeat PageFree (length segs) in
    if negb ok then (None, lock ++ BioAlloc :: allocs ++ frees ++ [BioPut])
    else if negb (dm_crypt_integrity_io_alloc env (wrap32 (list_sum_Z segs)) =? 0)
    then (Some None, lock ++ BioAlloc :: allocs ++ frees ++ [BioPut] ++ unlock)
    else (Some (Some segs), lock ++ BioAlloc :: allocs ++ unlock).

(** [crypt_alloc_buffer]: passes until one reaches [out]; after the first
    pass the allocations may block. [None] when [fuel] passes do not
    suffice. *)
Fixpoint crypt_alloc_buffer_from (fuel : nat) (env : alloc_env)
    (blocking : bool) (size : Z) : option (option (list Z) * list event) :=
  match fuel with
  | O => None
  | S fuel' =>
      match alloc_pass env blocking size with
      | (Some clone, tr) => Some (clone, tr)
      | (None, tr) =>
          match crypt_alloc_buffer_from fuel' env true size with
          | Some (clone, tr') => Some (clone, tr ++ tr')
          | None => None
          end
      end
  end.

Definition crypt_alloc_buffer (fuel : nat) (env : alloc_env) (size : Z)
  : option (option (list Z) * list event) :=
  crypt_alloc_buffer_from fuel env false size.

End Buffer.

Lemma count_event_nil x : count x [] = 0%nat.
Proof. reflexivity. Qed.

Lemma count_event_app x a b : count x (a ++ b) = (count x a + count x b)%nat.
Proof. unfold count. now rewrite filter_app, length_app. Qed.

Lemma count_event_cons x y l :
  count x (y :: l) = ((if event_eqb x y then 1 else 0) + count x l)%nat.
Proof. unfold count. cbn [filter]. now destruct (event_eqb x y). Qed.

Lemma count_event_repeat x y n :
  count x (repeat y n) = if event_eqb x y then n else 0%nat.
Proof.
  induction n as [|n IH]; cbn [repeat].
  - now destruct (event_eqb x y).
  - rewrite count_event_cons, IH. now destruct (event_eqb x y).
Qed.

Ltac count_events :=
  repeat first [rewrite count_event_app | rewrite count_event_cons | rewrite count_event_repeat
               | rewrite count_event_nil];
  cbn [event_eqb].

Section BufferProps.

Variable K : Map.blk_consts.
Variable on_disk_tag_size : Z.
Hypothesis Hshift : 0 <= Map.PAGE_SHIFT K < 32.

Let PS := PAGE_SIZE K.

Lemma PAGE_SIZE_pow : PS = 2 ^ Map.PAGE_SHIFT K.
Proof.
  unfold PS, PAGE_SIZE, Map.PAGE_SIZE. rewrite Z.shiftl_mul_pow2 by lia. lia.
Qed.

Lemma PAGE_SIZE_bounds : 0 < PS < 2 ^ 32.
Proof.
  rewrite PAGE_SIZE_pow. split; [apply Z.pow_pos_nonneg; lia|].
  apply Z.pow_lt_mono_r; lia.
Qed.

(** [n] pages are what [r] bytes need. *)
Definition covers (n : nat) (r : Z) : Prop :=
  (n = 0%nat /\ r = 0)
  \/ ((0 < n)%nat /\ (Z.of_nat n - 1) * PS < r <= Z.of_nat n * PS).

Lemma fill_pages_success (ok : nat -> bool) (n : nat) : forall i r segs out,
  covers n r -> r < 2 ^ 32 ->
  fill_pages K ok n i r segs = (true, out) ->
  exists new,
    out = segs ++ new /\ length new = n /\ list_sum_Z new = r
    /\ Forall (fun l => 0 < l <= PS) new.
Proof.
  pose proof PAGE_SIZE_bounds as B.
  induction n as [|n IH]; intros i r segs out C R F; cbn [fill_pages] in F.
  - injection F as <-. destruct C as [[_ ->]|[C _]]; [|lia].
    exists []. rewrite app_nil_r. repeat split. constructor.
  - destruct C as [[C _]|[_ C]]; [discriminate|].
    destruct (ok i); [|discriminate]. cbv zeta in F. fold PS in F.
    set (len := if PS <? r then PS else r) in *.
    assert (L : 0 < len <= PS /\ covers n (r - len)).
    { unfold len, covers. destruct (Z.ltb_spec PS r) as [G|G].
      - split; [lia|]. right. destruct n as [|n]; [lia|]. split; lia.
      - split; [nia|]. left. split; [|lia].
        destruct n as [|n]; [reflexivity|]. nia. }
    destruct L as [L1 L2].
    assert (R' : 0 <= r - len < 2 ^ 32).
    { destruct L2 as [[_ E]|[Np E]]; [lia|].
      assert (0 <= (Z.of_nat n - 1) * PS) by (apply Z.mul_nonneg_nonneg; lia).
      lia. }
    unfold wrap32 in F. rewrite Z.mod_small in F by lia.
    destruct (IH _ _ _ _ L2 ltac:(lia) F) as [new [E1 [E2 [E3 E4]]]].
    exists (len :: new). rewrite <- app_assoc in E1. cbn [app] in E1.
    split; [exact E1|]. split; [cbn; now rewrite E2|].
    split; [cbn; unfold list_sum_Z in E3; lia|].
    constructor; assumption.
Qed.

Lemma fill_pages_blocking (n : nat) : forall i r segs,
  fst (fill_pages K (fun _ => true) n i r segs) = true.
Proof. induction n as [|n IH]; intros; cbn [fill_pages]; [reflexivity|apply IH]. Qed.

Lemma fill_pages_failure (ok : nat -> bool) (n : nat) : forall i r segs out,
  fill_pages K ok n i r segs = (false, out) -> exists j, ok j = false.
Proof.
  induction n as [|n IH]; intros i r segs out F; cbn [fill_pages] in F;
    [discriminate|].
  destruct (ok i) eqn:E; [|now exists i]. now apply IH in F.
Qed.

Lemma nr_iovecs_covers (size : Z) :
  0 <= size < 2 ^ 32 -> covers (Z.to_nat (nr_iovecs K size)) size
                        /\ 0 <= nr_iovecs K size.
Proof.
  intro H. pose proof PAGE_SIZE_bounds as B. unfold nr_iovecs. fold PS.
  assert (W : 2 ^ 32 + 2 ^ 32 < 2 ^ 64) by (vm_compute; reflexivity).
  unfold wrap64. rewrite (Z.mod_small (size + PS - 1)) by lia.
  rewrite Z.shiftr_div_pow2 by lia. rewrite <- PAGE_SIZE_pow.
  pose proof (Z.div_mod (size + PS - 1) PS ltac:(lia)) as D.
  pose proof (Z.mod_pos_bound (size + PS - 1) PS ltac:(lia)) as M.
  set (q := (size + PS - 1) / PS) in *.
  assert (Q : 0 <= q) by (apply Z.div_pos; lia).
  assert (Q32 : q < 2 ^ 32) by nia.
  unfold wrap32. rewrite Z.mod_small by lia. split; [|exact Q].
  unfold covers. destruct (Z.eq_dec size 0) as [->|N].
  - left. split; [|reflexivity]. assert (q = 0) by nia. subst q. now rewrite H0.
  - right. assert (0 < q) by nia. split; [lia|].
    rewrite Z2Nat.id by lia. nia.
Qed.

(** One pass: it goes back to [retry] only when it may not block, having
    returned every page and the bio; otherwise it leaves the mutex as it
    found it and either hands out a bio whose segments make up [size]
    bytes, or nothing at all. *)
Lemma alloc_pass_spec (env : alloc_env) (blocking : bool) (size : Z) :
  0 <= size < 2 ^ 32 ->
  let '(res, tr) := alloc_pass K on_disk_tag_size env blocking size in
  count PageAlloc tr
  = (count PageFree tr
     + match res with Some (Some segs) => length segs | _ => 0 end)%nat
  /\ count BioAlloc tr
     = (count BioPut tr + match res with Some (Some _) => 1 | _ => 0 end)%nat
  /\ match res with
     | None => blocking = false /\ count Lock tr = 0%nat /\ count Unlock tr = 0%nat
               /\ bio_alloc_ok env false = true
               /\ exists i, page_alloc_ok env i = false
     | Some clone =>
         count Lock tr = (if blocking then 1 else 0)%nat
         /\ count Unlock tr = (if blocking then 1 else 0)%nat
         /\ match clone with
            | Some segs =>
                Z.of_nat (length segs) = nr_iovecs K size
                /\ list_sum_Z segs = size
                /\ Forall (fun l => 0 < l <= PS) segs
                /\ bio_alloc_ok env blocking = true
                /\ dm_crypt_integrity_io_alloc on_disk_tag_size env size = 0
            | None =>
                bio_alloc_ok env blocking = false
                \/ dm_crypt_integrity_io_alloc on_disk_tag_size env size <> 0
            end
     end.
Proof.
  intro H. destruct (nr_iovecs_covers size H) as [C N0].
  unfold alloc_pass. cbv zeta.
  destruct (bio_alloc_ok env blocking) eqn:Bio; cbn [negb].
  2:{ destruct blocking; count_events; repeat split; auto. }
  destruct (fill_pages K _ _ 0 size []) as [ok segs] eqn:F.
  destruct ok; cbn [negb].
  - destruct (fill_pages_success _ _ _ _ _ _ C (proj2 H) F)
      as [new [E1 [E2 [E3 E4]]]].
    cbn [app] in E1. subst segs.
    assert (Sz : wrap32 (list_sum_Z new) = size)
      by (rewrite E3; apply Z.mod_small; lia).
    rewrite Sz.
    destruct (Z.eqb_spec (dm_crypt_integrity_io_alloc on_disk_tag_size env size) 0)
      as [I|I]; cbn [negb].
    + destruct blocking; count_events; repeat split; auto; try lia.
    + destruct blocking; count_events; repeat split; auto; lia.
  - destruct blocking.
    + pose proof (fill_pages_blocking (Z.to_nat (nr_iovecs K size)) 0 size []) as T.
      rewrite F in T. discriminate T.
    + count_events. repeat split; auto; try lia.
      now apply fill_pages_failure in F.
Qed.

End BufferProps.

(** X23. [crypt_alloc_buffer] returns after at most two passes (the second
    may block, and then the page pool does not fail). The mutex is taken
    only in the second pass, that is only after a page allocation that may
    not block has failed, and is released as often as it is taken.
    A bio that is handed out has [nr_iovecs] segments, each of at most a
    page and none empty, that add up to exactly [size] bytes, and holds one
    page of the pool per segment; when NULL is returned, and for everything
    an abandoned pass had obtained, every page and bio has been given
    back. *)
Theorem crypt_alloc_buffer_accounts_for_its_pages
    (K : Map.blk_consts) (on_disk_tag_size : Z) (env : alloc_env)
    (size : Z) (fuel : nat)
    (Hshift : 0 <= Map.PAGE_SHIFT K < 32)
    (Hsize : 0 <= size < 2 ^ 32)
    (Hfuel : (2 <= fuel)%nat) :
  exists clone tr,
    crypt_alloc_buffer K on_disk_tag_size fuel env size = Some (clone, tr)
    /\ count Lock tr = count Unlock tr
    /\ (count Lock tr <= 1)%nat
    /\ (count Lock tr = 1%nat -> exists i, page_alloc_ok env i = false)
    /\ match clone with
       | Some segs =>
           Z.of_nat (length segs) = nr_iovecs K size
           /\ list_sum_Z segs = size
           /\ Forall (fun l => 0 < l <= PAGE_SIZE K) segs
           /\ count PageAlloc tr = (count PageFree tr + length segs)%nat
           /\ count BioAlloc tr = (count BioPut tr + 1)%nat
       | None =>
           count PageAlloc tr = count PageFree tr
           /\ count BioAlloc tr = count BioPut tr
       end.
Proof.
  destruct fuel as [|[|fuel]]; try lia.
  unfold crypt_alloc_buffer. cbn [crypt_alloc_buffer_from].
  pose proof (alloc_pass_spec K on_disk_tag_size Hshift env false size Hsize) as P1.
  pose proof (alloc_pass_spec K on_disk_tag_size Hshift env true size Hsize) as P2.
  destruct (alloc_pass K on_disk_tag_size env false size) as [[clone|] tr1].
  - destruct P1 as [A [B [L [U C]]]].
    exists clone, tr1. split; [reflexivity|]. rewrite L, U.
    split; [reflexivity|]. split; [lia|]. split; [discriminate|].
    destruct clone as [segs|].
    + destruct C as [C1 [C2 [C3 _]]]. repeat split; auto.
    + split; lia.
  - destruct P1 as [A [B [_ [L [U [_ Fail]]]]]].
    destruct (alloc_pass K on_disk_tag_size env true size) as [[clone|] tr2].
    + destruct P2 as [A2 [B2 [L2 [U2 C]]]].
      exists clone, (tr1 ++ tr2). split; [reflexivity|].
      rewrite !count_event_app, L, U, L2, U2.
      split; [reflexivity|]. split; [cbn; lia|]. split; [intros _; exact Fail|].
      destruct clone as [segs|].
      * destruct C as [C1 [C2 [C3 _]]]. repeat split; auto; lia.
      * split; lia.
    + destruct P2 as [_ [_ [F _]]]. discriminate F.
Qed.

(** A ten-thousand-byte write whose second page cannot be had without
    blocking. *)
Definition second_page_fails : alloc_env :=
  {| bio_alloc_ok := fun _ => true;
     page_alloc_ok := fun i => negb (Nat.eqb i 1);
     bip_alloc_err := None;
     integrity_add_page_ret := 0 |}.

Lemma crypt_alloc_buffer_accounts_for_its_pages_witness :
  exists tr,
    crypt_alloc_buffer Map.linux_4_14 0 2 second_page_fails 10000
    = Some (Some [4096; 4096; 1808], tr)
    /\ count Lock tr = 1%nat /\ count Unlock tr = 1%nat
    /\ count PageAlloc tr = 4%nat /\ count PageFree tr = 1%nat.
Proof.
  destruct (crypt_alloc_buffer_accounts_for_its_pages Map.linux_4_14 0
              second_page_fails 10000 2 ltac:(cbn; lia) ltac:(lia) (le_n 2))
    as [clone [tr [E _]]].
  exists tr. vm_compute in E. injection E as <- <-.
  repeat split.
Defined.

(** ** The optional feature arguments *)

Import Ascii.

(** Bits of [cc->flags] and of [cc->cipher_flags]. *)
Definition DM_CRYPT_SAME_CPU : Z := 2.
Definition DM_CRYPT_NO_OFFLOAD : Z := 3.
Definition CRYPT_MODE_INTEGRITY_AEAD : Z := 0.
Definition CRYPT_IV_LARGE_SECTORS : Z := 1.

Definition SECTOR_SHIFT : Z := 9.

(** What [crypt_ctr_optional] writes of the target and of the
    configuration. *)
Record opt_state := {
  num_discard_bios : Z;
  flags : Z;
  cipher_flags : Z;
  on_disk_tag_size : Z;
  cipher_auth : option Key.string;
  sector_size : Z;               (* unsigned short *)
  sector_shift : Z               (* unsigned char *)
}.

(** Modelled from the spec: the kernel's [sscanf] on the three formats used
    here. A literal of the format must match character by character; [%u]
    and [%hu] skip white space, need a decimal digit and read all the
    digits, the value being cut to the width of the destination; [%c]
    takes one more character if there is one, so that the count is 1 only
    when the string ends after the number. *)
Fixpoint strip_prefix (p s : Key.string) : option Key.string :=
  match p with
  | String.EmptyString => Some s
  | String.String c p' =>
      match s with
      | String.String d s' => if Ascii.eqb c d then strip_prefix p' s' else None
      | String.EmptyString => None
      end
  end.

Definition scan_uint (s : Key.string) : option (Z * Key.string) :=
  Key.scan_digits (Key.skip_spaces s) 0 false.

(** [sscanf(s, "%u%c", &v, &dummy) == 1], with [v]. *)
Definition sscanf_uint (s : Key.string) : option Z :=
  match scan_uint s with
  | Some (n, String.EmptyString) => Some (wrap32 n)
  | _ => None
  end.

(** [sscanf(s, "integrity:%u:", &val) == 1], with [val]. *)
Definition sscanf_integrity (s : Key.string) : option Z :=
  match strip_prefix "integrity:"%string s with
  | Some r =>
      match scan_uint r with
      | Some (n, _) => Some (wrap32 n)
      | None => None
      end
  | None => None
  end.

(** [sscanf(s, "sector_size:%hu%c", &cc->sector_size, &dummy)]: the value
    stored in [cc->sector_size], if one is, and whether the count is 1. *)
Definition sscanf_sector_size (s : Key.string) : option Z * bool :=
  match strip_prefix "sector_size:"%string s with
  | Some r =>
      match scan_uint r with
      | Some (n, String.EmptyString) => (Some (Map.wrap16 n), true)
      | Some (n, _) => (Some (Map.wrap16 n), false)
      | None => (None, false)
      end
  | None => (None, false)
  end.

(** [strchr(s, ':') + 1]. *)
Fixpoint after_colon (s : Key.string) : option Key.string :=
  match s with
  | String.EmptyString => None
  | String.String c s' => if Ascii.eqb c ":"%char then Some s' else after_colon s'
  end.

(** [__ffs]: the index of the lowest bit set. *)
Definition ffs (x : Z) : Z := Z.log2 (Z.land x (- x)).

Definition with_sector_size (st : opt_state) (v : Z) : opt_state :=
  {| num_discard_bios := num_discard_bios st; flags := flags st;
     cipher_flags := cipher_flags st; on_disk_tag_size := on_disk_tag_size st;
     cipher_auth := cipher_auth st; sector_size := v;
     sector_shift := sector_shift st |}.

Definition with_sector_shift (st : opt_state) (v : Z) : opt_state :=
  {| num_discard_bios := num_discard_bios st; flags := flags st;
     cipher_flags := cipher_flags st; on_disk_tag_size := on_disk_tag_size st;
     cipher_auth := cipher_auth st; sector_size := sector_size st;
     sector_shift := v |}.

Definition with_opt_flags (st : opt_state) (v : Z) : opt_state :=
  {| num_discard_bios := num_discard_bios st; flags := v;
     cipher_flags := cipher_flags st; on_disk_tag_size := on_disk_tag_size st;
     cipher_auth := cipher_auth st; sector_size := sector_size st;
     sector_shift := sector_shift st |}.

Definition with_cipher_flags (st : opt_state) (v : Z) : opt_state :=
  {| num_discard_bios := num_discard_bios st; flags := flags st;
     cipher_flags := v; on_disk_tag_size := on_disk_tag_size st;
     cipher_auth := cipher_auth st; sector_size := sector_size st;
     sector_shift := sector_shift st |}.

Definition with_tag_size (st : opt_state) (v : Z) : opt_state :=
  {| num_discard_bios := num_discard_bios st; flags := flags st;
     cipher_flags := cipher_flags st; on_disk_tag_size := v;
     cipher_auth := cipher_auth st; sector_size := sector_size st;
     sector_shift := sector_shift st |}.

Definition with_cipher_auth (st : opt_state) (v : option Key.string) : opt_state :=
  {| num_discard_bios := num_discard_bios st; flags := flags st;
     cipher_flags := cipher_flags st; on_disk_tag_size := on_disk_tag_size st;
     cipher_auth := v; sector_size := sector_size st;
     sector_shift := sector_shift st |}.

Definition with_discards (st : opt_state) (v : Z) : opt_state :=
  {| num_discard_bios := v; flags := flags st;
     cipher_flags := cipher_flags st; on_disk_tag_size := on_disk_tag_size st;
     cipher_auth := cipher_auth st; sector_size := sector_size st;
     sector_shift := sector_shift st |}.

Section Optional.

Variable ti_len : Z.             (* ti->len, in 512-byte sectors *)
Variable kstrdup_ok : bool.

(** The body of the loop for one feature argument: the value returned if
    it returns (with [ti->error] if it is set), and the state. [None]: the
    argument makes the function dereference an invalid pointer. *)
Definition feature_arg (st : opt_state) (opt_string : Key.string)
  : option (option (Z * option Key.string) * opt_state) :=
  if Key.strcasecmp_eq opt_string "allow_discards"%string then
    Some (None, with_discards st 1)
  else if Key.strcasecmp_eq opt_string "same_cpu_crypt"%string then
    Some (None, with_opt_flags st (Key.set_bit DM_CRYPT_SAME_CPU (flags st)))
  else if Key.strcasecmp_eq opt_string "submit_from_crypt_cpus"%string then
    Some (None, with_opt_flags st (Key.set_bit DM_CRYPT_NO_OFFLOAD (flags st)))
  else
    match sscanf_integrity opt_string with
    | Some val =>
        if (val =? 0) || (Map.MAX_TAG_SIZE <? val) then
          Some (Some (- EINVAL, Some "Invalid integrity arguments"%string), st)
        else
          let st1 := with_tag_size st val in
          match after_colon (Key.drop 10 opt_string) with
          | None => None
          | Some sval =>
              if Key.strcasecmp_eq sval "aead"%string then
                let st2 := with_cipher_flags st1
                             (Key.set_bit CRYPT_MODE_INTEGRITY_AEAD
                                (cipher_flags st1)) in
                if kstrdup_ok then Some (None, with_cipher_auth st2 (Some sval))
                else Some (Some (- ENOMEM, None), with_cipher_auth st2 None)
              else if negb (Key.strcasecmp_eq sval "none"%string) then
                Some (Some (- EINVAL, Some "Unknown integrity profile"%string), st1)
              else if kstrdup_ok then Some (None, with_cipher_auth st1 (Some sval))
              else Some (Some (- ENOMEM, None), with_cipher_auth st1 None)
          end
    | None =>
        let '(stored, one) := sscanf_sector_size opt_string in
        let st1 := match stored with
                   | Some v => with_sector_size st v
                   | None => st
                   end in
        if one then
          if (sector_size st1 <? Z.shiftl 1 SECTOR_SHIFT)
             || (4096 <? sector_size st1)
             || negb (Z.land (sector_size st1) (sector_size st1 - 1) =? 0) then
            Some (Some (- EINVAL,
                        Some "Invalid feature value for sector_size"%string), st1)
          else if negb (Z.land ti_len
                          (Z.shiftr (sector_size st1) SECTOR_SHIFT - 1) =? 0) then
            Some (Some (- EINVAL,
                        Some "Device size is not multiple of sector_size feature"%string),
                  st1)
          else
            Some (None,
                  with_sector_shift st1
                    ((ffs (sector_size st1) - SECTOR_SHIFT) mod 2 ^ 8))
        else if Key.strcasecmp_eq opt_string "iv_large_sectors"%string then
          Some (None, with_cipher_flags st1
                        (Key.set_bit CRYPT_IV_LARGE_SECTORS (cipher_flags st1)))
        else Some (Some (- EINVAL, Some "Invalid feature arguments"%string), st1)
    end.

(** [while (opt_params--)]. *)
Fixpoint feature_loop (opt_params : nat) (argv : list Key.string)
    (st : opt_state) : option (Z * option Key.string * opt_state) :=
  match opt_params with
  | O => Some (0, None, st)
  | S n =>
      match argv with
      | [] => Some (- EINVAL, Some "Not enough feature arguments"%string, st)
      | opt_string :: rest =>
          match feature_arg st opt_string with
          | None => None
          | Some (Some (r, err), st') => Some (r, err, st')
          | Some (None, st') => feature_loop n rest st'
          end
      end
  end.

(** Modelled from the spec: [dm_read_arg_group] of dm-table.c takes the
    next argument as the number of arguments of the group, which must lie
    within the bounds given (0 and 6) and not exceed what is left. *)
Definition dm_read_arg_group (argv : list Key.string)
  : option (Z * list Key.string) :=
  match argv with
  | [] => None
  | a :: rest =>
      match sscanf_uint a with
      | Some v =>
          if (v <? 0) || (6 <? v) || (Z.of_nat (length rest) <? v) then None
          else Some (v, rest)
      | None => None
      end
  end.

Definition crypt_ctr_optional (st : opt_state) (argv : list Key.string)
  : option (Z * option Key.string * opt_state) :=
  match dm_read_arg_group argv with
  | None => Some (- EINVAL, Some "Invalid number of feature args"%string, st)
  | Some (opt_params, rest) => feature_loop (Z.to_nat opt_params) rest st
  end.

End Optional.

(** The state [crypt_ctr] calls [crypt_ctr_optional] in: the configuration
    is zeroed but for the sector size of 512 bytes. *)
Definition initial_opt_state : opt_state :=
  {| num_discard_bios := 0; flags := 0; cipher_flags := 0;
     on_disk_tag_size := 0; cipher_auth := None;
     sector_size := Z.shiftl 1 SECTOR_SHIFT; sector_shift := 0 |}.

(** What the rest of the target relies on. *)
Definition features_valid (ti_len : Z) (st : opt_state) : Prop :=
  (sector_size st = 512 \/ sector_size st = 1024 \/ sector_size st = 2048
   \/ sector_size st = 4096)
  /\ sector_size st = 2 ^ (SECTOR_SHIFT + sector_shift st)
  /\ 0 <= sector_shift st <= 3
  /\ Z.land ti_len (Z.shiftr (sector_size st) SECTOR_SHIFT - 1) = 0
  /\ 0 <= on_disk_tag_size st <= Map.MAX_TAG_SIZE
  /\ (Key.test_bit CRYPT_MODE_INTEGRITY_AEAD (cipher_flags st) = true ->
      0 < on_disk_tag_size st)
  /\ (cipher_auth st <> None -> 0 < on_disk_tag_size st).

Lemma power_of_two_sector (v : Z) :
  512 <= v <= 4096 -> Z.land v (v - 1) = 0 ->
  v = 512 \/ v = 1024 \/ v = 2048 \/ v = 4096.
Proof.
  intros R L.
  assert (A : forallb
                (fun n => let x := 512 + Z.of_nat n in
                          negb (Z.land x (x - 1) =? 0)
                          || (x =? 512) || (x =? 1024) || (x =? 2048)
                          || (x =? 4096))
                (seq 0 3585) = true) by (vm_compute; reflexivity).
  rewrite forallb_forall in A.
  specialize (A (Z.to_nat (v - 512))).
  rewrite in_seq in A. specialize (A ltac:(lia)). cbv zeta in A.
  replace (512 + Z.of_nat (Z.to_nat (v - 512))) with v in A by lia.
  rewrite L in A. cbn [Z.eqb negb orb] in A.
  repeat (apply orb_prop in A as [A|A]); apply Z.eqb_eq in A; auto.
Qed.

Lemma sector_size_prefix_differs (s r : Key.string) :
  strip_prefix "sector_size:"%string s = Some r ->
  Key.strcasecmp_eq s "iv_large_sectors"%string = false.
Proof.
  destruct s as [|c s]; cbn [strip_prefix]; [discriminate|].
  destruct (Ascii.eqb_spec "s"%char c) as [<-|]; [|discriminate].
  intros _. reflexivity.
Qed.

Ltac opt_fields :=
  cbn [num_discard_bios flags cipher_flags on_disk_tag_size cipher_auth
       sector_size sector_shift with_sector_size with_sector_shift
       with_opt_flags with_cipher_flags with_tag_size with_cipher_auth
       with_discards].

(** One feature argument that does not end the function keeps the features
    valid. *)
Lemma feature_arg_keeps_valid (ti_len : Z) (kstrdup_ok : bool)
    (st st' : opt_state) (opt_string : Key.string) :
  features_valid ti_len st ->
  feature_arg ti_len kstrdup_ok st opt_string = Some (None, st') ->
  features_valid ti_len st'.
Proof.
  intros V. unfold feature_arg.
  destruct (Key.strcasecmp_eq opt_string "allow_discards"%string);
    [intro H; injection H as <-; exact V|].
  destruct (Key.strcasecmp_eq opt_string "same_cpu_crypt"%string);
    [intro H; injection H as <-; exact V|].
  destruct (Key.strcasecmp_eq opt_string "submit_from_crypt_cpus"%string);
    [intro H; injection H as <-; exact V|].
  destruct V as [V1 [V2 [V3 [V4 [V5 [V6 V7]]]]]].
  destruct (sscanf_integrity opt_string) as [val|] eqn:I.
  - assert (P : 0 <= val).
    { unfold sscanf_integrity in I.
      destruct (strip_prefix _ _); [|discriminate].
      destruct (scan_uint _) as [[n r]|]; [|discriminate].
      injection I as <-. apply Z.mod_pos_bound. lia. }
    destruct (Z.eqb_spec val 0) as [Z0|NZ]; cbn [orb]; [discriminate|].
    destruct (Z.ltb_spec Map.MAX_TAG_SIZE val) as [G|G]; [discriminate|].
    destruct (after_colon _) as [sval|]; [|discriminate].
    destruct (Key.strcasecmp_eq sval "aead"%string).
    + destruct kstrdup_ok; [|discriminate]. intro H. injection H as <-.
      unfold features_valid. opt_fields. repeat split; auto; lia.
    + destruct (negb _); [discriminate|].
      destruct kstrdup_ok; [|discriminate]. intro H. injection H as <-.
      unfold features_valid. opt_fields. repeat split; auto; lia.
  - unfold sscanf_sector_size.
    destruct (strip_prefix "sector_size:"%string opt_string) as [r|] eqn:Pre.
    + pose proof (sector_size_prefix_differs _ _ Pre) as NotIv.
      destruct (scan_uint r) as [[n rest]|].
      * destruct rest as [|c rest]; cbv beta iota zeta;
          cbn [sector_size with_sector_size].
        -- set (v := Map.wrap16 n).
           destruct (Z.ltb_spec v (Z.shiftl 1 SECTOR_SHIFT)) as [A|A];
             cbn [orb]; [discriminate|].
           destruct (Z.ltb_spec 4096 v) as [B|B]; cbn [orb]; [discriminate|].
           destruct (Z.eqb_spec (Z.land v (v - 1)) 0) as [C|C]; cbn [negb];
             [|discriminate].
           destruct (Z.eqb_spec (Z.land ti_len (Z.shiftr v SECTOR_SHIFT - 1)) 0)
             as [D|D]; cbn [negb]; [|discriminate].
           intro H. injection H as <-.
           change (Z.shiftl 1 SECTOR_SHIFT) with 512 in A.
           destruct (power_of_two_sector v ltac:(lia) C) as [E|[E|[E|E]]];
             unfold features_valid; opt_fields; rewrite E in *;
             repeat split; auto; try lia; try (vm_compute; congruence).
        -- rewrite NotIv. discriminate.
      * cbv beta iota zeta. rewrite NotIv. discriminate.
    + cbv beta iota zeta.
      destruct (Key.strcasecmp_eq opt_string "iv_large_sectors"%string);
        [|discriminate].
      intro H. injection H as <-.
      unfold features_valid. opt_fields. repeat split; auto; try lia.
      intro B. apply V6. rewrite <- B. symmetry.
      apply Key.test_set_other; unfold CRYPT_IV_LARGE_SECTORS,
        CRYPT_MODE_INTEGRITY_AEAD; lia.
Qed.

Lemma feature_loop_keeps_valid (ti_len : Z) (kstrdup_ok : bool) (n : nat) :
  forall argv st err st',
    features_valid ti_len st ->
    feature_loop ti_len kstrdup_ok n argv st = Some (0, err, st') ->
    features_valid ti_len st'.
Proof.
  induction n as [|n IH]; intros argv st err st' V; cbn [feature_loop].
  - intro H. injection H as <- <-. exact V.
  - destruct argv as [|a rest]; [discriminate|].
    destruct (feature_arg ti_len kstrdup_ok st a) as [[[[r e]|] st1]|] eqn:F;
      [| |discriminate].
    + intro H. injection H as -> <- <-.
      exfalso. revert F. clear. unfold feature_arg.
      repeat match goal with
             | |- context [if ?b then _ else _] => destruct b
             | |- context [match ?x with _ => _ end] => destruct x
             end; intro H; try discriminate H.
    + intro H. apply (IH _ _ _ _ (feature_arg_keeps_valid _ _ _ _ _ V F) H).
Qed.

Lemma initial_features_valid (ti_len : Z) :
  features_valid ti_len initial_opt_state.
Proof.
  unfold features_valid, initial_opt_state. opt_fields.
  repeat split; auto; try (vm_compute; congruence).
  change (Z.shiftr (Z.shiftl 1 SECTOR_SHIFT) SECTOR_SHIFT - 1) with 0.
  apply Z.land_0_r.
Qed.

(** X24. When [crypt_ctr_optional], called as [crypt_ctr] calls it, returns
    0, the sector size is one of 512, 1024, 2048 and 4096 bytes,
    [sector_shift] is its logarithm less nine, the target's length is a
    multiple of the sector size, the tag size is at most 480 bytes, and
    the authenticated mode and the integrity profile are set only together
    with a tag size that is not zero. *)
Theorem crypt_ctr_optional_leaves_valid_features
    (ti_len : Z) (kstrdup_ok : bool) (argv : list Key.string)
    (err : option Key.string) (st : opt_state)
    (Hok : crypt_ctr_optional ti_len kstrdup_ok initial_opt_state argv
           = Some (0, err, st)) :
  features_valid ti_len st.
Proof.
  unfold crypt_ctr_optional in Hok.
  destruct (dm_read_arg_group argv) as [[n rest]|]; [|discriminate].
  apply (feature_loop_keeps_valid _ _ _ _ _ _ _ (initial_features_valid _) Hok).
Qed.

(** A table line with three feature arguments on a target of 2048
    sectors. *)
Definition demo_features : opt_state :=
  {| num_discard_bios := 1; flags := 0; cipher_flags := 1;
     on_disk_tag_size := 32; cipher_auth := Some "aead"%string;
     sector_size := 4096; sector_shift := 3 |}.

Lemma crypt_ctr_optional_leaves_valid_features_witness :
  crypt_ctr_optional 2048 true initial_opt_state
    ["3"; "allow_discards"; "sector_size:4096"; "integrity:32:aead"]%string
  = Some (0, None, demo_features)
  /\ features_valid 2048 demo_features.
Proof.
  split; [reflexivity|].
  exact (crypt_ctr_optional_leaves_valid_features 2048 true
           ["3"; "allow_discards"; "sector_size:4096"; "integrity:32:aead"]%string
           None demo_features eq_refl).
Defined.

(** ** The legacy cipher specification *)

Local Infix "+++" := String.append (at level 60, right associativity).

(** Modelled from the spec: [strsep] of the kernel's string library with a
    single delimiter. The token ends at the first delimiter, which is
    overwritten with NUL, and the string pointer is left after it, or NULL
    when there is no delimiter. *)
Fixpoint split_at (d : ascii) (s : Key.string)
  : option (Key.string * Key.string) :=
  match s with
  | String.EmptyString => None
  | String.String c s' =>
      if Ascii.eqb c d then Some (String.EmptyString, s')
      else match split_at d s' with
           | Some (a, b) => Some (String.String c a, b)
           | None => None
           end
  end.

Definition strsep (s : option Key.string) (d : ascii)
  : option Key.string * option Key.string :=
  match s with
  | None => (None, None)
  | Some str =>
      match split_at d str with
      | Some (tok, rest) => (Some tok, Some rest)
      | None => (Some str, None)
      end
  end.

(** [strchr(s, d) != NULL]. *)
Fixpoint has_char (d : ascii) (s : Key.string) : bool :=
  match s with
  | String.EmptyString => false
  | String.String c s' => Ascii.eqb c d || has_char d s'
  end.

Definition is_power_of_2 (n : Z) : bool :=
  negb (n =? 0) && (Z.land n (n - 1) =? 0).

(** From the crypto API's headers. *)
Definition CRYPTO_MAX_ALG_NAME : nat := 128.

Record cipher_env := {
  kstrdup_cipher_ok : bool;                  (* kstrdup(cipher) *)
  kmalloc_api_ok : bool;                     (* kmalloc(CRYPTO_MAX_ALG_NAME) *)
  crypt_alloc_tfms_ret : Key.string -> Z -> Z
                                             (* crypt_alloc_tfms on the API
                                                name, for so many transforms *)
}.

(** What [crypt_ctr_cipher_old] returns and leaves. *)
Record cipher_result := {
  c_ret : Z;
  c_error : option Key.string;
  c_tfms_count : Z;
  c_key_parts : Z;
  c_cipher : option Key.string;
  c_ivmode : option Key.string;
  c_ivopts : option Key.string;
  c_diskcipher : bool;                       (* CRYPT_MODE_DISKCIPHER *)
  c_cipher_api : option Key.string           (* what crypt_alloc_tfms is given *)
}.

Definition streq (a : option Key.string) (b : Key.string) : bool :=
  match a with Some x => String.eqb x b | None => false end.

(** [crypt_ctr_cipher_old] on a configuration as [crypt_ctr] allocates it
    ([tfms_count] and [key_parts] zero, no cipher). *)
Definition crypt_ctr_cipher_old (env : cipher_env) (integrity_aead : bool)
    (cipher_in : Key.string) : cipher_result :=
  if has_char "("%char cipher_in || integrity_aead then
    {| c_ret := - EINVAL; c_error := Some "Bad cipher specification"%string;
       c_tfms_count := 0; c_key_parts := 0; c_cipher := None;
       c_ivmode := None; c_ivopts := None; c_diskcipher := false;
       c_cipher_api := None |}
  else
    let '(keycount, tmp) := strsep (Some cipher_in) "-"%char in
    let '(cipher, keycount) := strsep keycount ":"%char in
    let '(tfms_count, count_ok) :=
      match keycount with
      | None => (1, true)
      | Some k =>
          match scan_uint k with
          | Some (n, rest) =>
              (wrap32 n,
               match rest with String.EmptyString => true | _ => false end
               && is_power_of_2 (wrap32 n))
          | None => (0, false)
          end
      end in
    if negb count_ok then
      {| c_ret := - EINVAL;
         c_error := Some "Bad cipher key count specification"%string;
         c_tfms_count := tfms_count; c_key_parts := 0; c_cipher := None;
         c_ivmode := None; c_ivopts := None; c_diskcipher := false;
         c_cipher_api := None |}
    else if negb (kstrdup_cipher_ok env) then
      {| c_ret := - ENOMEM; c_error := Some "Cannot allocate cipher strings"%string;
         c_tfms_count := tfms_count; c_key_parts := tfms_count; c_cipher := None;
         c_ivmode := None; c_ivopts := None; c_diskcipher := false;
         c_cipher_api := None |}
    else
      let '(chainmode, tmp) := strsep tmp "-"%char in
      let '(ivopts, tmp) := strsep tmp "-"%char in
      let '(ivmode, ivopts) := strsep ivopts ":"%char in
      let diskcipher := streq ivmode "disk"%string || streq ivmode "fmp"%string in
      let '(chainmode, ivmode) :=
        match chainmode, ivmode with
        | None, _ => ("cbc"%string, Some "plain"%string)
        | Some m, None =>
            if String.eqb m "plain"%string
            then ("cbc"%string, Some "plain"%string) else (m, None)
        | Some m, Some _ => (m, ivmode)
        end in
      if negb (String.eqb chainmode "ecb"%string)
         && match ivmode with None => true | Some _ => false end then
        {| c_ret := - EINVAL; c_error := Some "IV mechanism required"%string;
           c_tfms_count := tfms_count; c_key_parts := tfms_count;
           c_cipher := cipher; c_ivmode := ivmode; c_ivopts := ivopts;
           c_diskcipher := diskcipher; c_cipher_api := None |}
      else if negb (kmalloc_api_ok env) then
        {| c_ret := - ENOMEM;
           c_error := Some "Cannot allocate cipher strings"%string;
           c_tfms_count := tfms_count; c_key_parts := tfms_count;
           c_cipher := cipher; c_ivmode := ivmode; c_ivopts := ivopts;
           c_diskcipher := diskcipher; c_cipher_api := None |}
      else
        let cipher_api :=
          String.substring 0 (CRYPTO_MAX_ALG_NAME - 1)
            (chainmode +++ "(" +++
             match cipher with Some c => c | None => String.EmptyString end
             +++ ")") in
        let ret := crypt_alloc_tfms_ret env cipher_api tfms_count in
        if ret <? 0 then
          {| c_ret := ret; c_error := Some "Error allocating crypto tfm"%string;
             c_tfms_count := tfms_count; c_key_parts := tfms_count;
             c_cipher := cipher; c_ivmode := ivmode; c_ivopts := ivopts;
             c_diskcipher := diskcipher; c_cipher_api := Some cipher_api |}
        else
          {| c_ret := 0; c_error := None;
             c_tfms_count := tfms_count; c_key_parts := tfms_count;
             c_cipher := cipher; c_ivmode := ivmode; c_ivopts := ivopts;
             c_diskcipher := diskcipher; c_cipher_api := Some cipher_api |}.

(** The documented form, [cipher[:keycount]-chainmode-ivmode[:ivopts]]. *)
Definition legacy_spec (cipher : Key.string) (keycount : option Z)
    (chainmode ivmode : Key.string) (ivopts : option Key.string) : Key.string :=
  cipher
  +++ match keycount with
      | Some n => ":" +++ Key.decimal n
      | None => String.EmptyString
      end
  +++ "-" +++ chainmode +++ "-" +++ ivmode
  +++ match ivopts with
      | Some o => ":" +++ o
      | None => String.EmptyString
      end.

Lemma has_char_app (d : ascii) (a b : Key.string) :
  has_char d (a +++ b) = has_char d a || has_char d b.
Proof.
  induction a as [|c a IH]; cbn [String.append has_char]; [reflexivity|].
  rewrite IH. apply orb_assoc.
Qed.

Lemma split_at_none (d : ascii) (a : Key.string) :
  has_char d a = false -> split_at d a = None.
Proof.
  induction a as [|c a IH]; cbn [has_char split_at]; [reflexivity|].
  intro H. apply orb_false_iff in H as [H1 H2]. rewrite H1, (IH H2). reflexivity.
Qed.

Lemma split_at_app (d : ascii) (a b : Key.string) :
  has_char d a = false ->
  split_at d (a +++ String.String d b) = Some (a, b).
Proof.
  induction a as [|c a IH]; cbn [has_char split_at String.append].
  - intros _. now rewrite Ascii.eqb_refl.
  - intro H. apply orb_false_iff in H as [H1 H2]. rewrite H1, (IH H2). reflexivity.
Qed.

Lemma digits_lack (d : ascii) (s : Key.string) :
  Key.is_digit d = false -> Key.all_digits s = true -> has_char d s = false.
Proof.
  intro D. induction s as [|c s IH]; cbn [Key.all_digits has_char]; [reflexivity|].
  intro H. apply andb_prop in H as [H1 H2]. rewrite (IH H2), orb_false_r.
  destruct (Ascii.eqb_spec c d) as [->|]; [congruence|reflexivity].
Qed.

Lemma decimal_lacks (d : ascii) (n : Z) :
  Key.is_digit d = false -> 0 <= n -> has_char d (Key.decimal n) = false.
Proof.
  intros D H. apply digits_lack; [exact D|]. now apply Key.decimal_digits_all.
Qed.

(** [%u] reads back what [%u] printed. *)
Lemma scan_uint_decimal (n : Z) :
  0 <= n < 2 ^ 32 -> scan_uint (Key.decimal n) = Some (n, String.EmptyString).
Proof.
  intro H. unfold scan_uint.
  assert (B : 0 <= n < 10 ^ Z.of_nat 10).
  { change (10 ^ Z.of_nat 10) with 10000000000.
    change (2 ^ 32) with 4294967296 in H. lia. }
  destruct (Key.scan_decimal 9 n B) as [k [K0 S]]. fold (Key.decimal n) in S.
  pose proof (Key.decimal_digits_all 10 n (proj1 H)) as A.
  pose proof (Key.decimal_digits_nonempty 9 n) as NE.
  fold (Key.decimal n) in A, NE.
  assert (Sk : Key.skip_spaces (Key.decimal n) = Key.decimal n).
  { destruct (Key.decimal n) as [|c r]; [contradiction|].
    cbn [Key.all_digits] in A. apply andb_prop in A as [A1 _].
    now apply Key.skip_spaces_digit. }
  rewrite Sk. specialize (S 0 false String.EmptyString).
  rewrite Key.str_app_nil in S. rewrite S. cbn [Key.scan_digits].
  f_equal; f_equal; lia.
Qed.

(** X25. A legacy cipher specification of the documented form
    [cipher[:keycount]-chainmode-ivmode[:ivopts]], whose parts are free of
    the separators and whose key count is a power of two, is taken apart
    into exactly these parts by [crypt_ctr_cipher_old]: the key count
    becomes the number of transforms (one without a key count), the
    transforms are allocated under the API name [chainmode(cipher)], and
    the IV mode and its options are handed back to the caller; the disk
    cipher mode is chosen by the IV modes "disk" and "fmp" alone. *)
Theorem legacy_cipher_spec_is_parsed
    (env : cipher_env) (cipher chainmode ivmode : Key.string)
    (keycount : option Z) (ivopts : option Key.string)
    (Hcipher : has_char "-"%char cipher = false
               /\ has_char ":"%char cipher = false
               /\ has_char "("%char cipher = false)
    (Hchain : has_char "-"%char chainmode = false
              /\ has_char "("%char chainmode = false)
    (Hiv : has_char "-"%char ivmode = false
           /\ has_char ":"%char ivmode = false
           /\ has_char "("%char ivmode = false)
    (Hopts : forall o, ivopts = Some o ->
                       has_char "-"%char o = false /\ has_char "("%char o = false)
    (Hcount : forall n, keycount = Some n ->
                        0 <= n < 2 ^ 32 /\ is_power_of_2 n = true)
    (Hlen : (String.length chainmode + String.length cipher + 2
             < CRYPTO_MAX_ALG_NAME)%nat)
    (Hmem : kstrdup_cipher_ok env = true /\ kmalloc_api_ok env = true) :
  let r := crypt_ctr_cipher_old env false
             (legacy_spec cipher keycount chainmode ivmode ivopts) in
  let count := match keycount with Some n => n | None => 1 end in
  let api := chainmode +++ "(" +++ cipher +++ ")" in
  c_tfms_count r = count
  /\ c_key_parts r = count
  /\ c_cipher r = Some cipher
  /\ c_ivmode r = Some ivmode
  /\ c_ivopts r = ivopts
  /\ c_cipher_api r = Some api
  /\ c_diskcipher r
     = (String.eqb ivmode "disk"%string || String.eqb ivmode "fmp"%string)
  /\ c_ret r = (if crypt_alloc_tfms_ret env api count <? 0
                then crypt_alloc_tfms_ret env api count else 0).
Proof.
  destruct Hcipher as [C1 [C2 C3]]. destruct Hchain as [M1 M3].
  destruct Hiv as [I1 [I2 I3]]. destruct Hmem as [Mem1 Mem2].
  set (K := match keycount with
            | Some n => ":" +++ Key.decimal n
            | None => String.EmptyString
            end).
  set (O := match ivopts with
            | Some o => ":" +++ o
            | None => String.EmptyString
            end).
  assert (Kd : forall d, Key.is_digit d = false -> Ascii.eqb ":"%char d = false ->
                         has_char d K = false).
  { intros d D N. unfold K. destruct keycount as [n|]; [|reflexivity].
    cbn [String.append has_char]. rewrite N. cbn [orb].
    apply decimal_lacks; [exact D|]. destruct (Hcount n eq_refl). lia. }
  assert (Od : forall d, Ascii.eqb ":"%char d = false ->
                 (forall o, ivopts = Some o -> has_char d o = false) ->
                 has_char d O = false).
  { intros d N Ho. unfold O. destruct ivopts as [o|]; [|reflexivity].
    cbn [String.append has_char]. rewrite N. cbn [orb]. now apply Ho. }
  assert (O1 : has_char "-"%char O = false)
    by (apply Od; [reflexivity|intros o Ho; now destruct (Hopts o Ho)]).
  assert (O3 : has_char "("%char O = false)
    by (apply Od; [reflexivity|intros o Ho; now destruct (Hopts o Ho)]).
  assert (Spec : legacy_spec cipher keycount chainmode ivmode ivopts
                 = (cipher +++ K)
                   +++ String.String "-"%char
                         (chainmode +++ String.String "-"%char (ivmode +++ O))).
  { unfold legacy_spec. fold K. fold O. rewrite Key.str_app_assoc. reflexivity. }
  assert (Paren : has_char "("%char
                    (legacy_spec cipher keycount chainmode ivmode ivopts) = false).
  { rewrite Spec. rewrite !has_char_app. cbn [has_char].
    rewrite !has_char_app. cbn [has_char]. rewrite !has_char_app.
    rewrite C3, M3, I3, O3, (Kd "("%char eq_refl eq_refl). reflexivity. }
  assert (E1 : strsep (Some (legacy_spec cipher keycount chainmode ivmode ivopts))
                 "-"%char
               = (Some (cipher +++ K),
                  Some (chainmode +++ String.String "-"%char (ivmode +++ O)))).
  { rewrite Spec. unfold strsep. rewrite split_at_app; [reflexivity|].
    rewrite has_char_app, C1, (Kd "-"%char eq_refl eq_refl). reflexivity. }
  assert (E2 : strsep (Some (cipher +++ K)) ":"%char
               = (Some cipher,
                  match keycount with
                  | Some n => Some (Key.decimal n)
                  | None => None
                  end)).
  { unfold strsep, K. destruct keycount as [n|].
    - cbn [String.append]. rewrite split_at_app by exact C2. reflexivity.
    - rewrite Key.str_app_nil, split_at_none by exact C2. reflexivity. }
  assert (E4 : strsep (Some (chainmode +++ String.String "-"%char (ivmode +++ O)))
                 "-"%char
               = (Some chainmode, Some (ivmode +++ O))).
  { unfold strsep. rewrite split_at_app by exact M1. reflexivity. }
  assert (E5 : strsep (Some (ivmode +++ O)) "-"%char
               = (Some (ivmode +++ O), None)).
  { unfold strsep. rewrite split_at_none; [reflexivity|].
    now rewrite has_char_app, I1, O1. }
  assert (E6 : strsep (Some (ivmode +++ O)) ":"%char = (Some ivmode, ivopts)).
  { unfold strsep, O. destruct ivopts as [o|].
    - cbn [String.append]. rewrite split_at_app by exact I2. reflexivity.
    - rewrite Key.str_app_nil, split_at_none by exact I2. reflexivity. }
  assert (Count : match keycount with
                  | Some n =>
                      match scan_uint (Key.decimal n) with
                      | Some (v, rest) =>
                          (wrap32 v,
                           match rest with
                           | String.EmptyString => true
                           | _ => false
                           end && is_power_of_2 (wrap32 v))
                      | None => (0, false)
                      end
                  | None => (1, true)
                  end
                  = (match keycount with Some n => n | None => 1 end, true)).
  { destruct keycount as [n|]; [|reflexivity].
    destruct (Hcount n eq_refl) as [R P2].
    rewrite scan_uint_decimal by exact R.
    unfold wrap32. rewrite Z.mod_small by exact R. rewrite P2. reflexivity. }
  cbv zeta. unfold crypt_ctr_cipher_old.
  rewrite Paren. cbn [orb]. rewrite E1. cbv beta iota. rewrite E2. cbv beta iota.
  assert (Count' :
    match match keycount with
          | Some n => Some (Key.decimal n)
          | None => None
          end with
    | Some k =>
        match scan_uint k with
        | Some (v, rest) =>
            (wrap32 v,
             match rest with
             | String.EmptyString => true
             | _ => false
             end && is_power_of_2 (wrap32 v))
        | None => (0, false)
        end
    | None => (1, true)
    end = (match keycount with Some n => n | None => 1 end, true)).
  { rewrite <- Count. now destruct keycount. }
  rewrite Count'. cbv beta iota. cbn [negb]. rewrite Mem1. cbn [negb].
  rewrite E4. cbv beta iota. rewrite E5. cbv beta iota. rewrite E6.
  cbv beta iota. rewrite Mem2. cbn [negb andb]. rewrite andb_false_r.
  rewrite Key.substring_whole.
  2:{ rewrite !Key.str_app_length. cbn [String.length]. unfold CRYPTO_MAX_ALG_NAME in *.
      lia. }
  cbn [streq].
  destruct (crypt_alloc_tfms_ret env _ _ <? 0);
    cbn [c_tfms_count c_key_parts c_cipher c_ivmode c_ivopts c_cipher_api
         c_diskcipher c_ret]; repeat split.
Qed.

(** Every allocation succeeds. *)
Definition all_ok : cipher_env :=
  {| kstrdup_cipher_ok := true; kmalloc_api_ok := true;
     crypt_alloc_tfms_ret := fun _ _ => 0 |}.

Lemma legacy_cipher_spec_is_parsed_witness :
  let r := crypt_ctr_cipher_old all_ok false "aes:64-cbc-lmk"%string in
  c_ret r = 0 /\ c_tfms_count r = 64
  /\ c_cipher_api r = Some "cbc(aes)"%string
  /\ c_ivmode r = Some "lmk"%string /\ c_ivopts r = None.
Proof.
  assert (H := legacy_cipher_spec_is_parsed all_ok "aes"%string "cbc"%string
                 "lmk"%string (Some 64) None
                 (conj eq_refl (conj eq_refl eq_refl)) (conj eq_refl eq_refl)
                 (conj eq_refl (conj eq_refl eq_refl))).
  cbv zeta in H.
  destruct H as [A [_ [_ [D [E [F [_ G]]]]]]].
  - intros o Ho. discriminate Ho.
  - intros n Hn. injection Hn as <-. split; [lia|reflexivity].
  - unfold CRYPTO_MAX_ALG_NAME. cbn. lia.
  - split; reflexivity.
  - cbv zeta. repeat split; assumption.
Defined.

(** ** The block cipher's name *)

(** [crypt_ctr_blkdev_cipher]: the value returned and [cc->cipher].
    [alg_name] is what [crypto_tfm_alg_name] gives. [None]: the name is
    read past its end. *)
Definition crypt_ctr_blkdev_cipher (integrity_aead integrity_hmac : bool)
    (alg_name : option Key.string) (alloc_ok : bool)
  : option (Z * option Key.string) :=
  let parse (name : Key.string) : option (Z * option Key.string) :=
    match split_at "("%char name, split_at ")"%char name with
    | None, None =>
        if alloc_ok then Some (0, Some name) else Some (- ENOMEM, None)
    | Some (before_open, _), Some (before_close, _) =>
        let start := S (String.length before_open) in
        let stop := String.length before_close in
        if (stop <=? start)%nat then Some (- EINVAL, None)
        else if alloc_ok then
          Some (0, Some (String.substring start (stop - start) name))
        else Some (- ENOMEM, None)
    | _, _ => Some (- EINVAL, None)
    end in
  match alg_name with
  | None => Some (- EINVAL, None)
  | Some name =>
      if integrity_aead then
        if integrity_hmac then
          match split_at ","%char name with
          | None => Some (- EINVAL, None)
          | Some (_, after) => parse after
          end
        else
          match name with
          | String.EmptyString => None
          | String.String _ rest => parse rest
          end
      else parse name
  end.

Lemma substring_skip (a b : Key.string) (n : nat) :
  String.substring (String.length a) n (a +++ b) = String.substring 0 n b.
Proof. induction a as [|c a IH]; cbn; [reflexivity|exact IH]. Qed.

Lemma substring_prefix (a b : Key.string) :
  String.substring 0 (String.length a) (a +++ b) = a.
Proof.
  induction a as [|c a IH]; cbn; [now destruct b|now rewrite IH].
Qed.

(** X26. From an algorithm name of the form [mode(cipher)], as the crypto
    API names block cipher modes, [crypt_ctr_blkdev_cipher] stores exactly
    [cipher]; with an authenticated key it does so from the part of
    [authenc(mac,mode(cipher))] after the comma. An empty pair of
    parentheses is refused with [-EINVAL], and a name without parentheses
    is stored whole. *)
Theorem blkdev_cipher_is_taken_from_the_parentheses
    (mode cipher mac : Key.string)
    (Hmode : has_char "("%char mode = false /\ has_char ")"%char mode = false)
    (Hcipher : has_char "("%char cipher = false
               /\ has_char ")"%char cipher = false)
    (Hmac : has_char ","%char mac = false) :
  crypt_ctr_blkdev_cipher false false (Some (mode +++ "(" +++ cipher +++ ")")) true
  = Some (if (String.length cipher =? 0)%nat then (- EINVAL, None)
          else (0, Some cipher))
  /\ crypt_ctr_blkdev_cipher true true
       (Some ("authenc(" +++ mac +++ "," +++ mode +++ "(" +++ cipher +++ "))"))
       true
     = Some (if (String.length cipher =? 0)%nat then (- EINVAL, None)
             else (0, Some cipher))
  /\ crypt_ctr_blkdev_cipher false false (Some mode) true = Some (0, Some mode).
Proof.
  destruct Hmode as [M1 M2]. destruct Hcipher as [C1 C2].
  assert (Parse : forall tail,
    match split_at "("%char (mode +++ "(" +++ cipher +++ String.String ")"%char tail),
          split_at ")"%char (mode +++ "(" +++ cipher +++ String.String ")"%char tail)
    with
    | None, None =>
        Some (0, Some (mode +++ "(" +++ cipher +++ String.String ")"%char tail))
    | Some (before_open, _), Some (before_close, _) =>
        if (String.length before_close <=? S (String.length before_open))%nat
        then Some (- EINVAL, None)
        else Some (0, Some (String.substring (S (String.length before_open))
                              (String.length before_close
                               - S (String.length before_open))
                              (mode +++ "(" +++ cipher
                               +++ String.String ")"%char tail)))
    | _, _ => Some (- EINVAL, None)
    end
    = Some (if (String.length cipher =? 0)%nat then (- EINVAL, None)
            else (0, Some cipher))).
  { intro tail.
    change (mode +++ "(" +++ cipher +++ String.String ")"%char tail)
      with (mode +++ String.String "("%char
                       (cipher +++ String.String ")"%char tail)) at 1.
    rewrite (split_at_app "("%char mode) by exact M1.
    replace (mode +++ "(" +++ cipher +++ String.String ")"%char tail)
      with ((mode +++ "(" +++ cipher) +++ String.String ")"%char tail) at 1.
    2:{ rewrite !Key.str_app_assoc. reflexivity. }
    rewrite (split_at_app ")"%char).
    2:{ rewrite !has_char_app. cbn [has_char]. rewrite M2, C2. reflexivity. }
    rewrite !Key.str_app_length. cbn [String.length].
    destruct (String.length cipher) as [|n] eqn:L.
    - match goal with
      | |- context [(?a <=? ?b)%nat] => destruct (Nat.leb_spec a b)
      end; [reflexivity|lia].
    - match goal with
      | |- context [(?a <=? ?b)%nat] => destruct (Nat.leb_spec a b)
      end; [lia|]. cbn [Nat.eqb]. do 3 f_equal.
      replace (mode +++ "(" +++ cipher +++ String.String ")"%char tail)
        with ((mode +++ "(") +++ cipher +++ String.String ")"%char tail)
        by (rewrite !Key.str_app_assoc; reflexivity).
      replace (S (String.length mode)) with (String.length (mode +++ "("))
        by (rewrite Key.str_app_length; cbn; lia).
      rewrite substring_skip.
      match goal with
      | |- String.substring 0 ?k _ = _ =>
          replace k with (String.length cipher)
            by (rewrite L, Key.str_app_length; cbn; lia)
      end.
      apply substring_prefix. }
  split; [|split].
  - unfold crypt_ctr_blkdev_cipher. apply (Parse String.EmptyString).
  - unfold crypt_ctr_blkdev_cipher.
    change ("authenc(" +++ mac +++ "," +++ mode +++ "(" +++ cipher +++ "))")
      with ("authenc(" +++ mac
            +++ String.String ","%char (mode +++ "(" +++ cipher +++ "))")).
    replace ("authenc(" +++ mac
             +++ String.String ","%char (mode +++ "(" +++ cipher +++ "))"))
      with (("authenc(" +++ mac)
            +++ String.String ","%char (mode +++ "(" +++ cipher +++ "))"))
      by (rewrite !Key.str_app_assoc; reflexivity).
    rewrite (split_at_app ","%char).
    2:{ rewrite has_char_app, Hmac. reflexivity. }
    apply (Parse ")"%string).
  - unfold crypt_ctr_blkdev_cipher.
    rewrite (split_at_none "("%char) by exact M1.
    rewrite (split_at_none ")"%char) by exact M2. reflexivity.
Qed.

Lemma blkdev_cipher_is_taken_from_the_parentheses_witness :
  crypt_ctr_blkdev_cipher false false (Some "xts(aes)"%string) true
  = Some (0, Some "aes"%string)
  /\ crypt_ctr_blkdev_cipher true true
       (Some "authenc(hmac(sha256),cbc(aes))"%string) true
     = Some (0, Some "aes"%string).
Proof.
  destruct (blkdev_cipher_is_taken_from_the_parentheses
              "xts"%string "aes"%string "hmac(sha256)"%string
              (conj eq_refl eq_refl) (conj eq_refl eq_refl) eq_refl)
    as [A _].
  destruct (blkdev_cipher_is_taken_from_the_parentheses
              "cbc"%string "aes"%string "hmac(sha256)"%string
              (conj eq_refl eq_refl) (conj eq_refl eq_refl) eq_refl)
    as [_ [B _]].
  split; [exact A|exact B].
Defined.

End Ctr.
